(** * Scrynt analytics engine: a shallow embedding of the scoring,
      risk, correlation and dividend computations of the frontend.

    JavaScript numbers are IEEE 754 binary64 values, which is what Rocq's
    primitive [float] is (one NaN, round to nearest even), so the program
    is embedded over [float] and runs under [vm_compute].  The three
    arithmetic kernels ([normalizeMetric], [calculatePearsonCorrelation],
    [computeSharpeRatio]) are written once over an interface of number
    operations and read twice: over [float], which is the code as it runs,
    and over the real numbers, which is the arithmetic the specification
    talks about when it says "for all real v, min, max". *)

From Stdlib Require Import ZArith String List Bool Lia PeanoNat.
From Stdlib Require Import Permutation Sorted.
From Stdlib Require Import Reals Lra.
From Stdlib Require Import Floats DecimalString.
Import ListNotations.

Set Warnings "-inexact-float".

(* ================================================================== *)
(** * Numbers *)

(** The operations on numbers the analytics code uses. *)
Class JsNumber (T : Type) := {
  num_of_nat : nat -> T;        (* an array length, or an integer literal *)
  num_dec : Z -> nat -> T;      (* the decimal literal m * 10^-k *)
  nadd : T -> T -> T;
  nsub : T -> T -> T;
  nmul : T -> T -> T;
  ndiv : T -> T -> T;
  nsqrt : T -> T;               (* Math.sqrt *)
  nltb : T -> T -> bool;        (* < *)
  neqb : T -> T -> bool;        (* === on two numbers *)
  nundef : T                    (* what arithmetic makes of [undefined] *)
}.

Declare Scope js_scope.
Delimit Scope js_scope with js.
Infix "+" := nadd : js_scope.
Infix "-" := nsub : js_scope.
Infix "*" := nmul : js_scope.
Infix "/" := ndiv : js_scope.
Infix "<?" := nltb : js_scope.
Infix "===" := neqb (at level 70, no associativity) : js_scope.

(** binary64: the numbers of the running program. *)
Definition float_of_nat (n : nat) : float :=
  PrimFloat.of_uint63 (Uint63.of_Z (Z.of_nat n)).

Definition float_of_Z (z : Z) : float :=
  match z with
  | Z0 => 0%float
  | Zpos _ => PrimFloat.of_uint63 (Uint63.of_Z z)
  | Zneg p => (- PrimFloat.of_uint63 (Uint63.of_Z (Zpos p)))%float
  end.

#[export] Instance F64 : JsNumber float := {
  num_of_nat := float_of_nat;
  num_dec m k := (float_of_Z m / float_of_nat (10 ^ k))%float;
  nadd := PrimFloat.add;
  nsub := PrimFloat.sub;
  nmul := PrimFloat.mul;
  ndiv := PrimFloat.div;
  nsqrt := PrimFloat.sqrt;
  nltb := PrimFloat.ltb;
  neqb := PrimFloat.eqb;
  nundef := nan
}.

(** Exact arithmetic: the same operations over the reals.  The reals have
    no NaN; [nundef] is a placeholder that no statement below reaches (it
    would be read only past the end of an array). *)
#[export] Instance Exact : JsNumber R := {
  num_of_nat := INR;
  num_dec m k := (IZR m / IZR (10 ^ Z.of_nat k))%R;
  nadd := Rplus;
  nsub := Rminus;
  nmul := Rmult;
  ndiv := Rdiv;
  nsqrt := R_sqrt.sqrt;
  nltb x y := if Rlt_dec x y then true else false;
  neqb x y := if Req_dec_T x y then true else false;
  nundef := 0%R
}.

(* ================================================================== *)
(** * Arithmetic kernels *)

Section Kernels.
Context {T : Type} `{JsNumber T}.
Local Open Scope js_scope.

(** [arr.reduce((acc, curr, i) => f(acc, curr, i), init)] *)
Fixpoint reduce_from {A B : Type} (f : B -> A -> nat -> B)
         (i : nat) (arr : list A) (acc : B) : B :=
  match arr with
  | [] => acc
  | curr :: rest => reduce_from f (S i) rest (f acc curr i)
  end.

Definition reduce {A B : Type} (f : B -> A -> nat -> B) (arr : list A) (init : B) : B :=
  reduce_from f 0 arr init.

(** [arr[i]] read as a number *)
Definition at_index (arr : list T) (i : nat) : T := nth i arr nundef.

(** [Math.pow(x, 2)], taken as the product [x * x]. *)
Definition Math_pow2 (x : T) : T := x * x.

(** CompositeScoreView: [normalizeMetric] *)
Definition normalizeMetric (value min max : T) : T :=
  ((value - min) / (max - min)) * num_of_nat 100.

(** CorrelationClusteringView: [calculatePearsonCorrelation] *)
Definition calculatePearsonCorrelation (x y : list T) : T :=
  let n := num_of_nat (length x) in
  let sum_x := reduce (fun a b _ => a + b) x (num_of_nat 0) in
  let sum_y := reduce (fun a b _ => a + b) y (num_of_nat 0) in
  let sum_xy := reduce (fun acc curr i => acc + curr * at_index y i) x (num_of_nat 0) in
  let sum_x2 := reduce (fun a b _ => a + b * b) x (num_of_nat 0) in
  let sum_y2 := reduce (fun a b _ => a + b * b) y (num_of_nat 0) in
  let numerator := n * sum_xy - sum_x * sum_y in
  let denominator :=
    nsqrt ((n * sum_x2 - sum_x * sum_x) * (n * sum_y2 - sum_y * sum_y)) in
  if denominator === num_of_nat 0 then num_of_nat 0 else numerator / denominator.

(** financialMetrics: [computeSharpeRatio]; [None] is [null] *)
Definition computeSharpeRatio (returns : list T) (riskFreeRate : T) : option T :=
  if Nat.eqb (length returns) 0 then None else
  let periodicRiskFreeRate := riskFreeRate / num_of_nat 12 in
  let excessReturns := map (fun r => r - periodicRiskFreeRate) returns in
  let avgExcessReturn :=
    reduce (fun a b _ => a + b) excessReturns (num_of_nat 0)
    / num_of_nat (length excessReturns) in
  let squaredDiffs := map (fun r => Math_pow2 (r - avgExcessReturn)) excessReturns in
  let variance :=
    reduce (fun a b _ => a + b) squaredDiffs (num_of_nat 0)
    / (num_of_nat (length excessReturns) - num_of_nat 1) in
  let stdDev := nsqrt variance in
  if stdDev <? num_dec 1 4 then None
  else Some ((avgExcessReturn / stdDev) * nsqrt (num_of_nat 12)).

(** The default of the [riskFreeRate] parameter, [0.05]. *)
Definition defaultRiskFreeRate : T := num_dec 5 2.
End Kernels.


(* ================================================================== *)
(** * JavaScript values and built-ins used by the views *)

(** [ToNumber] of a nullable numeric field: [null] becomes [+0]. *)
Definition ToNumber (v : option float) : float :=
  match v with
  | Some x => x
  | None => 0%float
  end.

(** [v !== null] *)
Definition notNull {A : Type} (v : option A) : bool :=
  match v with
  | Some _ => true
  | None => false
  end.

Definition is_neg_zero (x : float) : bool :=
  match classify x with
  | NZero => true
  | _ => false
  end.

Definition is_pos_zero (x : float) : bool :=
  match classify x with
  | PZero => true
  | _ => false
  end.

(** [Math.min(...values)]: NaN if any value is NaN, [+Infinity] for no
    value, and [-0] below [+0]. *)
Definition Math_min (values : list float) : float :=
  if existsb is_nan values then nan
  else fold_left
         (fun lowest number =>
            if is_neg_zero number && is_pos_zero lowest then number
            else if (number <? lowest)%float then number else lowest)
         values infinity.

(** [Math.max(...values)] *)
Definition Math_max (values : list float) : float :=
  if existsb is_nan values then nan
  else fold_left
         (fun highest number =>
            if is_pos_zero number && is_neg_zero highest then number
            else if (highest <? number)%float then number else highest)
         values neg_infinity.

(** [arr.slice(start, end)] for [start <= end] *)
Definition slice {A : Type} (arr : list A) (start stop : nat) : list A :=
  firstn (stop - start) (skipn start arr).

(** [arr.sort(compareFn)]: the sort is stable, and a comparator result
    that is NaN counts as [+0].  With a consistent comparator every
    stable sort returns the same array, the one built here by insertion:
    [insert_sorted] places an element that came first in the array before
    every element it does not have to follow.  With an inconsistent
    comparator (NaN against numbers) the order is left to the engine, and
    nothing below uses more than that the result is a rearrangement. *)
Fixpoint insert_sorted {A : Type} (compareFn : A -> A -> float) (x : A) (sorted : list A) : list A :=
  match sorted with
  | [] => [x]
  | y :: rest =>
      if (0 <? compareFn x y)%float then y :: insert_sorted compareFn x rest
      else x :: y :: rest
  end.

Definition Array_sort {A : Type} (compareFn : A -> A -> float) (arr : list A) : list A :=
  fold_right (insert_sorted compareFn) [] arr.

(** A [Map], or the own properties of a plain object, keyed by strings:
    the list of the entries in insertion order. *)
Definition entries (V : Type) : Type := list (string * V).

Fixpoint obj_get {V : Type} (o : entries V) (key : string) : option V :=
  match o with
  | [] => None
  | (k, v) :: rest => if String.eqb k key then Some v else obj_get rest key
  end.

Fixpoint obj_set {V : Type} (o : entries V) (key : string) (v : V) : entries V :=
  match o with
  | [] => [(key, v)]
  | (k, v') :: rest =>
      if String.eqb k key then (k, v) :: rest else (k, v') :: obj_set rest key v
  end.

(** What a plain object [{}] inherits: the names of the members of
    [Object.prototype].  Reading one of these keys from an object that has
    no own entry under it yields the inherited member, a function (for
    [__proto__], the prototype itself), never [undefined]. *)
Definition Object_prototype_keys : list string :=
  [ "constructor"; "__defineGetter__"; "__defineSetter__"; "hasOwnProperty";
    "__lookupGetter__"; "__lookupSetter__"; "isPrototypeOf";
    "propertyIsEnumerable"; "toString"; "valueOf"; "__proto__";
    "toLocaleString" ]%string.

Definition inherited (key : string) : bool :=
  existsb (String.eqb key) Object_prototype_keys.

(** A key that is an array index: the canonical decimal form of an
    integer from 0 to 2^32 - 2. *)
Definition arrayIndex (key : string) : option N :=
  match NilZero.uint_of_string key with
  | Some digits =>
      let n := N.of_uint digits in
      if String.eqb (NilEmpty.string_of_uint (N.to_uint n)) key && (n <? 4294967295)%N
      then Some n
      else None
  | None => None
  end.

Fixpoint insertIndexed {V : Type} (i : N) (entry : string * V)
         (indexed : list (N * (string * V))) : list (N * (string * V)) :=
  match indexed with
  | [] => [(i, entry)]
  | (j, e) :: rest =>
      if (i <? j)%N then (i, entry) :: indexed else (j, e) :: insertIndexed i entry rest
  end.

(** [Object.entries(o)] of a plain object: the entries whose key is an
    array index come first, in ascending order of the index, and the
    other entries follow in insertion order. *)
Definition Object_entries {V : Type} (o : entries V) : list (string * V) :=
  map snd
      (fold_right
         (fun entry indexed =>
            match arrayIndex (fst entry) with
            | Some i => insertIndexed i entry indexed
            | None => indexed
            end)
         [] o)
  ++ filter (fun entry => match arrayIndex (fst entry) with
                          | Some _ => false
                          | None => true
                          end) o.

(** [row[key] = v] for a number [v] on a plain object: [__proto__] is the
    accessor inherited from [Object.prototype], and its setter ignores a
    value that is not an object; every other key becomes an own entry. *)
Definition setNumber (row : entries float) (key : string) (v : float) : entries float :=
  if String.eqb key "__proto__" then row else obj_set row key v.

(** Template-literal rendering of a non-negative integer. *)
Definition string_of_nat (n : nat) : string :=
  NilEmpty.string_of_uint (Nat.to_uint n).

(* ================================================================== *)
(** * services/stockService: the stock record *)

Module stockService.
(** Every numeric field is nullable ([None] is [null]). *)
Record StockData := {
  ticker : string;
  name : string;
  sector : string;
  price : option float;
  market_cap : option float;
  change_1w : option float;
  change_1m : option float;
  change_6m : option float;
  change_ytd : option float;
  change_1y : option float;
  change_3y : option float;
  dividend_yield : option float;
  dividend_growth : option float;
  payout_ratio : option float;
  peg_ratio : option float;
  pb_ratio : option float;
  pe_forward : option float;
  eps_growth_3y : option float;
  revenue_growth_3y : option float;
  roe : option float;
  roa : option float;
  beta : option float
}.
End stockService.
Module S := stockService.

(* ================================================================== *)
(** * components/analytics/CompositeScoreView *)

Module CompositeScoreView.
Local Open Scope float_scope.

Record ScoreComponents := {
  value : float;
  growth : float;
  quality : float;
  momentum : float;
  stability : float
}.

Record CompositeScore := {
  ticker : string;
  sector : string;
  totalScore : float;
  components : ScoreComponents
}.

Record MinMax := { min : float; max : float }.

(** The cohort's [metrics] table. *)
Record Metrics := {
  pe : MinMax;
  pb : MinMax;
  peg : MinMax;
  epsGrowth : MinMax;
  revGrowth : MinMax;
  roe : MinMax;
  roa : MinMax;
  momentum_range : MinMax   (* [metrics.momentum] *)
}.

(** The predicate of [stocks.filter(...)] that builds [validStocks]. *)
Definition isValid (stock : S.StockData) : bool :=
  notNull (S.pe_forward stock) &&
  notNull (S.pb_ratio stock) &&
  notNull (S.peg_ratio stock) &&
  notNull (S.eps_growth_3y stock) &&
  notNull (S.revenue_growth_3y stock) &&
  notNull (S.roe stock) &&
  notNull (S.roa stock) &&
  notNull (S.change_1y stock) &&
  notNull (S.beta stock).

Definition range (field : S.StockData -> option float) (validStocks : list S.StockData) : MinMax :=
  {| min := Math_min (map (fun s => ToNumber (field s)) validStocks);
     max := Math_max (map (fun s => ToNumber (field s)) validStocks) |}.

Definition cohortMetrics (validStocks : list S.StockData) : Metrics :=
  {| pe := range S.pe_forward validStocks;
     pb := range S.pb_ratio validStocks;
     peg := range S.peg_ratio validStocks;
     epsGrowth := range S.eps_growth_3y validStocks;
     revGrowth := range S.revenue_growth_3y validStocks;
     roe := range S.roe validStocks;
     roa := range S.roa validStocks;
     momentum_range := range S.change_1y validStocks |}.

(** The body of [validStocks.map(stock => ...)]. *)
Definition scoreStock (metrics : Metrics) (stock : S.StockData) : CompositeScore :=
  let valueScore :=
    ((100 - normalizeMetric (ToNumber (S.pe_forward stock)) (min (pe metrics)) (max (pe metrics))) +
     (100 - normalizeMetric (ToNumber (S.pb_ratio stock)) (min (pb metrics)) (max (pb metrics))) +
     (100 - normalizeMetric (ToNumber (S.peg_ratio stock)) (min (peg metrics)) (max (peg metrics))))
    / 3 in
  let growthScore :=
    (normalizeMetric (ToNumber (S.eps_growth_3y stock)) (min (epsGrowth metrics)) (max (epsGrowth metrics)) +
     normalizeMetric (ToNumber (S.revenue_growth_3y stock)) (min (revGrowth metrics)) (max (revGrowth metrics)))
    / 2 in
  let qualityScore :=
    (normalizeMetric (ToNumber (S.roe stock)) (min (roe metrics)) (max (roe metrics)) +
     normalizeMetric (ToNumber (S.roa stock)) (min (roa metrics)) (max (roa metrics)))
    / 2 in
  let momentumScore :=
    normalizeMetric (ToNumber (S.change_1y stock)) (min (momentum_range metrics)) (max (momentum_range metrics)) in
  let stabilityScore := 100 - abs (ToNumber (S.beta stock) - 1) * 50 in
  let components :=
    {| value := valueScore;
       growth := growthScore;
       quality := qualityScore;
       momentum := momentumScore;
       stability := stabilityScore |} in
  let totalScore :=
    valueScore * 0.25 +
    growthScore * 0.25 +
    qualityScore * 0.20 +
    momentumScore * 0.15 +
    stabilityScore * 0.15 in
  {| ticker := S.ticker stock;
     sector := S.sector stock;
     totalScore := totalScore;
     components := components |}.

(** The comparator of the final [.sort(...)]. *)
Definition byTotalScoreDesc (a b : CompositeScore) : float :=
  totalScore b - totalScore a.

Definition calculateCompositeScores (stocks : list S.StockData) : list CompositeScore :=
  let validStocks := filter isValid stocks in
  let metrics := cohortMetrics validStocks in
  Array_sort byTotalScoreDesc (map (scoreStock metrics) validStocks).
End CompositeScoreView.

(* ================================================================== *)
(** * components/analytics/CorrelationClusteringView *)

Module CorrelationClusteringView.
Local Open Scope float_scope.

Record ClusterData := {
  name : string;
  sector : string;
  stocks : list string;
  avg_correlation : float;
  risk_score : float
}.

(** The reducer that groups the batch by sector:
    [if (!acc[stock.sector]) acc[stock.sector] = []; acc[stock.sector].push(stock)].
    [acc] is a plain object.  When the sector has no own entry and is the
    name of a member of [Object.prototype], [acc[stock.sector]] is that
    member: it is truthy, so no array is stored, and it has no [push], so
    the call throws a TypeError ([None]). *)
Definition groupStep (acc : entries (list S.StockData)) (stock : S.StockData)
  : option (entries (list S.StockData)) :=
  match obj_get acc (S.sector stock) with
  | Some members => Some (obj_set acc (S.sector stock) (members ++ [stock]))
  | None =>
      if inherited (S.sector stock) then None
      else Some (obj_set acc (S.sector stock) [stock])
  end.

(** [stocks.reduce(..., acc)]: the first step that throws ends the call. *)
Fixpoint groupFrom (acc : entries (list S.StockData)) (stocks : list S.StockData)
  : option (entries (list S.StockData)) :=
  match stocks with
  | [] => Some acc
  | stock :: rest =>
      match groupStep acc stock with
      | Some acc' => groupFrom acc' rest
      | None => None
      end
  end.

Definition stocksBySector (stocks : list S.StockData) : option (entries (list S.StockData)) :=
  groupFrom [] stocks.

(** The five-point return vector of a stock; a [null] entry is read as
    [+0] by the arithmetic of [calculatePearsonCorrelation]. *)
Definition returnsOf (stock : S.StockData) : list float :=
  [ ToNumber (S.change_1w stock);
    ToNumber (S.change_1m stock);
    ToNumber (S.change_6m stock);
    ToNumber (S.change_ytd stock);
    ToNumber (S.change_1y stock) ].

(** The [correlations] table of one sector, a plain object of plain
    objects keyed by ticker twice.  The row of [stock1] is the object
    stored by [correlations[stock1.ticker] = {}] and filled through
    [correlations[stock1.ticker][stock2.ticker] = ...]. *)
Definition correlationRow (stock1 : S.StockData) (sectorStocks : list S.StockData)
  : entries float :=
  fold_left
    (fun row stock2 =>
       if String.eqb (S.ticker stock1) (S.ticker stock2)
       then setNumber row (S.ticker stock2) 1
       else setNumber row (S.ticker stock2)
              (calculatePearsonCorrelation (returnsOf stock1) (returnsOf stock2)))
    sectorStocks [].

(** Assigning an object to [correlations['__proto__']] makes it the
    prototype of [correlations], and reading [correlations['__proto__']]
    gives it back: the entry kept under that key here stands for the
    prototype.  Every other ticker is an own entry. *)
Definition correlationTable (sectorStocks : list S.StockData) : entries (entries float) :=
  fold_left
    (fun correlations stock1 =>
       obj_set correlations (S.ticker stock1) (correlationRow stock1 sectorStocks))
    sectorStocks [].

(** [correlations[t1][t2]] as [totalCorr += ...] reads it, for tickers of
    the sector.  Under [__proto__] a row holds no number: the read yields
    [Object.prototype], adding it turns [totalCorr] into a string, and the
    division that follows turns that string into NaN, which is also what
    adding NaN leads to. *)
Definition lookupCorrelation (correlations : entries (entries float)) (t1 t2 : string) : float :=
  match obj_get correlations t1 with
  | Some row =>
      if String.eqb t2 "__proto__" then nan
      else match obj_get row t2 with
           | Some c => c
           | None => nan
           end
  | None => nan
  end.

(** The nested [forEach] over a cluster: the sum and the number of the
    correlations of the pairs [idx1 < idx2]. *)
Definition pairTotals (correlations : entries (entries float)) (clusterStocks : list S.StockData)
  : float * nat :=
  reduce
    (fun acc stock1 idx1 =>
       reduce
         (fun acc stock2 idx2 =>
            if Nat.ltb idx1 idx2
            then (fst acc + lookupCorrelation correlations (S.ticker stock1) (S.ticker stock2),
                  S (snd acc))
            else acc)
         clusterStocks acc)
    clusterStocks (0, 0%nat).

Definition clusterSize : nat := 5.

(** One pass of the body of the [for] loop, at index [i]: [None] when the
    slice is skipped by [continue]. *)
Definition clusterAt (sector : string) (sectorStocks : list S.StockData)
           (correlations : entries (entries float)) (i : nat) : option ClusterData :=
  let clusterStocks := slice sectorStocks i (i + clusterSize) in
  if Nat.ltb (length clusterStocks) 2 then None
  else
    let '(totalCorr, corrCount) := pairTotals correlations clusterStocks in
    let avgCorrelation :=
      if Nat.ltb 0 corrCount then totalCorr / float_of_nat corrCount else 0 in
    let riskScore := Math_min [100; avgCorrelation * 100] in
    Some {| name := sector ++ " Cluster " ++ string_of_nat (i / clusterSize + 1);
            sector := sector;
            stocks := map S.ticker clusterStocks;
            avg_correlation := avgCorrelation;
            risk_score := riskScore |}.

(** [for (let i = 0; i < sectorStocks.length; i += clusterSize)], with the
    number of passes still allowed as [fuel]. *)
Fixpoint clusterLoop (fuel : nat) (sector : string) (sectorStocks : list S.StockData)
         (correlations : entries (entries float)) (i : nat) : list ClusterData :=
  match fuel with
  | O => []
  | S fuel' =>
      if Nat.ltb i (length sectorStocks) then
        match clusterAt sector sectorStocks correlations i with
        | None => clusterLoop fuel' sector sectorStocks correlations (i + clusterSize)
        | Some cluster =>
            cluster :: clusterLoop fuel' sector sectorStocks correlations (i + clusterSize)
        end
      else []
  end.

(** The clusters pushed for one entry of [stocksBySector]; the loop makes
    at most one pass per member. *)
Definition sectorClusters (entry : string * list S.StockData) : list ClusterData :=
  let '(sector, sectorStocks) := entry in
  clusterLoop (length sectorStocks) sector sectorStocks (correlationTable sectorStocks) 0.

Definition byAvgCorrelationDesc (a b : ClusterData) : float :=
  avg_correlation b - avg_correlation a.

(** [None] is the TypeError of the grouping. *)
Definition calculateCorrelationClusters (stocks : list S.StockData) : option (list ClusterData) :=
  match stocksBySector stocks with
  | Some groups =>
      Some (Array_sort byAvgCorrelationDesc
              (flat_map sectorClusters (Object_entries groups)))
  | None => None
  end.
End CorrelationClusteringView.

(* ================================================================== *)
(** * components/analytics/DividendView *)

Module DividendView.
Local Open Scope float_scope.

Record DividendMetrics := {
  ticker : string;
  sector : string;
  dividend_yield : option float;
  dividend_growth : option float;
  payout_ratio : option float
}.

Record SectorAnalysis := {
  name : string;
  avgYield : float;
  avgPayout : float;
  avgGrowth : float;
  stockCount : nat
}.

(** [stock.dividend_yield > 0] *)
Definition paysDividend (stock : S.StockData) : bool :=
  0 <? ToNumber (S.dividend_yield stock).

Definition toMetrics (stock : S.StockData) : DividendMetrics :=
  {| ticker := S.ticker stock;
     sector := S.sector stock;
     dividend_yield := S.dividend_yield stock;
     dividend_growth := S.dividend_growth stock;
     payout_ratio := S.payout_ratio stock |}.

Definition byYieldDesc (a b : DividendMetrics) : float :=
  ToNumber (dividend_yield b) - ToNumber (dividend_yield a).

Definition calculateDividendMetrics (stocks : list S.StockData) : list DividendMetrics :=
  Array_sort byYieldDesc (map toMetrics (filter paysDividend stocks)).

(** The accumulator stored in [sectorMap] for one sector. *)
Record SectorTotals := {
  count : nat;
  totalYield : float;
  totalPayout : float;
  totalGrowth : float
}.

(** The body of [stocks.forEach(stock => ...)]. *)
Definition accumulate (sectorMap : entries SectorTotals) (stock : DividendMetrics)
  : entries SectorTotals :=
  let sectorData :=
    match obj_get sectorMap (sector stock) with
    | Some data => data
    | None => {| count := 0; totalYield := 0; totalPayout := 0; totalGrowth := 0 |}
    end in
  obj_set sectorMap (sector stock)
    {| count := S (count sectorData);
       totalYield := totalYield sectorData + ToNumber (dividend_yield stock);
       totalPayout := totalPayout sectorData + ToNumber (payout_ratio stock);
       totalGrowth := totalGrowth sectorData + ToNumber (dividend_growth stock) |}.

Definition toSectorAnalysis (entry : string * SectorTotals) : SectorAnalysis :=
  let '(sector, data) := entry in
  {| name := sector;
     avgYield := totalYield data / float_of_nat (count data);
     avgPayout := totalPayout data / float_of_nat (count data);
     avgGrowth := totalGrowth data / float_of_nat (count data);
     stockCount := count data |}.

Definition byAvgYieldDesc (a b : SectorAnalysis) : float :=
  avgYield b - avgYield a.

Definition calculateSectorAverages (stocks : list DividendMetrics) : list SectorAnalysis :=
  Array_sort byAvgYieldDesc (map toSectorAnalysis (fold_left accumulate stocks [])).
End DividendView.

(* ================================================================== *)
(** * utils/financialMetrics *)

Module financialMetrics.
Local Open Scope float_scope.

Record RiskReturnMetrics := {
  annualReturn : float;
  riskAdjustedReturn : option float;
  sharpeRatio : option float
}.

(** [stock.beta && stock.beta !== 0]: a number is truthy unless it is a
    zero or NaN, and [null] is falsy. *)
Definition betaUsable (beta : option float) : bool :=
  match beta with
  | Some b => negb (b =? 0) && negb (is_nan b)
  | None => false
  end.

Definition calculateRiskReturnMetrics (stock : S.StockData) (riskFreeRate : float)
  : RiskReturnMetrics :=
  (* [.filter(r => r !== null)] keeps the three entries: each is a number *)
  let returns :=
    [ ToNumber (S.change_1m stock) / 100;
      ToNumber (S.change_6m stock) / 100;
      ToNumber (S.change_1y stock) / 100 ] in
  let sharpeRatio := computeSharpeRatio returns riskFreeRate in
  let annualReturn := ToNumber (S.change_1y stock) / 100 in
  let riskAdjustedReturn :=
    if betaUsable (S.beta stock)
    then Some (annualReturn / ToNumber (S.beta stock))
    else None in
  {| annualReturn := annualReturn;
     riskAdjustedReturn := riskAdjustedReturn;
     sharpeRatio := sharpeRatio |}.
End financialMetrics.

(* ================================================================== *)
(** * components/analytics/RiskReturnView *)

Module RiskReturnView.
Local Open Scope float_scope.

Record RiskReturnMetrics := {
  ticker : string;
  sector : string;
  beta : option float;
  annualReturn : float;
  riskAdjustedReturn : float;
  sharpeRatio : float
}.

Definition hasReturns (stock : S.StockData) : bool :=
  notNull (S.change_1y stock) &&
  notNull (S.change_1m stock) &&
  notNull (S.change_6m stock).

(** [calculateStockMetrics(stock)]: the import of
    [financialMetrics.calculateRiskReturnMetrics], called with the
    default risk-free rate. *)
Definition calculateStockMetrics (stock : S.StockData) : financialMetrics.RiskReturnMetrics :=
  financialMetrics.calculateRiskReturnMetrics stock defaultRiskFreeRate.

(** The body of [.map(stock => ...)]. *)
Definition toRow (stock : S.StockData) : RiskReturnMetrics :=
  let metrics := calculateStockMetrics stock in
  {| ticker := S.ticker stock;
     sector := S.sector stock;
     beta := S.beta stock;
     annualReturn := financialMetrics.annualReturn metrics * 100;
     riskAdjustedReturn :=
       match financialMetrics.riskAdjustedReturn metrics with
       | Some r => r * 100
       | None => 0
       end;
     sharpeRatio :=
       match financialMetrics.sharpeRatio metrics with
       | Some s => s
       | None => 0
       end |}.

Definition bySharpeDesc (a b : RiskReturnMetrics) : float :=
  sharpeRatio b - sharpeRatio a.

Definition calculateRiskReturnMetrics (stocks : list S.StockData) : list RiskReturnMetrics :=
  Array_sort bySharpeDesc (map toRow (filter hasReturns stocks)).
End RiskReturnView.

(* ================================================================== *)
(** * Vocabulary of the statements below *)

(** The records of one sector, in batch order. *)
Definition membersOf (s : string) (stocks : list S.StockData) : list S.StockData :=
  filter (fun stock => String.eqb (S.sector stock) s) stocks.

(** The array a call returns; a call that throws returns none. *)
Definition returned {A : Type} (result : option (list A)) : list A :=
  match result with
  | Some rows => rows
  | None => []
  end.

(** The clusters of one sector in the output. *)
Definition clustersOf (s : string) (clusters : list CorrelationClusteringView.ClusterData)
  : list CorrelationClusteringView.ClusterData :=
  filter (fun c => String.eqb (CorrelationClusteringView.sector c) s) clusters.

(** The specification's slicing, in its own words: walk a list in its
    existing order, cutting it into consecutive groups of [size]; the last
    group holds what is left. *)
Fixpoint groupsOf {A : Type} (fuel size : nat) (l : list A) : list (list A) :=
  match fuel with
  | O => []
  | S fuel' =>
      match l with
      | [] => []
      | _ :: _ => firstn size l :: groupsOf fuel' size (skipn size l)
      end
  end.

Definition consecutiveGroups {A : Type} (size : nat) (l : list A) : list (list A) :=
  groupsOf (length l) size l.

(** A group is kept as a cluster when it has at least 2 members. *)
Definition keptGroups {A : Type} (groups : list (list A)) : list (list A) :=
  filter (fun g => Nat.leb 2 (length g)) groups.

(** Rows in descending order of [totalScore]. *)
Definition descendingByTotalScore (rows : list CompositeScoreView.CompositeScore) : Prop :=
  StronglySorted
    (fun a b => (CompositeScoreView.totalScore b <=? CompositeScoreView.totalScore a)%float = true)
    rows.

(** The [count] stored for a sector in a [sectorMap], 0 when absent. *)
Definition countOf (m : entries DividendView.SectorTotals) (s : string) : nat :=
  match obj_get m s with
  | Some d => DividendView.count d
  | None => 0
  end.

(* ================================================================== *)
(** * The Sharpe ratio in the specification's words *)

Section SharpeBySpec.
Context {T : Type} `{JsNumber T}.
Local Open Scope js_scope.





End SharpeBySpec.

(* ================================================================== *)
(** * Series of real numbers *)

(** A series with two different entries. *)
Definition nonConstant (xs : list R) : Prop :=
  exists a b, In a xs /\ In b xs /\ a <> b.

(** A series whose entries are all one value. *)
Definition constantSeries (xs : list R) : Prop :=
  exists c, forall a, In a xs -> a = c.

(** [n * sum(x^2) - sum(x)^2], the quantity whose square root the
    denominator of the correlation is built from. *)
Definition spread (xs : list R) : R :=
  (INR (length xs) * fold_right Rplus 0 (map (fun a => a * a) xs)
   - fold_right Rplus 0 xs * fold_right Rplus 0 xs)%R.

(* ================================================================== *)
(** * binary64 values as integers *)

(** [x] is a finite non-zero number or an infinity, of sign [s]. *)
Definition SFsigned (s : bool) (x : spec_float) : Prop :=
  match x with
  | S754_finite s' _ _ => s' = s
  | S754_infinity s' => s' = s
  | _ => False
  end.

(** An order-preserving integer key for the values that are not NaN: a
    finite [m * 2^e] is keyed by [m * 2^(e + 1074)], an integer because
    no exponent is below -1074, and the infinities lie beyond every
    finite key. *)
Definition SFkey (x : spec_float) : Z :=
  match x with
  | S754_zero _ => 0
  | S754_nan => 0
  | S754_infinity s => cond_Zopp s (2 ^ 2098)
  | S754_finite s m e => cond_Zopp s (Zpos m * 2 ^ (e + 1074))
  end%Z.

Definition floatKey (x : float) : Z := SFkey (Prim2SF x).

(** Where the value [m + rem / Q] lies between [m] and [m + 1], for a
    remainder [0 <= rem < Q]: the position [SpecFloat] rounds from. *)
Definition locationOf (rem Q : Z) : location :=
  if (rem =? 0)%Z then loc_Exact else loc_Inexact (2 * rem ?= Q)%Z.

(** [k] is the key of a binary64 value nearest to the positive real [V],
    both in units of 2^-1074: on the grid of step 2^s that holds [V] with
    at most 53 significant bits, [m] is within half a step of [V]; keys
    from 2^2098 on are the infinity. *)
Definition roundsTo (V : R) (k : Z) : Prop :=
  exists s m : Z,
    (0 <= s)%Z /\ (0 <= m)%Z /\ k = Z.min (2 ^ 2098) (m * 2 ^ s)
    /\ (IZR m - 1 / 2 <= V / IZR (2 ^ s) <= IZR m + 1 / 2)%R
    /\ (V / IZR (2 ^ s) < IZR (2 ^ 53))%R
    /\ ((0 < s)%Z -> (IZR (2 ^ 52) <= V / IZR (2 ^ s))%R).

(** The same for a value of either sign. *)
Definition roundsSigned (V : R) (k : Z) : Prop :=
  (V = 0%R -> k = 0%Z)
  /\ ((0 < V)%R -> roundsTo V k)
  /\ ((V < 0)%R -> roundsTo (- V) (- k)).

(* ================================================================== *)
(** * Sample records *)

(** A record that carries only its five price changes. *)
Definition stockWithChanges (ticker sector : string) (c1w c1m c6m cytd c1y : float) : S.StockData :=
  {| S.ticker := ticker; S.name := ticker; S.sector := sector;
     S.price := None; S.market_cap := None;
     S.change_1w := Some c1w; S.change_1m := Some c1m; S.change_6m := Some c6m;
     S.change_ytd := Some cytd; S.change_1y := Some c1y; S.change_3y := None;
     S.dividend_yield := None; S.dividend_growth := None; S.payout_ratio := None;
     S.peg_ratio := None; S.pb_ratio := None; S.pe_forward := None;
     S.eps_growth_3y := None; S.revenue_growth_3y := None;
     S.roe := None; S.roa := None; S.beta := None |}.

(** A record that carries only the nine fields the composite score reads. *)
Definition stockWithFundamentals (ticker sector : string)
           (pe pb peg eps rev roe roa c1y beta : float) : S.StockData :=
  {| S.ticker := ticker; S.name := ticker; S.sector := sector;
     S.price := None; S.market_cap := None;
     S.change_1w := None; S.change_1m := None; S.change_6m := None;
     S.change_ytd := None; S.change_1y := Some c1y; S.change_3y := None;
     S.dividend_yield := None; S.dividend_growth := None; S.payout_ratio := None;
     S.peg_ratio := Some peg; S.pb_ratio := Some pb; S.pe_forward := Some pe;
     S.eps_growth_3y := Some eps; S.revenue_growth_3y := Some rev;
     S.roe := Some roe; S.roa := Some roa; S.beta := Some beta |}.

(** A record that carries only its dividend fields. *)
Definition stockWithDividend (ticker sector : string)
           (dividendYield growth payout : option float) : S.StockData :=
  {| S.ticker := ticker; S.name := ticker; S.sector := sector;
     S.price := None; S.market_cap := None;
     S.change_1w := None; S.change_1m := None; S.change_6m := None;
     S.change_ytd := None; S.change_1y := None; S.change_3y := None;
     S.dividend_yield := dividendYield; S.dividend_growth := growth;
     S.payout_ratio := payout;
     S.peg_ratio := None; S.pb_ratio := None; S.pe_forward := None;
     S.eps_growth_3y := None; S.revenue_growth_3y := None;
     S.roe := None; S.roa := None; S.beta := None |}.

(** Three complete records whose fields all differ, and one record
    without a forward P/E. *)
Definition threeScored : list S.StockData :=
  [ stockWithFundamentals "LOW" "Energy" 30 5 3 2 1 4 2 (-10) 2;
    {| S.ticker := "NOPE"; S.name := "NOPE"; S.sector := "Energy";
       S.price := None; S.market_cap := None;
       S.change_1w := None; S.change_1m := None; S.change_6m := None;
       S.change_ytd := None; S.change_1y := Some 50; S.change_3y := None;
       S.dividend_yield := None; S.dividend_growth := None; S.payout_ratio := None;
       S.peg_ratio := Some 1; S.pb_ratio := Some 1; S.pe_forward := None;
       S.eps_growth_3y := Some 50; S.revenue_growth_3y := Some 50;
       S.roe := Some 50; S.roa := Some 50; S.beta := Some 1 |};
    stockWithFundamentals "TOP" "Technology" 10 1 1 30 20 25 12 40 1;
    stockWithFundamentals "MID" "Technology" 20 3 2 10 10 15 6 5 1.5 ]%float.

(** Two complete records that share their forward P/E. *)
Definition tiedPair : list S.StockData :=
  [ stockWithFundamentals "AAA" "Technology" 15 1 1 30 20 25 12 40 1;
    stockWithFundamentals "BBB" "Technology" 15 3 2 10 10 15 6 5 1.5 ]%float.



(** Six records of one sector. *)
Definition sixTech : list S.StockData :=
  [ stockWithChanges "AAA" "Technology" 1 2 3 4 5;
    stockWithChanges "BBB" "Technology" 2 3 4 5 6;
    stockWithChanges "CCC" "Technology" 3 4 5 6 7;
    stockWithChanges "DDD" "Technology" 5 4 3 2 1;
    stockWithChanges "EEE" "Technology" 1 3 2 5 4;
    stockWithChanges "FFF" "Technology" 2 1 4 3 6 ]%float.

(** Seven records of one sector, with one record of another sector among them. *)
Definition sevenTech : list S.StockData :=
  [ stockWithChanges "AAA" "Technology" 1 2 3 4 5;
    stockWithChanges "BBB" "Technology" 2 3 4 5 6;
    stockWithChanges "CCC" "Technology" 3 4 5 6 7;
    stockWithChanges "XOM" "Energy" 1 (-1) 2 (-2) 3;
    stockWithChanges "DDD" "Technology" 5 4 3 2 1;
    stockWithChanges "EEE" "Technology" 1 3 2 5 4;
    stockWithChanges "FFF" "Technology" 2 1 4 3 6;
    stockWithChanges "GGG" "Technology" 6 3 4 1 2 ]%float.

(** The specification's end-to-end scenario: three records that move together. *)
Definition threeAligned : list S.StockData :=
  [ stockWithChanges "AAA" "Technology" 1 2 3 4 5;
    stockWithChanges "BBB" "Technology" 2 3 4 5 6;
    stockWithChanges "CCC" "Technology" 3 4 5 6 7 ]%float.

(** Two records of one sector whose returns move in opposite directions. *)
Definition antiPair : list S.StockData :=
  [ stockWithChanges "UP" "Utilities" 1 2 3 4 5;
    stockWithChanges "DOWN" "Utilities" 5 4 3 2 1 ]%float.

(** A record whose five changes are all 2.37, next to one whose changes
    are 1, 2, 3, 4, 5. *)
Definition flatAndRising : list S.StockData :=
  [ stockWithChanges "FLAT" "Energy" 2.37 2.37 2.37 2.37 2.37;
    stockWithChanges "RISE" "Energy" 1 2 3 4 5 ]%float.

(** Two payers, a record with a yield of 0 and a record with no yield. *)
Definition dividendBatch : list S.StockData :=
  [ stockWithDividend "PAY1" "Energy" (Some 4) (Some 2) (Some 50);
    stockWithDividend "ZERO" "Energy" (Some 0) (Some 1) (Some 10);
    stockWithDividend "NULL" "Energy" None None None;
    stockWithDividend "PAY2" "Energy" (Some 2) (Some 6) (Some 30) ]%float.

(** A record whose 1-month, 6-month and 1-year changes are all 5%, and
    whose beta is unknown. *)
Definition steadyStock : S.StockData := stockWithChanges "STDY" "Utilities" 5 5 5 5 5.

(* ================================================================== *)
(** * Sector tables of the views *)

(** [if (searchQuery)]: a string is truthy unless it is empty. *)
Definition truthy_string (s : string) : bool := negb (String.eqb s "").

(** [s.includes(searchString)] *)
Fixpoint String_includes (s searchString : string) : bool :=
  if String.prefix searchString s then true
  else match s with
       | EmptyString => false
       | String _ rest => String_includes rest searchString
       end.

(** The step every [calculateSectorAverages] performs on its [sectorMap]:
    take the accumulator stored under the row's key, a fresh one when the
    key is new, update it with the row and store it under the key. *)
Definition keyedStep {A D : Type} (key : A -> string) (init : D) (update : D -> A -> D)
  (sectorMap : entries D) (row : A) : entries D :=
  obj_set sectorMap (key row)
    (update (match obj_get sectorMap (key row) with
             | Some data => data
             | None => init
             end) row).

(** The rows of one sector, in the order of the list. *)
Definition rowsOf {A : Type} (key : A -> string) (s : string) (rows : list A) : list A :=
  filter (fun row => String.eqb (key row) s) rows.

(** The total that [total += row.column] leaves for a column, started at
    0 and added up in list order. *)
Definition totalOf {A : Type} (column : A -> float) (rows : list A) : float :=
  fold_left (fun total row => (total + column row)%float) rows 0%float.

(** The part of DividendView that selects the rows shown: the sector
    chosen in the dropdown and the ticker search.  [toLowerCase] is the
    engine's [String.prototype.toLowerCase]. *)
Module DividendViewFilter.
Definition filteredMetrics (toLowerCase : string -> string)
  (metrics : list DividendView.DividendMetrics) (selectedSector searchQuery : string)
  : list DividendView.DividendMetrics :=
  let filtered :=
    if String.eqb selectedSector "All" then metrics
    else filter (fun m => String.eqb (DividendView.sector m) selectedSector) metrics in
  if truthy_string searchQuery
  then filter (fun metric =>
                 String_includes (toLowerCase (DividendView.ticker metric))
                                 (toLowerCase searchQuery)) filtered
  else filtered.

(** The rows of the sector table: [calculateSectorAverages(filteredMetrics)]. *)
Definition sectorTable (toLowerCase : string -> string)
  (metrics : list DividendView.DividendMetrics) (selectedSector searchQuery : string)
  : list DividendView.SectorAnalysis :=
  DividendView.calculateSectorAverages
    (filteredMetrics toLowerCase metrics selectedSector searchQuery).
End DividendViewFilter.

(** [calculateSectorAverages] of CompositeScoreView. *)
Module CompositeScoreSectors.
Local Open Scope float_scope.

Record SectorAnalysis := {
  name : string;
  avgScore : float;
  avgComponents : CompositeScoreView.ScoreComponents;
  stockCount : nat
}.

Record SectorTotals := {
  count : nat;
  totalScore : float;
  totalComponents : CompositeScoreView.ScoreComponents
}.

(** The body of [scores.forEach(score => ...)]. *)
Definition accumulate (sectorMap : entries SectorTotals) (score : CompositeScoreView.CompositeScore)
  : entries SectorTotals :=
  let sectorData :=
    match obj_get sectorMap (CompositeScoreView.sector score) with
    | Some data => data
    | None =>
        {| count := 0;
           totalScore := 0;
           totalComponents :=
             {| CompositeScoreView.value := 0;
                CompositeScoreView.growth := 0;
                CompositeScoreView.quality := 0;
                CompositeScoreView.momentum := 0;
                CompositeScoreView.stability := 0 |} |}
    end in
  let components := CompositeScoreView.components score in
  obj_set sectorMap (CompositeScoreView.sector score)
    {| count := S (count sectorData);
       totalScore := totalScore sectorData + CompositeScoreView.totalScore score;
       totalComponents :=
         {| CompositeScoreView.value :=
              CompositeScoreView.value (totalComponents sectorData)
              + CompositeScoreView.value components;
            CompositeScoreView.growth :=
              CompositeScoreView.growth (totalComponents sectorData)
              + CompositeScoreView.growth components;
            CompositeScoreView.quality :=
              CompositeScoreView.quality (totalComponents sectorData)
              + CompositeScoreView.quality components;
            CompositeScoreView.momentum :=
              CompositeScoreView.momentum (totalComponents sectorData)
              + CompositeScoreView.momentum components;
            CompositeScoreView.stability :=
              CompositeScoreView.stability (totalComponents sectorData)
              + CompositeScoreView.stability components |} |}.

Definition toSectorAnalysis (entry : string * SectorTotals) : SectorAnalysis :=
  let '(sector, data) := entry in
  let n := float_of_nat (count data) in
  {| name := sector;
     avgScore := totalScore data / n;
     avgComponents :=
       {| CompositeScoreView.value := CompositeScoreView.value (totalComponents data) / n;
          CompositeScoreView.growth := CompositeScoreView.growth (totalComponents data) / n;
          CompositeScoreView.quality := CompositeScoreView.quality (totalComponents data) / n;
          CompositeScoreView.momentum := CompositeScoreView.momentum (totalComponents data) / n;
          CompositeScoreView.stability := CompositeScoreView.stability (totalComponents data) / n |};
     stockCount := count data |}.

Definition byAvgScoreDesc (a b : SectorAnalysis) : float :=
  avgScore b - avgScore a.

Definition calculateSectorAverages (scores : list CompositeScoreView.CompositeScore)
  : list SectorAnalysis :=
  Array_sort byAvgScoreDesc (map toSectorAnalysis (fold_left accumulate scores [])).
End CompositeScoreSectors.

(** [calculateSectorAverages] of RiskReturnView. *)
Module RiskReturnSectors.
Local Open Scope float_scope.

Record SectorAnalysis := {
  name : string;
  avgBeta : float;
  avgReturn : float;
  avgSharpe : float;
  stockCount : nat
}.

Record SectorTotals := {
  count : nat;
  totalBeta : float;
  totalReturn : float;
  totalSharpe : float
}.

(** The body of [stocks.forEach(stock => ...)]; [totalBeta += stock.beta]
    adds [+0] for a null beta. *)
Definition accumulate (sectorMap : entries SectorTotals) (stock : RiskReturnView.RiskReturnMetrics)
  : entries SectorTotals :=
  let sectorData :=
    match obj_get sectorMap (RiskReturnView.sector stock) with
    | Some data => data
    | None => {| count := 0; totalBeta := 0; totalReturn := 0; totalSharpe := 0 |}
    end in
  obj_set sectorMap (RiskReturnView.sector stock)
    {| count := S (count sectorData);
       totalBeta := totalBeta sectorData + ToNumber (RiskReturnView.beta stock);
       totalReturn := totalReturn sectorData + RiskReturnView.annualReturn stock;
       totalSharpe := totalSharpe sectorData + RiskReturnView.sharpeRatio stock |}.

Definition toSectorAnalysis (entry : string * SectorTotals) : SectorAnalysis :=
  let '(sector, data) := entry in
  {| name := sector;
     avgBeta := totalBeta data / float_of_nat (count data);
     avgReturn := totalReturn data / float_of_nat (count data);
     avgSharpe := totalSharpe data / float_of_nat (count data);
     stockCount := count data |}.

Definition byAvgSharpeDesc (a b : SectorAnalysis) : float :=
  avgSharpe b - avgSharpe a.

Definition calculateSectorAverages (stocks : list RiskReturnView.RiskReturnMetrics)
  : list SectorAnalysis :=
  Array_sort byAvgSharpeDesc (map toSectorAnalysis (fold_left accumulate stocks [])).
End RiskReturnSectors.

(** [calculateSectorAverages] of CorrelationClusteringView. *)
Module CorrelationSectors.
Local Open Scope float_scope.

Record SectorAnalysis := {
  name : string;
  avgCorrelation : float;
  avgRiskScore : float;
  stockCount : nat;
  clusterCount : nat
}.

Record SectorTotals := {
  count : nat;
  totalCorrelation : float;
  totalRiskScore : float;
  clusterTotal : nat
}.

(** The body of [clusters.forEach(cluster => ...)]; [clusterTotal] is the
    accumulator's [clusterCount] field. *)
Definition accumulate (sectorMap : entries SectorTotals)
  (cluster : CorrelationClusteringView.ClusterData) : entries SectorTotals :=
  let sectorData :=
    match obj_get sectorMap (CorrelationClusteringView.sector cluster) with
    | Some data => data
    | None => {| count := 0; totalCorrelation := 0; totalRiskScore := 0; clusterTotal := 0 |}
    end in
  obj_set sectorMap (CorrelationClusteringView.sector cluster)
    {| count := count sectorData + length (CorrelationClusteringView.stocks cluster);
       totalCorrelation :=
         totalCorrelation sectorData + CorrelationClusteringView.avg_correlation cluster;
       totalRiskScore :=
         totalRiskScore sectorData + CorrelationClusteringView.risk_score cluster;
       clusterTotal := S (clusterTotal sectorData) |}.

Definition toSectorAnalysis (entry : string * SectorTotals) : SectorAnalysis :=
  let '(sector, data) := entry in
  {| name := sector;
     avgCorrelation := totalCorrelation data / float_of_nat (clusterTotal data);
     avgRiskScore := totalRiskScore data / float_of_nat (clusterTotal data);
     stockCount := count data;
     clusterCount := clusterTotal data |}.

Definition byAvgCorrelationDesc (a b : SectorAnalysis) : float :=
  avgCorrelation b - avgCorrelation a.

Definition calculateSectorAverages (clusters : list CorrelationClusteringView.ClusterData)
  : list SectorAnalysis :=
  Array_sort byAvgCorrelationDesc (map toSectorAnalysis (fold_left accumulate clusters [])).
End CorrelationSectors.

(* ================================================================== *)
(** * components/analytics/ValueGrowthView *)

(** [v || 0] for a nullable number: [null], NaN and both zeros give [+0]. *)
Definition orZero (v : option float) : float :=
  match v with
  | Some x => if (x =? 0)%float || is_nan x then 0%float else x
  | None => 0%float
  end.

Module ValueGrowthView.
Local Open Scope float_scope.

Record ValueGrowthMetrics := {
  ticker : string;
  sector : string;
  pegRatio : option float;
  epsGrowth : option float;
  peRatio : option float;
  pbRatio : option float;
  valueScore : float;
  growthScore : float
}.

(** [normalizeScore(metrics)]: the entries are numbers, so of
    [!isNaN(m) && m !== null] the first test is the one that can fail. *)
Definition normalizeScore (metrics : list float) : float :=
  let validMetrics := filter (fun m => negb (is_nan m)) metrics in
  if Nat.eqb (length validMetrics) 0 then 0
  else fold_left (fun a b => a + b) validMetrics 0 / float_of_nat (length validMetrics) * 100.

Definition hasRatios (stock : S.StockData) : bool :=
  notNull (S.peg_ratio stock) &&
  notNull (S.eps_growth_3y stock) &&
  notNull (S.pe_forward stock) &&
  notNull (S.pb_ratio stock).

(** The body of [.map(stock => ...)]. *)
Definition toRow (stock : S.StockData) : ValueGrowthMetrics :=
  let valueScore :=
    normalizeScore
      [ ToNumber (S.pe_forward stock) / 20;
        ToNumber (S.pb_ratio stock) / 3;
        ToNumber (S.peg_ratio stock) ] in
  let growthScore :=
    normalizeScore
      [ ToNumber (S.eps_growth_3y stock) / 30;
        orZero (S.revenue_growth_3y stock) / 20 ] in
  {| ticker := S.ticker stock;
     sector := S.sector stock;
     pegRatio := S.peg_ratio stock;
     epsGrowth := S.eps_growth_3y stock;
     peRatio := S.pe_forward stock;
     pbRatio := S.pb_ratio stock;
     valueScore := valueScore;
     growthScore := growthScore |}.

Definition byGrowthScoreDesc (a b : ValueGrowthMetrics) : float :=
  growthScore b - growthScore a.

Definition calculateValueGrowthMetrics (stocks : list S.StockData) : list ValueGrowthMetrics :=
  Array_sort byGrowthScoreDesc (map toRow (filter hasRatios stocks)).

Record SectorAnalysis := {
  name : string;
  avgValue : float;
  avgGrowth : float;
  avgPeg : float;
  stockCount : nat
}.

Record SectorTotals := {
  count : nat;
  totalValue : float;
  totalGrowth : float;
  totalPeg : float
}.

(** The body of [stocks.forEach(stock => ...)]. *)
Definition accumulate (sectorMap : entries SectorTotals) (stock : ValueGrowthMetrics)
  : entries SectorTotals :=
  let sectorData :=
    match obj_get sectorMap (sector stock) with
    | Some data => data
    | None => {| count := 0; totalValue := 0; totalGrowth := 0; totalPeg := 0 |}
    end in
  obj_set sectorMap (sector stock)
    {| count := S (count sectorData);
       totalValue := totalValue sectorData + valueScore stock;
       totalGrowth := totalGrowth sectorData + growthScore stock;
       totalPeg := totalPeg sectorData + ToNumber (pegRatio stock) |}.

Definition toSectorAnalysis (entry : string * SectorTotals) : SectorAnalysis :=
  let '(sector, data) := entry in
  {| name := sector;
     avgValue := totalValue data / float_of_nat (count data);
     avgGrowth := totalGrowth data / float_of_nat (count data);
     avgPeg := totalPeg data / float_of_nat (count data);
     stockCount := count data |}.

Definition byValuePlusGrowthDesc (a b : SectorAnalysis) : float :=
  (avgValue b + avgGrowth b) - (avgValue a + avgGrowth a).

Definition calculateSectorAverages (stocks : list ValueGrowthMetrics) : list SectorAnalysis :=
  Array_sort byValuePlusGrowthDesc (map toSectorAnalysis (fold_left accumulate stocks [])).
End ValueGrowthView.

(* ================================================================== *)
(** * components/analytics/MomentumView *)

Module MomentumView.
Local Open Scope float_scope.

Record MomentumMetrics := {
  ticker : string;
  sector : string;
  change_1m : option float;
  change_3m : option float;
  change_6m : option float;
  change_1y : option float;
  rsi : float;
  momentum_score : float
}.

Record Weights := {
  w_change_1m : float;
  w_change_6m : float;
  w_change_1y : float;
  w_beta : float
}.

Definition weights : Weights :=
  {| w_change_1m := 0.35; w_change_6m := 0.35; w_change_1y := 0.2; w_beta := 0.1 |}.

Definition isValid (stock : S.StockData) : bool :=
  notNull (S.change_1m stock) &&
  notNull (S.change_6m stock) &&
  notNull (S.change_1y stock) &&
  notNull (S.beta stock).

(** The body of [.map(stock => ...)]. *)
Definition toRow (stock : S.StockData) : MomentumMetrics :=
  let normalizedBeta := (1 - abs (ToNumber (S.beta stock) - 1)) * 100 in
  let momentum_score :=
    (ToNumber (S.change_1m stock) * w_change_1m weights) +
    (ToNumber (S.change_6m stock) * w_change_6m weights) +
    (ToNumber (S.change_1y stock) * w_change_1y weights) +
    (normalizedBeta * w_beta weights) in
  {| ticker := S.ticker stock;
     sector := S.sector stock;
     change_1m := S.change_1m stock;
     change_3m := S.change_ytd stock;
     change_6m := S.change_6m stock;
     change_1y := S.change_1y stock;
     rsi := ToNumber (S.beta stock) * 50;
     momentum_score := momentum_score |}.

Definition byMomentumDesc (a b : MomentumMetrics) : float :=
  momentum_score b - momentum_score a.

Definition calculateMomentumMetrics (stocks : list S.StockData) : list MomentumMetrics :=
  let validStocks := filter isValid stocks in
  Array_sort byMomentumDesc (map toRow validStocks).

Record SectorAnalysis := {
  name : string;
  avgMomentum : float;
  avg1m : float;
  avg3m : float;
  avg6m : float;
  avg1y : float;
  avgRsi : float;
  stockCount : nat
}.

Record SectorTotals := {
  count : nat;
  totalMomentum : float;
  total1m : float;
  total3m : float;
  total6m : float;
  total1y : float;
  totalRsi : float
}.

(** The body of [metrics.forEach(metric => ...)]. *)
Definition accumulate (sectorMap : entries SectorTotals) (metric : MomentumMetrics)
  : entries SectorTotals :=
  let sectorData :=
    match obj_get sectorMap (sector metric) with
    | Some data => data
    | None =>
        {| count := 0; totalMomentum := 0; total1m := 0; total3m := 0;
           total6m := 0; total1y := 0; totalRsi := 0 |}
    end in
  obj_set sectorMap (sector metric)
    {| count := S (count sectorData);
       totalMomentum := totalMomentum sectorData + momentum_score metric;
       total1m := total1m sectorData + ToNumber (change_1m metric);
       total3m := total3m sectorData + ToNumber (change_3m metric);
       total6m := total6m sectorData + ToNumber (change_6m metric);
       total1y := total1y sectorData + ToNumber (change_1y metric);
       totalRsi := totalRsi sectorData + rsi metric |}.

Definition toSectorAnalysis (entry : string * SectorTotals) : SectorAnalysis :=
  let '(sector, data) := entry in
  {| name := sector;
     avgMomentum := totalMomentum data / float_of_nat (count data);
     avg1m := total1m data / float_of_nat (count data);
     avg3m := total3m data / float_of_nat (count data);
     avg6m := total6m data / float_of_nat (count data);
     avg1y := total1y data / float_of_nat (count data);
     avgRsi := totalRsi data / float_of_nat (count data);
     stockCount := count data |}.

Definition byAvgMomentumDesc (a b : SectorAnalysis) : float :=
  avgMomentum b - avgMomentum a.

(** The [sectorAverages] memo. *)
Definition sectorAverages (metrics : list MomentumMetrics) : list SectorAnalysis :=
  if Nat.eqb (length metrics) 0 then []
  else Array_sort byAvgMomentumDesc (map toSectorAnalysis (fold_left accumulate metrics [])).
End MomentumView.

(** The record with its [revenue_growth_3y] replaced. *)
Definition withRevenueGrowth (v : option float) (stock : S.StockData) : S.StockData :=
  {| S.ticker := S.ticker stock; S.name := S.name stock; S.sector := S.sector stock;
     S.price := S.price stock; S.market_cap := S.market_cap stock;
     S.change_1w := S.change_1w stock; S.change_1m := S.change_1m stock;
     S.change_6m := S.change_6m stock; S.change_ytd := S.change_ytd stock;
     S.change_1y := S.change_1y stock; S.change_3y := S.change_3y stock;
     S.dividend_yield := S.dividend_yield stock;
     S.dividend_growth := S.dividend_growth stock;
     S.payout_ratio := S.payout_ratio stock;
     S.peg_ratio := S.peg_ratio stock; S.pb_ratio := S.pb_ratio stock;
     S.pe_forward := S.pe_forward stock;
     S.eps_growth_3y := S.eps_growth_3y stock;
     S.revenue_growth_3y := v;
     S.roe := S.roe stock; S.roa := S.roa stock; S.beta := S.beta stock |}.

(** The record with a missing [revenue_growth_3y] written as 0. *)
Definition revenueFilled (stock : S.StockData) : S.StockData :=
  match S.revenue_growth_3y stock with
  | None => withRevenueGrowth (Some 0%float) stock
  | Some _ => stock
  end.

(** Two payers in Energy and one in Utilities. *)
Definition twoSectorPayers : list S.StockData :=
  [ stockWithDividend "PAY1" "Energy" (Some 4) (Some 2) (Some 50);
    stockWithDividend "UTL1" "Utilities" (Some 3) (Some 1) (Some 60);
    stockWithDividend "PAY2" "Energy" (Some 2) (Some 6) (Some 30) ]%float.

(** Two records of one sector with returns and no beta. *)
Definition noBetaBatch : list S.StockData :=
  [ steadyStock; stockWithChanges "RISE" "Utilities" 1 2 3 4 5 ]%float.

(* ================================================================== *)
(** * services/stockService: sorting, filtering and the cached fetch *)

(** The value of a field of a stock record. *)
Inductive JsValue :=
| JsStr (s : string)
| JsNum (x : float)
| JsNull.

(** [keyof StockData] *)
Inductive StockKey :=
| k_ticker | k_name | k_sector | k_price | k_market_cap
| k_change_1w | k_change_1m | k_change_6m | k_change_ytd | k_change_1y | k_change_3y
| k_dividend_yield | k_dividend_growth | k_payout_ratio
| k_peg_ratio | k_pb_ratio | k_pe_forward | k_eps_growth_3y | k_revenue_growth_3y
| k_roe | k_roa | k_beta.

Definition numberOrNull (v : option float) : JsValue :=
  match v with
  | Some x => JsNum x
  | None => JsNull
  end.

(** [stock[key]] *)
Definition field (stock : S.StockData) (key : StockKey) : JsValue :=
  match key with
  | k_ticker => JsStr (S.ticker stock)
  | k_name => JsStr (S.name stock)
  | k_sector => JsStr (S.sector stock)
  | k_price => numberOrNull (S.price stock)
  | k_market_cap => numberOrNull (S.market_cap stock)
  | k_change_1w => numberOrNull (S.change_1w stock)
  | k_change_1m => numberOrNull (S.change_1m stock)
  | k_change_6m => numberOrNull (S.change_6m stock)
  | k_change_ytd => numberOrNull (S.change_ytd stock)
  | k_change_1y => numberOrNull (S.change_1y stock)
  | k_change_3y => numberOrNull (S.change_3y stock)
  | k_dividend_yield => numberOrNull (S.dividend_yield stock)
  | k_dividend_growth => numberOrNull (S.dividend_growth stock)
  | k_payout_ratio => numberOrNull (S.payout_ratio stock)
  | k_peg_ratio => numberOrNull (S.peg_ratio stock)
  | k_pb_ratio => numberOrNull (S.pb_ratio stock)
  | k_pe_forward => numberOrNull (S.pe_forward stock)
  | k_eps_growth_3y => numberOrNull (S.eps_growth_3y stock)
  | k_revenue_growth_3y => numberOrNull (S.revenue_growth_3y stock)
  | k_roe => numberOrNull (S.roe stock)
  | k_roa => numberOrNull (S.roa stock)
  | k_beta => numberOrNull (S.beta stock)
  end.

(** [arr.every(callback)] with a callback that can throw ([None]): the
    walk stops at the first [false] and at the first exception. *)
Fixpoint Array_every {A : Type} (callback : A -> option bool) (arr : list A) : option bool :=
  match arr with
  | [] => Some true
  | x :: rest =>
      match callback x with
      | None => None
      | Some false => Some false
      | Some true => Array_every callback rest
      end
  end.

(** [arr.filter(callback)] with a callback that can throw. *)
Fixpoint Array_filter {A : Type} (callback : A -> option bool) (arr : list A) : option (list A) :=
  match arr with
  | [] => Some []
  | x :: rest =>
      match callback x with
      | None => None
      | Some keep =>
          match Array_filter callback rest with
          | None => None
          | Some kept => Some (if keep then x :: kept else kept)
          end
      end
  end.

Module stockServiceApi.
Local Open Scope float_scope.

Inductive Direction := asc | desc.

Section Sorting.
(** [a.localeCompare(b)], as the engine's collation answers it. *)
Variable localeCompare : string -> string -> float.

Definition sortStocksLocally (stocks : list S.StockData) (sortBy : option StockKey)
  (sortDesc : bool) : list S.StockData :=
  match sortBy with
  | None => stocks
  | Some sortBy =>
      Array_sort
        (fun a b =>
           let aValue := field a sortBy in
           let bValue := field b sortBy in
           match aValue, bValue with
           | JsStr aValue, JsStr bValue =>
               if sortDesc then localeCompare bValue aValue else localeCompare aValue bValue
           | JsNum aValue, JsNum bValue =>
               if sortDesc then bValue - aValue else aValue - bValue
           | _, _ => 0
           end)
        stocks
  end.

Definition sortStocks (stocks : list S.StockData) (field_ : StockKey) (direction : Direction)
  : list S.StockData :=
  Array_sort
    (fun a b =>
       let aValue := field a field_ in
       let bValue := field b field_ in
       match aValue, bValue with
       | JsStr aValue, JsStr bValue =>
           match direction with
           | asc => localeCompare aValue bValue
           | desc => localeCompare bValue aValue
           end
       | JsNum aValue, JsNum bValue =>
           match direction with
           | asc => aValue - bValue
           | desc => bValue - aValue
           end
       | _, _ => 0
       end)
    stocks.
End Sorting.

(** A filter value: [string | string[] | number]. *)
Inductive FilterValue :=
| FString (s : string)
| FStrings (l : list string)
| FNumber (x : float).

(** [!value]: the empty string, the zeros and NaN; an array is never falsy. *)
Definition falsy (value : FilterValue) : bool :=
  match value with
  | FString s => String.eqb s ""
  | FStrings _ => false
  | FNumber x => (x =? 0) || is_nan x
  end.

(** [key.includes('change_') || key === 'dividend_yield'] *)
Definition isPercentageKey (key : StockKey) : bool :=
  match key with
  | k_change_1w | k_change_1m | k_change_6m | k_change_ytd | k_change_1y | k_change_3y
  | k_dividend_yield => true
  | _ => false
  end.

Section Filtering.
(** The engine's [toLowerCase], [parseFloat] and [Number.prototype.toString]. *)
Variable toLowerCase : string -> string.
Variable parseFloat : string -> float.
Variable Number_toString : float -> string.

(** The callback of [Object.entries(filters).every(...)] for one stock;
    [None] is the TypeError of [value[0].toLowerCase()] on an empty array. *)
Definition passes (stock : S.StockData) (entry : StockKey * FilterValue) : option bool :=
  let '(key, value) := entry in
  if falsy value then Some true
  else
    let stockValue := field stock key in
    match key with
    | k_sector =>
        (* [sectors.includes(stockValue)], [stockValue] being the sector string *)
        match value with
        | FStrings sectors => Some (existsb (String.eqb (S.sector stock)) sectors)
        | FString sector => Some (String.eqb (S.sector stock) sector)
        | FNumber _ => Some false
        end
    | _ =>
        match stockValue with
        | JsStr stockValue =>
            match value with
            | FNumber x =>
                Some (String_includes (toLowerCase stockValue) (toLowerCase (Number_toString x)))
            | FStrings [] => None
            | FStrings (searchValue :: _) =>
                Some (String_includes (toLowerCase stockValue) (toLowerCase searchValue))
            | FString searchValue =>
                Some (String_includes (toLowerCase stockValue) (toLowerCase searchValue))
            end
        | JsNum stockValue =>
            match value with
            | FStrings _ => Some true
            | FString _ | FNumber _ =>
                let numValue :=
                  match value with
                  | FNumber x => x
                  | FString s => parseFloat s
                  | FStrings _ => nan
                  end in
                if is_nan numValue then Some true
                else if isPercentageKey key then Some (numValue <=? stockValue)
                else
                  match key with
                  | k_market_cap => Some (numValue * 1000000 <=? stockValue)
                  | _ => Some (numValue <=? stockValue)
                  end
            end
        | JsNull => Some true
        end
    end.

Definition filterStocks (stocks : list S.StockData) (filters : list (StockKey * FilterValue))
  : option (list S.StockData) :=
  Array_filter (fun stock => Array_every (passes stock) filters) stocks.
End Filtering.

Record StockResponse := {
  data : list S.StockData;
  total_pages : nat;
  total_count : nat;
  last_updated : string
}.

(** The module variable [stockCache] when it is not null. *)
Record StockCache := {
  cached : list S.StockData;
  cachedLastUpdated : string;
  timestamp : Z
}.

(** What the promise resolves to. *)
Record Fetched := {
  fetched : list S.StockData;
  lastUpdated : string
}.

(** How an awaited call ends; [Pending] is a loop that has not left the
    [while (true)] within the requests allowed to it. *)
Inductive Outcome :=
| Resolved (result : Fetched)
| Rejected
| Pending.

(** 24 hours, in milliseconds *)
Definition CACHE_DURATION : Z := 24 * 60 * 60 * 1000.

Definition limit : nat := 1000.

(** The [while (true)] loop of [fetchAllStocks]; [server page] answers
    [GET /stocks?page=..&limit=1000], [None] being a failed request, and
    [requests] bounds the number of requests. *)
Fixpoint fetchLoop (server : nat -> option StockResponse) (requests : nat)
  (allStocks : list S.StockData) (page : nat) : Outcome :=
  match requests with
  | O => Pending
  | S requests' =>
      match server page with
      | None => Rejected
      | Some response =>
          let allStocks := allStocks ++ data response in
          let lastUpdated := last_updated response in
          if (length (data response) <? limit)%nat
             || (total_count response <=? page * limit)%nat
          then Resolved {| fetched := allStocks; lastUpdated := lastUpdated |}
          else fetchLoop server requests' allStocks (S page)
      end
  end.

(** [fetchAllStocks(forceRefresh)], one call at a time: the result and
    the [stockCache] it leaves.  [now] is the clock when the cache is
    checked and [fetchedAt] the clock when a fetch completes.  (The
    [fetchPromise] shared by overlapping calls is outside this model.) *)
Definition fetchAllStocks (server : nat -> option StockResponse) (requests : nat)
  (stockCache : option StockCache) (now fetchedAt : Z) (forceRefresh : bool)
  : Outcome * option StockCache :=
  let fetch :=
    match fetchLoop server requests [] 1 with
    | Resolved result =>
        (Resolved result,
         Some {| cached := fetched result;
                 cachedLastUpdated := lastUpdated result;
                 timestamp := fetchedAt |})
    | outcome => (outcome, stockCache)
    end in
  match stockCache with
  | Some cache =>
      if negb forceRefresh && (now - timestamp cache <? CACHE_DURATION)%Z
      then (Resolved {| fetched := cached cache; lastUpdated := cachedLastUpdated cache |},
            stockCache)
      else fetch
  | None => fetch
  end.

End stockServiceApi.

(** A backend that serves [all] in pages of [limit] records. *)
Definition pagedServer (all : list S.StockData) (stamp : string) (page : nat)
  : option stockServiceApi.StockResponse :=
  Some {| stockServiceApi.data :=
            slice all ((page - 1) * stockServiceApi.limit) (page * stockServiceApi.limit);
          stockServiceApi.total_pages :=
            (length all + stockServiceApi.limit - 1) / stockServiceApi.limit;
          stockServiceApi.total_count := length all;
          stockServiceApi.last_updated := stamp |}.

(** The number a record holds in a field; NaN stands for a field that
    holds no number. *)
Definition numberAt (key : StockKey) (stock : S.StockData) : float :=
  match field stock key with
  | JsNum x => x
  | _ => nan
  end.

(** A record with a price and nothing else. *)
Definition stockWithPrice (ticker : string) (price : option float) : S.StockData :=
  {| S.ticker := ticker; S.name := ticker; S.sector := "Energy";
     S.price := price; S.market_cap := None;
     S.change_1w := None; S.change_1m := None; S.change_6m := None;
     S.change_ytd := None; S.change_1y := None; S.change_3y := None;
     S.dividend_yield := None; S.dividend_growth := None; S.payout_ratio := None;
     S.peg_ratio := None; S.pb_ratio := None; S.pe_forward := None;
     S.eps_growth_3y := None; S.revenue_growth_3y := None;
     S.roe := None; S.roa := None; S.beta := None |}.

Definition pricedBatch : list S.StockData :=
  [ stockWithPrice "MID" (Some 20); stockWithPrice "LOW" (Some 5);
    stockWithPrice "TOP" (Some 90) ]%float.

(* ================================================================== *)
(** * RiskReturnView: the sortable table *)

Module RiskReturnTable.
Local Open Scope float_scope.

(** [keyof RiskReturnMetrics] *)
Inductive SortableStockField :=
| f_ticker | f_sector | f_beta | f_annualReturn | f_riskAdjustedReturn | f_sharpeRatio.

Inductive SortDirection := asc | desc.

Definition field_eqb (a b : SortableStockField) : bool :=
  match a, b with
  | f_ticker, f_ticker | f_sector, f_sector | f_beta, f_beta
  | f_annualReturn, f_annualReturn | f_riskAdjustedReturn, f_riskAdjustedReturn
  | f_sharpeRatio, f_sharpeRatio => true
  | _, _ => false
  end.

(** The [sortField] and [sortDirection] state of the component. *)
Record SortState := {
  sortField : SortableStockField;
  sortDirection : SortDirection
}.

(** [useState('sharpeRatio')], [useState('desc')] *)
Definition initialSort : SortState :=
  {| sortField := f_sharpeRatio; sortDirection := desc |}.

Definition handleSort (state : SortState) (field : SortableStockField) : SortState :=
  if field_eqb (sortField state) field
  then {| sortField := sortField state;
          sortDirection := match sortDirection state with asc => desc | desc => asc end |}
  else {| sortField := field; sortDirection := desc |}.

(** [row[sortField]] in an arithmetic position, for the numeric fields. *)
Definition numberOf (field : SortableStockField) (row : RiskReturnView.RiskReturnMetrics)
  : float :=
  match field with
  | f_beta => ToNumber (RiskReturnView.beta row)
  | f_annualReturn => RiskReturnView.annualReturn row
  | f_riskAdjustedReturn => RiskReturnView.riskAdjustedReturn row
  | f_sharpeRatio => RiskReturnView.sharpeRatio row
  | f_ticker | f_sector => nan
  end.

Definition sortedMetrics (localeCompare : string -> string -> float)
  (filteredMetrics : list RiskReturnView.RiskReturnMetrics) (state : SortState)
  : list RiskReturnView.RiskReturnMetrics :=
  Array_sort
    (fun a b =>
       let multiplier := match sortDirection state with asc => 1 | desc => -1 end in
       match sortField state with
       | f_ticker =>
           localeCompare (RiskReturnView.ticker a) (RiskReturnView.ticker b) * multiplier
       | f_sector =>
           localeCompare (RiskReturnView.sector a) (RiskReturnView.sector b) * multiplier
       | numeric => (numberOf numeric a - numberOf numeric b) * multiplier
       end)
    filteredMetrics.
End RiskReturnTable.

(* ================================================================== *)
(** * app/api/stocks: the gainers and losers of the ticker tape *)

Module stocksRoute.
Local Open Scope float_scope.

Record RawStockData := {
  ticker : string;
  price : JsValue;
  change_1w : JsValue;
  sector : string
}.

Record ProcessedStockData := {
  symbol : string;
  priceText : string;
  change : string;
  sectorName : string
}.

(** [data] is [None] when the backend's answer carries no array. *)
Record BackendResponse := {
  data : option (list RawStockData);
  last_updated : string
}.

Record Processed := {
  gainers : list ProcessedStockData;
  losers : list ProcessedStockData;
  timestamp : string
}.

Section Processing.
(** The engine's [Number.prototype.toFixed] and [parseFloat]. *)
Variable toFixed : float -> nat -> string.
Variable parseFloat : string -> float.

(** [typeof v === 'number' ? v.toFixed(digits) :
     typeof v === 'string' ? parseFloat(v).toFixed(digits) : fallback] *)
Definition fixedText (v : JsValue) (digits : nat) (fallback : string) : string :=
  match v with
  | JsNum x => toFixed x digits
  | JsStr s => toFixed (parseFloat s) digits
  | JsNull => fallback
  end.

(** The body of [stocksArray.map(stock => ...)]. *)
Definition toProcessed (stock : RawStockData) : ProcessedStockData :=
  {| symbol := ticker stock;
     priceText := fixedText (price stock) 2 "0.00";
     change := fixedText (change_1w stock) 1 "0.0";
     sectorName := if truthy_string (sector stock) then sector stock else "Unknown" |}.

Definition isComplete (stock : ProcessedStockData) : bool :=
  truthy_string (symbol stock)
  && negb (is_nan (parseFloat (priceText stock)))
  && negb (is_nan (parseFloat (change stock))).

Definition byAbsChangeDesc (a b : ProcessedStockData) : float :=
  abs (parseFloat (change b)) - abs (parseFloat (change a)).

Definition processStockData (backendResponse : BackendResponse) : Processed :=
  match data backendResponse with
  | None | Some [] =>
      {| gainers := []; losers := []; timestamp := last_updated backendResponse |}
  | Some stocksArray =>
      let stocks := filter isComplete (map toProcessed stocksArray) in
      let stocks := Array_sort byAbsChangeDesc stocks in
      let gainers := slice (filter (fun stock => 0 <? parseFloat (change stock)) stocks) 0 20 in
      let losers := slice (filter (fun stock => parseFloat (change stock) <? 0) stocks) 0 20 in
      {| gainers := gainers; losers := losers; timestamp := last_updated backendResponse |}
  end.
End Processing.
End stocksRoute.

(* ================================================================== *)
(** * The dashboard page and its filter form *)

(** [{...prev, ...next}] *)
Definition Object_spread {V : Type} (prev next : entries V) : entries V :=
  fold_left (fun o entry => obj_set o (fst entry) (snd entry)) next prev.

Module TableFilters.
Record FilterState := {
  ticker : string;
  sector : string;
  market_cap : string;
  price : string;
  dividend_yield : string;
  change_1y : string
}.

(** [Object.entries(filters)] *)
Definition Object_entries (filters : FilterState) : entries string :=
  [ ("ticker", ticker filters);
    ("sector", sector filters);
    ("market_cap", market_cap filters);
    ("price", price filters);
    ("dividend_yield", dividend_yield filters);
    ("change_1y", change_1y filters) ]%string.

Definition emptyFilters : FilterState :=
  {| ticker := ""; sector := ""; market_cap := ""; price := "";
     dividend_yield := ""; change_1y := "" |}.

(** [handleApplyFilters]: the [activeFilters] handed to [onFilter]. *)
Definition handleApplyFilters (filters : FilterState) : entries string :=
  fold_left
    (fun activeFilters entry =>
       if truthy_string (snd entry) then obj_set activeFilters (fst entry) (snd entry)
       else activeFilters)
    (Object_entries filters) [].
End TableFilters.

Module DashboardPage.
(** The state of the page that its handlers write. *)
Record State := {
  sortField : option StockKey;
  sortDirection : stockServiceApi.Direction;
  filters : entries string;
  currentPage : nat;
  pageSize : nat
}.

Definition handleFilter (newFilters : entries string) (state : State) : State :=
  {| sortField := sortField state;
     sortDirection := sortDirection state;
     filters := Object_spread (filters state) newFilters;
     currentPage := 1;
     pageSize := pageSize state |}.

Definition handleResetFilters (state : State) : State :=
  {| sortField := sortField state;
     sortDirection := sortDirection state;
     filters := [];
     currentPage := 1;
     pageSize := pageSize state |}.

End DashboardPage.

(** Two records of one sector whose 1-year changes differ. *)
Definition unevenReturns : list S.StockData :=
  [ stockWithChanges "FAST" "Utilities" 1 2 3 4 9;
    stockWithChanges "SLOW" "Utilities" 1 1 2 3 2 ]%float.

(* ================================================================== *)
(** * Arrays: sorting, slicing, objects *)

Section SortFacts.
Context {A : Type} (compareFn : A -> A -> float).

Lemma insert_sorted_perm (x : A) (l : list A) :
  Permutation (insert_sorted compareFn x l) (x :: l).
Proof.
  induction l as [|y rest IH]; simpl.
  - apply Permutation_refl.
  - destruct (0 <? compareFn x y)%float.
    + eapply Permutation_trans; [apply perm_skip, IH | apply perm_swap].
    + apply Permutation_refl.
Qed.

(** Whatever the comparator answers, sorting only reorders. *)
Lemma Array_sort_perm (l : list A) : Permutation (Array_sort compareFn l) l.
Proof.
  induction l as [|x rest IH]; simpl.
  - apply perm_nil.
  - eapply Permutation_trans; [apply insert_sorted_perm | apply perm_skip, IH].
Qed.

Lemma Array_sort_In (l : list A) (x : A) : In x (Array_sort compareFn l) <-> In x l.
Proof.
  split; apply Permutation_in;
    [apply Array_sort_perm | apply Permutation_sym, Array_sort_perm].
Qed.

Lemma Array_sort_length (l : list A) : length (Array_sort compareFn l) = length l.
Proof. apply Permutation_length, Array_sort_perm. Qed.

(** Sorting with a comparator that is a total preorder on the elements
    at hand: [ge a b] reads "a may stand before b". *)
Section Ordered.
Variable ge : A -> A -> Prop.
Variable P : A -> Prop.
Hypothesis ge_trans : forall a b c, P a -> P b -> P c -> ge a b -> ge b c -> ge a c.
Hypothesis cmp_keep : forall a b, P a -> P b -> (0 <? compareFn a b)%float = false -> ge a b.
Hypothesis cmp_swap : forall a b, P a -> P b -> (0 <? compareFn a b)%float = true -> ge b a.

Lemma insert_sorted_sorted (x : A) (l : list A) :
  P x -> Forall P l -> StronglySorted ge l ->
  StronglySorted ge (insert_sorted compareFn x l).
Proof.
  intros Px Pl Hs. induction Hs as [|y rest Hrest IH Hy]; simpl.
  - constructor; constructor.
  - inversion Pl as [|? ? Py Prest]; subst.
    destruct (0 <? compareFn x y)%float eqn:E.
    + constructor; [apply IH, Prest|].
      apply (Permutation_Forall (Permutation_sym (insert_sorted_perm x rest))).
      constructor; [apply cmp_swap; assumption | exact Hy].
    + constructor; [constructor; assumption|].
      assert (Hxy : ge x y) by (apply cmp_keep; assumption).
      constructor; [exact Hxy|].
      rewrite Forall_forall in Hy, Prest |- *. intros z Hz.
      apply ge_trans with y; auto.
Qed.

Lemma Array_sort_sorted (l : list A) :
  Forall P l -> StronglySorted ge (Array_sort compareFn l).
Proof.
  induction l as [|x rest IH]; simpl; intros Hl.
  - constructor.
  - inversion Hl; subst. apply insert_sorted_sorted; auto.
    apply (Permutation_Forall (Permutation_sym (Array_sort_perm rest))); assumption.
Qed.
End Ordered.
End SortFacts.

(* ================================================================== *)
(** * CompositeScoreView: which records are scored *)

Lemma notNull_Some {A : Type} (v : option A) : notNull v = true <-> v <> None.
Proof. destruct v; simpl; split; congruence. Qed.

Lemma isValid_spec (stock : S.StockData) :
  CompositeScoreView.isValid stock = true <->
  (S.pe_forward stock <> None /\ S.pb_ratio stock <> None /\ S.peg_ratio stock <> None /\
   S.eps_growth_3y stock <> None /\ S.revenue_growth_3y stock <> None /\
   S.roe stock <> None /\ S.roa stock <> None /\
   S.change_1y stock <> None /\ S.beta stock <> None).
Proof.
  unfold CompositeScoreView.isValid.
  rewrite !andb_true_iff, !notNull_Some. tauto.
Qed.

Lemma Permutation_filter_compat {A : Type} (f : A -> bool) (l l' : list A) :
  Permutation l l' -> Permutation (filter f l) (filter f l').
Proof.
  induction 1 as [|x l l' _ IH|x y l|l l' l'' _ IH1 _ IH2]; simpl.
  - constructor.
  - destruct (f x); [apply perm_skip|]; exact IH.
  - destruct (f x), (f y); try apply Permutation_refl. apply perm_swap.
  - eapply Permutation_trans; eassumption.
Qed.

Lemma filter_idem {A : Type} (f : A -> bool) (l : list A) :
  filter f (filter f l) = filter f l.
Proof.
  induction l as [|x l IH]; simpl; [reflexivity|].
  destruct (f x) eqn:E; simpl; [rewrite E, IH|]; auto.
Qed.

(** C8: the output of [calculateCompositeScores] has exactly one row per
    input record whose nine scored fields are all non-null, namely the
    score of that record against the cohort of those records; a record
    with a null field contributes no row, and removing all such records
    from the batch changes nothing, so none of them is ever scored or
    counted in the cohort with a zero in place of the missing field. *)
Theorem C8_composite_rows_are_the_complete_records (stocks : list S.StockData) :
  let valid := filter CompositeScoreView.isValid stocks in
  Permutation (CompositeScoreView.calculateCompositeScores stocks)
              (map (CompositeScoreView.scoreStock (CompositeScoreView.cohortMetrics valid)) valid)
  /\ length (CompositeScoreView.calculateCompositeScores stocks) = length valid
  /\ (forall stock, In stock valid <->
        In stock stocks /\
        S.pe_forward stock <> None /\ S.pb_ratio stock <> None /\ S.peg_ratio stock <> None /\
        S.eps_growth_3y stock <> None /\ S.revenue_growth_3y stock <> None /\
        S.roe stock <> None /\ S.roa stock <> None /\
        S.change_1y stock <> None /\ S.beta stock <> None)
  /\ CompositeScoreView.calculateCompositeScores stocks
     = CompositeScoreView.calculateCompositeScores valid.
Proof.
  intros valid. unfold CompositeScoreView.calculateCompositeScores. fold valid.
  split; [apply Array_sort_perm|].
  split; [rewrite Array_sort_length, length_map; reflexivity|].
  split.
  - intros stock. unfold valid. rewrite filter_In, isValid_spec. tauto.
  - unfold valid. rewrite filter_idem. reflexivity.
Qed.

(* ================================================================== *)
(** * Objects and maps as entry lists *)

Section EntryFacts.
Context {V : Type}.

Lemma obj_get_set_same (o : entries V) (k : string) (v : V) :
  obj_get (obj_set o k v) k = Some v.
Proof.
  induction o as [|[k' v'] rest IH]; simpl.
  - rewrite String.eqb_refl. reflexivity.
  - destruct (String.eqb k' k) eqn:E; simpl; rewrite E; auto.
Qed.

Lemma obj_get_set_other (o : entries V) (k k' : string) (v : V) :
  k <> k' -> obj_get (obj_set o k v) k' = obj_get o k'.
Proof.
  intros Hne. induction o as [|[k0 v0] rest IH]; simpl.
  - destruct (String.eqb k k') eqn:E; [apply String.eqb_eq in E; congruence | reflexivity].
  - destruct (String.eqb k0 k) eqn:E; simpl.
    + apply String.eqb_eq in E. subst k0.
      destruct (String.eqb k k') eqn:E'; [apply String.eqb_eq in E'; congruence | reflexivity].
    + rewrite IH. reflexivity.
Qed.

Lemma obj_get_In (o : entries V) (k : string) (v : V) :
  obj_get o k = Some v -> In (k, v) o.
Proof.
  induction o as [|[k0 v0] rest IH]; simpl; [discriminate|].
  destruct (String.eqb k0 k) eqn:E.
  - apply String.eqb_eq in E. intros [= ->]. left. congruence.
  - auto.
Qed.

Lemma obj_get_None (o : entries V) (k : string) :
  obj_get o k = None <-> ~ In k (map fst o).
Proof.
  induction o as [|[k0 v0] rest IH]; simpl.
  - tauto.
  - destruct (String.eqb k0 k) eqn:E.
    + apply String.eqb_eq in E. split; [discriminate | intros Hn; exfalso; auto].
    + apply String.eqb_neq in E. rewrite IH. tauto.
Qed.

Lemma In_obj_get (o : entries V) (k : string) (v : V) :
  NoDup (map fst o) -> In (k, v) o -> obj_get o k = Some v.
Proof.
  induction o as [|[k0 v0] rest IH]; simpl; [tauto|].
  intros Hnd Hin. inversion Hnd as [|? ? Hnotin Hnd']; subst.
  destruct Hin as [[= -> ->] | Hin].
  - rewrite String.eqb_refl. reflexivity.
  - destruct (String.eqb k0 k) eqn:E; [|auto].
    apply String.eqb_eq in E. subst k0. exfalso. apply Hnotin.
    apply (in_map fst) in Hin. exact Hin.
Qed.

(** Writing a key keeps the keys where they are, or adds the key last. *)
Lemma obj_set_keys (o : entries V) (k : string) (v : V) :
  map fst (obj_set o k v) =
  if existsb (String.eqb k) (map fst o) then map fst o else map fst o ++ [k].
Proof.
  induction o as [|[k0 v0] rest IH]; simpl; [reflexivity|].
  rewrite (String.eqb_sym k k0).
  destruct (String.eqb k0 k) eqn:E; simpl; [reflexivity|].
  rewrite IH. destruct (existsb (String.eqb k) (map fst rest)); reflexivity.
Qed.

Lemma obj_set_NoDup (o : entries V) (k : string) (v : V) :
  NoDup (map fst o) -> NoDup (map fst (obj_set o k v)).
Proof.
  intros Hnd. rewrite obj_set_keys.
  destruct (existsb (String.eqb k) (map fst o)) eqn:E; [exact Hnd|].
  apply NoDup_app; [exact Hnd | repeat constructor; simpl; tauto |].
  intros x Hx [Hk|[]]. subst x.
  assert (Hex : existsb (String.eqb k) (map fst o) = true).
  { apply existsb_exists. exists k. split; [exact Hx | apply String.eqb_refl]. }
  congruence.
Qed.
End EntryFacts.

(* ================================================================== *)
(** * DividendView: the dividend filter and the sector aggregates *)

Lemma paysDividend_spec (stock : S.StockData) :
  DividendView.paysDividend stock = true <->
  exists y, S.dividend_yield stock = Some y /\ (0 <? y)%float = true.
Proof.
  unfold DividendView.paysDividend. destruct (S.dividend_yield stock) as [y|]; simpl.
  - split; [intros Hy; exists y; auto | intros [y' [[= <-] Hy]]; exact Hy].
  - split; [discriminate | intros [y [[=] _]]].
Qed.

Lemma accumulate_NoDup (l : list DividendView.DividendMetrics) (m : entries DividendView.SectorTotals) :
  NoDup (map fst m) -> NoDup (map fst (fold_left DividendView.accumulate l m)).
Proof.
  revert m. induction l as [|x l IH]; simpl; intros m Hm; [exact Hm|].
  apply IH. unfold DividendView.accumulate. apply obj_set_NoDup, Hm.
Qed.

Lemma accumulate_count (l : list DividendView.DividendMetrics)
      (m : entries DividendView.SectorTotals) (s : string) :
  countOf (fold_left DividendView.accumulate l m) s
  = countOf m s + length (filter (fun x => String.eqb (DividendView.sector x) s) l).
Proof.
  revert m. induction l as [|x l IH]; simpl; intros m; [lia|].
  rewrite IH. unfold DividendView.accumulate at 1. unfold countOf at 1.
  destruct (String.eqb (DividendView.sector x) s) eqn:E.
  - apply String.eqb_eq in E. subst s. rewrite obj_get_set_same. simpl.
    unfold countOf. destruct (obj_get m (DividendView.sector x)); simpl; lia.
  - apply String.eqb_neq in E. rewrite obj_get_set_other by exact E.
    fold (countOf m s). lia.
Qed.

(** C9: [calculateDividendMetrics] keeps a record exactly when its
    [dividend_yield] is a number strictly greater than 0: a yield of 0
    and a null yield are both dropped.  Every sector row computed from
    the result counts only the kept records of that sector, so a dropped
    record enters no aggregate. *)
Theorem C9_dividend_filter_is_strictly_positive_yield (stocks : list S.StockData) :
  Permutation (DividendView.calculateDividendMetrics stocks)
              (map DividendView.toMetrics (filter DividendView.paysDividend stocks))
  /\ (forall stock, In stock (filter DividendView.paysDividend stocks) <->
        In stock stocks /\ exists y, S.dividend_yield stock = Some y /\ (0 <? y)%float = true)
  /\ (forall stock, S.dividend_yield stock = Some 0%float \/ S.dividend_yield stock = None ->
        ~ In stock (filter DividendView.paysDividend stocks))
  /\ (forall row,
        In row (DividendView.calculateSectorAverages (DividendView.calculateDividendMetrics stocks)) ->
        DividendView.stockCount row
        = length (filter (fun stock => DividendView.paysDividend stock
                                       && String.eqb (S.sector stock) (DividendView.name row)) stocks))
  /\ DividendView.calculateSectorAverages (DividendView.calculateDividendMetrics stocks)
     = DividendView.calculateSectorAverages
         (DividendView.calculateDividendMetrics (filter DividendView.paysDividend stocks)).
Proof.
  split; [apply Array_sort_perm|].
  split; [intros stock; rewrite filter_In, paysDividend_spec; tauto|].
  split.
  { intros stock Hy Hin. apply filter_In in Hin. destruct Hin as [_ Hp].
    apply paysDividend_spec in Hp. destruct Hp as [y [Hy' Hpos]].
    destruct Hy as [Hy|Hy]; rewrite Hy in Hy'; [|discriminate].
    injection Hy' as <-. vm_compute in Hpos. discriminate. }
  split.
  { intros row Hrow. unfold DividendView.calculateSectorAverages in Hrow.
    apply Array_sort_In in Hrow. apply in_map_iff in Hrow.
    destruct Hrow as [[s d] [<- Hin]]. simpl.
    set (metrics := DividendView.calculateDividendMetrics stocks) in *.
    assert (Hget : obj_get (fold_left DividendView.accumulate metrics []) s = Some d).
    { apply In_obj_get; [apply accumulate_NoDup; constructor | exact Hin]. }
    pose proof (accumulate_count metrics [] s) as Hc.
    unfold countOf in Hc at 1. rewrite Hget in Hc. simpl in Hc. rewrite Hc.
    unfold metrics, DividendView.calculateDividendMetrics.
    rewrite (Permutation_length
               (Permutation_filter_compat _ _ _ (Array_sort_perm DividendView.byYieldDesc _))).
    generalize stocks as l. induction l as [|x l IH]; simpl; [reflexivity|].
    destruct (DividendView.paysDividend x); simpl; [|exact IH].
    destruct (String.eqb (S.sector x) s); simpl; rewrite IH; reflexivity. }
  unfold DividendView.calculateDividendMetrics. rewrite filter_idem. reflexivity.
Qed.

(* ================================================================== *)
(** * RiskReturnView: undefined metrics are reported as 0 *)

Lemma betaUsable_null_or_zero (beta : option float) :
  beta = None \/ beta = Some 0%float \/ beta = Some (-0)%float \/ beta = Some nan ->
  financialMetrics.betaUsable beta = false.
Proof. intros [->|[->|[->| ->]]]; reflexivity. Qed.

(** C10: every row emitted by the view's [calculateRiskReturnMetrics] is
    the row of an input record with its three changes present; in that
    row an undefined ([null]) Sharpe ratio is written as 0 and an
    undefined risk-adjusted return (beta null, zero or NaN) is written
    as 0, so the row of a ticker whose Sharpe ratio is undefined carries
    the same [sharpeRatio] as the row of one whose ratio is exactly 0. *)
Theorem C10_view_writes_zero_for_undefined (stocks : list S.StockData) :
  (forall row, In row (RiskReturnView.calculateRiskReturnMetrics stocks) <->
     exists stock, In stock stocks /\ RiskReturnView.hasReturns stock = true
                   /\ row = RiskReturnView.toRow stock)
  /\ (forall stock,
        financialMetrics.sharpeRatio (RiskReturnView.calculateStockMetrics stock) = None ->
        RiskReturnView.sharpeRatio (RiskReturnView.toRow stock) = 0%float)
  /\ (forall stock s,
        financialMetrics.sharpeRatio (RiskReturnView.calculateStockMetrics stock) = Some s ->
        RiskReturnView.sharpeRatio (RiskReturnView.toRow stock) = s)
  /\ (forall undefinedSharpe zeroSharpe,
        financialMetrics.sharpeRatio (RiskReturnView.calculateStockMetrics undefinedSharpe) = None ->
        financialMetrics.sharpeRatio (RiskReturnView.calculateStockMetrics zeroSharpe) = Some 0%float ->
        RiskReturnView.sharpeRatio (RiskReturnView.toRow undefinedSharpe)
        = RiskReturnView.sharpeRatio (RiskReturnView.toRow zeroSharpe))
  /\ (forall stock,
        financialMetrics.riskAdjustedReturn (RiskReturnView.calculateStockMetrics stock) = None ->
        RiskReturnView.riskAdjustedReturn (RiskReturnView.toRow stock) = 0%float)
  /\ (forall stock,
        S.beta stock = None \/ S.beta stock = Some 0%float ->
        financialMetrics.riskAdjustedReturn (RiskReturnView.calculateStockMetrics stock) = None
        /\ RiskReturnView.riskAdjustedReturn (RiskReturnView.toRow stock) = 0%float).
Proof.
  assert (Hs : forall stock,
             financialMetrics.sharpeRatio (RiskReturnView.calculateStockMetrics stock) = None ->
             RiskReturnView.sharpeRatio (RiskReturnView.toRow stock) = 0%float).
  { intros stock Hn. unfold RiskReturnView.toRow.
    cbn [RiskReturnView.sharpeRatio]. rewrite Hn. reflexivity. }
  assert (Hv : forall stock s,
             financialMetrics.sharpeRatio (RiskReturnView.calculateStockMetrics stock) = Some s ->
             RiskReturnView.sharpeRatio (RiskReturnView.toRow stock) = s).
  { intros stock s Hn. unfold RiskReturnView.toRow.
    cbn [RiskReturnView.sharpeRatio]. rewrite Hn. reflexivity. }
  assert (Hr : forall stock,
             financialMetrics.riskAdjustedReturn (RiskReturnView.calculateStockMetrics stock) = None ->
             RiskReturnView.riskAdjustedReturn (RiskReturnView.toRow stock) = 0%float).
  { intros stock Hn. unfold RiskReturnView.toRow.
    cbn [RiskReturnView.riskAdjustedReturn]. rewrite Hn. reflexivity. }
  split.
  { intros row. unfold RiskReturnView.calculateRiskReturnMetrics.
    rewrite Array_sort_In, in_map_iff. split.
    - intros [stock [<- Hin]]. apply filter_In in Hin. exists stock. tauto.
    - intros [stock [Hin [Hret ->]]]. exists stock. split; [reflexivity|].
      apply filter_In. tauto. }
  split; [exact Hs|]. split; [exact Hv|].
  split; [intros a b Ha Hb; rewrite (Hs a Ha), (Hv b _ Hb); reflexivity|].
  split; [exact Hr|].
  intros stock Hbeta.
  assert (Hnone : financialMetrics.riskAdjustedReturn (RiskReturnView.calculateStockMetrics stock) = None).
  { unfold RiskReturnView.calculateStockMetrics, financialMetrics.calculateRiskReturnMetrics.
    cbn [financialMetrics.riskAdjustedReturn].
    rewrite betaUsable_null_or_zero; [reflexivity | tauto]. }
  split; [exact Hnone | apply Hr, Hnone].
Qed.

(* ================================================================== *)
(** * CorrelationClusteringView: grouping by sector *)

Lemma inherited_spec (key : string) :
  inherited key = true <-> In key Object_prototype_keys.
Proof.
  unfold inherited. rewrite existsb_exists. split.
  - intros [k [Hin Heq]]. apply String.eqb_eq in Heq. subst k. exact Hin.
  - intros Hin. exists key. split; [exact Hin | apply String.eqb_refl].
Qed.

Lemma groupStep_Some (acc acc' : entries (list S.StockData)) (x : S.StockData) :
  CorrelationClusteringView.groupStep acc x = Some acc' ->
  exists members, acc' = obj_set acc (S.sector x) (members ++ [x])
                  /\ match obj_get acc (S.sector x) with
                     | Some m => members = m
                     | None => members = [] /\ inherited (S.sector x) = false
                     end.
Proof.
  unfold CorrelationClusteringView.groupStep.
  destruct (obj_get acc (S.sector x)) as [m|].
  - intros [= <-]. exists m. auto.
  - destruct (inherited (S.sector x)); [discriminate|].
    intros [= <-]. exists []. auto.
Qed.

Lemma groupFrom_NoDup (l : list S.StockData) (acc groups : entries (list S.StockData)) :
  CorrelationClusteringView.groupFrom acc l = Some groups ->
  NoDup (map fst acc) -> NoDup (map fst groups).
Proof.
  revert acc. induction l as [|x l IH]; cbn [CorrelationClusteringView.groupFrom]; intros acc Hg Hacc.
  - injection Hg as <-. exact Hacc.
  - destruct (CorrelationClusteringView.groupStep acc x) as [acc'|] eqn:Hstep; [|discriminate].
    apply groupStep_Some in Hstep. destruct Hstep as [members [-> _]].
    apply (IH _ Hg). apply obj_set_NoDup, Hacc.
Qed.

Lemma groupFrom_get (l : list S.StockData) (acc groups : entries (list S.StockData)) (s : string) :
  CorrelationClusteringView.groupFrom acc l = Some groups ->
  obj_get groups s =
  match obj_get acc s with
  | Some members => Some (members ++ membersOf s l)
  | None => match membersOf s l with
            | [] => None
            | members => Some members
            end
  end.
Proof.
  revert acc. induction l as [|x l IH]; cbn [CorrelationClusteringView.groupFrom]; intros acc Hg.
  - injection Hg as <-. simpl. destruct (obj_get acc s); [rewrite app_nil_r|]; reflexivity.
  - destruct (CorrelationClusteringView.groupStep acc x) as [acc'|] eqn:Hstep; [|discriminate].
    apply groupStep_Some in Hstep. destruct Hstep as [members [-> Hm]].
    rewrite (IH _ Hg). unfold membersOf. cbn [filter]. fold (membersOf s l).
    destruct (String.eqb (S.sector x) s) eqn:E.
    + apply String.eqb_eq in E. subst s. rewrite obj_get_set_same.
      destruct (obj_get acc (S.sector x)) as [m|].
      * subst members. rewrite <- app_assoc. reflexivity.
      * destruct Hm as [-> _]. reflexivity.
    + apply String.eqb_neq in E. rewrite obj_get_set_other by exact E. reflexivity.
Qed.

(** The grouping throws exactly when some record's sector is the name of
    a member of [Object.prototype]. *)
Lemma groupFrom_throws (l : list S.StockData) (acc : entries (list S.StockData)) :
  (forall k, In k (map fst acc) -> inherited k = false) ->
  CorrelationClusteringView.groupFrom acc l = None <->
  Exists (fun stock => inherited (S.sector stock) = true) l.
Proof.
  revert acc. induction l as [|x l IH]; cbn [CorrelationClusteringView.groupFrom]; intros acc Hown.
  - split; [discriminate | intros Hex; inversion Hex].
  - destruct (CorrelationClusteringView.groupStep acc x) as [acc'|] eqn:Hstep.
    + assert (Hx : inherited (S.sector x) = false).
      { apply groupStep_Some in Hstep. destruct Hstep as [members [_ Hm]].
        destruct (obj_get acc (S.sector x)) as [m|] eqn:G; [|tauto].
        apply Hown. apply obj_get_In in G. apply (in_map fst) in G. exact G. }
      rewrite IH.
      * split; [intros Hex; right; exact Hex|].
        intros Hex. inversion Hex as [? ? Hhead|? ? Htail]; subst; [congruence | exact Htail].
      * apply groupStep_Some in Hstep. destruct Hstep as [members [-> _]].
        intros k Hk. rewrite obj_set_keys in Hk.
        destruct (existsb (String.eqb (S.sector x)) (map fst acc)); [apply Hown, Hk|].
        apply in_app_or in Hk. destruct Hk as [Hk|[<-|[]]]; [apply Hown, Hk | exact Hx].
    + split; [intros _|reflexivity]. left.
      unfold CorrelationClusteringView.groupStep in Hstep.
      destruct (obj_get acc (S.sector x)); [discriminate|].
      destruct (inherited (S.sector x)); [reflexivity | discriminate].
Qed.

Lemma stocksBySector_throws (stocks : list S.StockData) :
  CorrelationClusteringView.stocksBySector stocks = None <->
  Exists (fun stock => inherited (S.sector stock) = true) stocks.
Proof. apply groupFrom_throws. intros k []. Qed.

(** The entry of a sector holds the records of that sector, in batch order. *)
Lemma stocksBySector_get (stocks : list S.StockData) (groups : entries (list S.StockData))
      (s : string) :
  CorrelationClusteringView.stocksBySector stocks = Some groups ->
  obj_get groups s =
  match membersOf s stocks with
  | [] => None
  | members => Some members
  end.
Proof. intros Hg. rewrite (groupFrom_get _ _ _ s Hg). reflexivity. Qed.

Lemma stocksBySector_NoDup (stocks : list S.StockData) (groups : entries (list S.StockData)) :
  CorrelationClusteringView.stocksBySector stocks = Some groups ->
  NoDup (map fst groups).
Proof. intros Hg. apply (groupFrom_NoDup _ _ _ Hg). constructor. Qed.

(** [Object.entries] lists every entry once. *)
Lemma insertIndexed_perm {V : Type} (i : N) (entry : string * V)
      (indexed : list (N * (string * V))) :
  Permutation (map snd (insertIndexed i entry indexed)) (entry :: map snd indexed).
Proof.
  induction indexed as [|[j e] rest IH]; cbn [insertIndexed]; [apply Permutation_refl|].
  destruct (i <? j)%N; [apply Permutation_refl|].
  cbn [map snd]. eapply Permutation_trans; [apply perm_skip, IH | apply perm_swap].
Qed.

Lemma Object_entries_perm {V : Type} (o : entries V) : Permutation (Object_entries o) o.
Proof.
  unfold Object_entries. induction o as [|entry o IH]; [apply Permutation_refl|].
  cbn [fold_right filter].
  destruct (arrayIndex (fst entry)).
  - eapply Permutation_trans.
    + apply Permutation_app_tail, insertIndexed_perm.
    + cbn [app]. apply perm_skip, IH.
  - eapply Permutation_trans; [apply Permutation_sym, Permutation_middle|].
    apply perm_skip, IH.
Qed.

Lemma Object_entries_distinct {V : Type} (o : entries V) :
  NoDup (map fst o) -> NoDup (map fst (Object_entries o)).
Proof.
  apply Permutation_NoDup, Permutation_map, Permutation_sym, Object_entries_perm.
Qed.

Lemma Object_entries_get {V : Type} (o : entries V) (key : string) :
  NoDup (map fst o) -> obj_get (Object_entries o) key = obj_get o key.
Proof.
  intros Hnd. destruct (obj_get o key) as [v|] eqn:G.
  - apply In_obj_get; [apply Object_entries_distinct, Hnd|].
    apply (Permutation_in _ (Permutation_sym (Object_entries_perm o))).
    apply obj_get_In, G.
  - apply obj_get_None. rewrite obj_get_None in G. intros Hin. apply G.
    apply (Permutation_in _ (Permutation_map fst (Object_entries_perm o))). exact Hin.
Qed.

(* ================================================================== *)
(** * CorrelationClusteringView: the cluster loop *)

Lemma slice_window {A : Type} (l : list A) (i n : nat) :
  slice l i (i + n) = firstn n (skipn i l).
Proof. unfold slice. replace (i + n - i) with n by lia. reflexivity. Qed.

Lemma clusterAt_Some sector sectorStocks correlations i c :
  CorrelationClusteringView.clusterAt sector sectorStocks correlations i = Some c ->
  CorrelationClusteringView.sector c = sector
  /\ CorrelationClusteringView.stocks c
     = map S.ticker (firstn CorrelationClusteringView.clusterSize (skipn i sectorStocks))
  /\ 2 <= length (firstn CorrelationClusteringView.clusterSize (skipn i sectorStocks))
  /\ CorrelationClusteringView.risk_score c
     = Math_min [100%float; (CorrelationClusteringView.avg_correlation c * 100)%float].
Proof.
  unfold CorrelationClusteringView.clusterAt. rewrite slice_window.
  destruct (Nat.ltb _ 2) eqn:E; [discriminate|].
  apply Nat.ltb_ge in E.
  destruct (CorrelationClusteringView.pairTotals _ _) as [totalCorr corrCount].
  intros [= <-]. simpl. auto.
Qed.

Lemma clusterAt_None sector sectorStocks correlations i :
  CorrelationClusteringView.clusterAt sector sectorStocks correlations i = None <->
  length (firstn CorrelationClusteringView.clusterSize (skipn i sectorStocks)) < 2.
Proof.
  unfold CorrelationClusteringView.clusterAt. rewrite slice_window.
  destruct (Nat.ltb _ 2) eqn:E.
  - apply Nat.ltb_lt in E. tauto.
  - apply Nat.ltb_ge in E.
    destruct (CorrelationClusteringView.pairTotals _ _) as [totalCorr corrCount].
    split; [discriminate | lia].
Qed.

Lemma clusterLoop_In fuel sector sectorStocks correlations i c :
  In c (CorrelationClusteringView.clusterLoop fuel sector sectorStocks correlations i) ->
  exists j, CorrelationClusteringView.clusterAt sector sectorStocks correlations j = Some c.
Proof.
  revert i. induction fuel as [|fuel IH]; simpl; intros i Hin; [tauto|].
  destruct (Nat.ltb i (length sectorStocks)); [|destruct Hin].
  destruct (CorrelationClusteringView.clusterAt sector sectorStocks correlations i) eqn:E.
  - destruct Hin as [<-|Hin]; [exists i; exact E | eapply IH, Hin].
  - eapply IH, Hin.
Qed.

(** The loop visits the consecutive groups of 5 of the list from index
    [i] on, and pushes a cluster for each one that has at least 2 members. *)
Lemma clusterLoop_groups fuel sector sectorStocks correlations i :
  map CorrelationClusteringView.stocks
      (CorrelationClusteringView.clusterLoop fuel sector sectorStocks correlations i)
  = map (map S.ticker)
        (keptGroups (groupsOf fuel CorrelationClusteringView.clusterSize (skipn i sectorStocks))).
Proof.
  revert i. induction fuel as [|fuel IH]; intros i; [reflexivity|].
  cbn [CorrelationClusteringView.clusterLoop groupsOf].
  destruct (Nat.ltb i (length sectorStocks)) eqn:Hi.
  - apply Nat.ltb_lt in Hi.
    destruct (skipn i sectorStocks) as [|y rest] eqn:Hskip.
    { apply (f_equal (@length _)) in Hskip. rewrite length_skipn in Hskip. simpl in Hskip. lia. }
    rewrite <- Hskip.
    assert (Hnext : skipn CorrelationClusteringView.clusterSize (skipn i sectorStocks)
                    = skipn (i + CorrelationClusteringView.clusterSize) sectorStocks).
    { rewrite skipn_skipn. f_equal. lia. }
    rewrite Hnext. unfold keptGroups. cbn [filter].
    destruct (CorrelationClusteringView.clusterAt sector sectorStocks correlations i) as [c|] eqn:E.
    + apply clusterAt_Some in E. destruct E as [_ [Hst [Hlen _]]].
      apply Nat.leb_le in Hlen. rewrite Hlen. cbn [map]. rewrite Hst. f_equal. apply IH.
    + apply clusterAt_None in E.
      destruct (Nat.leb 2 _) eqn:L; [apply Nat.leb_le in L; lia|]. apply IH.
  - apply Nat.ltb_ge in Hi. rewrite skipn_all2 by exact Hi. reflexivity.
Qed.

Lemma sectorClusters_groups (s : string) (sectorStocks : list S.StockData) :
  map CorrelationClusteringView.stocks (CorrelationClusteringView.sectorClusters (s, sectorStocks))
  = map (map S.ticker) (keptGroups (consecutiveGroups 5 sectorStocks)).
Proof. unfold CorrelationClusteringView.sectorClusters. apply clusterLoop_groups. Qed.

Lemma sectorClusters_sector (s : string) (sectorStocks : list S.StockData) c :
  In c (CorrelationClusteringView.sectorClusters (s, sectorStocks)) ->
  CorrelationClusteringView.sector c = s.
Proof.
  unfold CorrelationClusteringView.sectorClusters. intros Hin.
  apply clusterLoop_In in Hin. destruct Hin as [j Hj].
  apply clusterAt_Some in Hj. tauto.
Qed.

Lemma filter_all {A : Type} (f : A -> bool) (l : list A) :
  (forall x, In x l -> f x = true) -> filter f l = l.
Proof.
  induction l as [|x l IH]; simpl; intros Hall; [reflexivity|].
  rewrite (Hall x) by auto. f_equal. apply IH. auto.
Qed.

Lemma filter_none {A : Type} (f : A -> bool) (l : list A) :
  (forall x, In x l -> f x = false) -> filter f l = [].
Proof.
  induction l as [|x l IH]; simpl; intros Hall; [reflexivity|].
  rewrite (Hall x) by auto. apply IH. auto.
Qed.

Lemma clustersOf_flat_map (s : string) (groups : entries (list S.StockData)) :
  NoDup (map fst groups) ->
  clustersOf s (flat_map CorrelationClusteringView.sectorClusters groups)
  = match obj_get groups s with
    | Some members => CorrelationClusteringView.sectorClusters (s, members)
    | None => []
    end.
Proof.
  unfold clustersOf.
  induction groups as [|[k v] rest IH]; simpl; intros Hnd; [reflexivity|].
  inversion Hnd as [|? ? Hk Hrest]; subst.
  rewrite filter_app. destruct (String.eqb k s) eqn:E.
  - apply String.eqb_eq in E. subst k.
    rewrite IH by exact Hrest.
    replace (obj_get rest s) with (@None (list S.StockData))
      by (symmetry; apply obj_get_None; exact Hk).
    rewrite app_nil_r. apply filter_all.
    intros c Hc. apply sectorClusters_sector in Hc. rewrite Hc. apply String.eqb_refl.
  - rewrite IH by exact Hrest.
    rewrite filter_none; [reflexivity|].
    intros c Hc. apply sectorClusters_sector in Hc. rewrite Hc. exact E.
Qed.

(** The clusters of a sector in the output are, up to the final sort, the
    clusters the loop pushes for the records of that sector. *)
Lemma clustersOf_output (s : string) (stocks : list S.StockData)
      (clusters : list CorrelationClusteringView.ClusterData) :
  CorrelationClusteringView.calculateCorrelationClusters stocks = Some clusters ->
  Permutation (clustersOf s clusters)
              (CorrelationClusteringView.sectorClusters (s, membersOf s stocks)).
Proof.
  unfold CorrelationClusteringView.calculateCorrelationClusters.
  destruct (CorrelationClusteringView.stocksBySector stocks) as [groups|] eqn:Hg; [|discriminate].
  intros [= <-]. pose proof (stocksBySector_NoDup _ _ Hg) as Hnd.
  unfold clustersOf. eapply Permutation_trans.
  - apply Permutation_filter_compat, Array_sort_perm.
  - fold (clustersOf s (flat_map CorrelationClusteringView.sectorClusters (Object_entries groups))).
    rewrite clustersOf_flat_map by (apply Object_entries_distinct, Hnd).
    rewrite (Object_entries_get _ _ Hnd), (stocksBySector_get _ _ s Hg).
    destruct (membersOf s stocks); apply Permutation_refl.
Qed.

(** The call returns unless some record's sector is the name of a member
    of [Object.prototype]. *)
Lemma calculateCorrelationClusters_throws (stocks : list S.StockData) :
  CorrelationClusteringView.calculateCorrelationClusters stocks = None <->
  Exists (fun stock => inherited (S.sector stock) = true) stocks.
Proof.
  rewrite <- stocksBySector_throws.
  unfold CorrelationClusteringView.calculateCorrelationClusters.
  destruct (CorrelationClusteringView.stocksBySector stocks); split; congruence.
Qed.

(* ================================================================== *)
(** * Consecutive groups *)

Lemma groupsOf_concat {A : Type} (fuel n : nat) (l : list A) :
  length l <= fuel -> concat (groupsOf fuel (S n) l) = l.
Proof.
  revert l. induction fuel as [|fuel IH]; intros l Hl.
  - destruct l; [reflexivity | simpl in Hl; lia].
  - destruct l as [|x l]; [reflexivity|].
    cbn [groupsOf concat]. rewrite IH; [apply firstn_skipn|].
    rewrite length_skipn. simpl in *. lia.
Qed.


(* ================================================================== *)
(** * CorrelationClusteringView: which groups become clusters *)


Lemma length_7_inv {A : Type} (l : list A) :
  length l = 7 -> exists a b c d e f g, l = [a; b; c; d; e; f; g].
Proof.
  destruct l as [|a [|b [|c [|d [|e [|f [|g [|h l]]]]]]]]; simpl; intros Hl; try discriminate.
  exists a, b, c, d, e, f, g. reflexivity.
Qed.

Lemma clustersOf_groups (s : string) (stocks : list S.StockData)
      (clusters : list CorrelationClusteringView.ClusterData) :
  CorrelationClusteringView.calculateCorrelationClusters stocks = Some clusters ->
  Permutation
    (map CorrelationClusteringView.stocks (clustersOf s clusters))
    (map (map S.ticker) (keptGroups (consecutiveGroups 5 (membersOf s stocks)))).
Proof.
  intros Hret. rewrite <- sectorClusters_groups with (s := s).
  apply Permutation_map, (clustersOf_output _ _ _ Hret).
Qed.

(** When no sector is the name of a member of [Object.prototype] the call
    returns. *)
Lemma calculateCorrelationClusters_returns (stocks : list S.StockData) :
  Forall (fun stock => inherited (S.sector stock) = false) stocks ->
  exists clusters,
    CorrelationClusteringView.calculateCorrelationClusters stocks = Some clusters.
Proof.
  intros Hown.
  destruct (CorrelationClusteringView.calculateCorrelationClusters stocks) as [clusters|] eqn:E;
    [exists clusters; reflexivity|].
  apply calculateCorrelationClusters_throws, Exists_exists in E.
  destruct E as [stock [Hin Hs]]. rewrite Forall_forall in Hown.
  rewrite (Hown stock Hin) in Hs. discriminate Hs.
Qed.



(** C4 as stated fails: in [sevenTech] the sector has exactly 7 records
    and gets two clusters; the trailing two tickers form the second. *)
Lemma C4_seven_records_give_two_clusters :
  length (membersOf "Technology" sevenTech) = 7
  /\ map CorrelationClusteringView.stocks
         (clustersOf "Technology"
            (returned (CorrelationClusteringView.calculateCorrelationClusters sevenTech)))
     = [ ["AAA"; "BBB"; "CCC"; "DDD"; "EEE"]%string; ["FFF"; "GGG"]%string ].
Proof. vm_compute. split; reflexivity. Qed.

(** C4, amended: on a batch none of whose sectors is the name of a member
    of [Object.prototype] the call returns, and a sector with exactly 7
    records gets exactly two clusters, one holding its first 5 tickers in
    input order and one holding its trailing 2 tickers (a remainder of 2
    is kept). *)
Theorem C4_seven_records_two_clusters (stocks : list S.StockData) (s : string) :
  Forall (fun stock => ~ In (S.sector stock) Object_prototype_keys) stocks ->
  length (membersOf s stocks) = 7 ->
  exists clusters,
    CorrelationClusteringView.calculateCorrelationClusters stocks = Some clusters
    /\ Permutation
         (map CorrelationClusteringView.stocks (clustersOf s clusters))
         [ map S.ticker (firstn 5 (membersOf s stocks));
           map S.ticker (skipn 5 (membersOf s stocks)) ].
Proof.
  intros Hown Hlen.
  destruct (calculateCorrelationClusters_returns stocks) as [clusters Hret].
  { eapply Forall_impl; [|exact Hown]. intros stock Hs. cbv beta in Hs.
    destruct (inherited (S.sector stock)) eqn:E; [|reflexivity].
    apply inherited_spec in E. contradiction. }
  exists clusters. split; [exact Hret|].
  eapply Permutation_trans; [apply (clustersOf_groups _ _ _ Hret)|].
  destruct (length_7_inv _ Hlen) as [a [b [c [d [e [f [g ->]]]]]]].
  apply Permutation_refl.
Qed.

Lemma C4_seven_records_two_clusters_witness :
  exists clusters,
    CorrelationClusteringView.calculateCorrelationClusters sevenTech = Some clusters
    /\ Permutation
         (map CorrelationClusteringView.stocks (clustersOf "Technology" clusters))
         [ map S.ticker (firstn 5 (membersOf "Technology" sevenTech));
           map S.ticker (skipn 5 (membersOf "Technology" sevenTech)) ].
Proof.
  apply (C4_seven_records_two_clusters sevenTech "Technology"); [|reflexivity].
  repeat constructor; intros Hin; apply inherited_spec in Hin; discriminate Hin.
Defined.

(* ================================================================== *)
(** * binary64: signs and order of the primitive operations

    The axioms of [FloatAxioms] give each primitive operation as its
    [SpecFloat] counterpart; what follows derives, from those
    definitions, the few facts about signs and order the scoring code
    relies on. *)

Section Binary64.
Local Open Scope Z_scope.

Lemma digits2_pos_size (m : positive) : digits2_pos m = Pos.size m.
Proof. induction m; simpl; congruence. Qed.

Lemma Zdigits2_log2 (m : positive) : Zdigits2 (Zpos m) = Z.log2 (Zpos m) + 1.
Proof.
  unfold Zdigits2. rewrite digits2_pos_size.
  destruct m; simpl; lia.
Qed.

Lemma Zdigits2_pos_bounds (m : positive) :
  2 ^ (Zdigits2 (Zpos m) - 1) <= Zpos m < 2 ^ Zdigits2 (Zpos m).
Proof.
  rewrite Zdigits2_log2.
  replace (Z.log2 (Zpos m) + 1 - 1) with (Z.log2 (Zpos m)) by lia.
  apply Z.log2_spec. lia.
Qed.

Lemma Zdigits2_mono (a b : positive) :
  Zpos a <= Zpos b -> Zdigits2 (Zpos a) <= Zdigits2 (Zpos b).
Proof.
  intros Hab. rewrite !Zdigits2_log2.
  apply Z.add_le_mono_r, Z.log2_le_mono, Hab.
Qed.

Lemma Zdigits2_ge (m : positive) (k : Z) :
  0 <= k -> 2 ^ k <= Zpos m -> k + 1 <= Zdigits2 (Zpos m).
Proof.
  intros Hk Hm. rewrite Zdigits2_log2.
  apply Z.add_le_mono_r, Z.log2_le_pow2; [lia | exact Hm].
Qed.

(** Shifting right: the mantissa after [p] steps. *)
Lemma shr_1_m (mrs : shr_record) :
  0 <= shr_m mrs -> shr_m (shr_1 mrs) = shr_m mrs / 2.
Proof.
  destruct mrs as [m r s]. simpl. intros Hm.
  destruct m as [|[p|p|]|p]; simpl; try reflexivity; try lia.
  - rewrite Pos2Z.inj_xI. apply Z.div_unique with 1; lia.
  - rewrite Pos2Z.inj_xO. apply Z.div_unique with 0; lia.
Qed.

Lemma iter_pos_shr_1_m (p : positive) (mrs : shr_record) :
  0 <= shr_m mrs -> shr_m (iter_pos shr_1 p mrs) = shr_m mrs / 2 ^ Zpos p.
Proof.
  revert mrs. induction p as [p IH|p IH|]; intros mrs Hm; cbn [iter_pos].
  - assert (H1 : 0 <= shr_m (shr_1 mrs)) by (rewrite shr_1_m by exact Hm; apply Z.div_pos; lia).
    assert (H2 : 0 <= shr_m (iter_pos shr_1 p (shr_1 mrs)))
      by (rewrite IH by exact H1; apply Z.div_pos; [exact H1 | apply Z.pow_pos_nonneg; lia]).
    rewrite IH by exact H2. rewrite IH by exact H1. rewrite shr_1_m by exact Hm.
    rewrite !Z.div_div by (try apply Z.pow_pos_nonneg; lia).
    f_equal. replace (Zpos p~1) with (1 + Zpos p + Zpos p) by lia.
    rewrite !Z.pow_add_r by lia. lia.
  - assert (H2 : 0 <= shr_m (iter_pos shr_1 p mrs))
      by (rewrite IH by exact Hm; apply Z.div_pos; [exact Hm | apply Z.pow_pos_nonneg; lia]).
    rewrite IH by exact H2. rewrite IH by exact Hm.
    rewrite !Z.div_div by (try apply Z.pow_pos_nonneg; lia).
    f_equal. replace (Zpos p~0) with (Zpos p + Zpos p) by lia.
    rewrite !Z.pow_add_r by lia. lia.
  - rewrite shr_1_m by exact Hm. reflexivity.
Qed.

Lemma shr_record_of_loc_m (m : Z) (l : location) : shr_m (shr_record_of_loc m l) = m.
Proof. destruct l as [|[]]; reflexivity. Qed.

Lemma round_nearest_even_ge (m : Z) (l : location) :
  m <= round_nearest_even m l <= m + 1.
Proof.
  unfold round_nearest_even. destruct l as [|[]]; try lia.
  destruct (Z.even m); lia.
Qed.
(** Rounding a positive value that is at least the least subnormal never
    flushes it to zero. *)
Lemma shr_fexp_pos (m : positive) (e : Z) (l : location) :
  -1074 < Zdigits2 (Zpos m) + e ->
  exists m', shr_m (fst (shr_fexp prec emax (Zpos m) e l)) = Zpos m'
             /\ -1074 < Zdigits2 (Zpos m') + snd (shr_fexp prec emax (Zpos m) e l).
Proof.
  intros Hd. unfold shr_fexp, shr.
  set (d := Zdigits2 (Zpos m)) in *.
  assert (Hfexp : fexp prec emax (d + e) = Z.max (d + e - 53) (-1074)) by reflexivity.
  destruct (fexp prec emax (d + e) - e) as [|p|p] eqn:Hn.
  - exists m. cbn [fst snd]. rewrite shr_record_of_loc_m. auto.
  - cbn [fst snd]. rewrite iter_pos_shr_1_m by (rewrite shr_record_of_loc_m; lia).
    rewrite shr_record_of_loc_m.
    assert (Hp : Zpos p <= d - 1) by lia.
    assert (Hm : 2 ^ Zpos p <= Zpos m).
    { eapply Z.le_trans; [|apply Zdigits2_pos_bounds].
      apply Z.pow_le_mono_r; [lia | exact Hp]. }
    assert (Hq : 1 <= Zpos m / 2 ^ Zpos p).
    { apply Z.div_le_lower_bound; [apply Z.pow_pos_nonneg; lia | lia]. }
    destruct (Zpos m / 2 ^ Zpos p) as [|q|q] eqn:Hdiv; try lia.
    exists q. split; [reflexivity|].
    assert (1 <= Zdigits2 (Zpos q)) by (apply (Zdigits2_ge q 0); simpl; lia).
    lia.
  - exists m. cbn [fst snd]. rewrite shr_record_of_loc_m. auto.
Qed.

Lemma binary_round_aux_signed (sx : bool) (m : positive) (e : Z) (l : location) :
  -1074 < Zdigits2 (Zpos m) + e ->
  SFsigned sx (binary_round_aux prec emax sx (Zpos m) e l).
Proof.
  intros Hd. unfold binary_round_aux.
  destruct (shr_fexp_pos m e l Hd) as [m1 [Hm1 Hd1]].
  destruct (shr_fexp prec emax (Zpos m) e l) as [mrs1 e1]. cbn [fst snd] in Hm1, Hd1.
  rewrite Hm1.
  pose proof (round_nearest_even_ge (Zpos m1) (loc_of_shr_record mrs1)) as Hr.
  destruct (round_nearest_even (Zpos m1) (loc_of_shr_record mrs1)) as [|m2|m2]; try lia.
  assert (Hd2 : -1074 < Zdigits2 (Zpos m2) + e1).
  { pose proof (Zdigits2_mono m1 m2). lia. }
  destruct (shr_fexp_pos m2 e1 loc_Exact Hd2) as [m3 [Hm3 _]].
  destruct (shr_fexp prec emax (Zpos m2) e1 loc_Exact) as [mrs3 e3]. cbn [fst] in Hm3.
  rewrite Hm3. destruct (e3 <=? emax - prec); reflexivity.
Qed.
(** What validity says of a finite binary64 value. *)
Lemma valid_finite (s : bool) (m : positive) (e : Z) :
  valid_binary (S754_finite s m e) = true ->
  -1074 <= e <= 971 /\ Zdigits2 (Zpos m) <= 53 /\ (-1074 < e -> Zdigits2 (Zpos m) = 53).
Proof.
  unfold SpecFloat.valid_binary, bounded, canonical_mantissa.
  rewrite andb_true_iff, Z.eqb_eq, Z.leb_le.
  change (emax - prec) with 971.
  change (Zpos (digits2_pos m)) with (Zdigits2 (Zpos m)).
  assert (Hfexp : forall k, fexp prec emax k = Z.max (k - 53) (-1074)) by reflexivity.
  rewrite Hfexp. lia.
Qed.

Lemma pow2_pos (k : Z) : 0 <= k -> 0 < 2 ^ k.
Proof. intros Hk. apply Z.pow_pos_nonneg; lia. Qed.

Lemma finite_key_bounds (s : bool) (m : positive) (e : Z) :
  valid_binary (S754_finite s m e) = true ->
  0 < Zpos m * 2 ^ (e + 1074) < 2 ^ 2098.
Proof.
  intros Hv. apply valid_finite in Hv. destruct Hv as [He [Hd _]].
  pose proof (pow2_pos (e + 1074) ltac:(lia)) as Hpos.
  split; [apply Z.mul_pos_pos; lia|].
  pose proof (Zdigits2_pos_bounds m) as [_ Hm].
  assert (Hm53 : Zpos m < 2 ^ 53).
  { eapply Z.lt_le_trans; [exact Hm|]. apply Z.pow_le_mono_r; lia. }
  assert (He' : 2 ^ (e + 1074) <= 2 ^ 2045) by (apply Z.pow_le_mono_r; lia).
  replace 2098 with (53 + 2045) by lia. rewrite (Z.pow_add_r 2 53 2045) by lia.
  apply Z.le_lt_trans with (Zpos m * 2 ^ 2045).
  - apply Z.mul_le_mono_nonneg_l; lia.
  - apply Z.mul_lt_mono_pos_r; [apply pow2_pos; lia | exact Hm53].
Qed.

Lemma finite_key_lt (s1 s2 : bool) (m1 m2 : positive) (e1 e2 : Z) :
  valid_binary (S754_finite s1 m1 e1) = true ->
  valid_binary (S754_finite s2 m2 e2) = true ->
  e1 < e2 ->
  Zpos m1 * 2 ^ (e1 + 1074) < Zpos m2 * 2 ^ (e2 + 1074).
Proof.
  intros Hv1 Hv2 Hlt.
  apply valid_finite in Hv1. destruct Hv1 as [He1 [Hd1 _]].
  apply valid_finite in Hv2. destruct Hv2 as [He2 [_ Hd2]].
  specialize (Hd2 ltac:(lia)).
  pose proof (Zdigits2_pos_bounds m1) as [_ Hm1].
  pose proof (Zdigits2_pos_bounds m2) as [Hm2 _]. rewrite Hd2 in Hm2.
  assert (Hm1' : Zpos m1 < 2 ^ 53).
  { eapply Z.lt_le_trans; [exact Hm1|]. apply Z.pow_le_mono_r; lia. }
  pose proof (pow2_pos (e1 + 1074) ltac:(lia)) as Hp1.
  pose proof (pow2_pos (e2 + 1074) ltac:(lia)) as Hp2.
  apply Z.lt_le_trans with (2 ^ 53 * 2 ^ (e1 + 1074)).
  { apply Z.mul_lt_mono_pos_r; lia. }
  apply Z.le_trans with (2 ^ (53 - 1) * 2 ^ (e2 + 1074)).
  { rewrite <- !Z.pow_add_r by lia. apply Z.pow_le_mono_r; lia. }
  apply Z.mul_le_mono_nonneg_r; lia.
Qed.

Lemma finite_key_compare (s1 s2 : bool) (m1 m2 : positive) (e1 e2 : Z) :
  valid_binary (S754_finite s1 m1 e1) = true ->
  valid_binary (S754_finite s2 m2 e2) = true ->
  match e1 ?= e2 with
  | Lt => Lt
  | Gt => Gt
  | Eq => Pos.compare_cont Eq m1 m2
  end = (Zpos m1 * 2 ^ (e1 + 1074) ?= Zpos m2 * 2 ^ (e2 + 1074)).
Proof.
  intros Hv1 Hv2. destruct (Z.compare_spec e1 e2) as [Heq|Hlt|Hgt].
  - subst e2. apply valid_finite in Hv1.
    pose proof (pow2_pos (e1 + 1074) ltac:(lia)) as Hp.
    change (Pos.compare_cont Eq m1 m2) with (Pos.compare m1 m2).
    destruct (Pos.compare_spec m1 m2) as [Hm|Hm|Hm]; symmetry.
    + subst m2. apply Z.compare_refl.
    + apply Z.compare_lt_iff, Z.mul_lt_mono_pos_r; lia.
    + apply Z.compare_gt_iff, Z.mul_lt_mono_pos_r; lia.
  - symmetry. apply Z.compare_lt_iff. eapply finite_key_lt; eassumption.
  - symmetry. apply Z.compare_gt_iff. eapply finite_key_lt; eassumption.
Qed.

(** On valid values other than NaN, comparison is comparison of keys. *)
Lemma SFcompare_key (x y : spec_float) :
  valid_binary x = true -> valid_binary y = true ->
  x <> S754_nan -> y <> S754_nan ->
  SFcompare x y = Some (SFkey x ?= SFkey y).
Proof.
  intros Hvx Hvy Hx Hy.
  pose proof (pow2_pos 2098 ltac:(lia)) as Hbig.
  destruct x as [sx|sx| |sx mx ex], y as [sy|sy| |sy my ey]; try congruence;
    try (pose proof (finite_key_bounds _ _ _ Hvx) as Hkx);
    try (pose proof (finite_key_bounds _ _ _ Hvy) as Hky);
    cbn [SFcompare SFkey].
  all: try (destruct sx; try destruct sy; cbn [cond_Zopp]; f_equal; symmetry;
            first [ apply Z.compare_eq_iff; lia
                  | apply Z.compare_lt_iff; lia
                  | apply Z.compare_gt_iff; lia ]).
  all: try (destruct sy; cbn [cond_Zopp]; f_equal; symmetry;
            first [ apply Z.compare_eq_iff; lia
                  | apply Z.compare_lt_iff; lia
                  | apply Z.compare_gt_iff; lia ]).
  - destruct sx, sy; cbn [cond_Zopp]; f_equal.
    + rewrite Z.compare_opp, <- (finite_key_compare _ _ _ _ _ _ Hvy Hvx).
      rewrite (Z.compare_antisym ey ex).
      change (PosDef.Pos.compare_cont Eq mx my) with (Pos.compare_cont Eq mx my).
      rewrite (Pos.compare_cont_antisym mx my Eq).
      destruct (ey ?= ex); reflexivity.
    + symmetry. apply Z.compare_lt_iff. lia.
    + symmetry. apply Z.compare_gt_iff. lia.
    + apply (finite_key_compare _ _ _ _ _ _ Hvx Hvy).
Qed.
(** Aligning a mantissa to a smaller exponent multiplies it by a power of 2. *)
Lemma Pos_iter_xO (m d : positive) : Zpos (Pos.iter xO m d) = Zpos m * 2 ^ Zpos d.
Proof.
  change (Pos.iter xO m d) with (shift_pos d m). rewrite shift_pos_correct.
  change (Z.pow_pos 2 d) with (2 ^ Zpos d). lia.
Qed.

Lemma shl_align_fst (m : positive) (e e' : Z) :
  e' <= e -> Zpos (fst (shl_align m e e')) = Zpos m * 2 ^ (e - e').
Proof.
  intros Hle. unfold shl_align.
  destruct (e' - e) as [|d|d] eqn:Hd; cbn [fst]; try lia.
  - replace (e - e') with 0 by lia. lia.
  - rewrite Pos_iter_xO. f_equal. f_equal. lia.
Qed.

Lemma shl_align_digits (m : positive) (e e' : Z) :
  Zdigits2 (Zpos (fst (shl_align m e e'))) + snd (shl_align m e e') = Zdigits2 (Zpos m) + e.
Proof.
  unfold shl_align. destruct (e' - e) as [|d|d] eqn:Hd; cbn [fst snd]; try reflexivity.
  rewrite !Zdigits2_log2, Pos_iter_xO, Z.log2_mul_pow2 by lia. lia.
Qed.

Lemma binary_round_signed (s : bool) (m : positive) (e : Z) :
  -1074 < Zdigits2 (Zpos m) + e ->
  SFsigned s (binary_round prec emax s m e).
Proof.
  intros Hd. unfold binary_round.
  pose proof (shl_align_digits m e (fexp prec emax (Zpos (digits2_pos m) + e))) as Hal.
  destruct (shl_align m e (fexp prec emax (Zpos (digits2_pos m) + e))) as [mz ez].
  cbn [fst snd] in Hal. apply binary_round_aux_signed. lia.
Qed.

(** The sign of what [binary_normalize] returns is the sign of the integer. *)
Lemma binary_normalize_sign (M e : Z) :
  -1074 <= e ->
  match M with
  | Z0 => binary_normalize prec emax M e false = S754_zero false
  | Zpos _ => SFsigned false (binary_normalize prec emax M e false)
  | Zneg _ => SFsigned true (binary_normalize prec emax M e false)
  end.
Proof.
  intros He. destruct M as [|p|p]; cbn [binary_normalize]; [reflexivity| |];
    apply binary_round_signed;
    pose proof (Zdigits2_ge p 0 ltac:(lia) ltac:(simpl; lia)); lia.
Qed.

Lemma SFltb_zero_signed (s : bool) (r : spec_float) :
  SFsigned s r -> SFltb (S754_zero false) r = negb s /\ SFltb r (S754_zero false) = s.
Proof. destruct r as [| | |s' m e]; cbn; try tauto; intros ->; destruct s; auto. Qed.

Lemma cond_Zopp_mul (s : bool) (a b : Z) : cond_Zopp s a * b = cond_Zopp s (a * b).
Proof. destruct s; simpl; lia. Qed.

(** The difference is positive exactly when the key grows. *)
Lemma SFsub_positive (x y : spec_float) :
  valid_binary x = true -> valid_binary y = true ->
  x <> S754_nan -> y <> S754_nan ->
  SFltb (S754_zero false) (SFsub prec emax y x) = (SFkey x <? SFkey y).
Proof.
  intros Hvx Hvy Hx Hy.
  pose proof (pow2_pos 2098 ltac:(lia)) as Hbig.
  destruct x as [sx|sx| |sx mx ex], y as [sy|sy| |sy my ey]; try congruence;
    try (pose proof (finite_key_bounds _ _ _ Hvx) as Hkx);
    try (pose proof (finite_key_bounds _ _ _ Hvy) as Hky);
    cbn [SFsub SFkey].
  all: try (destruct sx; try destruct sy; cbn [cond_Zopp negb SFltb SFcompare];
            symmetry; first [apply Z.ltb_lt; lia | apply Z.ltb_ge; lia]).
  all: try (destruct sy; cbn [cond_Zopp negb SFltb SFcompare];
            symmetry; first [apply Z.ltb_lt; lia | apply Z.ltb_ge; lia]).
  pose proof (valid_finite _ _ _ Hvx) as [Hex _].
  pose proof (valid_finite _ _ _ Hvy) as [Hey _].
  set (ez := Z.min ey ex).
  set (M := cond_Zopp sy (Zpos (fst (shl_align my ey ez)))
            - cond_Zopp sx (Zpos (fst (shl_align mx ex ez)))).
  assert (HM : M * 2 ^ (ez + 1074)
               = cond_Zopp sy (Zpos my * 2 ^ (ey + 1074))
                 - cond_Zopp sx (Zpos mx * 2 ^ (ex + 1074))).
  { unfold M. rewrite !shl_align_fst by (unfold ez; lia).
    rewrite Z.mul_sub_distr_r, !cond_Zopp_mul, <- !Z.mul_assoc, <- !Z.pow_add_r
      by (unfold ez; lia).
    do 3 f_equal; f_equal; lia. }
  pose proof (pow2_pos (ez + 1074) ltac:(unfold ez; lia)) as Hpz.
  pose proof (binary_normalize_sign M ez ltac:(unfold ez; lia)) as Hn.
  clearbody M. set (kx := cond_Zopp sx (Zpos mx * 2 ^ (ex + 1074))) in *.
  set (ky := cond_Zopp sy (Zpos my * 2 ^ (ey + 1074))) in *.
  clearbody kx ky.
  destruct M as [|p|p].
  - rewrite Hn. cbn. symmetry. apply Z.ltb_ge. lia.
  - apply SFltb_zero_signed in Hn. destruct Hn as [-> _]. symmetry. apply Z.ltb_lt. nia.
  - apply SFltb_zero_signed in Hn. destruct Hn as [-> _]. symmetry. apply Z.ltb_ge. nia.
Qed.
(** ** The same facts on primitive floats *)

Lemma is_nan_Prim2SF (x : float) : is_nan x = true <-> Prim2SF x = S754_nan.
Proof.
  unfold is_nan. rewrite eqb_spec. unfold SFeqb.
  destruct (Prim2SF x) as [s|s| |s m e] eqn:E.
  - cbn. split; discriminate.
  - destruct s; cbn; split; discriminate.
  - cbn. tauto.
  - rewrite (SFcompare_key (S754_finite s m e) (S754_finite s m e))
      by (try (rewrite <- E; apply Prim2SF_valid); discriminate).
    rewrite Z.compare_refl. cbn. split; discriminate.
Qed.

Lemma not_nan_Prim2SF (x : float) : is_nan x = false <-> Prim2SF x <> S754_nan.
Proof.
  rewrite <- is_nan_Prim2SF. destruct (is_nan x); split; congruence.
Qed.

Lemma ltb_key (x y : float) :
  is_nan x = false -> is_nan y = false ->
  (x <? y)%float = (floatKey x <? floatKey y).
Proof.
  intros Hx Hy. apply not_nan_Prim2SF in Hx, Hy.
  rewrite ltb_spec. unfold SFltb, floatKey.
  rewrite SFcompare_key by (try apply Prim2SF_valid; assumption).
  unfold Z.ltb. destruct (SFkey (Prim2SF x) ?= SFkey (Prim2SF y)); reflexivity.
Qed.

Lemma leb_key (x y : float) :
  is_nan x = false -> is_nan y = false ->
  (x <=? y)%float = (floatKey x <=? floatKey y).
Proof.
  intros Hx Hy. apply not_nan_Prim2SF in Hx, Hy.
  rewrite leb_spec. unfold SFleb, floatKey.
  rewrite SFcompare_key by (try apply Prim2SF_valid; assumption).
  unfold Z.leb. destruct (SFkey (Prim2SF x) ?= SFkey (Prim2SF y)); reflexivity.
Qed.

(** [b - a > 0] exactly when [a < b]: the comparator [(a, b) => b - a]
    orders any two numbers the way [<] does. *)
Lemma sub_positive_key (x y : float) :
  is_nan x = false -> is_nan y = false ->
  (0 <? y - x)%float = (floatKey x <? floatKey y).
Proof.
  intros Hx Hy. apply not_nan_Prim2SF in Hx, Hy.
  rewrite ltb_spec, sub_spec.
  change (Prim2SF 0) with (S754_zero false).
  apply SFsub_positive; try apply Prim2SF_valid; assumption.
Qed.
Lemma SFmul_comm (x y : spec_float) : SF64mul x y = SF64mul y x.
Proof.
  unfold SF64mul.
  destruct x as [sx|sx| |sx mx ex], y as [sy|sy| |sy my ey]; cbn [SFmul];
    rewrite ?(xorb_comm sx sy), ?(Pos.mul_comm mx my), ?(Z.add_comm ex ey); reflexivity.
Qed.

Lemma float_mul_comm (x y : float) : (x * y)%float = (y * x)%float.
Proof. apply Prim2SF_inj. rewrite !mul_spec. apply SFmul_comm. Qed.
(** A negative number times 100 is negative: the product of two non-zero
    numbers of which one is at least 1 does not underflow to zero. *)
Lemma SFltb_zero_inv (r : spec_float) :
  SFltb r (S754_zero false) = true -> SFsigned true r.
Proof. destruct r as [s|s| |s m e]; cbn; try discriminate; destruct s; auto; discriminate. Qed.

Lemma SFmul_100_negative (x : spec_float) :
  valid_binary x = true -> SFsigned true x ->
  SFsigned true (SF64mul x (S754_finite false 7036874417766400 (-46))).
Proof.
  intros Hv Hs. destruct x as [s|s| |s m e]; cbn in Hs; try contradiction; subst s.
  - reflexivity.
  - unfold SF64mul. cbn [SFmul xorb].
    apply binary_round_aux_signed.
    apply valid_finite in Hv. destruct Hv as [He _].
    assert (Hp : 2 ^ 52 <= Zpos (m * 7036874417766400)).
    { rewrite Pos2Z.inj_mul. change (2 ^ 52) with 4503599627370496. lia. }
    pose proof (Zdigits2_ge _ 52 ltac:(lia) Hp). lia.
Qed.

Lemma mul_100_negative (x : float) :
  (x <? 0)%float = true -> (x * 100 <? 0)%float = true.
Proof.
  rewrite !ltb_spec, mul_spec.
  change (Prim2SF 0) with (S754_zero false).
  change (Prim2SF 100) with (S754_finite false 7036874417766400 (-46)).
  intros Hneg. apply SFltb_zero_inv in Hneg.
  apply (SFmul_100_negative _ (Prim2SF_valid x)) in Hneg.
  apply SFltb_zero_signed in Hneg. tauto.
Qed.

Lemma ltb_not_nan (x y : float) :
  (x <? y)%float = true -> is_nan x = false /\ is_nan y = false.
Proof.
  rewrite ltb_spec. intros Hlt.
  split; apply not_nan_Prim2SF; intros E; rewrite E in Hlt;
    [|destruct (Prim2SF x)]; discriminate.
Qed.
(** ** Exact cases of subtraction and division *)

Lemma SFsub_self (x : spec_float) :
  match x with
  | S754_zero _ | S754_finite _ _ _ => SF64sub x x = S754_zero false
  | _ => True
  end.
Proof.
  unfold SF64sub. destruct x as [s|s| |s m e]; cbn [SFsub]; trivial.
  - destruct s; reflexivity.
  - rewrite Z.sub_diag. reflexivity.
Qed.

Lemma div_eucl_shiftl_self (m : positive) (k : Z) :
  0 <= k -> Z.div_eucl (Z.shiftl (Zpos m) k) (Zpos m) = (2 ^ k, 0).
Proof.
  intros Hk. rewrite Z.shiftl_mul_pow2 by exact Hk.
  pose proof (Z.div_mul (2 ^ k) (Zpos m) ltac:(lia)) as Hq.
  pose proof (Z.mod_mul (2 ^ k) (Zpos m) ltac:(lia)) as Hr.
  rewrite (Z.mul_comm (2 ^ k)) in Hq, Hr.
  rewrite (Z.mul_comm (Zpos m)) in Hq, Hr.
  unfold Z.div, Z.modulo in Hq, Hr.
  rewrite (Z.mul_comm (Zpos m)).
  destruct (Z.div_eucl (2 ^ k * Zpos m) (Zpos m)) as [q r]. congruence.
Qed.

(** A finite non-zero number divided by itself is exactly 1. *)
Lemma SFdiv_self (s : bool) (m : positive) (e : Z) :
  SF64div (S754_finite s m e) (S754_finite s m e) = S754_finite false 4503599627370496 (-52).
Proof.
  unfold SF64div. cbn [SFdiv]. unfold SFdiv_core_binary.
  rewrite !Z.sub_diag.
  change (Z.min (fexp prec emax 0) 0) with (-53).
  change (0 - -53) with 53. cbv iota.
  change (IntDef.Z.div_eucl (IntDef.Z.shiftl (Zpos m) 53) (Zpos m))
    with (Z.div_eucl (Z.shiftl (Zpos m) 53) (Zpos m)).
  rewrite (div_eucl_shiftl_self m 53) by lia.
  assert (Hloc : new_location (Zpos m) 0 = loc_Exact).
  { unfold new_location. destruct (Z.even (Zpos m)); reflexivity. }
  rewrite Hloc. destruct s; reflexivity.
Qed.
Lemma SFltb_zero_pos_inv (r : spec_float) :
  SFltb (S754_zero false) r = true -> SFsigned false r.
Proof. destruct r as [s|s| |s m e]; cbn; try discriminate; destruct s; auto; discriminate. Qed.

(** [x - x] is [+0] for every finite [x]. *)
Lemma sub_self_finite (x y : float) :
  (neg_infinity <? x)%float = true -> (x <? y)%float = true -> (x - x)%float = 0%float.
Proof.
  rewrite !ltb_spec. change (Prim2SF neg_infinity) with (S754_infinity true).
  intros Hlow Hhigh. apply Prim2SF_inj. rewrite sub_spec.
  change (Prim2SF 0) with (S754_zero false).
  pose proof (SFsub_self (Prim2SF x)) as Hself.
  destruct (Prim2SF x) as [s|s| |s m e]; try exact Hself.
  - destruct s; [discriminate Hlow|].
    destruct (Prim2SF y) as [s'|s'| |s' m' e']; try destruct s'; discriminate Hhigh.
  - discriminate Hlow.
Qed.

(** [+0 / d] is [+0] for every positive [d], an infinite one included. *)
Lemma div_zero_positive (d : float) :
  (0 <? d)%float = true -> (0 / d)%float = 0%float.
Proof.
  rewrite ltb_spec. change (Prim2SF 0) with (S754_zero false).
  intros Hpos. apply SFltb_zero_pos_inv in Hpos.
  apply Prim2SF_inj. rewrite div_spec.
  change (Prim2SF 0) with (S754_zero false).
  destruct (Prim2SF d) as [s|s| |s m e]; cbn in Hpos; try contradiction; subst s; reflexivity.
Qed.

(** [d / d] is 1 for every positive finite [d]. *)
Lemma div_self_positive (d : float) :
  (0 <? d)%float = true -> (d <? infinity)%float = true -> (d / d)%float = 1%float.
Proof.
  rewrite !ltb_spec. change (Prim2SF 0) with (S754_zero false).
  change (Prim2SF infinity) with (S754_infinity false).
  intros Hpos Hfin. apply SFltb_zero_pos_inv in Hpos.
  apply Prim2SF_inj. rewrite div_spec.
  change (Prim2SF 1) with (S754_finite false 4503599627370496 (-52)).
  destruct (Prim2SF d) as [s|s| |s m e]; cbn in Hpos; try contradiction; subst s.
  - discriminate Hfin.
  - apply SFdiv_self.
Qed.
End Binary64.

(* ================================================================== *)
(** * binary64: rounding to nearest

    [binary_round_aux] shifts the mantissa right, keeping track of where
    the exact value lies between two neighbours, and rounds to the
    nearer one.  What follows shows that the result is a nearest
    binary64 value of the exact result, for [+], [-], [*] and [/], and
    that rounding to nearest keeps the order of the exact results. *)

Section Rounding.
Local Open Scope Z_scope.

Lemma loc_of_shr_record_of_loc (m : Z) (l : location) :
  loc_of_shr_record (shr_record_of_loc m l) = l.
Proof. destruct l as [|[]]; reflexivity. Qed.

(** One step to the right halves the mantissa; the bit that leaves it
    and the position so far give the new position. *)
Lemma shr_1_parity (m : Z) (l : location) :
  0 <= m ->
  shr_1 (shr_record_of_loc m l)
  = shr_record_of_loc (m / 2)
      (match m mod 2, l with
       | 0, loc_Exact => loc_Exact
       | 0, _ => loc_Inexact Lt
       | _, loc_Exact => loc_Inexact Eq
       | _, _ => loc_Inexact Gt
       end).
Proof.
  intros Hm.
  assert (Hodd : forall p, Zpos p~1 / 2 = Zpos p /\ Zpos p~1 mod 2 = 1).
  { intros p. rewrite Pos2Z.inj_xI. split; symmetry;
      [apply Z.div_unique with 1 | apply Z.mod_unique with (Zpos p)]; lia. }
  assert (Heven : forall p, Zpos p~0 / 2 = Zpos p /\ Zpos p~0 mod 2 = 0).
  { intros p. rewrite Pos2Z.inj_xO. split; symmetry;
      [apply Z.div_unique with 0 | apply Z.mod_unique with (Zpos p)]; lia. }
  destruct m as [|[p|p|]|p]; try lia.
  - destruct l as [|[]]; reflexivity.
  - destruct (Hodd p) as [-> ->]. destruct l as [|[]]; reflexivity.
  - destruct (Heven p) as [-> ->]. destruct l as [|[]]; reflexivity.
  - destruct l as [|[]]; reflexivity.
Qed.

Lemma shr_1_location (m rem Q : Z) :
  0 <= m -> 0 <= rem < Q ->
  shr_1 (shr_record_of_loc m (locationOf rem Q))
  = shr_record_of_loc (m / 2) (locationOf (m mod 2 * Q + rem) (2 * Q)).
Proof.
  intros Hm Hrem. rewrite shr_1_parity by exact Hm. f_equal.
  pose proof (Z.mod_pos_bound m 2 ltac:(lia)) as Hmod.
  unfold locationOf.
  destruct (rem =? 0) eqn:E0; [apply Z.eqb_eq in E0 | apply Z.eqb_neq in E0].
  - subst rem. rewrite Z.add_0_r.
    destruct (m mod 2) as [|[| |]|] eqn:Em; try lia.
    + reflexivity.
    + replace (1 * Q =? 0) with false by (symmetry; apply Z.eqb_neq; lia).
      replace (2 * (1 * Q) ?= 2 * Q) with Eq by (symmetry; apply Z.compare_eq_iff; lia).
      reflexivity.
  - destruct (m mod 2) as [|[| |]|] eqn:Em; try lia.
    + rewrite Z.mul_0_l, Z.add_0_l.
      replace (rem =? 0) with false by (symmetry; apply Z.eqb_neq; lia).
      replace (2 * rem ?= 2 * Q) with Lt by (symmetry; apply Z.compare_lt_iff; lia).
      reflexivity.
    + replace (1 * Q + rem =? 0) with false by (symmetry; apply Z.eqb_neq; lia).
      replace (2 * (1 * Q + rem) ?= 2 * Q) with Gt by (symmetry; apply Z.compare_gt_iff; lia).
      reflexivity.
Qed.

(** Two shifts in a row are one shift. *)
Lemma shift_twice (a b m rem Q : Z) :
  0 < a -> 0 < b -> 0 <= m -> 0 <= rem < Q ->
  m / a / b = m / (a * b)
  /\ (m / a) mod b * (a * Q) + (m mod a * Q + rem) = m mod (a * b) * Q + rem
  /\ 0 <= m / a /\ 0 <= m mod a * Q + rem < a * Q.
Proof.
  intros Ha Hb Hm Hrem.
  pose proof (Z.mod_pos_bound m a Ha) as Hmod.
  split; [apply Z.div_div; lia|]. split; [|split].
  - rewrite (Z.rem_mul_r m a b) by lia. ring.
  - apply Z.div_pos; lia.
  - nia.
Qed.

(** [p] steps to the right. *)
Lemma iter_shr_1_location (p : positive) (m rem Q : Z) :
  0 <= m -> 0 <= rem < Q ->
  iter_pos shr_1 p (shr_record_of_loc m (locationOf rem Q))
  = shr_record_of_loc (m / 2 ^ Zpos p)
      (locationOf (m mod 2 ^ Zpos p * Q + rem) (2 ^ Zpos p * Q)).
Proof.
  revert m rem Q. induction p as [p IH|p IH|]; intros m rem Q Hm Hrem; cbn [iter_pos].
  - pose proof (Z.pow_pos_nonneg 2 (Zpos p) ltac:(lia) ltac:(lia)) as Hpow.
    rewrite shr_1_location by assumption.
    destruct (shift_twice 2 (2 ^ Zpos p) m rem Q ltac:(lia) Hpow Hm Hrem) as [E1 [E2 [H1 H2]]].
    rewrite IH by (assumption || lia).
    destruct (shift_twice (2 ^ Zpos p) (2 ^ Zpos p) (m / 2) (m mod 2 * Q + rem) (2 * Q)
                Hpow Hpow H1 ltac:(lia)) as [E3 [E4 [H3 H4]]].
    rewrite IH by (assumption || lia).
    destruct (shift_twice 2 (2 ^ Zpos p * 2 ^ Zpos p) m rem Q ltac:(lia) ltac:(lia) Hm Hrem)
      as [E5 [E6 _]].
    replace (Zpos p~1) with (1 + Zpos p + Zpos p) by lia.
    rewrite !Z.pow_add_r by lia. change (2 ^ 1) with 2.
    f_equal; [rewrite E3, E5; f_equal; ring|].
    f_equal; [|ring].
    rewrite E4. rewrite <- Z.mul_assoc, <- E6. ring.
  - pose proof (Z.pow_pos_nonneg 2 (Zpos p) ltac:(lia) ltac:(lia)) as Hpow.
    rewrite IH by assumption.
    destruct (shift_twice (2 ^ Zpos p) (2 ^ Zpos p) m rem Q Hpow Hpow Hm Hrem)
      as [E3 [E4 [H3 H4]]].
    rewrite IH by (assumption || lia).
    replace (Zpos p~0) with (Zpos p + Zpos p) by lia.
    rewrite !Z.pow_add_r by lia.
    f_equal; [exact E3|]. f_equal; [|ring].
    rewrite <- E4. ring.
  - rewrite shr_1_location by assumption. reflexivity.
Qed.
End Rounding.

Section RoundingCore.
Local Open Scope Z_scope.

Lemma fexp_eq (k : Z) : fexp prec emax k = Z.max (k - 53) (-1074).
Proof. reflexivity. Qed.

Lemma Zdigits2_bounds (m : Z) :
  0 <= m ->
  0 <= Zdigits2 m /\ m < 2 ^ Zdigits2 m /\ (0 < m -> 2 ^ (Zdigits2 m - 1) <= m).
Proof.
  intros Hm. destruct m as [|p|p]; try lia.
  - cbn. lia.
  - pose proof (Zdigits2_pos_bounds p) as [H1 H2].
    assert (0 < Zdigits2 (Zpos p)) by (rewrite Zdigits2_log2; pose proof (Z.log2_nonneg (Zpos p)); lia).
    lia.
Qed.

(** The first shift of [binary_round_aux]. *)
Lemma shr_fexp_location (m e rem Q : Z) :
  0 <= m -> 0 <= rem < Q ->
  let n := fexp prec emax (Zdigits2 m + e) - e in
  0 <= n ->
  shr_fexp prec emax m e (locationOf rem Q)
  = (shr_record_of_loc (m / 2 ^ n) (locationOf (m mod 2 ^ n * Q + rem) (2 ^ n * Q)), e + n).
Proof.
  intros Hm Hrem n Hn. unfold shr_fexp, shr. fold n.
  destruct n as [|p|p] eqn:En; try lia.
  - rewrite Z.pow_0_r, Z.div_1_r, Z.mod_1_r, Z.mul_0_l, Z.add_0_l, Z.mul_1_l, Z.add_0_r.
    reflexivity.
  - rewrite iter_shr_1_location by assumption. reflexivity.
Qed.

(** Rounding to nearest moves the mantissa by at most half a step. *)
Lemma round_nearest_even_location (m rem D : Z) :
  0 <= rem < D ->
  let m2 := round_nearest_even m (locationOf rem D) in
  m <= m2 <= m + 1 /\ 2 * Z.abs (m2 * D - (m * D + rem)) <= D.
Proof.
  intros Hrem. unfold locationOf, round_nearest_even.
  destruct (rem =? 0) eqn:E0; [apply Z.eqb_eq in E0 | apply Z.eqb_neq in E0].
  - cbv zeta. split; [lia|]. subst rem. replace (m * D - (m * D + 0)) with 0 by ring. simpl. lia.
  - destruct (2 * rem ?= D) eqn:Ec.
    + apply Z.compare_eq_iff in Ec; cbv beta in Ec. destruct (Z.even m); cbv zeta; (split; [lia|]).
      * replace (m * D - (m * D + rem)) with (- rem) by ring. lia.
      * replace ((m + 1) * D - (m * D + rem)) with (D - rem) by ring. lia.
    + rewrite Z.compare_lt_iff in Ec. cbv zeta. split; [lia|].
      replace (m * D - (m * D + rem)) with (- rem) by ring. lia.
    + rewrite Z.compare_gt_iff in Ec. cbv zeta. split; [lia|].
      replace ((m + 1) * D - (m * D + rem)) with (D - rem) by ring. lia.
Qed.

Lemma pow2_le (a b : Z) : 0 <= a <= b -> 2 ^ a <= 2 ^ b.
Proof. intros H. apply Z.pow_le_mono_r; lia. Qed.

Lemma pow2_split (a b : Z) : 0 <= a -> 0 <= b -> 2 ^ (a + b) = 2 ^ a * 2 ^ b.
Proof. intros. apply Z.pow_add_r; lia. Qed.

(** The second shift of [binary_round_aux] and its test for overflow. *)
Lemma binary_round_aux_finish (sx : bool) (m2 e1 : Z) :
  0 <= m2 <= 2 ^ 53 -> -1074 <= e1 -> (-1074 < e1 -> 2 ^ 52 <= m2) ->
  let r :=
    let '(mrs, e2) := shr_fexp prec emax m2 e1 loc_Exact in
    match shr_m mrs with
    | Z0 => S754_zero sx
    | Zpos m => if e2 <=? emax - prec then S754_finite sx m e2 else S754_infinity sx
    | Zneg _ => S754_nan
    end in
  r <> S754_nan
  /\ SFkey r = cond_Zopp sx (Z.min (2 ^ 2098) (m2 * 2 ^ (e1 + 1074))).
Proof.
  intros Hm2 He1 Hnormal.
  change (emax - prec) with 971.
  pose proof (pow2_pos (e1 + 1074) ltac:(lia)) as Hgrid.
  assert (Hcap : forall a, 972 <= a -> 2 ^ 2098 <= 2 ^ 52 * 2 ^ (a + 1074)).
  { intros a Ha. rewrite <- pow2_split by lia. apply pow2_le. lia. }
  assert (Hfit : forall a, -1074 <= a <= 971 -> 2 ^ 53 * 2 ^ (a + 1074) <= 2 ^ 2098).
  { intros a Ha. rewrite <- pow2_split by lia. apply pow2_le. lia. }
  destruct (Z.eq_dec m2 (2 ^ 53)) as [Etop|Etop].
  - assert (Hkey : Zpos 4503599627370496 * 2 ^ (e1 + 1 + 1074) = m2 * 2 ^ (e1 + 1074)).
    { rewrite Etop. replace (e1 + 1 + 1074) with (1 + (e1 + 1074)) by lia.
      rewrite pow2_split by lia. change (2 ^ 53) with (4503599627370496 * 2 ^ 1). ring. }
    assert (Hs : shr_fexp prec emax m2 e1 loc_Exact
                 = ({| shr_m := Zpos 4503599627370496; shr_r := false; shr_s := false |},
                    e1 + 1)).
    { rewrite Etop. unfold shr_fexp, shr.
      change (Zdigits2 (2 ^ 53)) with 54. rewrite fexp_eq.
      replace (Z.max (54 + e1 - 53) (-1074) - e1) with 1 by lia. reflexivity. }
    cbv zeta. rewrite Hs. cbn [shr_m].
    destruct (e1 + 1 <=? 971) eqn:Ee; [apply Z.leb_le in Ee | apply Z.leb_gt in Ee];
      (split; [discriminate|]); cbn [SFkey].
    + rewrite Hkey.
      assert (m2 * 2 ^ (e1 + 1074) < 2 ^ 2098).
      { rewrite Etop.
        replace (2 ^ 2098) with (2 ^ 53 * 2 ^ 2045) by (rewrite <- pow2_split by lia; reflexivity).
        apply Z.mul_lt_mono_pos_l; [reflexivity|]. apply Z.pow_lt_mono_r; lia. }
      rewrite Z.min_r by lia. reflexivity.
    + assert (2 ^ 2098 <= m2 * 2 ^ (e1 + 1074)).
      { rewrite Etop.
        replace (2 ^ 2098) with (2 ^ 53 * 2 ^ 2045) by (rewrite <- pow2_split by lia; reflexivity).
        apply Z.mul_le_mono_nonneg_l; [discriminate|]. apply pow2_le. lia. }
      rewrite Z.min_l by lia. reflexivity.
  - assert (Hlt : m2 < 2 ^ 53) by lia.
    destruct (Zdigits2_bounds m2 ltac:(lia)) as [Hd0 [Hd1 Hd2]].
    assert (Hd : Zdigits2 m2 <= 53).
    { destruct (Z.eq_dec m2 0) as [->|Hnz]; [cbn; lia|].
      specialize (Hd2 ltac:(lia)).
      destruct (Z_le_gt_dec (Zdigits2 m2) 53) as [Hle|Hgt]; [exact Hle|].
      pose proof (pow2_le 53 (Zdigits2 m2 - 1) ltac:(lia)). lia. }
    unfold shr_fexp, shr. rewrite fexp_eq.
    destruct (Z.max (Zdigits2 m2 + e1 - 53) (-1074) - e1) as [|p|p] eqn:En; try lia;
      cbn [shr_record_of_loc shr_m]; cbv zeta.
    all: destruct m2 as [|p2|p2]; try lia.
    all: try (split; [discriminate|]; cbn [SFkey]; rewrite Z.mul_0_l, Z.min_r by lia;
              destruct sx; reflexivity).
    all: destruct (e1 <=? 971) eqn:Ee; [apply Z.leb_le in Ee | apply Z.leb_gt in Ee];
      (split; [discriminate|]); cbn [SFkey].
    all: try (pose proof (Hfit e1 ltac:(lia)) as Hf;
              assert (Zpos p2 * 2 ^ (e1 + 1074) < 2 ^ 2098) by nia;
              rewrite Z.min_r by lia; reflexivity).
    all: pose proof (Hcap e1 ltac:(lia)) as Hc; specialize (Hnormal ltac:(lia));
      assert (2 ^ 2098 <= Zpos p2 * 2 ^ (e1 + 1074)) by nia;
      rewrite Z.min_l by lia; reflexivity.
Qed.

Lemma locationOf_exact : locationOf 0 1 = loc_Exact.
Proof. reflexivity. Qed.

(** What [binary_round_aux] returns, for a value given as the mantissa
    [m] and the remainder [rem] out of [Q] at exponent [e]: with
    [N = m * Q + rem] and [D] the number of [Q]-ths in a step of the
    grid the value is rounded on, the rounded mantissa [m2] is within
    half a step of [N / D]. *)
Lemma binary_round_aux_nearest (sx : bool) (m e rem Q : Z) :
  0 <= m -> 0 <= rem < Q ->
  let e1 := fexp prec emax (Zdigits2 m + e) in
  e <= e1 ->
  let D := 2 ^ (e1 - e) * Q in
  let N := m * Q + rem in
  exists m2,
    0 <= m2
    /\ binary_round_aux prec emax sx m e (locationOf rem Q) <> S754_nan
    /\ SFkey (binary_round_aux prec emax sx m e (locationOf rem Q))
       = cond_Zopp sx (Z.min (2 ^ 2098) (m2 * 2 ^ (e1 + 1074)))
    /\ 2 * Z.abs (m2 * D - N) <= D
    /\ N < 2 ^ 53 * D
    /\ (-1074 < e1 -> 2 ^ 52 * D <= N).
Proof.
  intros Hm Hrem e1 He D N.
  set (n := e1 - e) in *.
  assert (Hn : 0 <= n) by (unfold n; lia).
  pose proof (pow2_pos n Hn) as Hpow.
  assert (He1 : -1074 <= e1) by (unfold e1; rewrite fexp_eq; lia).
  set (m1 := m / 2 ^ n). set (rem1 := m mod 2 ^ n * Q + rem).
  pose proof (Z.mod_pos_bound m (2 ^ n) Hpow) as Hmod.
  pose proof (Z.div_mod m (2 ^ n) ltac:(lia)) as Hdm. fold m1 in Hdm.
  assert (Hrem1 : 0 <= rem1 < D) by (unfold rem1, D; nia).
  assert (HN : N = m1 * D + rem1) by (unfold N, rem1, D; nia).
  assert (Hm1 : 0 <= m1) by (apply Z.div_pos; lia).
  destruct (Zdigits2_bounds m Hm) as [Hd0 [Hd1 Hd2]].
  assert (Hm1lt : m1 < 2 ^ 53).
  { apply Z.div_lt_upper_bound; [exact Hpow|].
    eapply Z.lt_le_trans; [exact Hd1|]. rewrite <- pow2_split by lia.
    apply pow2_le. unfold n, e1. rewrite fexp_eq. lia. }
  assert (Hm1ge : -1074 < e1 -> 2 ^ 52 <= m1).
  { intros Hnorm. assert (Hpos : 0 < m).
    { destruct (Z.eq_dec m 0) as [->|]; [|lia]. unfold e1 in Hnorm, He.
      rewrite fexp_eq in Hnorm, He. cbn in Hnorm, He. lia. }
    specialize (Hd2 Hpos). apply Z.div_le_lower_bound; [exact Hpow|].
    eapply Z.le_trans; [|exact Hd2]. rewrite Z.mul_comm, <- pow2_split by lia.
    apply pow2_le. unfold n, e1 in *. rewrite fexp_eq in *. lia. }
  destruct (round_nearest_even_location m1 rem1 D Hrem1) as [Hm2 Hnear].
  set (m2 := round_nearest_even m1 (locationOf rem1 D)) in *.
  exists m2. split; [lia|].
  assert (Hshape : binary_round_aux prec emax sx m e (locationOf rem Q)
                   = let '(mrs, e2) := shr_fexp prec emax m2 e1 loc_Exact in
                     match shr_m mrs with
                     | Z0 => S754_zero sx
                     | Zpos m => if e2 <=? emax - prec then S754_finite sx m e2
                                 else S754_infinity sx
                     | Zneg _ => S754_nan
                     end).
  { unfold binary_round_aux. rewrite (shr_fexp_location m e rem Q Hm Hrem Hn).
    rewrite shr_record_of_loc_m, loc_of_shr_record_of_loc.
    replace (e + (fexp prec emax (Zdigits2 m + e) - e)) with e1 by (unfold e1; lia).
    reflexivity. }
  rewrite Hshape.
  destruct (binary_round_aux_finish sx m2 e1 ltac:(lia) He1 ltac:(intros; specialize (Hm1ge H); lia))
    as [Hnan Hkey].
  split; [exact Hnan|]. split; [exact Hkey|].
  split; [rewrite HN; exact Hnear|]. split; [nia|].
  intros Hnorm. specialize (Hm1ge Hnorm). nia.
Qed.
End RoundingCore.

Section NearestValues.
Local Open Scope R_scope.

Lemma IZR_pow2_pos (s : Z) : (0 <= s)%Z -> 0 < IZR (2 ^ s).
Proof. intros Hs. apply IZR_lt. apply pow2_pos, Hs. Qed.

Lemma IZR_pow2_double (s1 s2 : Z) :
  (0 <= s2 < s1)%Z -> 2 * IZR (2 ^ s2) <= IZR (2 ^ s1).
Proof.
  intros Hs. rewrite <- mult_IZR. apply IZR_le.
  replace s1 with (1 + (s1 - s2 - 1) + s2)%Z by lia.
  rewrite !Z.pow_add_r by lia. change (2 ^ 1)%Z with 2%Z.
  pose proof (pow2_pos (s1 - s2 - 1) ltac:(lia)). pose proof (pow2_pos s2 ltac:(lia)). nia.
Qed.

(** From the integers of [binary_round_aux_nearest] to [roundsTo]. *)
Lemma nearest_roundsTo (m2 N D s : Z) (V : R) :
  (0 < D)%Z -> (0 <= s)%Z -> (0 <= m2)%Z ->
  (2 * Z.abs (m2 * D - N) <= D)%Z ->
  (N < 2 ^ 53 * D)%Z ->
  ((0 < s)%Z -> (2 ^ 52 * D <= N)%Z) ->
  V / IZR (2 ^ s) = IZR N / IZR D ->
  roundsTo V (Z.min (2 ^ 2098) (m2 * 2 ^ s)).
Proof.
  intros HD Hs Hm2 Hnear Hup Hlow HV.
  assert (Hd : 0 < IZR D) by (apply IZR_lt; exact HD).
  exists s, m2. split; [exact Hs|]. split; [exact Hm2|]. split; [reflexivity|].
  rewrite HV. split; [|split].
  - assert (H1 : (- D <= 2 * (m2 * D - N))%Z) by lia.
    assert (H2 : (2 * (m2 * D - N) <= D)%Z) by lia.
    apply IZR_le in H1, H2.
    rewrite opp_IZR in H1. rewrite mult_IZR, minus_IZR, mult_IZR in H1, H2.
    split.
    + apply (Rmult_le_reg_r (IZR D)); [exact Hd|].
      replace (IZR N / IZR D * IZR D) with (IZR N) by (field; lra).
      lra.
    + apply (Rmult_le_reg_r (IZR D)); [exact Hd|].
      replace (IZR N / IZR D * IZR D) with (IZR N) by (field; lra).
      lra.
  - apply (Rmult_lt_reg_r (IZR D)); [exact Hd|].
    replace (IZR N / IZR D * IZR D) with (IZR N) by (field; lra).
    rewrite <- mult_IZR. apply IZR_lt, Hup.
  - intros Hpos. apply (Rmult_le_reg_r (IZR D)); [exact Hd|].
    replace (IZR N / IZR D * IZR D) with (IZR N) by (field; lra).
    rewrite <- mult_IZR. apply IZR_le, Hlow, Hpos.
Qed.

Lemma roundsTo_nonneg (V : R) (k : Z) : roundsTo V k -> (0 <= k)%Z.
Proof.
  intros [s [m [Hs [Hm [-> _]]]]].
  pose proof (pow2_pos s Hs). pose proof (pow2_pos 2098 ltac:(lia)).
  apply Z.min_glb; [lia | nia].
Qed.

(** Rounding to nearest keeps the order of two positive values. *)
Lemma roundsTo_mono (V1 V2 : R) (k1 k2 : Z) :
  roundsTo V1 k1 -> roundsTo V2 k2 -> V1 < V2 -> (k1 <= k2)%Z.
Proof.
  intros [s1 [a [Hs1 [Ha [-> [Hn1 [Hu1 Hl1]]]]]]] [s2 [b [Hs2 [Hb [-> [Hn2 [Hu2 Hl2]]]]]]] Hlt.
  apply Z.min_le_compat_l.
  pose proof (IZR_pow2_pos s1 Hs1) as HG1. pose proof (IZR_pow2_pos s2 Hs2) as HG2.
  set (G1 := IZR (2 ^ s1)) in *. set (G2 := IZR (2 ^ s2)) in *.
  set (x1 := V1 / G1) in *. set (x2 := V2 / G2) in *.
  assert (HV1 : V1 = x1 * G1) by (unfold x1; field; lra).
  assert (HV2 : V2 = x2 * G2) by (unfold x2; field; lra).
  pose proof (pow2_pos s1 Hs1) as Hp1. pose proof (pow2_pos s2 Hs2) as Hp2.
  destruct (Z.lt_trichotomy s1 s2) as [Hs|[Hs|Hs]].
  - assert (Ha53 : (a <= 2 ^ 53)%Z).
    { apply Z.lt_succ_r. apply lt_IZR. unfold Z.succ. rewrite plus_IZR. lra. }
    assert (Hb52 : (2 ^ 52 <= b)%Z).
    { specialize (Hl2 ltac:(lia)). apply Z.lt_pred_le. apply lt_IZR.
      unfold Z.pred. rewrite plus_IZR. lra. }
    apply Z.le_trans with (2 ^ 52 * 2 ^ s2)%Z; [|nia].
    apply Z.le_trans with (2 ^ 53 * 2 ^ s1)%Z; [nia|].
    replace s2 with (1 + (s2 - s1 - 1) + s1)%Z by lia.
    rewrite !Z.pow_add_r by lia. change (2 ^ 53)%Z with (2 ^ 52 * 2 ^ 1)%Z.
    pose proof (pow2_pos (s2 - s1 - 1) ltac:(lia)). nia.
  - subst s2.
    assert (Hx : x1 < x2).
    { apply (Rmult_lt_reg_r G1); [exact HG1|].
      change G2 with G1 in HV2. rewrite <- HV1, <- HV2. exact Hlt. }
    assert (Hab : (a < b + 1)%Z) by (apply lt_IZR; rewrite plus_IZR; lra).
    nia.
  - exfalso. specialize (Hl1 ltac:(lia)).
    pose proof (IZR_pow2_double s1 s2 ltac:(lia)) as Hdouble. fold G1 G2 in Hdouble.
    assert (H53 : IZR (2 ^ 53) = 2 * IZR (2 ^ 52)) by (rewrite <- mult_IZR; reflexivity).
    assert (Hpos52 : 0 < IZR (2 ^ 52)) by (apply IZR_lt; reflexivity).
    assert (HA : IZR (2 ^ 52) * G1 <= V1) by (rewrite HV1; apply Rmult_le_compat_r; lra).
    assert (HB : V2 < IZR (2 ^ 53) * G2) by (rewrite HV2; apply Rmult_lt_compat_r; lra).
    assert (HC : IZR (2 ^ 53) * G2 <= IZR (2 ^ 52) * G1).
    { rewrite H53. replace (2 * IZR (2 ^ 52) * G2) with (IZR (2 ^ 52) * (2 * G2)) by ring.
      apply Rmult_le_compat_l; lra. }
    lra.
Qed.
End NearestValues.

Section RoundedOperations.
Local Open Scope Z_scope.

(** [binary_round_aux] rounds the value [A / B] to nearest when its
    arguments describe that value. *)
Lemma binary_round_aux_roundsTo (sx : bool) (m e rem Q A B : Z) :
  0 <= m -> 0 <= rem < Q ->
  let e1 := fexp prec emax (Zdigits2 m + e) in
  e <= e1 -> 0 < B ->
  A * (2 ^ (e1 - e) * Q) = (m * Q + rem) * B * 2 ^ (e1 + 1074) ->
  let r := binary_round_aux prec emax sx m e (locationOf rem Q) in
  r <> S754_nan
  /\ exists k, SFkey r = cond_Zopp sx k /\ roundsTo (IZR A / IZR B) k.
Proof.
  intros Hm Hrem e1 He HB Hval r.
  destruct (binary_round_aux_nearest sx m e rem Q Hm Hrem He)
    as [m2 [Hm2 [Hnan [Hkey [Hnear [Hup Hlow]]]]]].
  fold e1 in Hkey, Hnear, Hup, Hlow.
  split; [exact Hnan|].
  exists (Z.min (2 ^ 2098) (m2 * 2 ^ (e1 + 1074))). split; [exact Hkey|].
  assert (He1 : -1074 <= e1) by (unfold e1; rewrite fexp_eq; lia).
  pose proof (pow2_pos (e1 - e) ltac:(lia)) as HpD.
  pose proof (pow2_pos (e1 + 1074) ltac:(lia)) as HpS.
  apply (nearest_roundsTo m2 (m * Q + rem) (2 ^ (e1 - e) * Q) (e1 + 1074));
    try assumption; try lia; try nia.
  assert (HP : (0 < IZR (2 ^ (e1 - e)))%R) by (apply IZR_lt; exact HpD).
  assert (HQ : (0 < IZR Q)%R) by (apply IZR_lt; lia).
  assert (HS : (0 < IZR (2 ^ (e1 + 1074)))%R) by (apply IZR_lt; exact HpS).
  assert (HBr : (0 < IZR B)%R) by (apply IZR_lt; exact HB).
  apply (f_equal IZR) in Hval. rewrite !mult_IZR in Hval.
  rewrite mult_IZR. field_simplify_eq; [|repeat split; lra].
  lra.
Qed.

(** A binary64 value is its own nearest value. *)
Lemma valid_roundsTo (s : bool) (m : positive) (e : Z) :
  valid_binary (S754_finite s m e) = true ->
  roundsTo (IZR (Zpos m * 2 ^ (e + 1074))) (Zpos m * 2 ^ (e + 1074)).
Proof.
  intros Hv. pose proof (finite_key_bounds _ _ _ Hv) as Hkey.
  apply valid_finite in Hv. destruct Hv as [He [Hd Hnorm]].
  pose proof (Zdigits2_pos_bounds m) as [Hlo Hhi].
  pose proof (pow2_pos (e + 1074) ltac:(lia)) as Hp.
  assert (HG : (0 < IZR (2 ^ (e + 1074)))%R) by (apply IZR_lt; exact Hp).
  exists (e + 1074), (Zpos m).
  split; [lia|]. split; [lia|]. split; [rewrite Z.min_r by lia; reflexivity|].
  replace (IZR (Zpos m * 2 ^ (e + 1074)) / IZR (2 ^ (e + 1074)))%R with (IZR (Zpos m))
    by (rewrite mult_IZR; field; lra).
  split; [lra|]. split.
  - apply IZR_lt. eapply Z.lt_le_trans; [exact Hhi|]. apply pow2_le.
    destruct (Zdigits2_bounds (Zpos m) ltac:(lia)) as [H0 _]. lia.
  - intros Hs. apply IZR_le. rewrite Hnorm in Hlo by lia. exact Hlo.
Qed.

Lemma shl_align_value (m : positive) (e e' : Z) :
  e' <= e -> shl_align m e e' = (fst (shl_align m e e'), e').
Proof.
  intros Hle. unfold shl_align. destruct (e' - e) as [|d|d] eqn:Hd; cbn [fst]; try lia.
  - f_equal. lia.
  - reflexivity.
Qed.

Lemma shl_align_keep (m : positive) (e e' : Z) :
  e <= e' -> shl_align m e e' = (m, e).
Proof.
  intros Hle. unfold shl_align. destruct (e' - e) as [|d|d] eqn:Hd; try lia; reflexivity.
Qed.

(** [binary_round] rounds the integer [m * 2^e] to nearest. *)
Lemma binary_round_roundsTo (s : bool) (m : positive) (e : Z) :
  -1074 <= e ->
  binary_round prec emax s m e <> S754_nan
  /\ exists k, SFkey (binary_round prec emax s m e) = cond_Zopp s k
               /\ roundsTo (IZR (Zpos m * 2 ^ (e + 1074))) k.
Proof.
  intros He. unfold binary_round.
  change (Zpos (digits2_pos m)) with (Zdigits2 (Zpos m)).
  set (e' := fexp prec emax (Zdigits2 (Zpos m) + e)).
  assert (He' : -1074 <= e') by (unfold e'; rewrite fexp_eq; lia).
  pose proof (shl_align_digits m e e') as Hdig.
  destruct (Z_le_gt_dec e' e) as [Hle|Hgt].
  - pose proof (shl_align_fst m e e' Hle) as Hfst.
    rewrite (shl_align_value m e e' Hle) in Hdig |- *. cbn [fst snd] in Hdig.
    set (mz := fst (shl_align m e e')) in *.
    change loc_Exact with (locationOf 0 1).
    replace (IZR (Zpos m * 2 ^ (e + 1074))) with (IZR (Zpos m * 2 ^ (e + 1074)) / IZR 1)%R
      by (field).
    apply binary_round_aux_roundsTo; try lia; rewrite Hdig; fold e'; try lia.
    rewrite Hfst, Z.sub_diag.
    replace (e + 1074) with ((e - e') + (e' + 1074)) by lia.
    rewrite (pow2_split (e - e') (e' + 1074)) by lia. change (2 ^ 0) with 1. ring.
  - rewrite (shl_align_keep m e e') by lia.
    change loc_Exact with (locationOf 0 1).
    replace (IZR (Zpos m * 2 ^ (e + 1074))) with (IZR (Zpos m * 2 ^ (e + 1074)) / IZR 1)%R
      by (field).
    apply binary_round_aux_roundsTo; try lia; fold e'; try lia.
    replace (e' + 1074) with ((e' - e) + (e + 1074)) by lia.
    rewrite (pow2_split (e' - e) (e + 1074)) by lia. ring.
Qed.
End RoundedOperations.

Section RoundedArithmetic.
Local Open Scope Z_scope.

(** A rounded magnitude with its sign. *)
Lemma signed_rounds (s : bool) (A B k key : Z) (V : R) :
  0 < A -> 0 < B ->
  key = cond_Zopp s k ->
  roundsTo (IZR A / IZR B) k ->
  V = (IZR (cond_Zopp s A) / IZR B)%R ->
  roundsSigned V key.
Proof.
  intros HA HB Hkey Hr HV.
  assert (Hpos : (0 < IZR A / IZR B)%R).
  { apply Rdiv_lt_0_compat; apply IZR_lt; assumption. }
  destruct s; cbn [cond_Zopp] in Hkey, HV; subst key V.
  - rewrite opp_IZR.
    replace (- IZR A / IZR B)%R with (- (IZR A / IZR B))%R
      by (field; apply not_0_IZR; lia).
    split; [intros H0; lra|]. split; [intros H0; lra|].
    intros _. rewrite Ropp_involutive, Z.opp_involutive. exact Hr.
  - split; [intros H0; lra|]. split; [intros _; exact Hr | intros H0; lra].
Qed.

Lemma roundsSigned_zero (V : R) : V = 0%R -> roundsSigned V 0.
Proof. intros ->. split; [reflexivity|]. split; intros H; lra. Qed.

(** A finite binary64 value, or a zero, is its own rounding. *)
Lemma representable_rounds (x : spec_float) :
  valid_binary x = true ->
  (exists s, x = S754_zero s) \/ (exists s m e, x = S754_finite s m e) ->
  roundsSigned (IZR (SFkey x)) (SFkey x).
Proof.
  intros Hv [[s ->]|[s [m [e ->]]]]; [apply roundsSigned_zero; reflexivity|].
  pose proof (finite_key_bounds _ _ _ Hv) as Hk.
  apply (signed_rounds s (Zpos m * 2 ^ (e + 1074)) 1 (Zpos m * 2 ^ (e + 1074)));
    try lia; try reflexivity.
  - replace (IZR (Zpos m * 2 ^ (e + 1074)) / IZR 1)%R with (IZR (Zpos m * 2 ^ (e + 1074)))
      by field.
    apply (valid_roundsTo s), Hv.
  - cbn [SFkey]. field.
Qed.

(** [binary_normalize] rounds the integer [M * 2^e] to nearest. *)
Lemma binary_normalize_rounds (M e : Z) :
  -1074 <= e ->
  binary_normalize prec emax M e false <> S754_nan
  /\ roundsSigned (IZR (M * 2 ^ (e + 1074))) (SFkey (binary_normalize prec emax M e false)).
Proof.
  intros He. pose proof (pow2_pos (e + 1074) ltac:(lia)) as Hp.
  destruct M as [|p|p]; cbn [binary_normalize].
  - split; [discriminate|]. apply roundsSigned_zero. reflexivity.
  - destruct (binary_round_roundsTo false p e He) as [Hnan [k [Hkey Hr]]].
    split; [exact Hnan|].
    apply (signed_rounds false (Zpos p * 2 ^ (e + 1074)) 1 k); try lia; try assumption.
    + replace (IZR (Zpos p * 2 ^ (e + 1074)) / IZR 1)%R with (IZR (Zpos p * 2 ^ (e + 1074)))
        by field.
      exact Hr.
    + cbn [cond_Zopp]. field.
  - destruct (binary_round_roundsTo true p e He) as [Hnan [k [Hkey Hr]]].
    split; [exact Hnan|].
    apply (signed_rounds true (Zpos p * 2 ^ (e + 1074)) 1 k); try lia; try assumption.
    + replace (IZR (Zpos p * 2 ^ (e + 1074)) / IZR 1)%R with (IZR (Zpos p * 2 ^ (e + 1074)))
        by field.
      exact Hr.
    + cbn [cond_Zopp]. replace (Zneg p * 2 ^ (e + 1074)) with (- (Zpos p * 2 ^ (e + 1074))) by lia.
      field.
Qed.

(** The two mantissas of a sum or a difference, brought to the smaller
    exponent. *)
Lemma aligned_keys (s : bool) (m : positive) (e ez : Z) :
  -1074 <= ez <= e ->
  cond_Zopp s (Zpos (fst (shl_align m e ez))) * 2 ^ (ez + 1074)
  = SFkey (S754_finite s m e).
Proof.
  intros He. rewrite shl_align_fst by lia. cbn [SFkey].
  replace (e + 1074) with ((e - ez) + (ez + 1074)) by lia.
  rewrite (pow2_split (e - ez) (ez + 1074)) by lia.
  destruct s; cbn [cond_Zopp]; ring.
Qed.

Lemma valid_sign (s s' : bool) (m : positive) (e : Z) :
  valid_binary (S754_finite s m e) = true -> valid_binary (S754_finite s' m e) = true.
Proof. intros H. exact H. Qed.

(** Subtraction of two numbers rounds their exact difference. *)
Lemma SFsub_rounds (x y : spec_float) :
  valid_binary x = true -> valid_binary y = true ->
  (exists s, x = S754_zero s) \/ (exists s m e, x = S754_finite s m e) ->
  (exists s, y = S754_zero s) \/ (exists s m e, y = S754_finite s m e) ->
  SFsub prec emax x y <> S754_nan
  /\ roundsSigned (IZR (SFkey x - SFkey y)) (SFkey (SFsub prec emax x y)).
Proof.
  intros Hvx Hvy [[sx ->]|[sx [mx [ex ->]]]] [[sy ->]|[sy [my [ey ->]]]]; cbn [SFsub].
  - destruct sx, sy; (split; [discriminate | apply roundsSigned_zero; reflexivity]).
  - split; [discriminate|].
    replace (SFkey (S754_zero sx) - SFkey (S754_finite sy my ey))
      with (SFkey (S754_finite (negb sy) my ey))
      by (cbn [SFkey]; destruct sy; cbn [negb cond_Zopp]; lia).
    apply representable_rounds; [exact Hvy|]. right. eauto.
  - split; [discriminate|].
    replace (SFkey (S754_finite sx mx ex) - SFkey (S754_zero sy))
      with (SFkey (S754_finite sx mx ex)) by (cbn [SFkey]; lia).
    apply representable_rounds; [exact Hvx|]. right. eauto.
  - pose proof (valid_finite _ _ _ Hvx) as [Hex _].
    pose proof (valid_finite _ _ _ Hvy) as [Hey _].
    set (ez := Z.min ex ey).
    destruct (binary_normalize_rounds
                (cond_Zopp sx (Zpos (fst (shl_align mx ex ez)))
                 - cond_Zopp sy (Zpos (fst (shl_align my ey ez)))) ez ltac:(lia))
      as [Hnan Hr].
    split; [exact Hnan|].
    rewrite Z.mul_sub_distr_r, !aligned_keys in Hr by lia. exact Hr.
Qed.

End RoundedArithmetic.

Section RoundedProducts.
Local Open Scope Z_scope.

Lemma fexp_mono (a b : Z) : a <= b -> fexp prec emax a <= fexp prec emax b.
Proof. intros H. rewrite !fexp_eq. lia. Qed.

(** Multiplication by a positive number rounds the exact product. *)
Lemma SFmul_rounds (x : spec_float) (mc : positive) (ec : Z) :
  valid_binary x = true -> valid_binary (S754_finite false mc ec) = true ->
  (exists s, x = S754_zero s) \/ (exists s m e, x = S754_finite s m e) ->
  SFmul prec emax x (S754_finite false mc ec) <> S754_nan
  /\ roundsSigned (IZR (SFkey x * SFkey (S754_finite false mc ec)) / IZR (2 ^ 1074))
       (SFkey (SFmul prec emax x (S754_finite false mc ec))).
Proof.
  intros Hvx Hvc [[sx ->]|[sx [mx [ex ->]]]]; cbn [SFmul].
  - split; [discriminate|]. apply roundsSigned_zero. cbn [SFkey].
    rewrite Z.mul_0_l. unfold Rdiv. apply Rmult_0_l.
  - pose proof (valid_finite _ _ _ Hvx) as [Hex [Hdx Hnx]].
    pose proof (valid_finite _ _ _ Hvc) as [Hec [Hdc Hnc]].
    pose proof (Zdigits2_pos_bounds mx) as [Hlx Hhx].
    pose proof (Zdigits2_pos_bounds mc) as [Hlc Hhc].
    rewrite xorb_false_r. rewrite Pos2Z.inj_mul.
    set (m := Zpos mx * Zpos mc). set (e := ex + ec).
    set (e1 := fexp prec emax (Zdigits2 m + e)).
    assert (He1 : -1074 <= e1) by (unfold e1; rewrite fexp_eq; lia).
    assert (He : e <= e1).
    { unfold e1. rewrite fexp_eq.
      destruct (Z.eq_dec ex (-1074)) as [Ex|Ex], (Z.eq_dec ec (-1074)) as [Ec|Ec];
        try (unfold e; lia).
      - specialize (Hnc ltac:(lia)). rewrite Hnc in Hlc.
        assert (Hm : 2 ^ 52 <= m) by (unfold m; change (53 - 1) with 52 in Hlc; nia).
        unfold m in *. rewrite <- Pos2Z.inj_mul in *.
        pose proof (Zdigits2_ge _ 52 ltac:(lia) Hm). lia.
      - specialize (Hnx ltac:(lia)). rewrite Hnx in Hlx.
        assert (Hm : 2 ^ 52 <= m) by (unfold m; change (53 - 1) with 52 in Hlx; nia).
        unfold m in *. rewrite <- Pos2Z.inj_mul in *.
        pose proof (Zdigits2_ge _ 52 ltac:(lia) Hm). lia.
      - specialize (Hnx ltac:(lia)). rewrite Hnx in Hlx.
        assert (Hm : 2 ^ 52 <= m) by (unfold m; change (53 - 1) with 52 in Hlx; nia).
        unfold m in *. rewrite <- Pos2Z.inj_mul in *.
        pose proof (Zdigits2_ge _ 52 ltac:(lia) Hm). lia. }
    pose proof (pow2_pos (ex + 1074) ltac:(lia)) as Hpx.
    pose proof (pow2_pos (ec + 1074) ltac:(lia)) as Hpc.
    pose proof (pow2_pos 1074 ltac:(lia)) as Hp.
    change loc_Exact with (locationOf 0 1).
    destruct (binary_round_aux_roundsTo sx m e 0 1
                (Zpos mx * 2 ^ (ex + 1074) * (Zpos mc * 2 ^ (ec + 1074))) (2 ^ 1074)
                ltac:(unfold m; lia) ltac:(lia) He Hp) as [Hnan [k [Hkey Hr]]].
    { fold e1. unfold m, e.
      replace (e1 + 1074) with ((e1 - (ex + ec)) + ((ex + 1074) + ec)) by lia.
      assert (E1 : 2 ^ (e1 - (ex + ec) + (ex + 1074 + ec)) * 2 ^ 1074
                   = 2 ^ (e1 - (ex + ec)) * (2 ^ (ex + 1074) * 2 ^ (ec + 1074))).
      { rewrite <- !Z.pow_add_r by (unfold e in He; lia). f_equal. lia. }
      nia. }
    split; [exact Hnan|].
    apply (signed_rounds sx (Zpos mx * 2 ^ (ex + 1074) * (Zpos mc * 2 ^ (ec + 1074)))
             (2 ^ 1074) k); try assumption; try nia.
    cbn [SFkey cond_Zopp]. f_equal. f_equal. destruct sx; cbn [cond_Zopp]; ring.
Qed.

Lemma new_location_locationOf (Q r : Z) :
  0 < Q -> 0 <= r < Q -> new_location Q r = locationOf r Q.
Proof.
  intros HQ Hr. unfold new_location, new_location_even, new_location_odd, locationOf.
  destruct (Z.even Q) eqn:Ev; destruct (r =? 0); try reflexivity.
  f_equal.
  assert (Hodd : Z.odd Q = true) by (rewrite <- Z.negb_even, Ev; reflexivity).
  apply Z.odd_spec in Hodd. destruct Hodd as [h Hh].
  destruct (Z.compare_spec (2 * r + 1) Q), (Z.compare_spec (2 * r) Q);
    try reflexivity; lia.
Qed.

(** Division by a positive number rounds the exact quotient. *)
Lemma SFdiv_rounds (x : spec_float) (md : positive) (ed : Z) :
  valid_binary x = true -> valid_binary (S754_finite false md ed) = true ->
  (exists s, x = S754_zero s) \/ (exists s m e, x = S754_finite s m e) ->
  SFdiv prec emax x (S754_finite false md ed) <> S754_nan
  /\ roundsSigned (IZR (SFkey x * 2 ^ 1074) / IZR (SFkey (S754_finite false md ed)))
       (SFkey (SFdiv prec emax x (S754_finite false md ed))).
Proof.
  intros Hvx Hvd [[sx ->]|[sx [mx [ex ->]]]]; cbn [SFdiv].
  - split; [discriminate|]. apply roundsSigned_zero. cbn [SFkey].
    rewrite Z.mul_0_l. unfold Rdiv. apply Rmult_0_l.
  - pose proof (valid_finite _ _ _ Hvx) as [Hex [Hdx Hnx]].
    pose proof (valid_finite _ _ _ Hvd) as [Hed [Hdd Hnd]].
    pose proof (Zdigits2_pos_bounds mx) as [Hlx Hhx].
    pose proof (Zdigits2_pos_bounds md) as [Hld Hhd].
    pose proof (Zdigits2_ge mx 0 ltac:(lia) ltac:(change (2 ^ 0) with 1; lia)) as Hd1.
    pose proof (Zdigits2_ge md 0 ltac:(lia) ltac:(change (2 ^ 0) with 1; lia)) as Hd2.
    rewrite xorb_false_r. unfold SFdiv_core_binary.
    set (d1 := Zdigits2 (Zpos mx)) in *. set (d2 := Zdigits2 (Zpos md)) in *.
    set (e' := Z.min (fexp prec emax (d1 + ex - (d2 + ed))) (ex - ed)).
    set (sh := ex - ed - e').
    assert (Hsh : 0 <= sh) by (unfold sh, e'; lia).
    assert (Hm' : match sh with
                  | Zpos _ => Z.shiftl (Zpos mx) sh
                  | Z0 => Zpos mx
                  | Zneg _ => 0
                  end = Zpos mx * 2 ^ sh).
    { destruct sh as [|p|p] eqn:Es;
        [change (2 ^ 0) with 1; lia | rewrite Z.shiftl_mul_pow2 by lia; reflexivity | lia]. }
    rewrite Hm'.
    pose proof (pow2_pos sh Hsh) as Hpsh.
    pose proof (Z.div_eucl_eq (Zpos mx * 2 ^ sh) (Zpos md) ltac:(lia)) as Hq.
    pose proof (Z.mod_pos_bound (Zpos mx * 2 ^ sh) (Zpos md) ltac:(lia)) as Hrr.
    unfold Z.modulo in Hrr.
    destruct (Z.div_eucl (Zpos mx * 2 ^ sh) (Zpos md)) as [q rr] eqn:Edm.
    assert (Hq0 : 0 <= q) by nia.
    rewrite (new_location_locationOf (Zpos md) rr) by lia.
    set (e1 := fexp prec emax (Zdigits2 q + e')).
    assert (He : e' <= e1).
    { apply Z.le_trans with (fexp prec emax (d1 + ex - (d2 + ed))); [unfold e'; lia|].
      apply fexp_mono.
      destruct (Zdigits2_bounds q Hq0) as [Hdq _].
      destruct (Z_lt_le_dec (d1 - 1 + sh - d2) 0) as [Hneg|Hnn]; [unfold sh in *; lia|].
      assert (Hqge : 2 ^ (d1 - 1 + sh - d2) <= q).
      { assert (Hnum : 2 ^ (d1 - 1 + sh) <= Zpos mx * 2 ^ sh).
        { rewrite (pow2_split (d1 - 1) sh) by lia. nia. }
        assert (Hden : 2 ^ (d1 - 1 + sh) = 2 ^ (d1 - 1 + sh - d2) * 2 ^ d2).
        { rewrite <- pow2_split by lia. f_equal. lia. }
        pose proof (pow2_pos (d1 - 1 + sh - d2) Hnn) as Hpp.
        assert (2 ^ (d1 - 1 + sh - d2) < q + 1) by nia. lia. }
      pose proof (pow2_pos (d1 - 1 + sh - d2) Hnn) as Hqpos.
      destruct q as [|pq|pq]; try lia.
      pose proof (Zdigits2_ge pq _ Hnn Hqge). unfold sh in *. lia. }
    assert (He1 : -1074 <= e1) by (unfold e1; rewrite fexp_eq; lia).
    pose proof (pow2_pos (ex + 1074) ltac:(lia)) as Hpx.
    pose proof (pow2_pos (ed + 1074) ltac:(lia)) as Hpd.
    pose proof (pow2_pos 1074 ltac:(lia)) as Hp.
    destruct (binary_round_aux_roundsTo sx q e' rr (Zpos md)
                (Zpos mx * 2 ^ (ex + 1074) * 2 ^ 1074) (Zpos md * 2 ^ (ed + 1074))
                Hq0 Hrr He ltac:(nia)) as [Hnan [k [Hkey Hr]]].
    { fold e1. replace (q * Zpos md + rr) with (Zpos mx * 2 ^ sh) by lia.
      assert (E1 : 2 ^ (ex + 1074) * 2 ^ 1074 * 2 ^ (e1 - e')
                   = 2 ^ sh * 2 ^ (ed + 1074) * 2 ^ (e1 + 1074)).
      { rewrite <- !Z.pow_add_r by lia. f_equal. unfold sh. lia. }
      nia. }
    split; [exact Hnan|].
    apply (signed_rounds sx (Zpos mx * 2 ^ (ex + 1074) * 2 ^ 1074)
             (Zpos md * 2 ^ (ed + 1074)) k); try assumption; try nia.
    cbn [SFkey cond_Zopp]. f_equal. f_equal. destruct sx; cbn [cond_Zopp]; ring.
Qed.
End RoundedProducts.

Section RoundedOrder.
Local Open Scope Z_scope.

Lemma roundsTo_bounds (V : R) (k : Z) : roundsTo V k -> 0 <= k <= 2 ^ 2098.
Proof.
  intros Hr. split; [apply (roundsTo_nonneg V), Hr|].
  destruct Hr as [s [m [_ [_ [-> _]]]]]. apply Z.le_min_l.
Qed.

Lemma roundsSigned_bounds (V : R) (k : Z) :
  roundsSigned V k -> - 2 ^ 2098 <= k <= 2 ^ 2098.
Proof.
  intros [H0 [Hpos Hneg]]. pose proof (pow2_pos 2098 ltac:(lia)) as Hp.
  destruct (Rtotal_order V 0) as [Hlt|[Heq|Hgt]].
  - pose proof (roundsTo_bounds _ _ (Hneg Hlt)). lia.
  - rewrite (H0 Heq). lia.
  - pose proof (roundsTo_bounds _ _ (Hpos Hgt)). lia.
Qed.

(** Rounding to nearest keeps the order of two values of any sign. *)
Lemma roundsSigned_mono (V1 V2 : R) (k1 k2 : Z) :
  roundsSigned V1 k1 -> roundsSigned V2 k2 -> (V1 < V2)%R -> k1 <= k2.
Proof.
  intros [H01 [Hp1 Hn1]] [H02 [Hp2 Hn2]] Hlt.
  destruct (Rtotal_order V1 0) as [L1|[E1|G1]], (Rtotal_order V2 0) as [L2|[E2|G2]];
    try lra.
  - pose proof (roundsTo_mono _ _ _ _ (Hn2 L2) (Hn1 L1) ltac:(lra)). lia.
  - pose proof (roundsTo_nonneg _ _ (Hn1 L1)). rewrite (H02 E2). lia.
  - pose proof (roundsTo_nonneg _ _ (Hn1 L1)). pose proof (roundsTo_nonneg _ _ (Hp2 G2)). lia.
  - pose proof (roundsTo_nonneg _ _ (Hp2 G2)). rewrite (H01 E1). lia.
  - apply (roundsTo_mono _ _ _ _ (Hp1 G1) (Hp2 G2) Hlt).
Qed.

(** Two finite values with one key are one value, up to the sign of
    zero. *)
Lemma SFkey_injective (x y : spec_float) :
  valid_binary x = true -> valid_binary y = true ->
  (exists s, x = S754_zero s) \/ (exists s m e, x = S754_finite s m e) ->
  (exists s, y = S754_zero s) \/ (exists s m e, y = S754_finite s m e) ->
  SFkey x = SFkey y ->
  x = y \/ (exists s s', x = S754_zero s /\ y = S754_zero s').
Proof.
  intros Hvx Hvy [[sx ->]|[sx [mx [ex ->]]]] [[sy ->]|[sy [my [ey ->]]]] Hkey.
  - right. eauto.
  - pose proof (finite_key_bounds _ _ _ Hvy). cbn [SFkey] in Hkey.
    destruct sy; cbn [cond_Zopp] in Hkey; lia.
  - pose proof (finite_key_bounds _ _ _ Hvx). cbn [SFkey] in Hkey.
    destruct sx; cbn [cond_Zopp] in Hkey; lia.
  - left. pose proof (finite_key_bounds _ _ _ Hvx) as Hkx.
    pose proof (finite_key_bounds _ _ _ Hvy) as Hky. cbn [SFkey] in Hkey.
    assert (Hs : sx = sy) by (destruct sx, sy; cbn [cond_Zopp] in Hkey; try reflexivity; lia).
    subst sy.
    assert (Hm : Zpos mx * 2 ^ (ex + 1074) = Zpos my * 2 ^ (ey + 1074))
      by (destruct sx; cbn [cond_Zopp] in Hkey; lia).
    destruct (Z.lt_trichotomy ex ey) as [Hlt|[Heq|Hgt]].
    + pose proof (finite_key_lt _ _ _ _ _ _ Hvx Hvy Hlt). lia.
    + subst ey. pose proof (valid_finite _ _ _ Hvx) as [He _].
      pose proof (pow2_pos (ex + 1074) ltac:(lia)).
      assert (Zpos mx = Zpos my) by nia. congruence.
    + pose proof (finite_key_lt _ _ _ _ _ _ Hvy Hvx ltac:(lia)). lia.
Qed.

(** An operation that rounds a growing function of its argument, keeps
    the infinities and treats the two zeros alike keeps the order. *)
Lemma rounded_mono (f : spec_float -> spec_float) (value : Z -> R) :
  (forall a b, a < b -> (value a < value b)%R) ->
  (forall x, valid_binary x = true ->
     (exists s, x = S754_zero s) \/ (exists s m e, x = S754_finite s m e) ->
     f x <> S754_nan /\ roundsSigned (value (SFkey x)) (SFkey (f x))) ->
  (forall s, f (S754_infinity s) = S754_infinity s) ->
  (forall s s', SFkey (f (S754_zero s)) = SFkey (f (S754_zero s'))) ->
  forall x1 x2,
    valid_binary x1 = true -> valid_binary x2 = true ->
    x1 <> S754_nan -> x2 <> S754_nan ->
    SFkey x1 <= SFkey x2 ->
    f x1 <> S754_nan /\ f x2 <> S754_nan /\ SFkey (f x1) <= SFkey (f x2).
Proof.
  intros Hgrow Hround Hinf Hzero x1 x2 Hv1 Hv2 Hn1 Hn2 Hle.
  pose proof (pow2_pos 2098 ltac:(lia)) as Hcap.
  assert (Hfin : forall x, valid_binary x = true -> x <> S754_nan ->
             (exists s, x = S754_infinity s)
             \/ ((exists s, x = S754_zero s) \/ (exists s m e, x = S754_finite s m e))).
  { intros [s|s| |s m e] _ Hn; [right; left|left|congruence|right; right]; eauto. }
  assert (Hkeys : forall x, valid_binary x = true ->
             (exists s, x = S754_zero s) \/ (exists s m e, x = S754_finite s m e) ->
             - 2 ^ 2098 < SFkey x < 2 ^ 2098).
  { intros x Hv [[s ->]|[s [m [e ->]]]]; cbn [SFkey]; [lia|].
    pose proof (finite_key_bounds _ _ _ Hv). destruct s; cbn [cond_Zopp]; lia. }
  destruct (Hfin x1 Hv1 Hn1) as [[s1 ->]|F1], (Hfin x2 Hv2 Hn2) as [[s2 ->]|F2].
  - rewrite !Hinf. split; [discriminate|]. split; [discriminate|].
    destruct s1, s2; cbn [SFkey cond_Zopp] in *; lia.
  - pose proof (Hkeys x2 Hv2 F2). destruct (Hround x2 Hv2 F2) as [Hnan2 Hr2].
    apply roundsSigned_bounds in Hr2. rewrite Hinf.
    split; [discriminate|]. split; [exact Hnan2|].
    destruct s1; cbn [SFkey cond_Zopp] in *; lia.
  - pose proof (Hkeys x1 Hv1 F1). destruct (Hround x1 Hv1 F1) as [Hnan1 Hr1].
    apply roundsSigned_bounds in Hr1. rewrite Hinf.
    split; [exact Hnan1|]. split; [discriminate|].
    destruct s2; cbn [SFkey cond_Zopp] in *; lia.
  - destruct (Hround x1 Hv1 F1) as [Hnan1 Hr1], (Hround x2 Hv2 F2) as [Hnan2 Hr2].
    split; [exact Hnan1|]. split; [exact Hnan2|].
    destruct (Z.eq_dec (SFkey x1) (SFkey x2)) as [Heq|Hne].
    + destruct (SFkey_injective x1 x2 Hv1 Hv2 F1 F2 Heq) as [->|[s [s' [-> ->]]]];
        [lia | rewrite (Hzero s s'); lia].
    + apply (roundsSigned_mono _ _ _ _ Hr1 Hr2). apply Hgrow. lia.
Qed.
End RoundedOrder.

Section FloatOrder.
Local Open Scope Z_scope.

Lemma leb_not_nan (x y : float) :
  (x <=? y)%float = true -> is_nan x = false /\ is_nan y = false.
Proof.
  rewrite leb_spec. intros Hle.
  split; apply not_nan_Prim2SF; intros E; rewrite E in Hle;
    [|destruct (Prim2SF x)]; discriminate.
Qed.

Lemma finite_Prim2SF (c : float) :
  (neg_infinity <? c)%float = true -> (c <? infinity)%float = true ->
  (exists s, Prim2SF c = S754_zero s) \/ (exists s m e, Prim2SF c = S754_finite s m e).
Proof.
  rewrite !ltb_spec.
  change (Prim2SF neg_infinity) with (S754_infinity true).
  change (Prim2SF infinity) with (S754_infinity false).
  destruct (Prim2SF c) as [s|[|]| |s m e]; cbn; intros H1 H2; try discriminate; eauto.
Qed.

Lemma positive_Prim2SF (d : float) :
  (0 <? d)%float = true -> (d <? infinity)%float = true ->
  exists m e, Prim2SF d = S754_finite false m e.
Proof.
  rewrite !ltb_spec.
  change (Prim2SF 0) with (S754_zero false).
  change (Prim2SF infinity) with (S754_infinity false).
  destruct (Prim2SF d) as [s|[|]| |[|] m e]; cbn; intros H1 H2; try discriminate; eauto.
Qed.

Lemma ltb_lt_infinity (x y : float) :
  (x <? y)%float = true -> (x <? infinity)%float = true.
Proof.
  rewrite !ltb_spec. change (Prim2SF infinity) with (S754_infinity false).
  destruct (Prim2SF x) as [s|[|]| |[|] m e], (Prim2SF y) as [s'|[|]| |[|] m' e'];
    cbn; intros H; try discriminate; try reflexivity; destruct s; reflexivity.
Qed.

(** From an order between keys back to [<=?]. *)
Lemma leb_of_keys (x y : float) :
  Prim2SF x <> S754_nan -> Prim2SF y <> S754_nan ->
  floatKey x <= floatKey y -> (x <=? y)%float = true.
Proof.
  intros Hx Hy Hle. rewrite leb_key by (apply not_nan_Prim2SF; assumption).
  apply Z.leb_le, Hle.
Qed.

(** Subtracting a finite number keeps the order. *)
Lemma sub_mono (x1 x2 c : float) :
  (x1 <=? x2)%float = true ->
  (neg_infinity <? c)%float = true -> (c <? infinity)%float = true ->
  (x1 - c <=? x2 - c)%float = true.
Proof.
  intros Hle Hlow Hhigh. destruct (leb_not_nan _ _ Hle) as [Hn1 Hn2].
  rewrite leb_key in Hle by assumption. apply Z.leb_le in Hle.
  apply not_nan_Prim2SF in Hn1, Hn2.
  pose proof (finite_Prim2SF c Hlow Hhigh) as Hc.
  pose proof (Prim2SF_valid c) as Hvc.
  destruct (rounded_mono (fun x => SFsub prec emax x (Prim2SF c))
              (fun k => IZR (k - SFkey (Prim2SF c))))
    with (x1 := Prim2SF x1) (x2 := Prim2SF x2) as [Hr1 [Hr2 Hkeys]];
    try apply Prim2SF_valid; try assumption.
  - intros a b Hab. apply IZR_lt. lia.
  - intros x Hv Hx. apply SFsub_rounds; assumption.
  - intros s. destruct Hc as [[sc ->]|[sc [mc [ec ->]]]]; reflexivity.
  - intros s s'. destruct Hc as [[sc ->]|[sc [mc [ec ->]]]]; [destruct s, s', sc|]; reflexivity.
  - apply leb_of_keys; unfold floatKey; rewrite ?sub_spec; assumption.
Qed.

(** Dividing by a finite positive number keeps the order. *)
Lemma div_mono (x1 x2 d : float) :
  (x1 <=? x2)%float = true ->
  (0 <? d)%float = true -> (d <? infinity)%float = true ->
  (x1 / d <=? x2 / d)%float = true.
Proof.
  intros Hle Hpos Hhigh. destruct (leb_not_nan _ _ Hle) as [Hn1 Hn2].
  rewrite leb_key in Hle by assumption. apply Z.leb_le in Hle.
  apply not_nan_Prim2SF in Hn1, Hn2.
  destruct (positive_Prim2SF d Hpos Hhigh) as [md [ed Hd]].
  pose proof (Prim2SF_valid d) as Hvd. rewrite Hd in Hvd.
  pose proof (finite_key_bounds _ _ _ Hvd) as Hkd.
  destruct (rounded_mono (fun x => SFdiv prec emax x (S754_finite false md ed))
              (fun k => (IZR (k * 2 ^ 1074) / IZR (SFkey (S754_finite false md ed)))%R))
    with (x1 := Prim2SF x1) (x2 := Prim2SF x2) as [Hr1 [Hr2 Hkeys]];
    try apply Prim2SF_valid; try assumption.
  - intros a b Hab. cbn [SFkey cond_Zopp].
    apply Rmult_lt_compat_r; [apply Rinv_0_lt_compat, IZR_lt; lia|].
    apply IZR_lt. pose proof (pow2_pos 1074 ltac:(lia)). nia.
  - intros x Hv Hx. apply SFdiv_rounds; assumption.
  - intros s. cbn [SFdiv]. rewrite xorb_false_r. reflexivity.
  - intros s s'. reflexivity.
  - apply leb_of_keys; unfold floatKey; rewrite ?div_spec, ?Hd; assumption.
Qed.

(** Multiplying by a finite positive number keeps the order. *)
Lemma mul_mono (x1 x2 c : float) :
  (x1 <=? x2)%float = true ->
  (0 <? c)%float = true -> (c <? infinity)%float = true ->
  (x1 * c <=? x2 * c)%float = true.
Proof.
  intros Hle Hpos Hhigh. destruct (leb_not_nan _ _ Hle) as [Hn1 Hn2].
  rewrite leb_key in Hle by assumption. apply Z.leb_le in Hle.
  apply not_nan_Prim2SF in Hn1, Hn2.
  destruct (positive_Prim2SF c Hpos Hhigh) as [mc [ec Hc]].
  pose proof (Prim2SF_valid c) as Hvc. rewrite Hc in Hvc.
  pose proof (finite_key_bounds _ _ _ Hvc) as Hkc.
  destruct (rounded_mono (fun x => SFmul prec emax x (S754_finite false mc ec))
              (fun k => (IZR (k * SFkey (S754_finite false mc ec)) / IZR (2 ^ 1074))%R))
    with (x1 := Prim2SF x1) (x2 := Prim2SF x2) as [Hr1 [Hr2 Hkeys]];
    try apply Prim2SF_valid; try assumption.
  - intros a b Hab. cbn [SFkey cond_Zopp].
    apply Rmult_lt_compat_r; [apply Rinv_0_lt_compat, IZR_lt, pow2_pos; lia|].
    apply IZR_lt. cbn [SFkey cond_Zopp] in Hkc. nia.
  - intros x Hv Hx. apply SFmul_rounds; assumption.
  - intros s. cbn [SFmul]. rewrite xorb_false_r. reflexivity.
  - intros s s'. reflexivity.
  - apply leb_of_keys; unfold floatKey; rewrite ?mul_spec, ?Hc; assumption.
Qed.

(** On binary64 numbers [normalizeMetric] is monotonic in its first
    argument, for a finite [min < max] whose difference does not
    overflow. *)
Lemma normalizeMetric_monotonic (min max v1 v2 : float) :
  (neg_infinity <? min)%float = true -> (min <? max)%float = true ->
  (max - min <? infinity)%float = true ->
  (v1 <=? v2)%float = true ->
  (normalizeMetric v1 min max <=? normalizeMetric v2 min max)%float = true.
Proof.
  intros Hlow Hlt Hfin Hle. destruct (ltb_not_nan _ _ Hlt) as [Hmin Hmax].
  assert (Hd : (0 <? max - min)%float = true).
  { rewrite sub_positive_key by assumption. rewrite ltb_key in Hlt by assumption. exact Hlt. }
  unfold normalizeMetric. cbn [nsub ndiv nmul num_of_nat F64].
  apply mul_mono; [|reflexivity|reflexivity].
  apply div_mono; [|exact Hd|exact Hfin].
  apply sub_mono; [exact Hle|exact Hlow|apply (ltb_lt_infinity _ _ Hlt)].
Qed.
End FloatOrder.

Section ExactRounding.
Local Open Scope Z_scope.







End ExactRounding.

(** Sorting with the comparator [(a, b) => f(b) - f(a)] puts the rows in
    descending order of [f], as long as no [f] is NaN. *)
Lemma Array_sort_descending {A : Type} (f : A -> float) (l : list A) :
  Forall (fun a => is_nan (f a) = false) l ->
  StronglySorted (fun a b => (f b <=? f a)%float = true)
                 (Array_sort (fun a b => (f b - f a)%float) l).
Proof.
  apply Array_sort_sorted.
  - intros a b c Ha Hb Hc. rewrite !leb_key by assumption.
    rewrite !Z.leb_le. lia.
  - intros a b Ha Hb. rewrite sub_positive_key, leb_key by assumption.
    rewrite Z.ltb_ge, Z.leb_le. lia.
  - intros a b Ha Hb. rewrite sub_positive_key, leb_key by assumption.
    rewrite Z.ltb_lt, Z.leb_le. lia.
Qed.

(** A comparator [(a, b) => f(b) - f(a)] is NaN whenever [f(a)] is: when
    every [f] is NaN no element is ever moved, and the array comes back
    as it was. *)
Lemma sub_nan_r (x y : float) : is_nan y = true -> is_nan (x - y)%float = true.
Proof.
  intros Hy. apply is_nan_Prim2SF in Hy. apply is_nan_Prim2SF.
  rewrite sub_spec, Hy. destruct (Prim2SF x); reflexivity.
Qed.

Lemma Array_sort_all_nan {A : Type} (f : A -> float) (l : list A) :
  Forall (fun a => is_nan (f a) = true) l ->
  Array_sort (fun a b => (f b - f a)%float) l = l.
Proof.
  induction 1 as [|a l Ha _ IH]; [reflexivity|].
  unfold Array_sort in *. cbn [fold_right]. rewrite IH.
  destruct l as [|b l]; [reflexivity|]. cbn [insert_sorted].
  destruct (0 <? f b - f a)%float eqn:Hcmp; [|reflexivity].
  apply ltb_not_nan in Hcmp. destruct Hcmp as [_ Hcmp].
  rewrite (sub_nan_r _ _ Ha) in Hcmp. discriminate Hcmp.
Qed.

(* ================================================================== *)
(** * CompositeScoreView: the weighted total and the ranking *)

Lemma scoreStock_total (metrics : CompositeScoreView.Metrics) (stock : S.StockData) :
  let row := CompositeScoreView.scoreStock metrics stock in
  let c := CompositeScoreView.components row in
  CompositeScoreView.totalScore row
  = (0.25 * CompositeScoreView.value c + 0.25 * CompositeScoreView.growth c
     + 0.20 * CompositeScoreView.quality c + 0.15 * CompositeScoreView.momentum c
     + 0.15 * CompositeScoreView.stability c)%float.
Proof.
  cbv zeta. unfold CompositeScoreView.scoreStock.
  cbn [CompositeScoreView.totalScore CompositeScoreView.components
       CompositeScoreView.value CompositeScoreView.growth CompositeScoreView.quality
       CompositeScoreView.momentum CompositeScoreView.stability].
  rewrite (float_mul_comm 0.25), (float_mul_comm 0.25), (float_mul_comm 0.20),
    (float_mul_comm 0.15%float), (float_mul_comm 0.15%float).
  reflexivity.
Qed.

(** C1 as stated fails: the two records of [tiedPair] are both eligible
    and share their forward P/E, so the P/E range of the cohort is empty,
    both total scores are NaN, and the output is in no descending order. *)
Lemma C1_tied_cohort_is_not_ranked :
  map CompositeScoreView.totalScore (CompositeScoreView.calculateCompositeScores tiedPair)
  = [nan; nan]
  /\ ~ descendingByTotalScore (CompositeScoreView.calculateCompositeScores tiedPair).
Proof.
  split; [vm_compute; reflexivity|].
  intros Hsorted. unfold descendingByTotalScore in Hsorted.
  vm_compute in Hsorted.
  apply StronglySorted_inv in Hsorted. destruct Hsorted as [_ Hall].
  inversion Hall as [|? ? Hle _]; subst. discriminate Hle.
Qed.

(** C1, amended: the rows of [calculateCompositeScores] are the scores of
    the eligible records; each row's [totalScore] is
    0.25*value + 0.25*growth + 0.20*quality + 0.15*momentum + 0.15*stability
    of its own components, with weights that sum to 1, on every batch;
    whenever no [totalScore] of the batch is NaN the rows are in
    descending order of [totalScore]; and when every [totalScore] is NaN
    the rows are the scored records in input order. *)
Theorem C1_weighted_total_and_descending_order (stocks : list S.StockData) :
  let rows := CompositeScoreView.calculateCompositeScores stocks in
  let valid := filter CompositeScoreView.isValid stocks in
  let scored := map (CompositeScoreView.scoreStock (CompositeScoreView.cohortMetrics valid)) valid in
  Permutation rows scored
  /\ (forall row, In row rows ->
        let c := CompositeScoreView.components row in
        CompositeScoreView.totalScore row
        = (0.25 * CompositeScoreView.value c + 0.25 * CompositeScoreView.growth c
           + 0.20 * CompositeScoreView.quality c + 0.15 * CompositeScoreView.momentum c
           + 0.15 * CompositeScoreView.stability c)%float)
  /\ (0.25 + 0.25 + 0.20 + 0.15 + 0.15 = 1)%float
  /\ ((forall row, In row rows -> is_nan (CompositeScoreView.totalScore row) = false) ->
      descendingByTotalScore rows)
  /\ ((forall row, In row rows -> is_nan (CompositeScoreView.totalScore row) = true) ->
      rows = scored).
Proof.
  intros rows valid scored.
  assert (Hperm : Permutation rows scored) by apply Array_sort_perm.
  split; [exact Hperm|]. split; [|split; [reflexivity|split]].
  - intros row Hin. apply (Permutation_in _ Hperm) in Hin.
    apply in_map_iff in Hin. destruct Hin as [stock [<- _]].
    apply scoreStock_total.
  - intros Hnum.
    unfold descendingByTotalScore, rows, CompositeScoreView.calculateCompositeScores.
    apply (Array_sort_descending CompositeScoreView.totalScore).
    apply Forall_forall. intros row Hin. apply Hnum.
    unfold rows, CompositeScoreView.calculateCompositeScores.
    apply Array_sort_In. exact Hin.
  - intros Hnan.
    unfold rows, CompositeScoreView.calculateCompositeScores.
    apply (Array_sort_all_nan CompositeScoreView.totalScore).
    apply Forall_forall. intros row Hin. apply Hnan.
    apply (Permutation_in _ (Permutation_sym Hperm)). exact Hin.
Qed.

Lemma C1_weighted_total_and_descending_order_witness :
  descendingByTotalScore (CompositeScoreView.calculateCompositeScores threeScored).
Proof.
  apply (proj1 (proj2 (proj2 (proj2
           (C1_weighted_total_and_descending_order threeScored))))).
  intros row Hin. vm_compute in Hin.
  destruct Hin as [<-|[<-|[<-|[]]]]; reflexivity.
Defined.

Example threeScored_ranking :
  map (fun row => (CompositeScoreView.ticker row, CompositeScoreView.totalScore row))
      (CompositeScoreView.calculateCompositeScores threeScored)
  = [ ("TOP"%string, 100); ("MID"%string, 46.980576441102755); ("LOW"%string, 7.5) ]%float.
Proof. vm_compute. reflexivity. Qed.

(* ================================================================== *)
(** * CorrelationClusteringView: the risk score *)

(** [Math.min(100, r)] is [r] itself for every negative [r]: there is no
    clamp at 0. *)
Lemma Math_min_100_negative (r : float) :
  (r <? 0)%float = true -> Math_min [100%float; r] = r.
Proof.
  intros Hneg. destruct (ltb_not_nan _ _ Hneg) as [Hr _].
  assert (Hlt : (r <? 100)%float = true).
  { rewrite ltb_key by (exact Hr || reflexivity).
    rewrite ltb_key in Hneg by (exact Hr || reflexivity).
    assert (H0 : (0 <? 100)%float = true) by reflexivity.
    rewrite ltb_key in H0 by reflexivity.
    rewrite Z.ltb_lt in *. lia. }
  unfold Math_min. cbn [existsb]. rewrite Hr.
  change (is_nan 100) with false. cbn [orb fold_left].
  change (is_neg_zero 100) with false. cbn [andb].
  change (100 <? infinity)%float with true. cbv iota.
  change (is_pos_zero 100) with false. rewrite andb_false_r, Hlt. reflexivity.
Qed.

(** [Math.min(100, r)] is 100 for every [r] above 100. *)
Lemma Math_min_100_above (r : float) :
  (100 <? r)%float = true -> Math_min [100%float; r] = 100%float.
Proof.
  intros Habove. destruct (ltb_not_nan _ _ Habove) as [_ Hr].
  assert (Hlt : (r <? 100)%float = false).
  { rewrite ltb_key by (exact Hr || reflexivity).
    rewrite ltb_key in Habove by (exact Hr || reflexivity).
    rewrite Z.ltb_lt in Habove. apply Z.ltb_ge. lia. }
  unfold Math_min. cbn [existsb]. rewrite Hr.
  change (is_nan 100) with false. cbn [orb fold_left].
  change (is_neg_zero 100) with false. cbn [andb].
  change (100 <? infinity)%float with true. cbv iota.
  change (is_pos_zero 100) with false. rewrite andb_false_r, Hlt. reflexivity.
Qed.

(** C7: every cluster of the output has
    [risk_score = Math.min(100, avg_correlation * 100)]; the score is 100
    when the product exceeds 100, and when the average correlation is
    negative the score is the product itself, a negative number: nothing
    clamps it at 0. *)
Theorem C7_risk_score_is_clamped_above_only (stocks : list S.StockData)
        (c : CorrelationClusteringView.ClusterData) :
  In c (returned (CorrelationClusteringView.calculateCorrelationClusters stocks)) ->
  let avg := CorrelationClusteringView.avg_correlation c in
  let risk := CorrelationClusteringView.risk_score c in
  risk = Math_min [100; avg * 100]%float
  /\ ((100 <? avg * 100)%float = true -> risk = 100%float)
  /\ ((avg <? 0)%float = true ->
      risk = (avg * 100)%float /\ (risk <? 0)%float = true /\ risk <> 0%float).
Proof.
  intros Hin avg risk.
  assert (Hrisk : risk = Math_min [100; avg * 100]%float).
  { unfold CorrelationClusteringView.calculateCorrelationClusters in Hin.
    destruct (CorrelationClusteringView.stocksBySector stocks) as [groups|]; [|destruct Hin].
    cbn [returned] in Hin.
    apply Array_sort_In, in_flat_map in Hin. destruct Hin as [[s members] [_ Hin]].
    apply clusterLoop_In in Hin. destruct Hin as [j Hj].
    apply clusterAt_Some in Hj. tauto. }
  split; [exact Hrisk|]. split.
  - intros Habove. rewrite Hrisk. apply Math_min_100_above, Habove.
  - intros Hneg. apply mul_100_negative in Hneg.
    assert (Heq : risk = (avg * 100)%float)
      by (rewrite Hrisk; apply Math_min_100_negative, Hneg).
    split; [exact Heq|]. split; [rewrite Heq; exact Hneg|].
    intros Hzero. rewrite Heq in Hzero. rewrite Hzero in Hneg. discriminate Hneg.
Qed.

Lemma C7_risk_score_is_clamped_above_only_witness :
  let c := {| CorrelationClusteringView.name := "Utilities Cluster 1";
              CorrelationClusteringView.sector := "Utilities";
              CorrelationClusteringView.stocks := ["UP"; "DOWN"]%string;
              CorrelationClusteringView.avg_correlation := (-1)%float;
              CorrelationClusteringView.risk_score := (-100)%float |} in
  let avg := CorrelationClusteringView.avg_correlation c in
  let risk := CorrelationClusteringView.risk_score c in
  risk = Math_min [100; avg * 100]%float
  /\ ((100 <? avg * 100)%float = true -> risk = 100%float)
  /\ ((avg <? 0)%float = true ->
      risk = (avg * 100)%float /\ (risk <? 0)%float = true /\ risk <> 0%float).
Proof.
  intros c. apply (C7_risk_score_is_clamped_above_only antiPair c).
  vm_compute. left. reflexivity.
Defined.

(* ================================================================== *)
(** * CompositeScoreView: [normalizeMetric] at sample inputs *)

(** The running code on the same cohort range. *)
Example normalizeMetric_binary64 :
  (normalizeMetric 10 10 30 = 0 /\ normalizeMetric 30 10 30 = 100
   /\ normalizeMetric 15 10 30 = 25 /\ normalizeMetric 5 5 5 = nan)%float.
Proof. vm_compute. repeat split. Qed.

(* ================================================================== *)
(** * financialMetrics: the Sharpe ratio *)

Section SharpeFacts.
Context {T : Type} `{JsNumber T}.

Lemma reduce_from_plain {A B : Type} (f : B -> A -> B) (i : nat) (l : list A) (acc : B) :
  reduce_from (fun a b _ => f a b) i l acc = fold_left f l acc.
Proof. revert i acc. induction l as [|x l IH]; simpl; intros; [reflexivity | apply IH]. Qed.


End SharpeFacts.






(* ================================================================== *)
(** * CorrelationClusteringView: Pearson correlation in exact arithmetic *)

Section PearsonExact.
Local Open Scope R_scope.

Lemma fold_left_sum (g : R -> R) (l : list R) (acc : R) :
  fold_left (fun a b => a + g b) l acc = acc + fold_right Rplus 0 (map g l).
Proof.
  revert acc. induction l as [|x l IH]; intros acc; simpl; [lra|].
  rewrite IH. lra.
Qed.

Lemma reduce_sum (g : R -> R) (l : list R) :
  reduce (fun a b (_ : nat) => a + g b) l 0 = fold_right Rplus 0 (map g l).
Proof.
  unfold reduce. rewrite (reduce_from_plain (fun a b => a + g b)), fold_left_sum. lra.
Qed.

(** Against itself, the sum of products is the sum of squares. *)
Lemma reduce_products_self (pre rest : list R) (acc : R) :
  reduce_from (fun acc curr i => acc + curr * nth i (pre ++ rest) 0) (length pre) rest acc
  = acc + fold_right Rplus 0 (map (fun a => a * a) rest).
Proof.
  revert pre acc. induction rest as [|x rest IH]; intros pre acc; simpl; [lra|].
  rewrite nth_middle.
  replace (pre ++ x :: rest) with ((pre ++ [x]) ++ rest) by (rewrite <- app_assoc; reflexivity).
  replace (S (length pre)) with (length (pre ++ [x])) by (rewrite length_app; simpl; lia).
  rewrite IH. lra.
Qed.

Lemma spread_cons (a : R) (l : list R) :
  spread (a :: l) = spread l + fold_right Rplus 0 (map (fun x => (a - x) * (a - x)) l).
Proof.
  unfold spread. cbn [length map fold_right]. rewrite S_INR.
  assert (Hq : fold_right Rplus 0 (map (fun x => (a - x) * (a - x)) l)
               = INR (length l) * (a * a) - 2 * a * fold_right Rplus 0 l
                 + fold_right Rplus 0 (map (fun x => x * x) l)).
  { induction l as [|x l IH]; cbn [length map fold_right]; [simpl; lra|].
    rewrite IH, S_INR. lra. }
  rewrite Hq. ring.
Qed.

Lemma squares_nonneg (a : R) (l : list R) :
  0 <= fold_right Rplus 0 (map (fun x => (a - x) * (a - x)) l).
Proof.
  induction l as [|x l IH]; simpl; [lra|].
  pose proof (Rle_0_sqr (a - x)) as Hs. unfold Rsqr in Hs. lra.
Qed.

Lemma squares_pos (a b : R) (l : list R) :
  In b l -> a <> b -> 0 < fold_right Rplus 0 (map (fun x => (a - x) * (a - x)) l).
Proof.
  induction l as [|x l IH]; simpl; [tauto|]. intros [->|Hin] Hne.
  - pose proof (squares_nonneg a l).
    assert (0 < (a - b) * (a - b)) by (apply Rsqr_pos_lt; lra). lra.
  - pose proof (Rle_0_sqr (a - x)) as Hs. unfold Rsqr in Hs.
    specialize (IH Hin Hne). lra.
Qed.

Lemma spread_nonneg (l : list R) : 0 <= spread l.
Proof.
  induction l as [|a l IH].
  - unfold spread. simpl. lra.
  - rewrite spread_cons. pose proof (squares_nonneg a l). lra.
Qed.

Lemma spread_pos (l : list R) : nonConstant l -> 0 < spread l.
Proof.
  induction l as [|a l IH]; intros [u [v [Hu [Hv Hne]]]]; [destruct Hu|].
  rewrite spread_cons.
  pose proof (spread_nonneg l). pose proof (squares_nonneg a l).
  destruct (Req_dec_T a u) as [Hau|Hau], (Req_dec_T a v) as [Hav|Hav].
  - congruence.
  - destruct Hv as [Hv|Hv]; [congruence|].
    pose proof (squares_pos a v l Hv Hav). lra.
  - destruct Hu as [Hu|Hu]; [congruence|].
    pose proof (squares_pos a u l Hu Hau). lra.
  - destruct Hu as [Hu|Hu]; [congruence|].
    pose proof (squares_pos a u l Hu Hau). lra.
Qed.

Lemma spread_constant (l : list R) : constantSeries l -> spread l = 0.
Proof.
  intros [c Hc]. induction l as [|a l IH].
  - unfold spread. simpl. lra.
  - rewrite spread_cons, IH by (intros x Hx; apply Hc; right; exact Hx).
    assert (Ha : a = c) by (apply Hc; left; reflexivity). subst a.
    assert (Hz : fold_right Rplus 0 (map (fun x => (c - x) * (c - x)) l) = 0).
    { clear IH. induction l as [|x l IH]; simpl; [reflexivity|].
      rewrite IH by (intros y [Hy|Hy]; apply Hc; [left; exact Hy | right; right; exact Hy]).
      rewrite (Hc x) by (right; left; reflexivity). ring. }
    rewrite Hz. ring.
Qed.

(** The code, in exact arithmetic, in terms of [spread]. *)
Lemma pearson_exact (x y : list R) :
  calculatePearsonCorrelation x y =
  let numerator :=
    INR (length x) * reduce (fun acc curr i => acc + curr * nth i y 0) x 0
    - fold_right Rplus 0 x * fold_right Rplus 0 y in
  let denominator :=
    R_sqrt.sqrt (spread x * (INR (length x) * fold_right Rplus 0 (map (fun a => a * a) y)
                              - fold_right Rplus 0 y * fold_right Rplus 0 y)) in
  if Req_dec_T denominator 0 then 0 else numerator / denominator.
Proof.
  unfold calculatePearsonCorrelation, at_index, spread.
  cbn [nadd nsub nmul ndiv nsqrt neqb num_of_nat nundef Exact INR].
  rewrite !(reduce_sum (fun b => b * b)).
  rewrite !(reduce_sum (fun b => b)), !map_id.
  cbv zeta. destruct (Req_dec_T _ 0); reflexivity.
Qed.

(** In exact arithmetic a non-constant series correlates perfectly with
    itself. *)
Lemma pearson_self (x : list R) :
  nonConstant x -> calculatePearsonCorrelation x x = 1.
Proof.
  intros Hx. pose proof (spread_pos x Hx) as Hpos.
  rewrite pearson_exact. cbv zeta.
  fold (spread x). rewrite sqrt_square by lra.
  assert (Hxy : reduce (fun acc curr i => acc + curr * nth i x 0) x 0
                = fold_right Rplus 0 (map (fun a => a * a) x)).
  { unfold reduce. pose proof (reduce_products_self [] x 0) as Hp.
    cbn [app length] in Hp. rewrite Hp. lra. }
  rewrite Hxy. fold (spread x).
  destruct (Req_dec_T (spread x) 0); [lra | field; lra].
Qed.

(** In exact arithmetic a constant series on either side gives 0. *)
Lemma pearson_constant (x y : list R) :
  length x = length y ->
  constantSeries x \/ constantSeries y -> calculatePearsonCorrelation x y = 0.
Proof.
  intros Hlen Hconst. rewrite pearson_exact. cbv zeta.
  replace (INR (length x) * fold_right Rplus 0 (map (fun a => a * a) y)
           - fold_right Rplus 0 y * fold_right Rplus 0 y)
    with (spread y) by (unfold spread; rewrite Hlen; reflexivity).
  assert (Hz : spread x * spread y = 0).
  { destruct Hconst as [Hc|Hc]; rewrite (spread_constant _ Hc); ring. }
  rewrite Hz, sqrt_0.
  destruct (Req_dec_T 0 0); [reflexivity | congruence].
Qed.
End PearsonExact.

(** C6: in exact arithmetic the claim holds: a non-constant series
    correlates with itself at exactly 1, and a pair with a constant
    series has a zero denominator and gives 0.  The running code does not
    keep the second half: for the constant series 2.37 (five times)
    against 1, 2, 3, 4, 5, rounding leaves [n * sum_x2 - sum_x * sum_x]
    slightly below zero, the square root of the negative product is NaN,
    the test [denominator === 0] does not catch it, and the function
    returns NaN, which then becomes the cluster's average correlation and
    risk score. *)
Theorem C6_pearson_exact_and_binary64 :
  (forall x : list R, nonConstant x -> calculatePearsonCorrelation x x = 1%R)
  /\ (forall x y : list R,
        length x = length y -> constantSeries x \/ constantSeries y ->
        calculatePearsonCorrelation x y = 0%R)
  /\ calculatePearsonCorrelation [1; 2; 3; 4; 5]%float [1; 2; 3; 4; 5]%float = 1%float
  /\ calculatePearsonCorrelation [0; 0; 0; 0; 0]%float [1; 2; 3; 4; 5]%float = 0%float
  /\ (let x := [2.37; 2.37; 2.37; 2.37; 2.37] in
      let sum_x := reduce (fun a b _ => a + b) x 0 in
      let sum_x2 := reduce (fun a b _ => a + b * b) x 0 in
      sum_x = 11.850000000000001
      /\ sum_x2 = 28.084500000000002
      /\ 5 * sum_x2 = 140.4225
      /\ sum_x * sum_x = 140.42250000000004
      /\ 5 * sum_x2 - sum_x * sum_x = -2.842170943040401e-14)%float
  /\ calculatePearsonCorrelation [2.37; 2.37; 2.37; 2.37; 2.37]%float [1; 2; 3; 4; 5]%float = nan
  /\ map (fun c => (CorrelationClusteringView.avg_correlation c,
                    CorrelationClusteringView.risk_score c))
         (returned (CorrelationClusteringView.calculateCorrelationClusters flatAndRising))
     = [(nan, nan)].
Proof.
  split; [exact pearson_self|].
  split; [exact pearson_constant|].
  vm_compute. repeat split.
Qed.

(* ================================================================== *)
(** * CompositeScoreView: [normalizeMetric] as it runs *)

(** On binary64 numbers the two ends of the range come out exactly: 0 at
    [min] for every finite [min < max], and 100 at [max] as long as
    [max - min] does not overflow. *)
Lemma normalizeMetric_binary64_endpoints (min max : float) :
  (neg_infinity <? min)%float = true -> (min <? max)%float = true ->
  normalizeMetric min min max = 0%float
  /\ ((max - min <? infinity)%float = true -> normalizeMetric max min max = 100%float).
Proof.
  intros Hlow Hlt. destruct (ltb_not_nan _ _ Hlt) as [Hmin Hmax].
  assert (Hd : (0 <? max - min)%float = true).
  { rewrite sub_positive_key by assumption. rewrite ltb_key in Hlt by assumption. exact Hlt. }
  unfold normalizeMetric. cbn [nsub ndiv nmul num_of_nat F64].
  split.
  - rewrite (sub_self_finite min max Hlow Hlt), (div_zero_positive _ Hd). reflexivity.
  - intros Hfin. rewrite (div_self_positive _ Hd Hfin). reflexivity.
Qed.

(** C2 as stated fails on the numbers the code runs on: for
    min = -1e308 < max = 1e308 the difference [max - min] overflows to
    +Infinity, [normalize(max)] is Infinity / Infinity = NaN, not 100, and
    with [normalize(0) = 0] the result is not monotonic either. *)
Lemma C2_range_overflow_gives_nan :
  ((-1e308 <? 1e308) = true
   /\ normalizeMetric 1e308 (-1e308) 1e308 = nan
   /\ (0 <=? 1e308) = true
   /\ normalizeMetric 0 (-1e308) 1e308 = 0
   /\ (normalizeMetric 0 (-1e308) 1e308 <=? normalizeMetric 1e308 (-1e308) 1e308) = false)%float.
Proof. vm_compute. repeat split. Qed.

(** C2, amended: on binary64 numbers, for finite [min < max],
    [normalizeMetric v min max] is [((v - min) / (max - min)) * 100] with
    each operation rounded; it is 0 at [min]; and whenever [max - min]
    does not overflow it is 100 at [max] and monotonic non-decreasing in
    [v]. *)
Theorem C2_normalize_is_affine_and_monotonic (min max : float) :
  (neg_infinity <? min)%float = true -> (min <? max)%float = true ->
  (forall v, normalizeMetric v min max = ((v - min) / (max - min) * 100)%float)
  /\ normalizeMetric min min max = 0%float
  /\ ((max - min <? infinity)%float = true ->
      normalizeMetric max min max = 100%float
      /\ forall v1 v2,
           (v1 <=? v2)%float = true ->
           (normalizeMetric v1 min max <=? normalizeMetric v2 min max)%float = true).
Proof.
  intros Hlow Hlt. split; [intros v; reflexivity|].
  destruct (normalizeMetric_binary64_endpoints min max Hlow Hlt) as [Hmin Hmax].
  split; [exact Hmin|]. intros Hfin. split; [apply Hmax, Hfin|].
  intros v1 v2 Hle. apply normalizeMetric_monotonic; assumption.
Qed.

Lemma C2_normalize_is_affine_and_monotonic_witness :
  (normalizeMetric 10 10 30 = 0
   /\ normalizeMetric 30 10 30 = 100
   /\ (normalizeMetric 15 10 30 <=? normalizeMetric 20 10 30) = true)%float.
Proof.
  destruct (C2_normalize_is_affine_and_monotonic 10%float 30%float eq_refl eq_refl)
    as [_ [Hmin Hrange]].
  destruct (Hrange eq_refl) as [Hmax Hmono].
  split; [exact Hmin|]. split; [exact Hmax|].
  apply Hmono. reflexivity.
Defined.

(* ================================================================== *)
(** * Sample runs of the clustering *)

(** A remainder of one record is dropped: six records give one cluster. *)
Example six_records_one_cluster :
  map CorrelationClusteringView.stocks
      (returned (CorrelationClusteringView.calculateCorrelationClusters sixTech))
  = [ ["AAA"; "BBB"; "CCC"; "DDD"; "EEE"]%string ].
Proof. vm_compute. reflexivity. Qed.

Example three_aligned_records :
  map (fun c => (CorrelationClusteringView.name c,
                 CorrelationClusteringView.stocks c,
                 CorrelationClusteringView.avg_correlation c,
                 CorrelationClusteringView.risk_score c))
      (returned (CorrelationClusteringView.calculateCorrelationClusters threeAligned))
  = [ ("Technology Cluster 1"%string, ["AAA"; "BBB"; "CCC"]%string, 1%float, 100%float) ].
Proof. vm_compute. reflexivity. Qed.

(* ================================================================== *)
(** * The statements above at sample inputs *)



Lemma C9_dividend_filter_is_strictly_positive_yield_witness :
  let row := {| DividendView.name := "Energy";
                DividendView.avgYield := 3;
                DividendView.avgPayout := 40;
                DividendView.avgGrowth := 4;
                DividendView.stockCount := 2 |}%float in
  DividendView.stockCount row
  = length (filter (fun stock => DividendView.paysDividend stock
                                 && String.eqb (S.sector stock) (DividendView.name row))
                   dividendBatch).
Proof.
  intros row.
  apply (proj1 (proj2 (proj2 (proj2
           (C9_dividend_filter_is_strictly_positive_yield dividendBatch)))) row).
  vm_compute. left. reflexivity.
Defined.

Lemma C10_view_writes_zero_for_undefined_witness :
  RiskReturnView.sharpeRatio (RiskReturnView.toRow steadyStock) = 0%float
  /\ RiskReturnView.riskAdjustedReturn (RiskReturnView.toRow steadyStock) = 0%float.
Proof.
  split.
  - apply (proj1 (proj2 (C10_view_writes_zero_for_undefined [steadyStock]))).
    vm_compute. reflexivity.
  - apply (proj1 (proj2 (proj2 (proj2 (proj2
             (C10_view_writes_zero_for_undefined [steadyStock])))))).
    vm_compute. reflexivity.
Defined.

(* ================================================================== *)
(** * Keyed accumulation: what a [sectorMap] holds after the loop *)

Section RowsOf.
Context {A : Type} (key : A -> string).

Lemma rowsOf_nonempty (l : list A) (k : string) :
  rowsOf key k l <> [] <-> In k (map key l).
Proof.
  unfold rowsOf. induction l as [|x l IH]; simpl; [tauto|].
  destruct (String.eqb (key x) k) eqn:E.
  - apply String.eqb_eq in E. split; [auto | discriminate].
  - apply String.eqb_neq in E. rewrite IH. tauto.
Qed.

Lemma rowsOf_key (l : list A) (k : string) :
  Forall (fun x => key x = k) (rowsOf key k l).
Proof.
  apply Forall_forall. intros x Hx. apply filter_In in Hx.
  apply String.eqb_eq, Hx.
Qed.

(** The rows of the keys of a duplicate-free list that holds every key
    are all the rows: no row is counted twice and none is left out. *)
Lemma rowsOf_partition (ks : list string) (l : list A) :
  NoDup ks -> (forall x, In x l -> In (key x) ks) ->
  list_sum (map (fun k => length (rowsOf key k l)) ks) = length l.
Proof.
  intros Hnd. induction l as [|x l IH]; intros Hall.
  - clear Hnd Hall. induction ks as [|k ks IHk]; simpl; auto.
  - assert (Hx : In (key x) ks) by (apply Hall; left; reflexivity).
    specialize (IH (fun y Hy => Hall y (or_intror Hy))).
    cbn [length]. rewrite <- IH. clear IH Hall.
    induction ks as [|k ks IHk]; [destruct Hx|].
    inversion Hnd as [|? ? Hnotin Hnd']; subst.
    cbn [map list_sum]. unfold rowsOf at 1 3. cbn [filter]. fold (rowsOf key k l).
    destruct (String.eqb (key x) k) eqn:E.
    + apply String.eqb_eq in E. subst k. cbn [length].
      assert (Hrest : map (fun k => length (rowsOf key k (x :: l))) ks
                      = map (fun k => length (rowsOf key k l)) ks).
      { apply map_ext_in. intros k Hk. unfold rowsOf. cbn [filter].
        destruct (String.eqb (key x) k) eqn:E'; [|reflexivity].
        apply String.eqb_eq in E'. subst k. contradiction. }
      rewrite Hrest. cbn [list_sum fold_right]. lia.
    + apply String.eqb_neq in E. destruct Hx as [Hx|Hx]; [congruence|].
      cbn [list_sum fold_right]. specialize (IHk Hnd' Hx).
      unfold list_sum in IHk. lia.
Qed.
End RowsOf.

Section KeyedFacts.
Context {A D : Type} (key : A -> string) (init : D) (update : D -> A -> D).

Lemma keyedStep_NoDup (l : list A) (m : entries D) :
  NoDup (map fst m) -> NoDup (map fst (fold_left (keyedStep key init update) l m)).
Proof.
  revert m. induction l as [|x l IH]; simpl; intros m Hm; [exact Hm|].
  apply IH. unfold keyedStep. apply obj_set_NoDup, Hm.
Qed.

(** The accumulator of a key is the fold of [update] over the rows of
    that key, in list order, started from what the map held. *)
Lemma keyedStep_get (l : list A) (m : entries D) (k : string) :
  obj_get (fold_left (keyedStep key init update) l m) k =
  match rowsOf key k l with
  | [] => obj_get m k
  | _ :: _ =>
      Some (fold_left update (rowsOf key k l)
              (match obj_get m k with Some d => d | None => init end))
  end.
Proof.
  revert m. induction l as [|x l IH]; intros m; [reflexivity|].
  cbn [fold_left]. rewrite IH. unfold rowsOf. cbn [filter].
  fold (rowsOf key k l). unfold keyedStep.
  destruct (String.eqb (key x) k) eqn:E.
  - apply String.eqb_eq in E. subst k. rewrite obj_get_set_same.
    destruct (rowsOf key (key x) l); reflexivity.
  - apply String.eqb_neq in E. rewrite obj_get_set_other by exact E. reflexivity.
Qed.

Lemma keyedStep_entries (l : list A) (k : string) (d : D) :
  In (k, d) (fold_left (keyedStep key init update) l []) <->
  rowsOf key k l <> [] /\ d = fold_left update (rowsOf key k l) init.
Proof.
  split.
  - intros Hin.
    apply In_obj_get in Hin; [|apply keyedStep_NoDup; constructor].
    rewrite keyedStep_get in Hin. simpl in Hin.
    destruct (rowsOf key k l); [discriminate|].
    split; [discriminate | congruence].
  - intros [Hne ->]. apply obj_get_In. rewrite keyedStep_get. simpl.
    destruct (rowsOf key k l); [congruence | reflexivity].
Qed.

Lemma keyedStep_keys (l : list A) (k : string) :
  In k (map fst (fold_left (keyedStep key init update) l [])) <-> In k (map key l).
Proof.
  rewrite <- (rowsOf_nonempty key), in_map_iff. split.
  - intros [[k' d] [Hk Hin]]. simpl in Hk. subst k'.
    apply keyedStep_entries in Hin. tauto.
  - intros Hne. exists (k, fold_left update (rowsOf key k l) init).
    split; [reflexivity | apply keyedStep_entries; auto].
Qed.
End KeyedFacts.

(** Sorting does not change which single element, if any, has a property. *)
Lemma filter_sort_single {A : Type} (p : A -> bool) (c : A -> A -> float) (l : list A) (x : A) :
  filter p l = [x] -> filter p (Array_sort c l) = [x].
Proof.
  intros H. apply Permutation_length_1_inv. rewrite <- H.
  apply Permutation_sym, Permutation_filter_compat, Array_sort_perm.
Qed.

Lemma filter_sort_none {A : Type} (p : A -> bool) (c : A -> A -> float) (l : list A) :
  filter p l = [] -> filter p (Array_sort c l) = [].
Proof.
  intros H. apply Permutation_nil. rewrite <- H.
  apply Permutation_sym, Permutation_filter_compat, Array_sort_perm.
Qed.
(* ================================================================== *)
(** * DividendView: the sector table *)

Lemma dividend_accumulate_keyed :
  exists init update,
    DividendView.accumulate = keyedStep DividendView.sector init update
    /\ forall rows,
         fold_left update rows init
         = {| DividendView.count := length rows;
              DividendView.totalYield :=
                totalOf (fun m => ToNumber (DividendView.dividend_yield m)) rows;
              DividendView.totalPayout :=
                totalOf (fun m => ToNumber (DividendView.payout_ratio m)) rows;
              DividendView.totalGrowth :=
                totalOf (fun m => ToNumber (DividendView.dividend_growth m)) rows |}.
Proof.
  exists {| DividendView.count := 0; DividendView.totalYield := 0;
            DividendView.totalPayout := 0; DividendView.totalGrowth := 0 |}.
  exists (fun sectorData stock =>
            {| DividendView.count := S (DividendView.count sectorData);
               DividendView.totalYield :=
                 DividendView.totalYield sectorData
                 + ToNumber (DividendView.dividend_yield stock);
               DividendView.totalPayout :=
                 DividendView.totalPayout sectorData
                 + ToNumber (DividendView.payout_ratio stock);
               DividendView.totalGrowth :=
                 DividendView.totalGrowth sectorData
                 + ToNumber (DividendView.dividend_growth stock) |})%float.
  split; [reflexivity|].
  intros rows. unfold totalOf.
  match goal with
  | |- fold_left ?u rows ?i = _ =>
      assert (Hfold : forall d0,
                 fold_left u rows d0
                 = {| DividendView.count := DividendView.count d0 + length rows;
                      DividendView.totalYield :=
                        fold_left (fun t m => t + ToNumber (DividendView.dividend_yield m))%float
                                  rows (DividendView.totalYield d0);
                      DividendView.totalPayout :=
                        fold_left (fun t m => t + ToNumber (DividendView.payout_ratio m))%float
                                  rows (DividendView.totalPayout d0);
                      DividendView.totalGrowth :=
                        fold_left (fun t m => t + ToNumber (DividendView.dividend_growth m))%float
                                  rows (DividendView.totalGrowth d0) |})
  end.
  { induction rows as [|x rows IH]; intros d0.
    - destruct d0; simpl. rewrite Nat.add_0_r. reflexivity.
    - cbn [fold_left]. rewrite IH. cbn. f_equal. lia. }
  rewrite Hfold. reflexivity.
Qed.

Lemma dividend_sector_entry (metrics : list DividendView.DividendMetrics)
      (s : string) (d : DividendView.SectorTotals) :
  In (s, d) (fold_left DividendView.accumulate metrics []) <->
  let members := rowsOf DividendView.sector s metrics in
  members <> []
  /\ d = {| DividendView.count := length members;
            DividendView.totalYield :=
              totalOf (fun m => ToNumber (DividendView.dividend_yield m)) members;
            DividendView.totalPayout :=
              totalOf (fun m => ToNumber (DividendView.payout_ratio m)) members;
            DividendView.totalGrowth :=
              totalOf (fun m => ToNumber (DividendView.dividend_growth m)) members |}.
Proof.
  cbv zeta. destruct dividend_accumulate_keyed as [init [update [-> Hfold]]].
  rewrite keyedStep_entries, Hfold. reflexivity.
Qed.

Lemma dividend_sector_names (metrics : list DividendView.DividendMetrics) :
  map DividendView.name (map DividendView.toSectorAnalysis
                             (fold_left DividendView.accumulate metrics []))
  = map fst (fold_left DividendView.accumulate metrics []).
Proof.
  rewrite map_map. apply map_ext. intros [s d]. reflexivity.
Qed.

(** X1: the sector table of DividendView has exactly one row for each
    sector that occurs among the rows it is given; the row counts the
    rows of its sector and its three averages are the column totals of
    those rows, added up from 0 in the order given, divided by that
    count; and the table is in descending order of [avgYield] whenever no
    average yield is NaN. *)
Theorem X1_dividend_sector_table (metrics : list DividendView.DividendMetrics) :
  let table := DividendView.calculateSectorAverages metrics in
  NoDup (map DividendView.name table)
  /\ (forall s, In s (map DividendView.name table) <-> In s (map DividendView.sector metrics))
  /\ (forall row, In row table ->
        let members := rowsOf DividendView.sector (DividendView.name row) metrics in
        let n := float_of_nat (length members) in
        1 <= length members
        /\ DividendView.stockCount row = length members
        /\ DividendView.avgYield row
           = (totalOf (fun m => ToNumber (DividendView.dividend_yield m)) members / n)%float
        /\ DividendView.avgPayout row
           = (totalOf (fun m => ToNumber (DividendView.payout_ratio m)) members / n)%float
        /\ DividendView.avgGrowth row
           = (totalOf (fun m => ToNumber (DividendView.dividend_growth m)) members / n)%float)
  /\ (Forall (fun row => is_nan (DividendView.avgYield row) = false) table ->
      StronglySorted
        (fun a b => (DividendView.avgYield b <=? DividendView.avgYield a)%float = true) table).
Proof.
  intros table. unfold table, DividendView.calculateSectorAverages.
  set (sectorMap := fold_left DividendView.accumulate metrics []).
  assert (Hnames : Permutation
                     (map DividendView.name
                        (Array_sort DividendView.byAvgYieldDesc
                           (map DividendView.toSectorAnalysis sectorMap)))
                     (map fst sectorMap)).
  { unfold sectorMap. rewrite <- dividend_sector_names.
    apply Permutation_map, Array_sort_perm. }
  split.
  { apply (Permutation_NoDup (Permutation_sym Hnames)).
    apply accumulate_NoDup. constructor. }
  split.
  { intros s. split; intros Hin.
    - apply (Permutation_in _ Hnames) in Hin.
      apply in_map_iff in Hin. destruct Hin as [[s' d] [Hs Hin]]. simpl in Hs. subst s'.
      apply dividend_sector_entry in Hin. apply rowsOf_nonempty, Hin.
    - apply (Permutation_in _ (Permutation_sym Hnames)).
      apply rowsOf_nonempty in Hin. apply in_map_iff.
      eexists (s, _). split; [reflexivity|].
      apply dividend_sector_entry. split; [exact Hin | reflexivity]. }
  split.
  { intros row Hrow. apply Array_sort_In, in_map_iff in Hrow.
    destruct Hrow as [[s d] [<- Hin]].
    apply dividend_sector_entry in Hin. cbv zeta in Hin. destruct Hin as [Hne ->].
    cbn. destruct (rowsOf DividendView.sector s metrics) as [|x rest]; [congruence|].
    repeat split. simpl. lia. }
  intros Hnan. apply Array_sort_descending.
  apply (Permutation_Forall (Array_sort_perm DividendView.byAvgYieldDesc _)). exact Hnan.
Qed.
Section KeyedSelection.
Context {A D : Type} (key : A -> string) (init : D) (update : D -> A -> D).

Lemma entries_filter_key (m : entries D) (s : string) :
  NoDup (map fst m) ->
  filter (fun e => String.eqb (fst e) s) m =
  match obj_get m s with
  | Some d => [(s, d)]
  | None => []
  end.
Proof.
  induction m as [|[k d] m IH]; intros Hnd; [reflexivity|].
  inversion Hnd as [|? ? Hnotin Hnd']; subst. cbn [filter obj_get fst].
  destruct (String.eqb k s) eqn:E.
  - apply String.eqb_eq in E. subst k. rewrite (IH Hnd').
    apply obj_get_None in Hnotin. rewrite Hnotin. reflexivity.
  - apply IH, Hnd'.
Qed.

Lemma keyedStep_one_key (l : list A) (s : string) :
  Forall (fun x => key x = s) l ->
  fold_left (keyedStep key init update) l [] =
  match l with
  | [] => []
  | _ :: _ => [(s, fold_left update l init)]
  end.
Proof.
  intros Hall. destruct l as [|x l]; [reflexivity|].
  inversion Hall as [|? ? Hx Hl]; subst. clear Hall. cbn [fold_left]. unfold keyedStep at 2.
  cbn [obj_get obj_set]. generalize (update init x) as d.
  induction l as [|y l IH]; intros d; [reflexivity|].
  inversion Hl as [|? ? Hy Hl']; subst.
  cbn [fold_left]. unfold keyedStep at 2. cbn [obj_get obj_set].
  rewrite Hy, String.eqb_refl. apply IH, Hl'.
Qed.

(** The entry a key gets in the map built from all rows is the map built
    from the rows of that key alone. *)
Lemma keyedStep_selected (l : list A) (s : string) :
  filter (fun e => String.eqb (fst e) s) (fold_left (keyedStep key init update) l [])
  = fold_left (keyedStep key init update) (rowsOf key s l) [].
Proof.
  rewrite entries_filter_key by (apply keyedStep_NoDup; constructor).
  rewrite keyedStep_get, (keyedStep_one_key _ s) by apply rowsOf_key.
  assert (Hidem : rowsOf key s (rowsOf key s l) = rowsOf key s l) by apply filter_idem.
  simpl. destruct (rowsOf key s l); reflexivity.
Qed.

Lemma keyedStep_one_key_length (l : list A) (s : string) :
  Forall (fun x => key x = s) l ->
  length (fold_left (keyedStep key init update) l []) <= 1.
Proof.
  intros Hall. rewrite (keyedStep_one_key l s Hall). destruct l; simpl; lia.
Qed.
End KeyedSelection.

Lemma Array_sort_short {A : Type} (c : A -> A -> float) (l : list A) :
  length l <= 1 -> Array_sort c l = l.
Proof.
  destruct l as [|x [|y l]]; simpl; intros Hl; [reflexivity | reflexivity | lia].
Qed.

Lemma filter_filter_comm {A : Type} (p q : A -> bool) (l : list A) :
  filter p (filter q l) = filter q (filter p l).
Proof.
  induction l as [|x l IH]; simpl; [reflexivity|].
  destruct (p x) eqn:Ep, (q x) eqn:Eq; simpl; rewrite ?Ep, ?Eq, IH; reflexivity.
Qed.

Lemma filter_map_comm {A B : Type} (p : B -> bool) (f : A -> B) (l : list A) :
  filter p (map f l) = map f (filter (fun x => p (f x)) l).
Proof.
  induction l as [|x l IH]; simpl; [reflexivity|].
  destruct (p (f x)); simpl; rewrite IH; reflexivity.
Qed.

(** Filtering a sorted array for a property that at most one element has
    gives what filtering the array gives. *)
Lemma filter_sort_short {A : Type} (p : A -> bool) (c : A -> A -> float) (l : list A) :
  length (filter p l) <= 1 -> filter p (Array_sort c l) = filter p l.
Proof.
  intros Hl. destruct (filter p l) as [|x [|y rest]] eqn:E.
  - apply filter_sort_none, E.
  - apply filter_sort_single, E.
  - simpl in Hl. lia.
Qed.

(** X2: choosing a sector in DividendView's dropdown shows, in the sector
    table, exactly the row that sector has when "All" is chosen, with the
    same numbers, whatever the ticker search is: the rows of other
    sectors never enter a sector's averages. *)
Theorem X2_dividend_sector_choice (toLowerCase : string -> string)
        (metrics : list DividendView.DividendMetrics) (selectedSector searchQuery : string) :
  selectedSector <> "All"%string ->
  DividendViewFilter.sectorTable toLowerCase metrics selectedSector searchQuery
  = filter (fun row => String.eqb (DividendView.name row) selectedSector)
           (DividendViewFilter.sectorTable toLowerCase metrics "All" searchQuery).
Proof.
  intros Hsel. unfold DividendViewFilter.sectorTable, DividendView.calculateSectorAverages.
  destruct dividend_accumulate_keyed as [init [update [-> _]]].
  set (shown := DividendViewFilter.filteredMetrics toLowerCase metrics "All" searchQuery).
  assert (Hrows : DividendViewFilter.filteredMetrics toLowerCase metrics selectedSector searchQuery
                  = rowsOf DividendView.sector selectedSector shown).
  { unfold shown, DividendViewFilter.filteredMetrics, rowsOf.
    apply String.eqb_neq in Hsel. rewrite Hsel. cbn [String.eqb Ascii.eqb Bool.eqb andb].
    destruct (truthy_string searchQuery); [apply filter_filter_comm | reflexivity]. }
  rewrite Hrows, <- keyedStep_selected.
  set (sectorMap := fold_left (keyedStep DividendView.sector init update) shown []).
  assert (Hshort : length (filter (fun e => String.eqb (fst e) selectedSector) sectorMap) <= 1).
  { unfold sectorMap. rewrite keyedStep_selected.
    apply keyedStep_one_key_length with (s := selectedSector), rowsOf_key. }
  rewrite Array_sort_short by (rewrite length_map; exact Hshort).
  rewrite filter_sort_short.
  - rewrite filter_map_comm. f_equal. apply filter_ext. intros [s d]. reflexivity.
  - rewrite filter_map_comm, length_map.
    erewrite filter_ext; [exact Hshort|]. intros [s d]. reflexivity.
Qed.
(* ================================================================== *)
(** * CorrelationClusteringView: how many clusters and tickers a sector keeps *)

Lemma groupsOf_nil {A : Type} (fuel size : nat) : groupsOf fuel size (@nil A) = [].
Proof. destruct fuel; reflexivity. Qed.

(** Cutting [n] records into groups of 5 and keeping the groups of two
    or more keeps [n / 5] full groups, and the remainder when it is at
    least 2; only a remainder of exactly 1 is lost. *)
Lemma keptGroups_count {A : Type} (fuel : nat) (l : list A) :
  length l <= fuel ->
  let n := length l in
  length (keptGroups (groupsOf fuel 5 l)) = n / 5 + (if 2 <=? n mod 5 then 1 else 0)
  /\ list_sum (map (@length A) (keptGroups (groupsOf fuel 5 l)))
     = n - (if n mod 5 =? 1 then 1 else 0).
Proof.
  revert l. induction fuel as [|fuel IH]; intros l Hl; cbv zeta.
  - destruct l; [split; reflexivity | simpl in Hl; lia].
  - destruct l as [|x l]; [split; reflexivity|].
    cbn [groupsOf].
    assert (Hfirst : length (firstn 5 (x :: l)) = Nat.min 5 (length (x :: l)))
      by apply length_firstn.
    assert (Hskip : length (skipn 5 (x :: l)) = length (x :: l) - 5) by apply length_skipn.
    assert (Hfuel : length (skipn 5 (x :: l)) <= fuel) by (rewrite Hskip; simpl in *; lia).
    destruct (IH _ Hfuel) as [IHc IHs]. rewrite Hskip in IHc, IHs.
    unfold keptGroups, list_sum in IHc, IHs |- *. cbn [filter].
    set (n := length (x :: l)) in *.
    assert (Hn : 1 <= n) by (unfold n; simpl; lia).
    destruct (Nat.le_gt_cases 5 n) as [Hbig|Hsmall].
    + assert (H5 : (2 <=? length (firstn 5 (x :: l))) = true)
        by (apply Nat.leb_le; lia).
      rewrite H5. cbn [length map fold_right].
      rewrite IHc, IHs, Hfirst.
      assert (Hdiv : n / 5 = (n - 5) / 5 + 1).
      { replace n with ((n - 5) + 1 * 5) at 1 by lia. apply Nat.div_add. lia. }
      assert (Hmod : n mod 5 = (n - 5) mod 5).
      { replace n with ((n - 5) + 1 * 5) at 1 by lia. apply Nat.Div0.mod_add. }
      rewrite Hdiv, Hmod. replace (Nat.min 5 n) with 5 by lia.
      pose proof (Nat.div_mod_eq (n - 5) 5) as Hdm.
      destruct (2 <=? (n - 5) mod 5); destruct ((n - 5) mod 5 =? 1) eqn:E;
        [apply Nat.eqb_eq in E | | apply Nat.eqb_eq in E |]; lia.
    + assert (Hrest : skipn 5 (x :: l) = []).
      { apply length_zero_iff_nil. lia. }
      rewrite Hrest, groupsOf_nil. cbn [filter].
      rewrite Nat.div_small, Nat.mod_small by lia. rewrite Hfirst.
      replace (Nat.min 5 n) with n by lia.
      destruct (2 <=? n) eqn:E2; cbn [length map fold_right].
      * apply Nat.leb_le in E2. destruct (n =? 1) eqn:E1; [apply Nat.eqb_eq in E1; lia|].
        rewrite Hfirst. lia.
      * apply Nat.leb_gt in E2. assert (n = 1) by lia.
        destruct (n =? 1) eqn:E1; [lia | apply Nat.eqb_neq in E1; lia].
Qed.

Lemma correlation_accumulate_keyed :
  exists init update,
    CorrelationSectors.accumulate = keyedStep CorrelationClusteringView.sector init update
    /\ forall rows,
         fold_left update rows init
         = {| CorrelationSectors.count :=
                list_sum (map (fun c => length (CorrelationClusteringView.stocks c)) rows);
              CorrelationSectors.totalCorrelation :=
                totalOf CorrelationClusteringView.avg_correlation rows;
              CorrelationSectors.totalRiskScore :=
                totalOf CorrelationClusteringView.risk_score rows;
              CorrelationSectors.clusterTotal := length rows |}.
Proof.
  exists {| CorrelationSectors.count := 0; CorrelationSectors.totalCorrelation := 0;
            CorrelationSectors.totalRiskScore := 0; CorrelationSectors.clusterTotal := 0 |}.
  exists (fun sectorData cluster =>
            {| CorrelationSectors.count :=
                 CorrelationSectors.count sectorData
                 + length (CorrelationClusteringView.stocks cluster);
               CorrelationSectors.totalCorrelation :=
                 (CorrelationSectors.totalCorrelation sectorData
                  + CorrelationClusteringView.avg_correlation cluster)%float;
               CorrelationSectors.totalRiskScore :=
                 (CorrelationSectors.totalRiskScore sectorData
                  + CorrelationClusteringView.risk_score cluster)%float;
               CorrelationSectors.clusterTotal :=
                 S (CorrelationSectors.clusterTotal sectorData) |}).
  split; [reflexivity|].
  intros rows. unfold totalOf.
  match goal with
  | |- fold_left ?u rows ?i = _ =>
      assert (Hfold : forall d0,
                 fold_left u rows d0
                 = {| CorrelationSectors.count :=
                        CorrelationSectors.count d0
                        + list_sum (map (fun c => length (CorrelationClusteringView.stocks c)) rows);
                      CorrelationSectors.totalCorrelation :=
                        fold_left (fun t c => t + CorrelationClusteringView.avg_correlation c)%float
                                  rows (CorrelationSectors.totalCorrelation d0);
                      CorrelationSectors.totalRiskScore :=
                        fold_left (fun t c => t + CorrelationClusteringView.risk_score c)%float
                                  rows (CorrelationSectors.totalRiskScore d0);
                      CorrelationSectors.clusterTotal :=
                        CorrelationSectors.clusterTotal d0 + length rows |})
  end.
  { induction rows as [|x rows IH]; intros d0.
    - destruct d0; simpl. rewrite !Nat.add_0_r. reflexivity.
    - cbn [fold_left]. rewrite IH. cbn. unfold list_sum.
      f_equal; first [reflexivity | lia]. }
  rewrite Hfold. reflexivity.
Qed.

Lemma list_sum_perm (l l' : list nat) : Permutation l l' -> list_sum l = list_sum l'.
Proof.
  induction 1; simpl; lia.
Qed.

(** X5: the sector table of CorrelationClusteringView, computed from the
    clusters [calculateCorrelationClusters] returns for a batch, has a row
    exactly for the sectors with at least 2 records.  For a sector with
    [n] records the row reports [n / 5] clusters, one more when the
    remainder is at least 2, and counts every record of the sector except
    a single trailing one (a remainder of 1); its [avgCorrelation] is the
    total of the clusters' average correlations divided by the number of
    clusters. *)
Theorem X5_correlation_sector_table (stocks : list S.StockData)
        (clusters : list CorrelationClusteringView.ClusterData) :
  CorrelationClusteringView.calculateCorrelationClusters stocks = Some clusters ->
  let table := CorrelationSectors.calculateSectorAverages clusters in
  NoDup (map CorrelationSectors.name table)
  /\ (forall s, In s (map CorrelationSectors.name table) <-> 2 <= length (membersOf s stocks))
  /\ (forall row, In row table ->
        let n := length (membersOf (CorrelationSectors.name row) stocks) in
        CorrelationSectors.clusterCount row = n / 5 + (if 2 <=? n mod 5 then 1 else 0)
        /\ CorrelationSectors.stockCount row = n - (if n mod 5 =? 1 then 1 else 0)
        /\ CorrelationSectors.avgCorrelation row
           = (totalOf CorrelationClusteringView.avg_correlation
                      (clustersOf (CorrelationSectors.name row) clusters)
              / float_of_nat (CorrelationSectors.clusterCount row))%float).
Proof.
  intros Hret table. unfold table, CorrelationSectors.calculateSectorAverages.
  destruct correlation_accumulate_keyed as [init [update [-> Hfold]]].
  set (sectorMap := fold_left (keyedStep CorrelationClusteringView.sector init update) clusters []).
  assert (Hnames : Permutation
                     (map CorrelationSectors.name
                        (Array_sort CorrelationSectors.byAvgCorrelationDesc
                           (map CorrelationSectors.toSectorAnalysis sectorMap)))
                     (map fst sectorMap)).
  { replace (map fst sectorMap)
      with (map CorrelationSectors.name (map CorrelationSectors.toSectorAnalysis sectorMap))
      by (rewrite map_map; apply map_ext; intros [s d]; reflexivity).
    apply Permutation_map, Array_sort_perm. }
  assert (Hcount : forall s,
             length (clustersOf s clusters)
             = length (membersOf s stocks) / 5
               + (if 2 <=? length (membersOf s stocks) mod 5 then 1 else 0)
             /\ list_sum (map (fun c => length (CorrelationClusteringView.stocks c))
                              (clustersOf s clusters))
                = length (membersOf s stocks)
                  - (if length (membersOf s stocks) mod 5 =? 1 then 1 else 0)).
  { intros s. pose proof (clustersOf_groups s stocks clusters Hret) as Hperm.
    destruct (keptGroups_count (length (membersOf s stocks)) (membersOf s stocks) (le_n _))
      as [Hc Hs]. fold (consecutiveGroups 5 (membersOf s stocks)) in Hc, Hs.
    split.
    - rewrite <- Hc, <- (length_map (map S.ticker)), <- (Permutation_length Hperm), length_map.
      reflexivity.
    - rewrite <- Hs, <- (map_map CorrelationClusteringView.stocks (@length string)).
      rewrite (list_sum_perm _ _ (Permutation_map (@length string) Hperm)).
      rewrite map_map. f_equal. apply map_ext. intros g. apply length_map. }
  assert (Hpresent : forall s, clustersOf s clusters <> [] <-> 2 <= length (membersOf s stocks)).
  { intros s. destruct (Hcount s) as [Hc _].
    rewrite <- length_zero_iff_nil, Hc.
    set (n := length (membersOf s stocks)).
    pose proof (Nat.div_mod_eq n 5). pose proof (Nat.mod_upper_bound n 5 ltac:(lia)).
    destruct (2 <=? n mod 5) eqn:E; [apply Nat.leb_le in E | apply Nat.leb_gt in E]; lia. }
  split.
  { apply (Permutation_NoDup (Permutation_sym Hnames)).
    apply keyedStep_NoDup. constructor. }
  split.
  { intros s. rewrite <- Hpresent. split; intros Hin.
    - apply (Permutation_in _ Hnames) in Hin.
      apply keyedStep_keys, rowsOf_nonempty in Hin. exact Hin.
    - apply (Permutation_in _ (Permutation_sym Hnames)).
      apply keyedStep_keys, rowsOf_nonempty. exact Hin. }
  intros row Hrow. apply Array_sort_In, in_map_iff in Hrow.
  destruct Hrow as [[s d] [<- Hin]].
  apply keyedStep_entries in Hin. destruct Hin as [_ ->].
  rewrite Hfold. cbn. destruct (Hcount s) as [Hc Hs].
  change (rowsOf CorrelationClusteringView.sector s clusters) with (clustersOf s clusters).
  rewrite Hc, Hs. repeat split.
Qed.

Lemma X5_correlation_sector_table_witness :
  In "Technology"%string
     (map CorrelationSectors.name
          (CorrelationSectors.calculateSectorAverages
             (returned (CorrelationClusteringView.calculateCorrelationClusters sevenTech))))
  <-> 2 <= length (membersOf "Technology"%string sevenTech).
Proof.
  assert (Hret : CorrelationClusteringView.calculateCorrelationClusters sevenTech
                 = Some (returned (CorrelationClusteringView.calculateCorrelationClusters sevenTech)))
    by (vm_compute; reflexivity).
  exact (proj1 (proj2 (X5_correlation_sector_table sevenTech _ Hret)) "Technology"%string).
Defined.

Section KeyedCounts.
Context {A D : Type} (key : A -> string) (init : D) (update : D -> A -> D).

(** When each accumulator counts its rows, the counts of the map add up
    to the number of rows. *)
Lemma keyedStep_counts (count : D -> nat) (l : list A) :
  (forall rows, count (fold_left update rows init) = length rows) ->
  list_sum (map (fun e => count (snd e)) (fold_left (keyedStep key init update) l []))
  = length l.
Proof.
  intros Hcount.
  set (m := fold_left (keyedStep key init update) l []).
  rewrite <- (rowsOf_partition key (map fst m) l).
  - rewrite map_map. f_equal. apply map_ext_in. intros [s d] Hin.
    apply keyedStep_entries in Hin. destruct Hin as [_ ->]. apply Hcount.
  - apply keyedStep_NoDup. constructor.
  - intros x Hx. apply keyedStep_keys, in_map, Hx.
Qed.
End KeyedCounts.

(* ================================================================== *)
(** * CompositeScoreView: the sector table *)

Lemma composite_accumulate_keyed :
  exists init update,
    CompositeScoreSectors.accumulate = keyedStep CompositeScoreView.sector init update
    /\ forall rows,
         fold_left update rows init
         = {| CompositeScoreSectors.count := length rows;
              CompositeScoreSectors.totalScore := totalOf CompositeScoreView.totalScore rows;
              CompositeScoreSectors.totalComponents :=
                {| CompositeScoreView.value :=
                     totalOf (fun r => CompositeScoreView.value (CompositeScoreView.components r)) rows;
                   CompositeScoreView.growth :=
                     totalOf (fun r => CompositeScoreView.growth (CompositeScoreView.components r)) rows;
                   CompositeScoreView.quality :=
                     totalOf (fun r => CompositeScoreView.quality (CompositeScoreView.components r)) rows;
                   CompositeScoreView.momentum :=
                     totalOf (fun r => CompositeScoreView.momentum (CompositeScoreView.components r)) rows;
                   CompositeScoreView.stability :=
                     totalOf (fun r => CompositeScoreView.stability (CompositeScoreView.components r)) rows
                |} |}.
Proof.
  exists {| CompositeScoreSectors.count := 0;
            CompositeScoreSectors.totalScore := 0;
            CompositeScoreSectors.totalComponents :=
              {| CompositeScoreView.value := 0;
                 CompositeScoreView.growth := 0;
                 CompositeScoreView.quality := 0;
                 CompositeScoreView.momentum := 0;
                 CompositeScoreView.stability := 0 |} |}.
  exists (fun sectorData score =>
            {| CompositeScoreSectors.count := S (CompositeScoreSectors.count sectorData);
               CompositeScoreSectors.totalScore :=
                 CompositeScoreSectors.totalScore sectorData + CompositeScoreView.totalScore score;
               CompositeScoreSectors.totalComponents :=
                 {| CompositeScoreView.value :=
                      CompositeScoreView.value (CompositeScoreSectors.totalComponents sectorData)
                      + CompositeScoreView.value (CompositeScoreView.components score);
                    CompositeScoreView.growth :=
                      CompositeScoreView.growth (CompositeScoreSectors.totalComponents sectorData)
                      + CompositeScoreView.growth (CompositeScoreView.components score);
                    CompositeScoreView.quality :=
                      CompositeScoreView.quality (CompositeScoreSectors.totalComponents sectorData)
                      + CompositeScoreView.quality (CompositeScoreView.components score);
                    CompositeScoreView.momentum :=
                      CompositeScoreView.momentum (CompositeScoreSectors.totalComponents sectorData)
                      + CompositeScoreView.momentum (CompositeScoreView.components score);
                    CompositeScoreView.stability :=
                      CompositeScoreView.stability (CompositeScoreSectors.totalComponents sectorData)
                      + CompositeScoreView.stability (CompositeScoreView.components score) |} |})%float.
  split; [reflexivity|].
  intros rows. unfold totalOf.
  match goal with
  | |- fold_left ?u rows ?i = _ =>
      assert (Hfold : forall d0,
                 fold_left u rows d0
                 = {| CompositeScoreSectors.count := CompositeScoreSectors.count d0 + length rows;
                      CompositeScoreSectors.totalScore :=
                        fold_left (fun t r => t + CompositeScoreView.totalScore r)%float
                                  rows (CompositeScoreSectors.totalScore d0);
                      CompositeScoreSectors.totalComponents :=
                        {| CompositeScoreView.value :=
                             fold_left (fun t r => t + CompositeScoreView.value (CompositeScoreView.components r))%float
                                       rows (CompositeScoreView.value (CompositeScoreSectors.totalComponents d0));
                           CompositeScoreView.growth :=
                             fold_left (fun t r => t + CompositeScoreView.growth (CompositeScoreView.components r))%float
                                       rows (CompositeScoreView.growth (CompositeScoreSectors.totalComponents d0));
                           CompositeScoreView.quality :=
                             fold_left (fun t r => t + CompositeScoreView.quality (CompositeScoreView.components r))%float
                                       rows (CompositeScoreView.quality (CompositeScoreSectors.totalComponents d0));
                           CompositeScoreView.momentum :=
                             fold_left (fun t r => t + CompositeScoreView.momentum (CompositeScoreView.components r))%float
                                       rows (CompositeScoreView.momentum (CompositeScoreSectors.totalComponents d0));
                           CompositeScoreView.stability :=
                             fold_left (fun t r => t + CompositeScoreView.stability (CompositeScoreView.components r))%float
                                       rows (CompositeScoreView.stability (CompositeScoreSectors.totalComponents d0))
                        |} |})
  end.
  { induction rows as [|x rows IH]; intros d0.
    - destruct d0 as [c t [v g q m s]]; simpl. rewrite Nat.add_0_r. reflexivity.
    - cbn [fold_left]. rewrite IH. cbn. f_equal. lia. }
  rewrite Hfold. reflexivity.
Qed.

(** X3: in CompositeScoreView's sector table, computed from the scores
    of a batch, every scored record is counted in exactly one row: the
    rows have distinct sector names, a row counts the complete records of
    its sector (at least one), and the counts add up to the number of
    complete records.  A row's [avgScore] is the total of its sector's
    [totalScore]s, added up from 0 in ranking order, divided by the
    count. *)
Theorem X3_composite_sector_table (stocks : list S.StockData) :
  let scores := CompositeScoreView.calculateCompositeScores stocks in
  let table := CompositeScoreSectors.calculateSectorAverages scores in
  NoDup (map CompositeScoreSectors.name table)
  /\ list_sum (map CompositeScoreSectors.stockCount table)
     = length (filter CompositeScoreView.isValid stocks)
  /\ (forall row, In row table ->
        1 <= CompositeScoreSectors.stockCount row
        /\ CompositeScoreSectors.stockCount row
           = length (filter (fun stock =>
                               CompositeScoreView.isValid stock
                               && String.eqb (S.sector stock) (CompositeScoreSectors.name row))
                            stocks)
        /\ CompositeScoreSectors.avgScore row
           = (totalOf CompositeScoreView.totalScore
                      (rowsOf CompositeScoreView.sector (CompositeScoreSectors.name row) scores)
              / float_of_nat (CompositeScoreSectors.stockCount row))%float).
Proof.
  intros scores table. unfold table, CompositeScoreSectors.calculateSectorAverages.
  destruct composite_accumulate_keyed as [init [update [-> Hfold]]].
  set (sectorMap := fold_left (keyedStep CompositeScoreView.sector init update) scores []).
  pose proof (Array_sort_perm CompositeScoreSectors.byAvgScoreDesc
                (map CompositeScoreSectors.toSectorAnalysis sectorMap)) as Hperm.
  split.
  { apply (Permutation_NoDup (Permutation_sym (Permutation_map _ Hperm))).
    replace (map CompositeScoreSectors.name (map CompositeScoreSectors.toSectorAnalysis sectorMap))
      with (map fst sectorMap)
      by (rewrite map_map; apply map_ext; intros [s d]; reflexivity).
    apply keyedStep_NoDup. constructor. }
  split.
  { rewrite (list_sum_perm _ _ (Permutation_map CompositeScoreSectors.stockCount Hperm)).
    rewrite map_map.
    replace (map (fun x => CompositeScoreSectors.stockCount (CompositeScoreSectors.toSectorAnalysis x))
                 sectorMap)
      with (map (fun e => CompositeScoreSectors.count (snd e)) sectorMap)
      by (apply map_ext; intros [s d]; reflexivity).
    unfold sectorMap. rewrite keyedStep_counts by (intros rows; rewrite Hfold; reflexivity).
    unfold scores, CompositeScoreView.calculateCompositeScores.
    rewrite Array_sort_length, length_map. reflexivity. }
  intros row Hrow. apply Array_sort_In, in_map_iff in Hrow.
  destruct Hrow as [[s d] [<- Hin]].
  apply keyedStep_entries in Hin. destruct Hin as [Hne ->].
  rewrite Hfold. cbn.
  split; [destruct (rowsOf CompositeScoreView.sector s scores); [congruence | simpl; lia]|].
  split; [|reflexivity].
  unfold rowsOf, scores, CompositeScoreView.calculateCompositeScores.
  rewrite (Permutation_length (Permutation_filter_compat _ _ _ (Array_sort_perm _ _))).
  rewrite filter_map_comm, length_map.
  generalize (CompositeScoreView.cohortMetrics (filter CompositeScoreView.isValid stocks)) as M.
  intros M.
  rewrite (filter_ext _ (fun x => String.eqb (S.sector x) s)) by (intros x; reflexivity).
  generalize stocks as l. induction l as [|x l IH]; simpl; [reflexivity|].
  destruct (CompositeScoreView.isValid x); simpl; [|exact IH].
  destruct (String.eqb (S.sector x) s); simpl; rewrite IH; reflexivity.
Qed.
(* ================================================================== *)
(** * Counts as binary64 numbers *)

(** A count between 1 and 2^63 is a positive number. *)
Lemma float_of_nat_positive (n : nat) :
  1 <= n -> (Z.of_nat n < 2 ^ 63)%Z -> (0 <? float_of_nat n)%float = true.
Proof.
  intros Hn Hbound. rewrite ltb_spec. unfold float_of_nat.
  rewrite of_uint63_spec, Uint63.of_Z_spec.
  rewrite Z.mod_small by (change Uint63.wB with (2 ^ 63)%Z; lia).
  change (Prim2SF 0) with (S754_zero false).
  pose proof (binary_normalize_sign (Z.of_nat n) 0 ltac:(lia)) as Hsign.
  destruct (Z.of_nat n) eqn:E; try lia.
  apply (SFltb_zero_signed false), Hsign.
Qed.

Lemma totalOf_zero {A : Type} (column : A -> float) (rows : list A) :
  Forall (fun row => column row = 0%float) rows -> totalOf column rows = 0%float.
Proof.
  unfold totalOf. induction 1 as [|x rows Hx _ IH]; [reflexivity|].
  cbn [fold_left]. rewrite Hx. exact IH.
Qed.
(* ================================================================== *)
(** * RiskReturnView: the sector table *)

Lemma riskreturn_accumulate_keyed :
  exists init update,
    RiskReturnSectors.accumulate = keyedStep RiskReturnView.sector init update
    /\ forall rows,
         fold_left update rows init
         = {| RiskReturnSectors.count := length rows;
              RiskReturnSectors.totalBeta :=
                totalOf (fun m => ToNumber (RiskReturnView.beta m)) rows;
              RiskReturnSectors.totalReturn := totalOf RiskReturnView.annualReturn rows;
              RiskReturnSectors.totalSharpe := totalOf RiskReturnView.sharpeRatio rows |}.
Proof.
  exists {| RiskReturnSectors.count := 0; RiskReturnSectors.totalBeta := 0;
            RiskReturnSectors.totalReturn := 0; RiskReturnSectors.totalSharpe := 0 |}.
  exists (fun sectorData stock =>
            {| RiskReturnSectors.count := S (RiskReturnSectors.count sectorData);
               RiskReturnSectors.totalBeta :=
                 RiskReturnSectors.totalBeta sectorData + ToNumber (RiskReturnView.beta stock);
               RiskReturnSectors.totalReturn :=
                 RiskReturnSectors.totalReturn sectorData + RiskReturnView.annualReturn stock;
               RiskReturnSectors.totalSharpe :=
                 RiskReturnSectors.totalSharpe sectorData + RiskReturnView.sharpeRatio stock |})%float.
  split; [reflexivity|].
  intros rows. unfold totalOf.
  match goal with
  | |- fold_left ?u rows ?i = _ =>
      assert (Hfold : forall d0,
                 fold_left u rows d0
                 = {| RiskReturnSectors.count := RiskReturnSectors.count d0 + length rows;
                      RiskReturnSectors.totalBeta :=
                        fold_left (fun t m => t + ToNumber (RiskReturnView.beta m))%float
                                  rows (RiskReturnSectors.totalBeta d0);
                      RiskReturnSectors.totalReturn :=
                        fold_left (fun t m => t + RiskReturnView.annualReturn m)%float
                                  rows (RiskReturnSectors.totalReturn d0);
                      RiskReturnSectors.totalSharpe :=
                        fold_left (fun t m => t + RiskReturnView.sharpeRatio m)%float
                                  rows (RiskReturnSectors.totalSharpe d0) |})
  end.
  { induction rows as [|x rows IH]; intros d0.
    - destruct d0; simpl. rewrite Nat.add_0_r. reflexivity.
    - cbn [fold_left]. rewrite IH. cbn. f_equal. lia. }
  rewrite Hfold. reflexivity.
Qed.

(** X4: in RiskReturnView's sector table a row with a null beta is
    counted in its sector's [stockCount] and enters [avgBeta] as 0: the
    average is the total of the betas, null read as 0, divided by the
    number of rows of the sector.  So a sector none of whose rows has a
    beta is shown with an average beta of exactly 0. *)
Theorem X4_risk_sector_null_beta (stocks : list RiskReturnView.RiskReturnMetrics) :
  (Z.of_nat (length stocks) < 2 ^ 53)%Z ->
  forall row, In row (RiskReturnSectors.calculateSectorAverages stocks) ->
    let members := rowsOf RiskReturnView.sector (RiskReturnSectors.name row) stocks in
    1 <= length members
    /\ RiskReturnSectors.stockCount row = length members
    /\ RiskReturnSectors.avgBeta row
       = (totalOf (fun m => ToNumber (RiskReturnView.beta m)) members
          / float_of_nat (length members))%float
    /\ (Forall (fun m => RiskReturnView.beta m = None) members ->
        RiskReturnSectors.avgBeta row = 0%float).
Proof.
  intros Hsize row Hrow members. unfold members. clear members.
  unfold RiskReturnSectors.calculateSectorAverages in Hrow.
  destruct riskreturn_accumulate_keyed as [init [update [Hacc Hfold]]].
  rewrite Hacc in Hrow. apply Array_sort_In, in_map_iff in Hrow.
  destruct Hrow as [[s d] [<- Hin]].
  apply keyedStep_entries in Hin. destruct Hin as [Hne ->].
  rewrite Hfold. cbn.
  set (members := rowsOf RiskReturnView.sector s stocks) in *.
  assert (Hpos : 1 <= length members).
  { destruct members; [congruence | simpl; lia]. }
  repeat split; [exact Hpos|].
  intros Hnull. rewrite totalOf_zero.
  - apply div_zero_positive, float_of_nat_positive; [exact Hpos|].
    assert (length members <= length stocks) by apply filter_length_le.
    assert (2 ^ 53 < 2 ^ 63)%Z by reflexivity. lia.
  - eapply Forall_impl; [|exact Hnull]. intros m ->. reflexivity.
Qed.
Lemma X2_dividend_sector_choice_witness :
  DividendViewFilter.sectorTable (fun s => s)
    (DividendView.calculateDividendMetrics twoSectorPayers) "Energy" "PAY"
  = filter (fun row => String.eqb (DividendView.name row) "Energy")
           (DividendViewFilter.sectorTable (fun s => s)
              (DividendView.calculateDividendMetrics twoSectorPayers) "All" "PAY").
Proof. apply X2_dividend_sector_choice. discriminate. Defined.

Lemma X4_risk_sector_null_beta_witness :
  Forall (fun row => RiskReturnSectors.avgBeta row = 0%float
                     /\ RiskReturnSectors.stockCount row = 2)
         (RiskReturnSectors.calculateSectorAverages
            (RiskReturnView.calculateRiskReturnMetrics noBetaBatch)).
Proof.
  apply Forall_forall. intros row Hrow.
  pose proof (X4_risk_sector_null_beta
                (RiskReturnView.calculateRiskReturnMetrics noBetaBatch)
                ltac:(reflexivity) row Hrow) as [_ [Hcount [_ Hzero]]].
  vm_compute in Hrow. destruct Hrow as [<-|[]].
  split; [apply Hzero; vm_compute; repeat constructor | reflexivity].
Defined.
(* ================================================================== *)
(** * ValueGrowthView *)

Lemma hasRatios_spec (stock : S.StockData) :
  ValueGrowthView.hasRatios stock = true <->
  (S.peg_ratio stock <> None /\ S.eps_growth_3y stock <> None /\
   S.pe_forward stock <> None /\ S.pb_ratio stock <> None).
Proof.
  unfold ValueGrowthView.hasRatios. rewrite !andb_true_iff, !notNull_Some. tauto.
Qed.

Lemma revenueFilled_row (stock : S.StockData) :
  ValueGrowthView.hasRatios (revenueFilled stock) = ValueGrowthView.hasRatios stock
  /\ ValueGrowthView.toRow (revenueFilled stock) = ValueGrowthView.toRow stock.
Proof.
  unfold revenueFilled. destruct stock as [t n s p mc c1w c1m c6m cy c1y c3y dy dg pr peg pb pe eps rev roe roa b].
  destruct rev; split; reflexivity.
Qed.

(** X6: [calculateValueGrowthMetrics] gives one row to each record whose
    [peg_ratio], [eps_growth_3y], [pe_forward] and [pb_ratio] are all
    non-null, and to no other; [revenue_growth_3y] is not required, and a
    record without it is scored exactly as if its revenue growth were 0.
    The rows are in descending order of [growthScore] whenever no growth
    score is NaN. *)
Theorem X6_value_growth_rows (stocks : list S.StockData) :
  let rows := ValueGrowthView.calculateValueGrowthMetrics stocks in
  Permutation rows (map ValueGrowthView.toRow (filter ValueGrowthView.hasRatios stocks))
  /\ (forall stock, In stock (filter ValueGrowthView.hasRatios stocks) <->
        In stock stocks /\
        S.peg_ratio stock <> None /\ S.eps_growth_3y stock <> None /\
        S.pe_forward stock <> None /\ S.pb_ratio stock <> None)
  /\ ValueGrowthView.calculateValueGrowthMetrics (map revenueFilled stocks) = rows
  /\ (Forall (fun row => is_nan (ValueGrowthView.growthScore row) = false) rows ->
      StronglySorted
        (fun a b => (ValueGrowthView.growthScore b <=? ValueGrowthView.growthScore a)%float = true)
        rows).
Proof.
  intros rows. unfold rows, ValueGrowthView.calculateValueGrowthMetrics.
  split; [apply Array_sort_perm|].
  split; [intros stock; rewrite filter_In, hasRatios_spec; tauto|].
  split.
  { f_equal. induction stocks as [|x l IH]; [reflexivity|].
    cbn [map filter]. destruct (revenueFilled_row x) as [-> Hrow].
    destruct (ValueGrowthView.hasRatios x); cbn [map]; rewrite ?Hrow, IH; reflexivity. }
  intros Hnan. apply Array_sort_descending.
  apply (Permutation_Forall (Array_sort_perm ValueGrowthView.byGrowthScoreDesc _)). exact Hnan.
Qed.

Lemma valuegrowth_accumulate_keyed :
  exists init update,
    ValueGrowthView.accumulate = keyedStep ValueGrowthView.sector init update
    /\ forall rows,
         fold_left update rows init
         = {| ValueGrowthView.count := length rows;
              ValueGrowthView.totalValue := totalOf ValueGrowthView.valueScore rows;
              ValueGrowthView.totalGrowth := totalOf ValueGrowthView.growthScore rows;
              ValueGrowthView.totalPeg :=
                totalOf (fun m => ToNumber (ValueGrowthView.pegRatio m)) rows |}.
Proof.
  exists {| ValueGrowthView.count := 0; ValueGrowthView.totalValue := 0;
            ValueGrowthView.totalGrowth := 0; ValueGrowthView.totalPeg := 0 |}.
  exists (fun sectorData stock =>
            {| ValueGrowthView.count := S (ValueGrowthView.count sectorData);
               ValueGrowthView.totalValue :=
                 ValueGrowthView.totalValue sectorData + ValueGrowthView.valueScore stock;
               ValueGrowthView.totalGrowth :=
                 ValueGrowthView.totalGrowth sectorData + ValueGrowthView.growthScore stock;
               ValueGrowthView.totalPeg :=
                 ValueGrowthView.totalPeg sectorData
                 + ToNumber (ValueGrowthView.pegRatio stock) |})%float.
  split; [reflexivity|].
  intros rows. unfold totalOf.
  match goal with
  | |- fold_left ?u rows ?i = _ =>
      assert (Hfold : forall d0,
                 fold_left u rows d0
                 = {| ValueGrowthView.count := ValueGrowthView.count d0 + length rows;
                      ValueGrowthView.totalValue :=
                        fold_left (fun t m => t + ValueGrowthView.valueScore m)%float
                                  rows (ValueGrowthView.totalValue d0);
                      ValueGrowthView.totalGrowth :=
                        fold_left (fun t m => t + ValueGrowthView.growthScore m)%float
                                  rows (ValueGrowthView.totalGrowth d0);
                      ValueGrowthView.totalPeg :=
                        fold_left (fun t m => t + ToNumber (ValueGrowthView.pegRatio m))%float
                                  rows (ValueGrowthView.totalPeg d0) |})
  end.
  { induction rows as [|x rows IH]; intros d0.
    - destruct d0; simpl. rewrite Nat.add_0_r. reflexivity.
    - cbn [fold_left]. rewrite IH. cbn. f_equal. lia. }
  rewrite Hfold. reflexivity.
Qed.

(** X7: ValueGrowthView's sector table has one row per sector of the rows
    it is given, with distinct names; the counts of the rows add up to
    the number of rows given; a row's [avgValue] and [avgGrowth] are the
    totals of its sector's scores divided by its count; and the table is
    in descending order of [avgValue + avgGrowth] whenever no such sum is
    NaN. *)
Theorem X7_value_growth_sector_table (stocks : list ValueGrowthView.ValueGrowthMetrics) :
  let table := ValueGrowthView.calculateSectorAverages stocks in
  let rank row := (ValueGrowthView.avgValue row + ValueGrowthView.avgGrowth row)%float in
  NoDup (map ValueGrowthView.name table)
  /\ (forall s, In s (map ValueGrowthView.name table) <-> In s (map ValueGrowthView.sector stocks))
  /\ list_sum (map ValueGrowthView.stockCount table) = length stocks
  /\ (forall row, In row table ->
        let members := rowsOf ValueGrowthView.sector (ValueGrowthView.name row) stocks in
        let n := float_of_nat (length members) in
        ValueGrowthView.stockCount row = length members
        /\ ValueGrowthView.avgValue row = (totalOf ValueGrowthView.valueScore members / n)%float
        /\ ValueGrowthView.avgGrowth row = (totalOf ValueGrowthView.growthScore members / n)%float)
  /\ (Forall (fun row => is_nan (rank row) = false) table ->
      StronglySorted (fun a b => (rank b <=? rank a)%float = true) table).
Proof.
  intros table rank. unfold table, ValueGrowthView.calculateSectorAverages.
  destruct valuegrowth_accumulate_keyed as [init [update [-> Hfold]]].
  set (sectorMap := fold_left (keyedStep ValueGrowthView.sector init update) stocks []).
  pose proof (Array_sort_perm ValueGrowthView.byValuePlusGrowthDesc
                (map ValueGrowthView.toSectorAnalysis sectorMap)) as Hperm.
  assert (Hnames : map ValueGrowthView.name (map ValueGrowthView.toSectorAnalysis sectorMap)
                   = map fst sectorMap)
    by (rewrite map_map; apply map_ext; intros [s d]; reflexivity).
  split.
  { apply (Permutation_NoDup (Permutation_sym (Permutation_map _ Hperm))).
    rewrite Hnames. apply keyedStep_NoDup. constructor. }
  split.
  { intros s. rewrite <- (keyedStep_keys ValueGrowthView.sector init update stocks s).
    fold sectorMap. rewrite <- Hnames.
    split; apply Permutation_in;
      [apply Permutation_map, Hperm | apply Permutation_sym, Permutation_map, Hperm]. }
  split.
  { rewrite (list_sum_perm _ _ (Permutation_map ValueGrowthView.stockCount Hperm)).
    rewrite map_map.
    replace (map (fun x => ValueGrowthView.stockCount (ValueGrowthView.toSectorAnalysis x)) sectorMap)
      with (map (fun e => ValueGrowthView.count (snd e)) sectorMap)
      by (apply map_ext; intros [s d]; reflexivity).
    unfold sectorMap. apply keyedStep_counts. intros rows. rewrite Hfold. reflexivity. }
  split.
  { intros row Hrow. apply Array_sort_In, in_map_iff in Hrow.
    destruct Hrow as [[s d] [<- Hin]].
    apply keyedStep_entries in Hin. destruct Hin as [_ ->].
    rewrite Hfold. cbn. repeat split. }
  intros Hnan. apply (Array_sort_descending rank).
  apply (Permutation_Forall Hperm). exact Hnan.
Qed.

(* ================================================================== *)
(** * MomentumView *)

Lemma momentum_isValid_spec (stock : S.StockData) :
  MomentumView.isValid stock = true <->
  (S.change_1m stock <> None /\ S.change_6m stock <> None /\
   S.change_1y stock <> None /\ S.beta stock <> None).
Proof.
  unfold MomentumView.isValid. rewrite !andb_true_iff, !notNull_Some. tauto.
Qed.

(** X8: [calculateMomentumMetrics] gives one row to each record whose
    [change_1m], [change_6m], [change_1y] and [beta] are all non-null,
    and to no other.  [change_ytd] is not required although the row
    shows it as [change_3m], so that column can be null.  The rows are in
    descending order of [momentum_score] whenever no score is NaN. *)
Theorem X8_momentum_rows (stocks : list S.StockData) :
  let rows := MomentumView.calculateMomentumMetrics stocks in
  Permutation rows (map MomentumView.toRow (filter MomentumView.isValid stocks))
  /\ (forall stock, In stock (filter MomentumView.isValid stocks) <->
        In stock stocks /\
        S.change_1m stock <> None /\ S.change_6m stock <> None /\
        S.change_1y stock <> None /\ S.beta stock <> None)
  /\ (forall stock, In stock (filter MomentumView.isValid stocks) ->
        S.change_ytd stock = None ->
        In (MomentumView.toRow stock) rows
        /\ MomentumView.change_3m (MomentumView.toRow stock) = None)
  /\ (Forall (fun row => is_nan (MomentumView.momentum_score row) = false) rows ->
      StronglySorted
        (fun a b => (MomentumView.momentum_score b <=? MomentumView.momentum_score a)%float = true)
        rows).
Proof.
  intros rows. unfold rows, MomentumView.calculateMomentumMetrics. cbv zeta.
  split; [apply Array_sort_perm|].
  split; [intros stock; rewrite filter_In, momentum_isValid_spec; tauto|].
  split.
  { intros stock Hin Hytd. split; [|exact Hytd].
    apply Array_sort_In, in_map, Hin. }
  intros Hnan. apply Array_sort_descending.
  apply (Permutation_Forall (Array_sort_perm MomentumView.byMomentumDesc _)). exact Hnan.
Qed.
Lemma momentum_accumulate_keyed :
  exists init update,
    MomentumView.accumulate = keyedStep MomentumView.sector init update
    /\ forall rows,
         fold_left update rows init
         = {| MomentumView.count := length rows;
              MomentumView.totalMomentum := totalOf MomentumView.momentum_score rows;
              MomentumView.total1m := totalOf (fun m => ToNumber (MomentumView.change_1m m)) rows;
              MomentumView.total3m := totalOf (fun m => ToNumber (MomentumView.change_3m m)) rows;
              MomentumView.total6m := totalOf (fun m => ToNumber (MomentumView.change_6m m)) rows;
              MomentumView.total1y := totalOf (fun m => ToNumber (MomentumView.change_1y m)) rows;
              MomentumView.totalRsi := totalOf MomentumView.rsi rows |}.
Proof.
  exists {| MomentumView.count := 0; MomentumView.totalMomentum := 0;
            MomentumView.total1m := 0; MomentumView.total3m := 0;
            MomentumView.total6m := 0; MomentumView.total1y := 0;
            MomentumView.totalRsi := 0 |}.
  exists (fun sectorData metric =>
            {| MomentumView.count := S (MomentumView.count sectorData);
               MomentumView.totalMomentum :=
                 MomentumView.totalMomentum sectorData + MomentumView.momentum_score metric;
               MomentumView.total1m :=
                 MomentumView.total1m sectorData + ToNumber (MomentumView.change_1m metric);
               MomentumView.total3m :=
                 MomentumView.total3m sectorData + ToNumber (MomentumView.change_3m metric);
               MomentumView.total6m :=
                 MomentumView.total6m sectorData + ToNumber (MomentumView.change_6m metric);
               MomentumView.total1y :=
                 MomentumView.total1y sectorData + ToNumber (MomentumView.change_1y metric);
               MomentumView.totalRsi :=
                 MomentumView.totalRsi sectorData + MomentumView.rsi metric |})%float.
  split; [reflexivity|].
  intros rows. unfold totalOf.
  match goal with
  | |- fold_left ?u rows ?i = _ =>
      assert (Hfold : forall d0,
                 fold_left u rows d0
                 = {| MomentumView.count := MomentumView.count d0 + length rows;
                      MomentumView.totalMomentum :=
                        fold_left (fun t m => t + MomentumView.momentum_score m)%float
                                  rows (MomentumView.totalMomentum d0);
                      MomentumView.total1m :=
                        fold_left (fun t m => t + ToNumber (MomentumView.change_1m m))%float
                                  rows (MomentumView.total1m d0);
                      MomentumView.total3m :=
                        fold_left (fun t m => t + ToNumber (MomentumView.change_3m m))%float
                                  rows (MomentumView.total3m d0);
                      MomentumView.total6m :=
                        fold_left (fun t m => t + ToNumber (MomentumView.change_6m m))%float
                                  rows (MomentumView.total6m d0);
                      MomentumView.total1y :=
                        fold_left (fun t m => t + ToNumber (MomentumView.change_1y m))%float
                                  rows (MomentumView.total1y d0);
                      MomentumView.totalRsi :=
                        fold_left (fun t m => t + MomentumView.rsi m)%float
                                  rows (MomentumView.totalRsi d0) |})
  end.
  { induction rows as [|x rows IH]; intros d0.
    - destruct d0; simpl. rewrite Nat.add_0_r. reflexivity.
    - cbn [fold_left]. rewrite IH. cbn. f_equal. lia. }
  rewrite Hfold. reflexivity.
Qed.

(** X18: MomentumView's sector table, computed from the momentum rows of
    a batch, is empty exactly when no record has all four required
    fields; otherwise every eligible record is counted in exactly one
    row, the counts adding up to the number of eligible records.  A
    row's [avg3m] is built from [change_ytd], a record without it
    entering the total as 0 while still being counted. *)
Theorem X18_momentum_sector_table (stocks : list S.StockData) :
  let metrics := MomentumView.calculateMomentumMetrics stocks in
  let table := MomentumView.sectorAverages metrics in
  (table = [] <-> filter MomentumView.isValid stocks = [])
  /\ NoDup (map MomentumView.name table)
  /\ list_sum (map MomentumView.stockCount table) = length (filter MomentumView.isValid stocks)
  /\ (forall row, In row table ->
        let members := rowsOf MomentumView.sector (MomentumView.name row) metrics in
        1 <= length members
        /\ MomentumView.stockCount row = length members
        /\ MomentumView.avgMomentum row
           = (totalOf MomentumView.momentum_score members / float_of_nat (length members))%float
        /\ MomentumView.avg3m row
           = (totalOf (fun m => ToNumber (MomentumView.change_3m m)) members
              / float_of_nat (length members))%float).
Proof.
  intros metrics table.
  assert (Hlen : length metrics = length (filter MomentumView.isValid stocks)).
  { unfold metrics, MomentumView.calculateMomentumMetrics.
    rewrite Array_sort_length, length_map. reflexivity. }
  unfold table, MomentumView.sectorAverages.
  destruct momentum_accumulate_keyed as [init [update [-> Hfold]]].
  set (sectorMap := fold_left (keyedStep MomentumView.sector init update) metrics []).
  pose proof (Array_sort_perm MomentumView.byAvgMomentumDesc
                (map MomentumView.toSectorAnalysis sectorMap)) as Hperm.
  assert (Hsum : list_sum (map MomentumView.stockCount
                             (Array_sort MomentumView.byAvgMomentumDesc
                                (map MomentumView.toSectorAnalysis sectorMap)))
                 = length metrics).
  { rewrite (list_sum_perm _ _ (Permutation_map MomentumView.stockCount Hperm)).
    rewrite map_map.
    replace (map (fun x => MomentumView.stockCount (MomentumView.toSectorAnalysis x)) sectorMap)
      with (map (fun e => MomentumView.count (snd e)) sectorMap)
      by (apply map_ext; intros [s d]; reflexivity).
    unfold sectorMap. apply keyedStep_counts. intros rows. rewrite Hfold. reflexivity. }
  destruct (Nat.eqb (length metrics) 0) eqn:Eempty.
  - apply Nat.eqb_eq in Eempty.
    split; [split; intros _; [apply length_zero_iff_nil; lia | reflexivity]|].
    split; [constructor|]. split; [simpl; lia|]. intros row [].
  - apply Nat.eqb_neq in Eempty.
    split.
    { split; intros Hnil.
      - rewrite Hnil in Hsum. simpl in Hsum. lia.
      - rewrite Hnil in Hlen. simpl in Hlen. lia. }
    split.
    { apply (Permutation_NoDup (Permutation_sym (Permutation_map _ Hperm))).
      replace (map MomentumView.name (map MomentumView.toSectorAnalysis sectorMap))
        with (map fst sectorMap)
        by (rewrite map_map; apply map_ext; intros [s d]; reflexivity).
      apply keyedStep_NoDup. constructor. }
    split; [rewrite Hsum; exact Hlen|].
    intros row Hrow. apply Array_sort_In, in_map_iff in Hrow.
    destruct Hrow as [[s d] [<- Hin]].
    apply keyedStep_entries in Hin. destruct Hin as [Hne ->].
    rewrite Hfold. cbn.
    split; [destruct (rowsOf MomentumView.sector s metrics); [congruence | simpl; lia]|].
    repeat split.
Qed.

(* ================================================================== *)
(** * DividendView: the ranking *)

(** X19: the rows of [calculateDividendMetrics] are always in descending
    order of yield, and every row has a yield above 0: no row can carry
    a NaN or a null that would upset the comparator. *)
Theorem X19_dividend_rows_descend (stocks : list S.StockData) :
  let rows := DividendView.calculateDividendMetrics stocks in
  let yield row := ToNumber (DividendView.dividend_yield row) in
  Forall (fun row => (0 <? yield row)%float = true) rows
  /\ StronglySorted (fun a b => (yield b <=? yield a)%float = true) rows.
Proof.
  intros rows yield_.
  assert (Hpos : Forall (fun row => (0 <? yield_ row)%float = true)
                        (map DividendView.toMetrics (filter DividendView.paysDividend stocks))).
  { apply Forall_forall. intros row Hrow. apply in_map_iff in Hrow.
    destruct Hrow as [stock [<- Hin]]. apply filter_In in Hin. exact (proj2 Hin). }
  split.
  - apply (Permutation_Forall (Permutation_sym (Array_sort_perm _ _))). exact Hpos.
  - unfold rows, DividendView.calculateDividendMetrics.
    apply (Array_sort_descending yield_).
    eapply Forall_impl; [|exact Hpos]. intros row Hrow.
    apply ltb_not_nan in Hrow. tauto.
Qed.
(* ================================================================== *)
(** * stockService: sorting *)

Section SortByKey.
Context {A : Type} (compareFn : A -> A -> float) (f : A -> float).

(** A comparator that is positive exactly when [f b - f a] is sorts in
    descending order of [f]. *)
Lemma Array_sort_by_key_desc (l : list A) :
  Forall (fun a => is_nan (f a) = false) l ->
  (forall a b, In a l -> In b l ->
               (0 <? compareFn a b)%float = (0 <? f b - f a)%float) ->
  StronglySorted (fun a b => (f b <=? f a)%float = true) (Array_sort compareFn l).
Proof.
  intros Hnan Hcmp.
  apply (Array_sort_sorted compareFn _ (fun a => In a l /\ is_nan (f a) = false)).
  - intros a b c [_ Ha] [_ Hb] [_ Hc]. rewrite !leb_key by assumption.
    rewrite !Z.leb_le. lia.
  - intros a b [Ia Ha] [Ib Hb]. rewrite Hcmp, sub_positive_key, leb_key by assumption.
    rewrite Z.ltb_ge, Z.leb_le. lia.
  - intros a b [Ia Ha] [Ib Hb]. rewrite Hcmp, sub_positive_key, leb_key by assumption.
    rewrite Z.ltb_lt, Z.leb_le. lia.
  - rewrite Forall_forall in Hnan |- *. intros a Ha. split; [exact Ha | apply Hnan, Ha].
Qed.

(** A comparator that is positive exactly when [f a - f b] is sorts in
    ascending order of [f]. *)
Lemma Array_sort_by_key_asc (l : list A) :
  Forall (fun a => is_nan (f a) = false) l ->
  (forall a b, In a l -> In b l ->
               (0 <? compareFn a b)%float = (0 <? f a - f b)%float) ->
  StronglySorted (fun a b => (f a <=? f b)%float = true) (Array_sort compareFn l).
Proof.
  intros Hnan Hcmp.
  apply (Array_sort_sorted compareFn _ (fun a => In a l /\ is_nan (f a) = false)).
  - intros a b c [_ Ha] [_ Hb] [_ Hc]. rewrite !leb_key by assumption.
    rewrite !Z.leb_le. lia.
  - intros a b [Ia Ha] [Ib Hb]. rewrite Hcmp, sub_positive_key, leb_key by assumption.
    rewrite Z.ltb_ge, Z.leb_le. lia.
  - intros a b [Ia Ha] [Ib Hb]. rewrite Hcmp, sub_positive_key, leb_key by assumption.
    rewrite Z.ltb_lt, Z.leb_le. lia.
  - rewrite Forall_forall in Hnan |- *. intros a Ha. split; [exact Ha | apply Hnan, Ha].
Qed.

(** A comparator that never answers a positive number leaves the array
    as it is. *)
Lemma Array_sort_ties (l : list A) :
  (forall a b, In a l -> In b l -> (0 <? compareFn a b)%float = false) ->
  Array_sort compareFn l = l.
Proof.
  induction l as [|x l IH]; intros Hcmp; [reflexivity|].
  cbn [Array_sort fold_right]. fold (Array_sort compareFn l).
  rewrite IH by (intros a b Ha Hb; apply Hcmp; right; assumption).
  destruct l as [|y l]; [reflexivity|].
  cbn [insert_sorted]. rewrite Hcmp; [reflexivity | left; reflexivity | right; left; reflexivity].
Qed.
End SortByKey.

Lemma numberAt_field (key : StockKey) (stock : S.StockData) :
  is_nan (numberAt key stock) = false -> field stock key = JsNum (numberAt key stock).
Proof.
  unfold numberAt. destruct (field stock key); try discriminate. reflexivity.
Qed.

(** X9: [sortStocks] returns a rearrangement of the records it is given,
    whatever the field holds.  On a field that holds a number (not NaN)
    in every record, direction ['asc'] puts the records in ascending and
    ['desc'] in descending order of that field. *)
Theorem X9_sortStocks_orders_numbers (localeCompare : string -> string -> float)
        (stocks : list S.StockData) (key : StockKey) :
  Permutation (stockServiceApi.sortStocks localeCompare stocks key stockServiceApi.asc) stocks
  /\ Permutation (stockServiceApi.sortStocks localeCompare stocks key stockServiceApi.desc) stocks
  /\ (Forall (fun stock => is_nan (numberAt key stock) = false) stocks ->
      StronglySorted (fun a b => (numberAt key a <=? numberAt key b)%float = true)
        (stockServiceApi.sortStocks localeCompare stocks key stockServiceApi.asc)
      /\ StronglySorted (fun a b => (numberAt key b <=? numberAt key a)%float = true)
           (stockServiceApi.sortStocks localeCompare stocks key stockServiceApi.desc)).
Proof.
  unfold stockServiceApi.sortStocks.
  split; [apply Array_sort_perm|]. split; [apply Array_sort_perm|].
  intros Hnum.
  assert (Hfield : forall a, In a stocks -> field a key = JsNum (numberAt key a)).
  { intros a Ha. apply numberAt_field. rewrite Forall_forall in Hnum. apply Hnum, Ha. }
  split.
  - apply Array_sort_by_key_asc; [exact Hnum|].
    intros a b Ha Hb. cbv zeta. rewrite (Hfield a Ha), (Hfield b Hb). reflexivity.
  - apply Array_sort_by_key_desc; [exact Hnum|].
    intros a b Ha Hb. cbv zeta. rewrite (Hfield a Ha), (Hfield b Hb). reflexivity.
Qed.

Lemma X9_sortStocks_orders_numbers_witness :
  map S.ticker (stockServiceApi.sortStocks (fun _ _ => 0%float) pricedBatch k_price
                  stockServiceApi.asc)
  = ["LOW"; "MID"; "TOP"]%string
  /\ StronglySorted (fun a b => (numberAt k_price a <=? numberAt k_price b)%float = true)
       (stockServiceApi.sortStocks (fun _ _ => 0%float) pricedBatch k_price stockServiceApi.asc).
Proof.
  split; [reflexivity|].
  apply (proj2 (proj2 (X9_sortStocks_orders_numbers (fun _ _ => 0%float) pricedBatch k_price))).
  vm_compute. repeat constructor.
Defined.

(** X10: sorting by a field that is null in every record leaves the
    records in the order given, in either direction; [sortStocksLocally]
    without a sort field returns its input; and with a sort field it is
    [sortStocks] on that field, descending when [sortDesc] is set and
    ascending otherwise. *)
Theorem X10_sortStocks_null_field_and_local (localeCompare : string -> string -> float)
        (stocks : list S.StockData) :
  (forall key direction,
      Forall (fun stock => field stock key = JsNull) stocks ->
      stockServiceApi.sortStocks localeCompare stocks key direction = stocks)
  /\ (forall sortDesc,
        stockServiceApi.sortStocksLocally localeCompare stocks None sortDesc = stocks)
  /\ (forall key sortDesc,
        stockServiceApi.sortStocksLocally localeCompare stocks (Some key) sortDesc
        = stockServiceApi.sortStocks localeCompare stocks key
            (if sortDesc then stockServiceApi.desc else stockServiceApi.asc)).
Proof.
  split.
  { intros key direction Hnull. unfold stockServiceApi.sortStocks.
    apply Array_sort_ties. intros a b Ha Hb. cbv zeta.
    rewrite Forall_forall in Hnull. rewrite (Hnull a Ha). reflexivity. }
  split; [reflexivity|].
  intros key sortDesc. unfold stockServiceApi.sortStocksLocally, stockServiceApi.sortStocks.
  destruct sortDesc; reflexivity.
Qed.
(* ================================================================== *)
(** * stockService: filtering *)

Lemma Array_every_app {A : Type} (f : A -> option bool) (l1 l2 : list A) :
  Array_every f (l1 ++ l2) =
  match Array_every f l1 with
  | Some true => Array_every f l2
  | stopped => stopped
  end.
Proof.
  induction l1 as [|x l1 IH]; [reflexivity|].
  cbn [app Array_every]. destruct (f x) as [[|]|]; auto.
Qed.

Lemma Array_filter_Some {A : Type} (f : A -> option bool) (l kept : list A) :
  Array_filter f l = Some kept ->
  kept = filter (fun x => match f x with Some true => true | _ => false end) l.
Proof.
  revert kept. induction l as [|x l IH]; intros kept; cbn [Array_filter filter].
  - intros [= <-]. reflexivity.
  - destruct (f x) as [keep|]; [|discriminate].
    destruct (Array_filter f l) as [kept'|]; [|discriminate].
    intros [= <-]. rewrite (IH kept' eq_refl). destruct keep; reflexivity.
Qed.

Lemma Array_filter_ext {A : Type} (f g : A -> option bool) (l : list A) :
  (forall x, In x l -> f x = g x) -> Array_filter f l = Array_filter g l.
Proof.
  induction l as [|x l IH]; intros Hext; [reflexivity|].
  cbn [Array_filter]. rewrite (Hext x (or_introl eq_refl)), IH; [reflexivity|].
  intros y Hy. apply Hext. right. exact Hy.
Qed.

Lemma Array_filter_all {A : Type} (f : A -> option bool) (l : list A) :
  (forall x, In x l -> f x = Some true) -> Array_filter f l = Some l.
Proof.
  induction l as [|x l IH]; intros Hall; [reflexivity|].
  cbn [Array_filter]. rewrite (Hall x (or_introl eq_refl)), IH; [reflexivity|].
  intros y Hy. apply Hall. right. exact Hy.
Qed.

Section FilterFacts.
Variable toLowerCase : string -> string.
Variable parseFloat : string -> float.
Variable Number_toString : float -> string.

Lemma filterStocks_app (stocks : list S.StockData)
      (filters1 filters2 : list (StockKey * stockServiceApi.FilterValue)) :
  stockServiceApi.filterStocks toLowerCase parseFloat Number_toString stocks
    (filters1 ++ filters2) =
  match stockServiceApi.filterStocks toLowerCase parseFloat Number_toString stocks filters1 with
  | Some kept =>
      stockServiceApi.filterStocks toLowerCase parseFloat Number_toString kept filters2
  | None => None
  end.
Proof.
  unfold stockServiceApi.filterStocks.
  set (passes := stockServiceApi.passes toLowerCase parseFloat Number_toString).
  induction stocks as [|x l IH]; [reflexivity|].
  cbn [Array_filter]. rewrite Array_every_app, IH.
  destruct (Array_every (passes x) filters1) as [[|]|]; [| |reflexivity].
  - destruct (Array_filter (fun stock => Array_every (passes stock) filters1) l) as [kept|].
    + reflexivity.
    + destruct (Array_every (passes x) filters2); reflexivity.
  - destruct (Array_filter (fun stock => Array_every (passes stock) filters1) l) as [kept|];
      [|reflexivity].
    destruct (Array_filter (fun stock => Array_every (passes stock) filters2) kept);
      reflexivity.
Qed.
End FilterFacts.

(** X11: filters combine by conjunction: [filterStocks] with two sets of
    filters at once gives what filtering with the first set and then
    filtering the result with the second set gives, a thrown TypeError
    included.  Whatever it returns is the input with some records
    removed, the others in their original order. *)
Theorem X11_filterStocks_composes (toLowerCase : string -> string)
        (parseFloat : string -> float) (Number_toString : float -> string)
        (stocks : list S.StockData)
        (filters1 filters2 : list (StockKey * stockServiceApi.FilterValue)) :
  let filterStocks := stockServiceApi.filterStocks toLowerCase parseFloat Number_toString in
  filterStocks stocks (filters1 ++ filters2)
  = match filterStocks stocks filters1 with
    | Some kept => filterStocks kept filters2
    | None => None
    end
  /\ (forall kept, filterStocks stocks filters1 = Some kept ->
        exists keep, kept = filter keep stocks).
Proof.
  intros filterStocks. split; [apply filterStocks_app|].
  intros kept Hkept. eexists. apply (Array_filter_Some _ _ _ Hkept).
Qed.

(** X12: a numeric threshold of 0 is no filter at all: such an entry is
    skipped, so records with a negative value pass it, and so is an
    empty-string entry.  A record whose field is null passes every filter
    on that field, whatever the threshold. *)
Theorem X12_filterStocks_zero_and_null (toLowerCase : string -> string)
        (parseFloat : string -> float) (Number_toString : float -> string)
        (stocks : list S.StockData) (key : StockKey)
        (filters : list (StockKey * stockServiceApi.FilterValue)) :
  let filterStocks := stockServiceApi.filterStocks toLowerCase parseFloat Number_toString in
  filterStocks stocks ((key, stockServiceApi.FNumber 0) :: filters) = filterStocks stocks filters
  /\ filterStocks stocks ((key, stockServiceApi.FString "") :: filters) = filterStocks stocks filters
  /\ filterStocks stocks [(key, stockServiceApi.FNumber 0)] = Some stocks
  /\ (forall value,
        Forall (fun stock => field stock key = JsNull) stocks ->
        filterStocks stocks ((key, value) :: filters) = filterStocks stocks filters).
Proof.
  intros filterStocks. unfold filterStocks, stockServiceApi.filterStocks.
  split; [reflexivity|]. split; [reflexivity|].
  split; [apply Array_filter_all; intros x _; reflexivity|].
  intros value Hnull. apply Array_filter_ext. intros x Hx.
  rewrite Forall_forall in Hnull. specialize (Hnull x Hx).
  cbn [Array_every].
  assert (Hpass : stockServiceApi.passes toLowerCase parseFloat Number_toString x (key, value)
                  = Some true).
  { unfold stockServiceApi.passes. destruct (stockServiceApi.falsy value); [reflexivity|].
    cbv zeta. rewrite Hnull. destruct key; try reflexivity; discriminate. }
  rewrite Hpass. reflexivity.
Qed.
(** X13: a numeric threshold that is not 0 or NaN is a minimum: on a
    numeric field other than [market_cap], [filterStocks] keeps exactly
    the records whose field is null or at least the threshold; on
    [market_cap] the threshold is read in millions. *)
Theorem X13_filterStocks_threshold_is_minimum (toLowerCase : string -> string)
        (parseFloat : string -> float) (Number_toString : float -> string)
        (stocks : list S.StockData) (key : StockKey) (threshold : float) :
  stockServiceApi.falsy (stockServiceApi.FNumber threshold) = false ->
  key <> k_ticker -> key <> k_name -> key <> k_sector ->
  stockServiceApi.filterStocks toLowerCase parseFloat Number_toString stocks
    [(key, stockServiceApi.FNumber threshold)]
  = Some (filter (fun stock =>
                    match field stock key with
                    | JsNum x =>
                        match key with
                        | k_market_cap => (threshold * 1000000 <=? x)%float
                        | _ => (threshold <=? x)%float
                        end
                    | _ => true
                    end) stocks).
Proof.
  intros Hfalsy Ht Hn Hs. unfold stockServiceApi.filterStocks.
  assert (Hnan : is_nan threshold = false).
  { cbn in Hfalsy. apply orb_false_iff in Hfalsy. tauto. }
  induction stocks as [|x l IH]; [reflexivity|].
  cbn [Array_filter filter]. rewrite IH. cbn [Array_every].
  unfold stockServiceApi.passes. rewrite Hfalsy. cbv zeta. rewrite Hnan.
  destruct key; try congruence; cbn [field stockServiceApi.isPercentageKey];
    match goal with
    | |- context [numberOrNull ?v] => destruct v as [y|]; cbn [numberOrNull]
    end;
    try reflexivity;
    match goal with
    | |- context [(?a <=? ?b)%float] => destruct (a <=? b)%float; reflexivity
    end.
Qed.

Lemma X13_filterStocks_threshold_is_minimum_witness :
  option_map (map S.ticker)
    (stockServiceApi.filterStocks (fun s => s) (fun _ => nan) (fun _ => ""%string)
       (stockWithPrice "NONE" None :: pricedBatch) [(k_price, stockServiceApi.FNumber 20)])
  = Some ["NONE"; "MID"; "TOP"]%string.
Proof.
  rewrite (X13_filterStocks_threshold_is_minimum (fun s => s) (fun _ => nan)
             (fun _ => ""%string)
             (stockWithPrice "NONE" None :: pricedBatch) k_price 20);
    [reflexivity | reflexivity | discriminate | discriminate | discriminate].
Defined.

(* ================================================================== *)
(** * stockService: the paged, cached fetch *)

Lemma firstn_slice {A : Type} (l : list A) (a b : nat) :
  firstn a l ++ firstn b (skipn a l) = firstn (a + b) l.
Proof.
  revert l. induction a as [|a IH]; intros l; [reflexivity|].
  destruct l as [|x l]; cbn [firstn skipn app Nat.add].
  - rewrite firstn_nil. reflexivity.
  - rewrite IH. reflexivity.
Qed.

(** Against a backend that pages a list, the loop started at any page
    with the records of the pages before it collects the whole list. *)
Lemma fetchLoop_paged (all : list S.StockData) (stamp : string) (requests page : nat) :
  1 <= requests -> 1 <= page ->
  length all <= (page - 1 + requests) * stockServiceApi.limit ->
  stockServiceApi.fetchLoop (pagedServer all stamp) requests
    (firstn ((page - 1) * stockServiceApi.limit) all) page
  = stockServiceApi.Resolved
      {| stockServiceApi.fetched := all; stockServiceApi.lastUpdated := stamp |}.
Proof.
  revert page. induction requests as [|requests IH]; intros page Hreq Hpage Hlen; [lia|].
  cbn [stockServiceApi.fetchLoop pagedServer stockServiceApi.data
       stockServiceApi.total_count stockServiceApi.last_updated].
  unfold slice.
  replace (page * stockServiceApi.limit - (page - 1) * stockServiceApi.limit)
    with stockServiceApi.limit by nia.
  rewrite firstn_slice.
  replace ((page - 1) * stockServiceApi.limit + stockServiceApi.limit)
    with (page * stockServiceApi.limit) by nia.
  destruct (length all <=? page * stockServiceApi.limit) eqn:Edone.
  - rewrite orb_true_r. apply Nat.leb_le in Edone.
    rewrite firstn_all2 by exact Edone. reflexivity.
  - apply Nat.leb_gt in Edone.
    assert (Hfull : (length (firstn stockServiceApi.limit
                               (skipn ((page - 1) * stockServiceApi.limit) all))
                     <? stockServiceApi.limit) = false).
    { apply Nat.ltb_ge. rewrite length_firstn, length_skipn. nia. }
    rewrite Hfull. cbn [orb].
    replace (page * stockServiceApi.limit) with ((S page - 1) * stockServiceApi.limit)
      by (f_equal; lia).
    apply IH; [nia | lia |].
    replace (S page - 1 + requests) with (page - 1 + S requests) by lia. exact Hlen.
Qed.

(** X14: against a backend that serves a list in pages of 1000,
    [fetchAllStocks] on an empty cache, or with [forceRefresh], resolves
    to the whole list with the backend's time stamp and stores it in the
    cache, and it needs no more requests than there are pages (one
    request for an empty list): it does not ask for an extra page when
    the last page is full. *)
Theorem X14_fetchAllStocks_collects_all_pages (all : list S.StockData) (stamp : string)
        (requests : nat) (stockCache : option stockServiceApi.StockCache) (now fetchedAt : Z) :
  1 <= requests ->
  length all <= requests * 1000 ->
  let result := {| stockServiceApi.fetched := all; stockServiceApi.lastUpdated := stamp |} in
  let stored := Some {| stockServiceApi.cached := all;
                        stockServiceApi.cachedLastUpdated := stamp;
                        stockServiceApi.timestamp := fetchedAt |} in
  stockServiceApi.fetchAllStocks (pagedServer all stamp) requests None now fetchedAt false
  = (stockServiceApi.Resolved result, stored)
  /\ stockServiceApi.fetchAllStocks (pagedServer all stamp) requests stockCache now fetchedAt true
     = (stockServiceApi.Resolved result, stored).
Proof.
  intros Hreq Hlen result stored.
  pose proof (fetchLoop_paged all stamp requests 1 Hreq (le_n 1)) as Hloop.
  cbn [Nat.sub Nat.add Nat.mul firstn] in Hloop.
  specialize (Hloop Hlen).
  unfold stockServiceApi.fetchAllStocks. rewrite Hloop.
  split; [reflexivity|]. destruct stockCache; reflexivity.
Qed.
Lemma X14_fetchAllStocks_collects_all_pages_witness :
  stockServiceApi.fetchAllStocks (pagedServer pricedBatch "2024-01-01") 1 None 0 5 false
  = (stockServiceApi.Resolved
       {| stockServiceApi.fetched := pricedBatch;
          stockServiceApi.lastUpdated := "2024-01-01" |},
     Some {| stockServiceApi.cached := pricedBatch;
             stockServiceApi.cachedLastUpdated := "2024-01-01";
             stockServiceApi.timestamp := 5 |}).
Proof.
  apply (X14_fetchAllStocks_collects_all_pages pricedBatch "2024-01-01" 1 None 0 5);
    simpl; lia.
Defined.

(** X15: the cache of [fetchAllStocks].  A call that resolves leaves a
    cache holding what it returned, and any later call without
    [forceRefresh], made less than 24 hours after the cache's time stamp,
    resolves to the same result and the same cache without a single
    request, whatever the backend would answer.  A call that is rejected
    leaves the cache as it was.  Once 24 hours have passed, or with
    [forceRefresh], the cache is not consulted. *)
Theorem X15_fetchAllStocks_cache (server : nat -> option stockServiceApi.StockResponse)
        (requests : nat) (stockCache : option stockServiceApi.StockCache)
        (now fetchedAt : Z) (forceRefresh : bool) :
  let call := stockServiceApi.fetchAllStocks server requests stockCache now fetchedAt
                forceRefresh in
  (forall result, fst call = stockServiceApi.Resolved result ->
     exists cache,
       snd call = Some cache
       /\ stockServiceApi.cached cache = stockServiceApi.fetched result
       /\ stockServiceApi.cachedLastUpdated cache = stockServiceApi.lastUpdated result
       /\ forall server' requests' later fetchedAt',
            (later - stockServiceApi.timestamp cache < stockServiceApi.CACHE_DURATION)%Z ->
            stockServiceApi.fetchAllStocks server' requests' (snd call) later fetchedAt' false
            = (stockServiceApi.Resolved result, snd call))
  /\ (fst call = stockServiceApi.Rejected -> snd call = stockCache)
  /\ (forall cache, stockCache = Some cache ->
        forceRefresh = true
        \/ (stockServiceApi.CACHE_DURATION <= now - stockServiceApi.timestamp cache)%Z ->
        fst call
        = fst (stockServiceApi.fetchAllStocks server requests None now fetchedAt forceRefresh)).
Proof.
  intros call.
  assert (Hhit : forall cache server' requests' later fetchedAt',
             (later - stockServiceApi.timestamp cache < stockServiceApi.CACHE_DURATION)%Z ->
             stockServiceApi.fetchAllStocks server' requests' (Some cache) later fetchedAt' false
             = (stockServiceApi.Resolved
                  {| stockServiceApi.fetched := stockServiceApi.cached cache;
                     stockServiceApi.lastUpdated := stockServiceApi.cachedLastUpdated cache |},
                Some cache)).
  { intros cache server' requests' later fetchedAt' Hfresh.
    unfold stockServiceApi.fetchAllStocks. apply Z.ltb_lt in Hfresh. rewrite Hfresh.
    reflexivity. }
  assert (Hshape :
            (exists cache, stockCache = Some cache
               /\ forceRefresh = false
               /\ (now - stockServiceApi.timestamp cache < stockServiceApi.CACHE_DURATION)%Z
               /\ call = (stockServiceApi.Resolved
                            {| stockServiceApi.fetched := stockServiceApi.cached cache;
                               stockServiceApi.lastUpdated :=
                                 stockServiceApi.cachedLastUpdated cache |},
                          Some cache))
            \/ ((forall cache, stockCache = Some cache ->
                    forceRefresh = true
                    \/ (stockServiceApi.CACHE_DURATION
                         <= now - stockServiceApi.timestamp cache)%Z)
                /\ ((exists fresh,
                       call = (stockServiceApi.Resolved fresh,
                               Some {| stockServiceApi.cached := stockServiceApi.fetched fresh;
                                       stockServiceApi.cachedLastUpdated :=
                                         stockServiceApi.lastUpdated fresh;
                                       stockServiceApi.timestamp := fetchedAt |}))
                    \/ call = (stockServiceApi.Rejected, stockCache)
                    \/ call = (stockServiceApi.Pending, stockCache)))).
  { unfold call, stockServiceApi.fetchAllStocks.
    destruct stockCache as [cache|].
    - destruct forceRefresh; cbn [negb andb].
      + right. split; [intros c _; left; reflexivity|].
        destruct (stockServiceApi.fetchLoop server requests [] 1) as [fresh| |]; eauto.
      + destruct (now - stockServiceApi.timestamp cache <? stockServiceApi.CACHE_DURATION)%Z
          eqn:Efresh.
        * left. exists cache. apply Z.ltb_lt in Efresh. auto.
        * right. apply Z.ltb_ge in Efresh.
          split; [intros c [= <-]; right; exact Efresh|].
          destruct (stockServiceApi.fetchLoop server requests [] 1) as [fresh| |]; eauto.
    - right. split; [intros c [=]|].
      destruct (stockServiceApi.fetchLoop server requests [] 1) as [fresh| |]; eauto. }
  split; [|split].
  - intros result Hres.
    destruct Hshape as [[cache [-> [-> [Hfresh Hcall]]]] | [_ [[fresh Hcall] | [Hcall | Hcall]]]];
      rewrite Hcall in Hres |- *; cbn [fst snd] in Hres |- *; try discriminate;
      injection Hres as <-; eexists; split; [reflexivity| | reflexivity |];
      (split; [reflexivity|]; split; [reflexivity|]);
      intros server' requests' later fetchedAt' Hlater;
      rewrite (Hhit _ server' requests' later fetchedAt' Hlater); [reflexivity|].
    destruct fresh; reflexivity.
  - intros Hrej.
    destruct Hshape as [[cache [-> [-> [Hfresh Hcall]]]] | [_ [[fresh Hcall] | [Hcall | Hcall]]]];
      rewrite Hcall in Hrej |- *; cbn [fst snd] in Hrej |- *; try discriminate; reflexivity.
  - intros cache -> Hwhy. unfold call, stockServiceApi.fetchAllStocks.
    destruct Hwhy as [-> | Hold].
    + cbn [negb andb].
      destruct (stockServiceApi.fetchLoop server requests [] 1); reflexivity.
    + apply Z.ltb_ge in Hold. rewrite Hold, andb_false_r.
      destruct (stockServiceApi.fetchLoop server requests [] 1); reflexivity.
Qed.
(* ================================================================== *)
(** * CorrelationClusteringView: the correlation table is symmetric *)

Lemma reduce_products_comm (px py x y : list float) (acc : float) :
  length px = length py -> length x = length y ->
  reduce_from (fun acc curr i => (acc + curr * nth i (py ++ y) nan)%float) (length px) x acc
  = reduce_from (fun acc curr i => (acc + curr * nth i (px ++ x) nan)%float) (length py) y acc.
Proof.
  revert px py y acc. induction x as [|a x IH]; intros px py y acc Hp Hlen.
  - destruct y; [reflexivity | discriminate].
  - destruct y as [|b y]; [discriminate|]. injection Hlen as Hlen.
    cbn [reduce_from].
    replace (nth (length px) (py ++ b :: y) nan) with b by (rewrite Hp, nth_middle; reflexivity).
    replace (nth (length py) (px ++ a :: x) nan) with a
      by (rewrite <- Hp, nth_middle; reflexivity).
    rewrite (float_mul_comm b a).
    replace (py ++ b :: y) with ((py ++ [b]) ++ y) by (rewrite <- app_assoc; reflexivity).
    replace (px ++ a :: x) with ((px ++ [a]) ++ x) by (rewrite <- app_assoc; reflexivity).
    replace (S (length px)) with (length (px ++ [a])) by (rewrite length_app; simpl; lia).
    replace (S (length py)) with (length (py ++ [b])) by (rewrite length_app; simpl; lia).
    apply IH; [rewrite !length_app; simpl; lia | exact Hlen].
Qed.

(** On binary64 the correlation does not depend on the order of its two
    arguments. *)
Lemma pearson_comm (x y : list float) :
  length x = length y ->
  calculatePearsonCorrelation x y = calculatePearsonCorrelation y x.
Proof.
  intros Hlen. unfold calculatePearsonCorrelation, reduce, at_index.
  cbn [nadd nsub nmul ndiv nsqrt neqb num_of_nat nundef F64].
  rewrite <- Hlen.
  pose proof (reduce_products_comm [] [] x y (float_of_nat 0) eq_refl Hlen) as Hxy.
  cbn [app length] in Hxy. rewrite Hxy. cbv zeta.
  set (sum_x := reduce_from (fun a b _ => (a + b)%float) 0 x (float_of_nat 0)).
  set (sum_y := reduce_from (fun a b _ => (a + b)%float) 0 y (float_of_nat 0)).
  rewrite (float_mul_comm sum_y sum_x).
  match goal with
  | |- context [PrimFloat.sqrt (?dx * ?dy)%float] => rewrite (float_mul_comm dx dy)
  end.
  reflexivity.
Qed.

Section LastWrite.
Context {A V : Type} (key : A -> string) (value : A -> V).

Lemma find_app (p : A -> bool) (l1 l2 : list A) :
  find p (l1 ++ l2) = match find p l1 with Some x => Some x | None => find p l2 end.
Proof.
  induction l1 as [|x l1 IH]; [reflexivity|]. simpl. destruct (p x); auto.
Qed.

(** After writing [value x] under [key x] for every [x] of a list, a key
    holds the value of the last element with that key. *)
Lemma obj_get_fold_set (l : list A) (m : entries V) (k : string) :
  obj_get (fold_left (fun m x => obj_set m (key x) (value x)) l m) k =
  match find (fun x => String.eqb (key x) k) (rev l) with
  | Some x => Some (value x)
  | None => obj_get m k
  end.
Proof.
  revert m. induction l as [|x l IH]; intros m; [reflexivity|].
  cbn [fold_left rev]. rewrite IH, find_app.
  destruct (find (fun x => String.eqb (key x) k) (rev l)); [reflexivity|].
  cbn [find]. destruct (String.eqb (key x) k) eqn:E.
  - apply String.eqb_eq in E. subst k. apply obj_get_set_same.
  - apply String.eqb_neq in E. apply obj_get_set_other, E.
Qed.
End LastWrite.

Lemma fold_left_pointwise {A B : Type} (f g : A -> B -> A) (l : list B) (a : A) :
  (forall a b, f a b = g a b) -> fold_left f l a = fold_left g l a.
Proof.
  intros Hfg. revert a. induction l as [|x l IH]; intros a; [reflexivity|].
  cbn [fold_left]. rewrite Hfg. apply IH.
Qed.

(** Number writes never store under [__proto__], and every other key
    holds the value of the last element written under it. *)
Lemma obj_get_fold_setNumber {A : Type} (key : A -> string) (value : A -> float)
      (l : list A) (row : entries float) (k : string) :
  k <> "__proto__"%string ->
  obj_get (fold_left (fun row x => setNumber row (key x) (value x)) l row) k =
  match find (fun x => String.eqb (key x) k) (rev l) with
  | Some x => Some (value x)
  | None => obj_get row k
  end.
Proof.
  intros Hk. revert row. induction l as [|x l IH]; intros row; [reflexivity|].
  cbn [fold_left rev]. rewrite IH, find_app.
  destruct (find (fun x => String.eqb (key x) k) (rev l)); [reflexivity|].
  cbn [find]. unfold setNumber.
  destruct (String.eqb (key x) "__proto__") eqn:P.
  - apply String.eqb_eq in P.
    destruct (String.eqb (key x) k) eqn:E; [|reflexivity].
    apply String.eqb_eq in E. congruence.
  - destruct (String.eqb (key x) k) eqn:E.
    + apply String.eqb_eq in E. subst k. apply obj_get_set_same.
    + apply String.eqb_neq in E. apply obj_get_set_other, E.
Qed.

Lemma lookupCorrelation_table (sectorStocks : list S.StockData) (t1 t2 : string) :
  t2 <> "__proto__"%string ->
  CorrelationClusteringView.lookupCorrelation
    (CorrelationClusteringView.correlationTable sectorStocks) t1 t2
  = match find (fun s => String.eqb (S.ticker s) t1) (rev sectorStocks),
          find (fun s => String.eqb (S.ticker s) t2) (rev sectorStocks) with
    | Some stock1, Some stock2 =>
        if String.eqb (S.ticker stock1) (S.ticker stock2) then 1%float
        else calculatePearsonCorrelation (CorrelationClusteringView.returnsOf stock1)
                                         (CorrelationClusteringView.returnsOf stock2)
    | _, _ => nan
    end.
Proof.
  intros Ht2.
  unfold CorrelationClusteringView.lookupCorrelation,
    CorrelationClusteringView.correlationTable.
  rewrite (obj_get_fold_set S.ticker
             (fun stock1 => CorrelationClusteringView.correlationRow stock1 sectorStocks)).
  cbn [obj_get].
  destruct (find (fun s => String.eqb (S.ticker s) t1) (rev sectorStocks)) as [stock1|];
    [|reflexivity].
  replace (String.eqb t2 "__proto__") with false
    by (symmetry; apply String.eqb_neq, Ht2).
  unfold CorrelationClusteringView.correlationRow.
  rewrite (fold_left_pointwise
             (fun row stock2 =>
                if String.eqb (S.ticker stock1) (S.ticker stock2)
                then setNumber row (S.ticker stock2) 1%float
                else setNumber row (S.ticker stock2)
                       (calculatePearsonCorrelation
                          (CorrelationClusteringView.returnsOf stock1)
                          (CorrelationClusteringView.returnsOf stock2)))
             (fun row stock2 =>
                setNumber row (S.ticker stock2)
                  (if String.eqb (S.ticker stock1) (S.ticker stock2) then 1%float
                   else calculatePearsonCorrelation
                          (CorrelationClusteringView.returnsOf stock1)
                          (CorrelationClusteringView.returnsOf stock2)))
             sectorStocks [])
    by (intros row stock2; destruct (String.eqb (S.ticker stock1) (S.ticker stock2)); reflexivity).
  rewrite (obj_get_fold_setNumber S.ticker
             (fun stock2 =>
                if String.eqb (S.ticker stock1) (S.ticker stock2) then 1%float
                else calculatePearsonCorrelation
                       (CorrelationClusteringView.returnsOf stock1)
                       (CorrelationClusteringView.returnsOf stock2))) by exact Ht2.
  cbn [obj_get].
  destruct (find (fun s => String.eqb (S.ticker s) t2) (rev sectorStocks)); reflexivity.
Qed.

(** X17: on binary64 [calculatePearsonCorrelation] gives the same number
    with its two series exchanged, when they have the same length; so
    the [correlations] table a sector gets is symmetric,
    [correlations[a][b]] being [correlations[b][a]] for all tickers [a],
    [b] of the sector other than [__proto__], and it holds 1 on its
    diagonal.  Under the ticker [__proto__] no row holds a number. *)
Theorem X17_correlation_table_is_symmetric (sectorStocks : list S.StockData) :
  let correlations := CorrelationClusteringView.correlationTable sectorStocks in
  let tickers := map S.ticker sectorStocks in
  (forall x y : list float,
      length x = length y ->
      calculatePearsonCorrelation x y = calculatePearsonCorrelation y x)
  /\ (forall t1 t2,
        In t1 tickers -> In t2 tickers ->
        t1 <> "__proto__"%string -> t2 <> "__proto__"%string ->
        CorrelationClusteringView.lookupCorrelation correlations t1 t2
        = CorrelationClusteringView.lookupCorrelation correlations t2 t1)
  /\ (forall t, In t tickers -> t <> "__proto__"%string ->
        CorrelationClusteringView.lookupCorrelation correlations t t = 1%float)
  /\ (forall t, In t tickers ->
        CorrelationClusteringView.lookupCorrelation correlations t "__proto__" = nan).
Proof.
  intros correlations tickers. split; [exact pearson_comm|]. unfold correlations. split; [|split].
  - intros t1 t2 _ _ Ht1 Ht2. rewrite !lookupCorrelation_table by assumption.
    destruct (find (fun s => String.eqb (S.ticker s) t1) (rev sectorStocks)) as [stock1|],
             (find (fun s => String.eqb (S.ticker s) t2) (rev sectorStocks)) as [stock2|];
      try reflexivity.
    rewrite (String.eqb_sym (S.ticker stock2)).
    destruct (String.eqb (S.ticker stock1) (S.ticker stock2)); [reflexivity|].
    apply pearson_comm. reflexivity.
  - intros t Hin Ht. rewrite lookupCorrelation_table by exact Ht.
    destruct (find (fun s => String.eqb (S.ticker s) t) (rev sectorStocks))
      as [found|] eqn:Efind.
    + rewrite String.eqb_refl. reflexivity.
    + apply in_map_iff in Hin. destruct Hin as [stock [<- Hin]].
      pose proof (find_none _ _ Efind stock) as Hnone. cbv beta in Hnone.
      rewrite String.eqb_refl in Hnone.
      assert (true = false) by (apply Hnone; rewrite <- in_rev; exact Hin).
      discriminate.
  - intros t _. unfold CorrelationClusteringView.lookupCorrelation.
    destruct (obj_get _ t); reflexivity.
Qed.

(* ================================================================== *)
(** * binary64: multiplying by 1 and by -1, and negative differences *)

Section Binary64Signs.
Local Open Scope Z_scope.

(** Multiplying a non-zero value by 1 or by -1 gives a non-zero value of
    the product's sign. *)
Lemma SFmul_unit_signed (s sc : bool) (x : spec_float) :
  valid_binary x = true -> SFsigned s x ->
  SFsigned (xorb s sc) (SF64mul x (S754_finite sc 4503599627370496 (-52))).
Proof.
  intros Hv Hs. destruct x as [sx|sx| |sx m e]; cbn in Hs; try contradiction; subst sx.
  - reflexivity.
  - unfold SF64mul. cbn [SFmul].
    apply binary_round_aux_signed.
    apply valid_finite in Hv. destruct Hv as [He _].
    assert (Hp : 2 ^ 52 <= Zpos (m * 4503599627370496)).
    { rewrite Pos2Z.inj_mul. change (2 ^ 52) with 4503599627370496. lia. }
    pose proof (Zdigits2_ge _ 52 ltac:(lia) Hp). lia.
Qed.

Lemma SF_sign_cases (x : spec_float) :
  x = S754_nan \/ (exists s, x = S754_zero s) \/ (exists s, SFsigned s x).
Proof.
  destruct x as [s|s| |s m e]; [right; left | right; right | left | right; right];
    try reflexivity; exists s; reflexivity.
Qed.

Lemma SFltb_unit (sc : bool) (x : spec_float) :
  valid_binary x = true ->
  SFltb (S754_zero false) (SF64mul x (S754_finite sc 4503599627370496 (-52)))
  = if sc then SFltb x (S754_zero false) else SFltb (S754_zero false) x.
Proof.
  intros Hv. destruct (SF_sign_cases x) as [-> | [[s ->] | [s Hs]]].
  - destruct sc; reflexivity.
  - destruct s, sc; reflexivity.
  - pose proof (SFmul_unit_signed s sc x Hv Hs) as Hm.
    apply SFltb_zero_signed in Hm, Hs. destruct Hm as [-> _], Hs as [-> ->].
    destruct s, sc; reflexivity.
Qed.

(** [0 < d * 1] exactly when [0 < d]. *)
Lemma mul_one_positive (d : float) : (0 <? d * 1)%float = (0 <? d)%float.
Proof.
  rewrite !ltb_spec, mul_spec.
  change (Prim2SF 1) with (S754_finite false 4503599627370496 (-52)).
  change (Prim2SF 0) with (S754_zero false).
  apply (SFltb_unit false), Prim2SF_valid.
Qed.

(** [0 < d * -1] exactly when [d < 0]. *)
Lemma mul_minus_one_positive (d : float) : (0 <? d * -1)%float = (d <? 0)%float.
Proof.
  rewrite !ltb_spec, mul_spec.
  change (Prim2SF (-1)) with (S754_finite true 4503599627370496 (-52)).
  change (Prim2SF 0) with (S754_zero false).
  apply (SFltb_unit true), Prim2SF_valid.
Qed.

Lemma SFsub_negative (x y : spec_float) :
  valid_binary x = true -> valid_binary y = true ->
  x <> S754_nan -> y <> S754_nan ->
  SFltb (SFsub prec emax y x) (S754_zero false) = (SFkey y <? SFkey x).
Proof.
  intros Hvx Hvy Hx Hy.
  pose proof (pow2_pos 2098 ltac:(lia)) as Hbig.
  destruct x as [sx|sx| |sx mx ex], y as [sy|sy| |sy my ey]; try congruence;
    try (pose proof (finite_key_bounds _ _ _ Hvx) as Hkx);
    try (pose proof (finite_key_bounds _ _ _ Hvy) as Hky);
    cbn [SFsub SFkey].
  all: try (destruct sx; try destruct sy; cbn [cond_Zopp negb SFltb SFcompare];
            symmetry; first [apply Z.ltb_lt; lia | apply Z.ltb_ge; lia]).
  all: try (destruct sy; cbn [cond_Zopp negb SFltb SFcompare];
            symmetry; first [apply Z.ltb_lt; lia | apply Z.ltb_ge; lia]).
  pose proof (valid_finite _ _ _ Hvx) as [Hex _].
  pose proof (valid_finite _ _ _ Hvy) as [Hey _].
  set (ez := Z.min ey ex).
  set (M := cond_Zopp sy (Zpos (fst (shl_align my ey ez)))
            - cond_Zopp sx (Zpos (fst (shl_align mx ex ez)))).
  assert (HM : M * 2 ^ (ez + 1074)
               = cond_Zopp sy (Zpos my * 2 ^ (ey + 1074))
                 - cond_Zopp sx (Zpos mx * 2 ^ (ex + 1074))).
  { unfold M. rewrite !shl_align_fst by (unfold ez; lia).
    rewrite Z.mul_sub_distr_r, !cond_Zopp_mul, <- !Z.mul_assoc, <- !Z.pow_add_r
      by (unfold ez; lia).
    do 3 f_equal; f_equal; lia. }
  pose proof (pow2_pos (ez + 1074) ltac:(unfold ez; lia)) as Hpz.
  pose proof (binary_normalize_sign M ez ltac:(unfold ez; lia)) as Hn.
  clearbody M. set (kx := cond_Zopp sx (Zpos mx * 2 ^ (ex + 1074))) in *.
  set (ky := cond_Zopp sy (Zpos my * 2 ^ (ey + 1074))) in *.
  clearbody kx ky.
  destruct M as [|p|p].
  - rewrite Hn. cbn. symmetry. apply Z.ltb_ge. lia.
  - apply SFltb_zero_signed in Hn. destruct Hn as [_ ->]. symmetry. apply Z.ltb_ge. nia.
  - apply SFltb_zero_signed in Hn. destruct Hn as [_ ->]. symmetry. apply Z.ltb_lt. nia.
Qed.

Lemma sub_negative_key (x y : float) :
  is_nan x = false -> is_nan y = false ->
  (y - x <? 0)%float = (floatKey y <? floatKey x).
Proof.
  intros Hx Hy. apply not_nan_Prim2SF in Hx, Hy.
  rewrite ltb_spec, sub_spec.
  change (Prim2SF 0) with (S754_zero false).
  apply SFsub_negative; try apply Prim2SF_valid; assumption.
Qed.

Lemma is_nan_abs (x : float) : is_nan (abs x) = is_nan x.
Proof.
  destruct (is_nan x) eqn:E.
  - apply is_nan_Prim2SF in E. apply is_nan_Prim2SF. rewrite abs_spec, E. reflexivity.
  - apply not_nan_Prim2SF in E. apply not_nan_Prim2SF. rewrite abs_spec.
    destruct (Prim2SF x); cbn; congruence.
Qed.
End Binary64Signs.
(* ================================================================== *)
(** * RiskReturnView: the sortable table *)

Lemma Array_sort_sorted_id {A : Type} (compareFn : A -> A -> float) (l : list A) :
  StronglySorted (fun a b => (0 <? compareFn a b)%float = false) l ->
  Array_sort compareFn l = l.
Proof.
  induction 1 as [|x l Hl IH Hx]; [reflexivity|].
  cbn [Array_sort fold_right]. fold (Array_sort compareFn l). rewrite IH.
  destruct l as [|y l]; [reflexivity|].
  cbn [insert_sorted]. inversion Hx as [|? ? Hxy _]; subst. rewrite Hxy. reflexivity.
Qed.

Lemma StronglySorted_impl_In {A : Type} (R R' : A -> A -> Prop) (l : list A) :
  (forall a b, In a l -> In b l -> R a b -> R' a b) ->
  StronglySorted R l -> StronglySorted R' l.
Proof.
  intros Himpl Hs. induction Hs as [|x l Hl IH Hx]; constructor.
  - apply IH. intros a b Ha Hb. apply Himpl; right; assumption.
  - rewrite Forall_forall in Hx |- *. intros y Hy.
    apply Himpl; [left; reflexivity | right; exact Hy | apply Hx, Hy].
Qed.

Lemma risk_table_comparator (localeCompare : string -> string -> float)
      (field : RiskReturnTable.SortableStockField) (direction : RiskReturnTable.SortDirection)
      (a b : RiskReturnView.RiskReturnMetrics) :
  field <> RiskReturnTable.f_ticker -> field <> RiskReturnTable.f_sector ->
  is_nan (RiskReturnTable.numberOf field a) = false ->
  is_nan (RiskReturnTable.numberOf field b) = false ->
  let multiplier := match direction with
                    | RiskReturnTable.asc => 1%float
                    | RiskReturnTable.desc => (-1)%float
                    end in
  (0 <? match field with
        | RiskReturnTable.f_ticker =>
            localeCompare (RiskReturnView.ticker a) (RiskReturnView.ticker b) * multiplier
        | RiskReturnTable.f_sector =>
            localeCompare (RiskReturnView.sector a) (RiskReturnView.sector b) * multiplier
        | RiskReturnTable.f_beta =>
            (RiskReturnTable.numberOf RiskReturnTable.f_beta a
             - RiskReturnTable.numberOf RiskReturnTable.f_beta b) * multiplier
        | RiskReturnTable.f_annualReturn =>
            (RiskReturnTable.numberOf RiskReturnTable.f_annualReturn a
             - RiskReturnTable.numberOf RiskReturnTable.f_annualReturn b) * multiplier
        | RiskReturnTable.f_riskAdjustedReturn =>
            (RiskReturnTable.numberOf RiskReturnTable.f_riskAdjustedReturn a
             - RiskReturnTable.numberOf RiskReturnTable.f_riskAdjustedReturn b) * multiplier
        | RiskReturnTable.f_sharpeRatio =>
            (RiskReturnTable.numberOf RiskReturnTable.f_sharpeRatio a
             - RiskReturnTable.numberOf RiskReturnTable.f_sharpeRatio b) * multiplier
        end)%float
  = match direction with
    | RiskReturnTable.asc =>
        (floatKey (RiskReturnTable.numberOf field b) <? floatKey (RiskReturnTable.numberOf field a))%Z
    | RiskReturnTable.desc =>
        (floatKey (RiskReturnTable.numberOf field a) <? floatKey (RiskReturnTable.numberOf field b))%Z
    end.
Proof.
  intros Ht Hs Ha Hb multiplier. unfold multiplier.
  destruct field; try congruence; destruct direction;
    rewrite ?mul_one_positive, ?mul_minus_one_positive;
    first [apply sub_positive_key | apply sub_negative_key]; assumption.
Qed.

(** X20: RiskReturnView's table.  Sorting by a numeric column whose
    values are not NaN puts the rows in ascending order of the column for
    ['asc'] and in descending order for ['desc'], a null beta being
    ordered as 0.  With the initial state (Sharpe ratio, descending) the
    table shows the rows of [calculateRiskReturnMetrics] in the order
    they were computed in.  A click on another column selects it in
    descending order, and a second click on it turns the order to
    ascending. *)
Theorem X20_risk_table_sorting (localeCompare : string -> string -> float)
        (rows : list RiskReturnView.RiskReturnMetrics)
        (field : RiskReturnTable.SortableStockField) :
  field <> RiskReturnTable.f_ticker -> field <> RiskReturnTable.f_sector ->
  Forall (fun row => is_nan (RiskReturnTable.numberOf field row) = false) rows ->
  let sorted direction :=
    RiskReturnTable.sortedMetrics localeCompare rows
      {| RiskReturnTable.sortField := field; RiskReturnTable.sortDirection := direction |} in
  let value := RiskReturnTable.numberOf field in
  Permutation (sorted RiskReturnTable.asc) rows
  /\ Permutation (sorted RiskReturnTable.desc) rows
  /\ StronglySorted (fun a b => (value a <=? value b)%float = true) (sorted RiskReturnTable.asc)
  /\ StronglySorted (fun a b => (value b <=? value a)%float = true) (sorted RiskReturnTable.desc)
  /\ (forall stocks,
        rows = RiskReturnView.calculateRiskReturnMetrics stocks ->
        field = RiskReturnTable.f_sharpeRatio ->
        RiskReturnTable.sortedMetrics localeCompare rows RiskReturnTable.initialSort = rows)
  /\ (forall state,
        RiskReturnTable.sortField state <> field ->
        RiskReturnTable.handleSort state field
        = {| RiskReturnTable.sortField := field;
             RiskReturnTable.sortDirection := RiskReturnTable.desc |}
        /\ RiskReturnTable.handleSort (RiskReturnTable.handleSort state field) field
           = {| RiskReturnTable.sortField := field;
                RiskReturnTable.sortDirection := RiskReturnTable.asc |}).
Proof.
  intros Ht Hs Hnan sorted value. unfold sorted, RiskReturnTable.sortedMetrics.
  cbn [RiskReturnTable.sortField RiskReturnTable.sortDirection].
  unfold value. clear value sorted.
  assert (Hin : forall a, In a rows -> is_nan (RiskReturnTable.numberOf field a) = false)
    by (apply Forall_forall; exact Hnan).
  split; [apply Array_sort_perm|]. split; [apply Array_sort_perm|].
  split.
  { apply (Array_sort_sorted _ _ (fun a => In a rows)).
    - intros a b c Ha Hb Hc. rewrite !leb_key by (apply Hin; assumption).
      rewrite !Z.leb_le. lia.
    - intros a b Ha Hb.
      rewrite (risk_table_comparator localeCompare field RiskReturnTable.asc a b Ht Hs
                 (Hin a Ha) (Hin b Hb)).
      rewrite leb_key by (apply Hin; assumption). rewrite Z.ltb_ge, Z.leb_le. lia.
    - intros a b Ha Hb.
      rewrite (risk_table_comparator localeCompare field RiskReturnTable.asc a b Ht Hs
                 (Hin a Ha) (Hin b Hb)).
      rewrite leb_key by (apply Hin; assumption). rewrite Z.ltb_lt, Z.leb_le. lia.
    - apply Forall_forall. auto. }
  split.
  { apply (Array_sort_sorted _ _ (fun a => In a rows)).
    - intros a b c Ha Hb Hc. rewrite !leb_key by (apply Hin; assumption).
      rewrite !Z.leb_le. lia.
    - intros a b Ha Hb.
      rewrite (risk_table_comparator localeCompare field RiskReturnTable.desc a b Ht Hs
                 (Hin a Ha) (Hin b Hb)).
      rewrite leb_key by (apply Hin; assumption). rewrite Z.ltb_ge, Z.leb_le. lia.
    - intros a b Ha Hb.
      rewrite (risk_table_comparator localeCompare field RiskReturnTable.desc a b Ht Hs
                 (Hin a Ha) (Hin b Hb)).
      rewrite leb_key by (apply Hin; assumption). rewrite Z.ltb_lt, Z.leb_le. lia.
    - apply Forall_forall. auto. }
  split.
  { intros stocks Hrows Hfield. subst field.
    apply Array_sort_sorted_id.
    cbn [RiskReturnTable.initialSort RiskReturnTable.sortField RiskReturnTable.sortDirection].
    assert (Hdesc : StronglySorted
                      (fun a b => (RiskReturnView.sharpeRatio b
                                   <=? RiskReturnView.sharpeRatio a)%float = true) rows).
    { rewrite Hrows. unfold RiskReturnView.calculateRiskReturnMetrics.
      apply (Array_sort_descending RiskReturnView.sharpeRatio).
      apply (Permutation_Forall (Array_sort_perm RiskReturnView.bySharpeDesc _)).
      rewrite Hrows in Hnan. exact Hnan. }
    revert Hdesc. apply StronglySorted_impl_In. intros a b Ha Hb Hle.
    rewrite (risk_table_comparator localeCompare RiskReturnTable.f_sharpeRatio
               RiskReturnTable.desc a b Ht Hs (Hin a Ha) (Hin b Hb)).
    rewrite leb_key in Hle by (apply Hin; assumption).
    apply Z.leb_le in Hle. apply Z.ltb_ge. exact Hle. }
  intros state Hother. unfold RiskReturnTable.handleSort.
  assert (Hne : RiskReturnTable.field_eqb (RiskReturnTable.sortField state) field = false)
    by (destruct (RiskReturnTable.sortField state), field; try reflexivity; congruence).
  rewrite Hne. cbn [RiskReturnTable.sortField RiskReturnTable.sortDirection].
  split; [reflexivity|].
  destruct field; reflexivity.
Qed.

Lemma X20_risk_table_sorting_witness :
  map RiskReturnView.ticker
      (RiskReturnTable.sortedMetrics (fun _ _ => 0%float)
         (RiskReturnView.calculateRiskReturnMetrics unevenReturns)
         {| RiskReturnTable.sortField := RiskReturnTable.f_annualReturn;
            RiskReturnTable.sortDirection := RiskReturnTable.asc |})
  = ["SLOW"; "FAST"]%string
  /\ StronglySorted
       (fun a b => (RiskReturnTable.numberOf RiskReturnTable.f_annualReturn a
                    <=? RiskReturnTable.numberOf RiskReturnTable.f_annualReturn b)%float = true)
       (RiskReturnTable.sortedMetrics (fun _ _ => 0%float)
          (RiskReturnView.calculateRiskReturnMetrics unevenReturns)
          {| RiskReturnTable.sortField := RiskReturnTable.f_annualReturn;
             RiskReturnTable.sortDirection := RiskReturnTable.asc |}).
Proof.
  split; [vm_compute; reflexivity|].
  apply (X20_risk_table_sorting (fun _ _ => 0%float)
           (RiskReturnView.calculateRiskReturnMetrics unevenReturns)
           RiskReturnTable.f_annualReturn);
    [discriminate | discriminate | vm_compute; repeat constructor].
Defined.
(* ================================================================== *)
(** * app/api/stocks: gainers and losers *)

Lemma StronglySorted_filter {A : Type} (R : A -> A -> Prop) (p : A -> bool) (l : list A) :
  StronglySorted R l -> StronglySorted R (filter p l).
Proof.
  induction 1 as [|x l Hl IH Hx]; cbn [filter]; [constructor|].
  destruct (p x); [|exact IH]. constructor; [exact IH|].
  rewrite Forall_forall in Hx |- *. intros y Hy. apply Hx. apply filter_In in Hy. tauto.
Qed.

Lemma StronglySorted_firstn {A : Type} (R : A -> A -> Prop) (n : nat) (l : list A) :
  StronglySorted R l -> StronglySorted R (firstn n l).
Proof.
  intros Hs. revert n. induction Hs as [|x l Hl IH Hx]; intros n.
  - rewrite firstn_nil. constructor.
  - destruct n as [|n]; cbn [firstn]; constructor; [apply IH|].
    rewrite Forall_forall in Hx |- *. intros y Hy. apply Hx.
    rewrite <- (firstn_skipn n l). apply in_or_app. left. exact Hy.
Qed.

Lemma StronglySorted_app_inv {A : Type} (R : A -> A -> Prop) (l1 l2 : list A) :
  StronglySorted R (l1 ++ l2) -> forall a b, In a l1 -> In b l2 -> R a b.
Proof.
  induction l1 as [|x l1 IH]; intros Hs a b Ha Hb; [destruct Ha|].
  cbn [app] in Hs. inversion Hs as [|? ? Hrest Hx]; subst.
  destruct Ha as [<-|Ha].
  - rewrite Forall_forall in Hx. apply Hx, in_or_app. right. exact Hb.
  - apply IH; assumption.
Qed.

Section RouteFacts.
Variable toFixed : float -> nat -> string.
Variable parseFloat : string -> float.

Lemma processStockData_sorted (stocksArray : list stocksRoute.RawStockData) :
  let magnitude stock := abs (parseFloat (stocksRoute.change stock)) in
  StronglySorted (fun a b => (magnitude b <=? magnitude a)%float = true)
    (Array_sort (stocksRoute.byAbsChangeDesc parseFloat)
       (filter (stocksRoute.isComplete parseFloat)
          (map (stocksRoute.toProcessed toFixed parseFloat) stocksArray))).
Proof.
  intros magnitude. apply (Array_sort_descending magnitude).
  apply Forall_forall. intros stock Hin. apply filter_In in Hin. destruct Hin as [_ Hc].
  unfold stocksRoute.isComplete in Hc. rewrite !andb_true_iff, !negb_true_iff in Hc.
  unfold magnitude. rewrite is_nan_abs. tauto.
Qed.
End RouteFacts.

(** X21: [processStockData] returns at most 20 gainers and at most 20
    losers; every gainer has a weekly change above 0 and every loser one
    below 0, so no row is in both lists and a row with a change of 0 is
    in neither; each list is in descending order of the magnitude of the
    change; and a gainer (loser) that is left out does not change by
    more than any that is listed. *)
Theorem X21_gainers_and_losers (toFixed : float -> nat -> string)
        (parseFloat : string -> float) (backendResponse : stocksRoute.BackendResponse) :
  let result := stocksRoute.processStockData toFixed parseFloat backendResponse in
  let changeOf stock := parseFloat (stocksRoute.change stock) in
  let candidates :=
    match stocksRoute.data backendResponse with
    | Some stocksArray =>
        filter (stocksRoute.isComplete parseFloat)
               (map (stocksRoute.toProcessed toFixed parseFloat) stocksArray)
    | None => []
    end in
  stocksRoute.timestamp result = stocksRoute.last_updated backendResponse
  /\ length (stocksRoute.gainers result) <= 20
  /\ length (stocksRoute.losers result) <= 20
  /\ (forall stock, In stock (stocksRoute.gainers result) ->
        In stock candidates /\ (0 <? changeOf stock)%float = true)
  /\ (forall stock, In stock (stocksRoute.losers result) ->
        In stock candidates /\ (changeOf stock <? 0)%float = true)
  /\ (forall stock, In stock (stocksRoute.gainers result) ->
        ~ In stock (stocksRoute.losers result))
  /\ StronglySorted (fun a b => (abs (changeOf b) <=? abs (changeOf a))%float = true)
       (stocksRoute.gainers result)
  /\ StronglySorted (fun a b => (abs (changeOf b) <=? abs (changeOf a))%float = true)
       (stocksRoute.losers result)
  /\ (forall listed other,
        In listed (stocksRoute.gainers result) ->
        In other candidates -> (0 <? changeOf other)%float = true ->
        ~ In other (stocksRoute.gainers result) ->
        (abs (changeOf other) <=? abs (changeOf listed))%float = true)
  /\ (forall listed other,
        In listed (stocksRoute.losers result) ->
        In other candidates -> (changeOf other <? 0)%float = true ->
        ~ In other (stocksRoute.losers result) ->
        (abs (changeOf other) <=? abs (changeOf listed))%float = true).
Proof.
  intros result changeOf candidates.
  assert (Hshape :
            exists sorted,
              Permutation sorted candidates
              /\ StronglySorted
                   (fun a b => (abs (changeOf b) <=? abs (changeOf a))%float = true) sorted
              /\ result
                 = {| stocksRoute.gainers :=
                        firstn 20 (filter (fun stock => (0 <? changeOf stock)%float) sorted);
                      stocksRoute.losers :=
                        firstn 20 (filter (fun stock => (changeOf stock <? 0)%float) sorted);
                      stocksRoute.timestamp := stocksRoute.last_updated backendResponse |}).
  { unfold result, candidates, stocksRoute.processStockData.
    destruct (stocksRoute.data backendResponse) as [[|x stocksArray]|].
    - exists []. repeat split; constructor.
    - eexists. split; [apply Array_sort_perm|].
      split; [apply (processStockData_sorted toFixed parseFloat (x :: stocksArray))|].
      reflexivity.
    - exists []. repeat split; constructor. }
  destruct Hshape as [sorted [Hperm [Hsorted ->]]].
  cbn [stocksRoute.gainers stocksRoute.losers stocksRoute.timestamp].
  set (gain := fun stock => (0 <? changeOf stock)%float).
  set (loss := fun stock => (changeOf stock <? 0)%float).
  assert (Hfirst : forall (p : stocksRoute.ProcessedStockData -> bool) stock,
             In stock (firstn 20 (filter p sorted)) ->
             In stock candidates /\ p stock = true).
  { intros p stock Hin.
    assert (Hf : In stock (filter p sorted)).
    { rewrite <- (firstn_skipn 20 (filter p sorted)). apply in_or_app. left. exact Hin. }
    apply filter_In in Hf. destruct Hf as [Hs Hp].
    split; [apply (Permutation_in _ Hperm), Hs | exact Hp]. }
  assert (Hrest : forall (p : stocksRoute.ProcessedStockData -> bool) listed other,
             In listed (firstn 20 (filter p sorted)) ->
             In other candidates -> p other = true ->
             ~ In other (firstn 20 (filter p sorted)) ->
             (abs (changeOf other) <=? abs (changeOf listed))%float = true).
  { intros p listed other Hlisted Hother Hp Hout.
    assert (Hf : In other (filter p sorted)).
    { apply filter_In. split; [apply (Permutation_in _ (Permutation_sym Hperm)), Hother | exact Hp]. }
    rewrite <- (firstn_skipn 20 (filter p sorted)) in Hf.
    apply in_app_or in Hf. destruct Hf as [Hf|Hf]; [contradiction|].
    apply (StronglySorted_app_inv
             (fun a b => (abs (changeOf b) <=? abs (changeOf a))%float = true)
             (firstn 20 (filter p sorted)) (skipn 20 (filter p sorted)));
      [|exact Hlisted | exact Hf].
    rewrite firstn_skipn. apply StronglySorted_filter, Hsorted. }
  split; [reflexivity|].
  split; [apply firstn_le_length|]. split; [apply firstn_le_length|].
  split; [apply (Hfirst gain)|]. split; [apply (Hfirst loss)|].
  split.
  { intros stock Hg Hl. apply (Hfirst gain) in Hg. apply (Hfirst loss) in Hl.
    destruct Hg as [_ Hg], Hl as [_ Hl]. unfold gain, loss in Hg, Hl.
    pose proof (ltb_not_nan _ _ Hg) as [_ Hn].
    rewrite ltb_key in Hg, Hl by (try exact Hn; reflexivity).
    apply Z.ltb_lt in Hg, Hl. lia. }
  split; [apply StronglySorted_firstn, StronglySorted_filter, Hsorted|].
  split; [apply StronglySorted_firstn, StronglySorted_filter, Hsorted|].
  split; [apply (Hrest gain) | apply (Hrest loss)].
Qed.
(* ================================================================== *)
(** * The dashboard's filters *)

Lemma Object_spread_get {V : Type} (prev next : entries V) (k : string) :
  NoDup (map fst next) ->
  obj_get (Object_spread prev next) k =
  match obj_get next k with
  | Some v => Some v
  | None => obj_get prev k
  end.
Proof.
  unfold Object_spread. revert prev.
  induction next as [|[k0 v0] rest IH]; intros prev Hnd; [reflexivity|].
  inversion Hnd as [|? ? Hnotin Hnd']; subst.
  cbn [fold_left fst snd obj_get]. rewrite (IH _ Hnd').
  destruct (String.eqb k0 k) eqn:E.
  - apply String.eqb_eq in E. subst k0.
    apply obj_get_None in Hnotin. rewrite Hnotin. apply obj_get_set_same.
  - apply String.eqb_neq in E.
    destruct (obj_get rest k); [reflexivity | apply obj_get_set_other, E].
Qed.

Lemma activeFilters_NoDup (l : entries string) (acc : entries string) :
  NoDup (map fst acc) ->
  NoDup (map fst (fold_left
                    (fun activeFilters entry =>
                       if truthy_string (snd entry)
                       then obj_set activeFilters (fst entry) (snd entry)
                       else activeFilters) l acc)).
Proof.
  revert acc. induction l as [|[k v] l IH]; intros acc Hacc; [exact Hacc|].
  cbn [fold_left fst snd]. apply IH.
  destruct (truthy_string v); [apply obj_set_NoDup|]; exact Hacc.
Qed.

Lemma activeFilters_get (l : entries string) (acc : entries string) (k : string) :
  NoDup (map fst l) ->
  obj_get (fold_left
             (fun activeFilters entry =>
                if truthy_string (snd entry)
                then obj_set activeFilters (fst entry) (snd entry)
                else activeFilters) l acc) k =
  match obj_get l k with
  | Some v => if truthy_string v then Some v else obj_get acc k
  | None => obj_get acc k
  end.
Proof.
  revert acc. induction l as [|[k0 v0] l IH]; intros acc Hnd; [reflexivity|].
  inversion Hnd as [|? ? Hnotin Hnd']; subst.
  cbn [fold_left fst snd obj_get]. rewrite (IH _ Hnd').
  destruct (String.eqb k0 k) eqn:E.
  - apply String.eqb_eq in E. subst k0.
    apply obj_get_None in Hnotin. rewrite Hnotin.
    destruct (truthy_string v0); [apply obj_get_set_same | reflexivity].
  - apply String.eqb_neq in E.
    destruct (obj_get l k) as [v|]; [destruct (truthy_string v); [reflexivity|]|];
      (destruct (truthy_string v0); [apply obj_get_set_other, E | reflexivity]).
Qed.

Lemma Object_entries_NoDup (form : TableFilters.FilterState) :
  NoDup (map fst (TableFilters.Object_entries form)).
Proof.
  cbn. repeat constructor; cbn; intuition discriminate.
Qed.

(** X22: applying the filter form merges its non-empty fields into the
    page's filters and returns to page 1: a field that holds text
    replaces the filter of that key, and a field left blank leaves the
    filter the page already had for that key in force.  So a filter that
    was applied stays active after its input is emptied and the form is
    applied again; only [handleResetFilters] removes it. *)
Theorem X22_dashboard_filters_accumulate (state : DashboardPage.State)
        (form : TableFilters.FilterState) (key : string) :
  let applied := DashboardPage.handleFilter (TableFilters.handleApplyFilters form) state in
  obj_get (DashboardPage.filters applied) key
  = match obj_get (TableFilters.Object_entries form) key with
    | Some text =>
        if truthy_string text then Some text else obj_get (DashboardPage.filters state) key
    | None => obj_get (DashboardPage.filters state) key
    end
  /\ DashboardPage.currentPage applied = 1
  /\ (forall earlier text,
        obj_get (TableFilters.Object_entries earlier) key = Some text ->
        truthy_string text = true ->
        obj_get (TableFilters.Object_entries form) key = Some ""%string ->
        obj_get (DashboardPage.filters
                   (DashboardPage.handleFilter (TableFilters.handleApplyFilters form)
                      (DashboardPage.handleFilter (TableFilters.handleApplyFilters earlier)
                         state))) key
        = Some text)
  /\ obj_get (DashboardPage.filters (DashboardPage.handleResetFilters applied)) key = None.
Proof.
  intros applied.
  assert (Hget : forall st f,
             obj_get (DashboardPage.filters
                        (DashboardPage.handleFilter (TableFilters.handleApplyFilters f) st)) key
             = match obj_get (TableFilters.Object_entries f) key with
               | Some text =>
                   if truthy_string text then Some text
                   else obj_get (DashboardPage.filters st) key
               | None => obj_get (DashboardPage.filters st) key
               end).
  { intros st f. cbn [DashboardPage.handleFilter DashboardPage.filters].
    unfold TableFilters.handleApplyFilters.
    rewrite Object_spread_get by (apply activeFilters_NoDup; constructor).
    rewrite activeFilters_get by apply Object_entries_NoDup.
    destruct (obj_get (TableFilters.Object_entries f) key) as [text|]; [|reflexivity].
    destruct (truthy_string text); reflexivity. }
  split; [apply Hget|]. split; [reflexivity|].
  split; [|reflexivity].
  intros earlier text Hearlier Htext Hblank.
  rewrite Hget, Hblank. cbn [truthy_string String.eqb negb].
  rewrite Hget, Hearlier, Htext. reflexivity.
Qed.
(* ================================================================== *)
(** * CorrelationClusteringView: what a cluster holds *)

Lemma groupsOf_In {A : Type} (fuel n : nat) (l g : list A) :
  In g (groupsOf fuel n l) -> length g <= n /\ incl g l.
Proof.
  revert l. induction fuel as [|fuel IH]; intros l Hin; [destruct Hin|].
  destruct l as [|x l]; [destruct Hin|].
  cbn [groupsOf] in Hin. destruct Hin as [<-|Hin].
  - split; [rewrite length_firstn; lia|].
    intros y Hy. rewrite <- (firstn_skipn n (x :: l)). apply in_or_app. left. exact Hy.
  - destruct (IH _ Hin) as [Hlen Hincl]. split; [exact Hlen|].
    intros y Hy. rewrite <- (firstn_skipn n (x :: l)). apply in_or_app. right.
    apply Hincl, Hy.
Qed.

Lemma NoDup_app_inv {A : Type} (l l' : list A) :
  NoDup (l ++ l') -> NoDup l /\ NoDup l' /\ forall a, In a l -> ~ In a l'.
Proof.
  induction l as [|x l IH]; cbn [app]; intros Hnd.
  - split; [constructor|]. split; [exact Hnd | intros a []].
  - inversion Hnd as [|? ? Hnotin Hnd']; subst.
    destruct (IH Hnd') as [Hl [Hl' Hdis]].
    split; [constructor; [intros Hin; apply Hnotin, in_or_app; left; exact Hin | exact Hl]|].
    split; [exact Hl'|].
    intros a [<-|Ha]; [intros Hin; apply Hnotin, in_or_app; right; exact Hin | apply Hdis, Ha].
Qed.

Lemma NoDup_concat_filter {A : Type} (p : list A -> bool) (groups : list (list A)) :
  NoDup (concat groups) -> NoDup (concat (filter p groups)).
Proof.
  induction groups as [|g groups IH]; cbn [concat filter]; intros Hnd; [constructor|].
  destruct (NoDup_app_inv _ _ Hnd) as [Hg [Hrest Hdis]].
  destruct (p g); [|apply IH, Hrest].
  cbn [concat]. apply NoDup_app; [exact Hg | apply IH, Hrest |].
  intros a Ha Hin. apply (Hdis a Ha).
  apply in_concat in Hin. destruct Hin as [g' [Hg' Ha']].
  apply in_concat. exists g'. apply filter_In in Hg'. tauto.
Qed.

(** The records of one sector keep the distinct tickers of the batch. *)
Lemma membersOf_tickers_distinct (s : string) (stocks : list S.StockData) :
  NoDup (map S.ticker stocks) -> NoDup (map S.ticker (membersOf s stocks)).
Proof.
  unfold membersOf. induction stocks as [|stock rest IH]; intros Hdistinct; [constructor|].
  cbn [map filter] in Hdistinct |- *.
  inversion Hdistinct as [|? ? Hfresh Hrest]; subst.
  destruct (String.eqb (S.sector stock) s); [|apply IH, Hrest].
  cbn [map]. constructor; [|apply IH, Hrest].
  intros Hin. apply Hfresh. apply in_map_iff in Hin. destruct Hin as [other [Hticker Hin]].
  apply in_map_iff. exists other. apply filter_In in Hin. tauto.
Qed.

Lemma NoDup_map_injective {A B : Type} (f : A -> B) (l : list A) (a b : A) :
  NoDup (map f l) -> In a l -> In b l -> f a = f b -> a = b.
Proof.
  induction l as [|x l IH]; cbn [map]; intros Hnd Ha Hb Hf; [destruct Ha|].
  inversion Hnd as [|? ? Hnotin Hnd']; subst.
  destruct Ha as [<-|Ha], Hb as [<-|Hb]; auto.
  - exfalso. apply Hnotin. rewrite Hf. apply in_map, Hb.
  - exfalso. apply Hnotin. rewrite <- Hf. apply in_map, Ha.
Qed.

Lemma Permutation_concat {A : Type} (l l' : list (list A)) :
  Permutation l l' -> Permutation (concat l) (concat l').
Proof.
  induction 1 as [|x l l' _ IH|x y l|l l' l'' _ IH1 _ IH2]; cbn [concat].
  - constructor.
  - apply Permutation_app_head, IH.
  - rewrite !app_assoc. apply Permutation_app_tail, Permutation_app_comm.
  - eapply Permutation_trans; eassumption.
Qed.

Lemma concat_map_flat_map {A B C : Type} (f : B -> list C) (g : A -> list B) (l : list A) :
  concat (map f (flat_map g l)) = flat_map (fun x => concat (map f (g x))) l.
Proof.
  induction l as [|x l IH]; [reflexivity|].
  cbn [flat_map]. rewrite map_app, concat_app, IH. reflexivity.
Qed.

Lemma NoDup_flat_map_keys {K V B : Type} (T : K * V -> list B) (l : list (K * V)) :
  NoDup (map fst l) ->
  (forall e, In e l -> NoDup (T e)) ->
  (forall e1 e2 t, In e1 l -> In e2 l -> In t (T e1) -> In t (T e2) -> fst e1 = fst e2) ->
  NoDup (flat_map T l).
Proof.
  induction l as [|e l IH]; intros Hkeys Heach Hdis; [constructor|].
  inversion Hkeys as [|? ? Hnotin Hkeys']; subst.
  cbn [flat_map]. apply NoDup_app.
  - apply Heach. left. reflexivity.
  - apply IH; [exact Hkeys' | intros e' He'; apply Heach; right; exact He' |].
    intros e1 e2 t H1 H2. apply Hdis; right; assumption.
  - intros t Ht Hin. apply in_flat_map in Hin. destruct Hin as [e' [He' Ht']].
    apply Hnotin. rewrite (Hdis e e' t); [apply in_map, He' | left; reflexivity
                                         | right; exact He' | exact Ht | exact Ht'].
Qed.

Lemma stocksBySector_entry (stocks : list S.StockData) (groups : entries (list S.StockData))
      (s : string) (members : list S.StockData) :
  CorrelationClusteringView.stocksBySector stocks = Some groups ->
  In (s, members) groups ->
  members = membersOf s stocks.
Proof.
  intros Hg Hin. apply In_obj_get in Hin; [|apply (stocksBySector_NoDup _ _ Hg)].
  rewrite (stocksBySector_get _ _ s Hg) in Hin.
  destruct (membersOf s stocks); [discriminate | congruence].
Qed.

Lemma sectorClusters_tickers (s : string) (members : list S.StockData) :
  concat (map CorrelationClusteringView.stocks
              (CorrelationClusteringView.sectorClusters (s, members)))
  = map S.ticker (concat (keptGroups (consecutiveGroups 5 members))).
Proof.
  rewrite sectorClusters_groups, concat_map. reflexivity.
Qed.

(** X23: every cluster of [calculateCorrelationClusters] holds between 2
    and 5 tickers, each the ticker of a record of the batch in the
    cluster's sector; and when the tickers of the batch are distinct, no
    ticker is placed in two clusters or twice in one. *)
Theorem X23_clusters_hold_two_to_five (stocks : list S.StockData) :
  let clusters := returned (CorrelationClusteringView.calculateCorrelationClusters stocks) in
  (forall cluster, In cluster clusters ->
     2 <= length (CorrelationClusteringView.stocks cluster) <= 5
     /\ forall ticker, In ticker (CorrelationClusteringView.stocks cluster) ->
          exists stock, In stock stocks
                        /\ S.ticker stock = ticker
                        /\ S.sector stock = CorrelationClusteringView.sector cluster)
  /\ (NoDup (map S.ticker stocks) ->
      NoDup (concat (map CorrelationClusteringView.stocks clusters))).
Proof.
  destruct (CorrelationClusteringView.calculateCorrelationClusters stocks) as [clusters|] eqn:Hret;
    cbn [returned]; cbv zeta; [|split; [intros cluster [] | intros _; constructor]].
  split.
  - intros cluster Hin.
    set (s := CorrelationClusteringView.sector cluster).
    assert (Hc : In (CorrelationClusteringView.stocks cluster)
                    (map CorrelationClusteringView.stocks (clustersOf s clusters))).
    { apply in_map, filter_In. split; [exact Hin | apply String.eqb_refl]. }
    apply (Permutation_in _ (clustersOf_groups s stocks clusters Hret)) in Hc.
    apply in_map_iff in Hc. destruct Hc as [g [Hg Hkept]]. rewrite <- Hg.
    apply filter_In in Hkept. destruct Hkept as [Hgroup Hsize].
    apply Nat.leb_le in Hsize. apply groupsOf_In in Hgroup. destruct Hgroup as [Hmax Hincl].
    rewrite length_map. split; [lia|].
    intros ticker Ht. apply in_map_iff in Ht. destruct Ht as [stock [<- Hstock]].
    apply Hincl, filter_In in Hstock. destruct Hstock as [Hs Hsec].
    exists stock. apply String.eqb_eq in Hsec. auto.
  - intros Hdistinct.
    unfold CorrelationClusteringView.calculateCorrelationClusters in Hret.
    destruct (CorrelationClusteringView.stocksBySector stocks) as [groups|] eqn:Hg;
      [|discriminate].
    injection Hret as <-.
    apply (Permutation_NoDup
             (Permutation_sym
                (Permutation_concat _ _
                   (Permutation_map CorrelationClusteringView.stocks
                      (Array_sort_perm CorrelationClusteringView.byAvgCorrelationDesc _))))).
    rewrite concat_map_flat_map.
    assert (Hentry : forall s members,
               In (s, members) (Object_entries groups) -> members = membersOf s stocks).
    { intros s members He. apply (stocksBySector_entry _ _ _ _ Hg).
      apply (Permutation_in _ (Object_entries_perm groups)), He. }
    assert (Hinside : forall e ticker,
               In e (Object_entries groups) ->
               In ticker (concat (map CorrelationClusteringView.stocks
                                      (CorrelationClusteringView.sectorClusters e))) ->
               exists stock, In stock stocks /\ S.ticker stock = ticker
                             /\ S.sector stock = fst e).
    { intros [s members] ticker He Ht. rewrite sectorClusters_tickers in Ht.
      apply in_map_iff in Ht. destruct Ht as [stock [<- Hstock]].
      apply in_concat in Hstock. destruct Hstock as [g [Hg' Hstock]].
      apply filter_In in Hg'. destruct Hg' as [Hg' _]. apply groupsOf_In in Hg'.
      destruct Hg' as [_ Hincl]. apply Hincl in Hstock.
      rewrite (Hentry _ _ He) in Hstock.
      apply filter_In in Hstock. destruct Hstock as [Hs Hsec].
      exists stock. apply String.eqb_eq in Hsec. auto. }
    apply NoDup_flat_map_keys.
    + apply Object_entries_distinct, (stocksBySector_NoDup _ _ Hg).
    + intros [s members] He. rewrite sectorClusters_tickers.
      rewrite concat_map.
      replace (map (map S.ticker) (keptGroups (consecutiveGroups 5 members)))
        with (filter (fun g => Nat.leb 2 (length g))
                     (map (map S.ticker) (consecutiveGroups 5 members))).
      * apply NoDup_concat_filter. rewrite <- concat_map.
        unfold consecutiveGroups. rewrite groupsOf_concat by lia.
        rewrite (Hentry _ _ He). apply membersOf_tickers_distinct, Hdistinct.
      * unfold keptGroups. rewrite filter_map_comm. f_equal.
        apply filter_ext. intros g. rewrite length_map. reflexivity.
    + intros e1 e2 ticker He1 He2 H1 H2.
      destruct (Hinside e1 ticker He1 H1) as [a [Ha [Hta Hsa]]].
      destruct (Hinside e2 ticker He2 H2) as [b [Hb [Htb Hsb]]].
      assert (a = b) by (apply (NoDup_map_injective S.ticker stocks); congruence).
      congruence.
Qed.

(* ================================================================== *)
(** * binary64: dividing by 1 *)

Section Binary64DivOne.
Local Open Scope Z_scope.

Lemma div_eucl_mul (a b : Z) : 0 < b -> Z.div_eucl (a * b) b = (a, 0).
Proof.
  intros Hb.
  pose proof (Z.div_mul a b ltac:(lia)) as Hq.
  pose proof (Z.mod_mul a b ltac:(lia)) as Hr.
  unfold Z.div, Z.modulo in Hq, Hr.
  destruct (Z.div_eucl (a * b) b) as [q r]. congruence.
Qed.

(** Dividing by 1 is exact. *)
Lemma SFdiv_one (x : spec_float) :
  valid_binary x = true ->
  SF64div x (S754_finite false 4503599627370496 (-52)) = x.
Proof.
  intros Hv. destruct x as [s|s| |s m e]; unfold SF64div; cbn [SFdiv];
    rewrite ?xorb_false_r; try reflexivity.
  apply valid_finite in Hv. destruct Hv as [He [Hd Hnormal]].
  assert (Hfexp : forall k, fexp prec emax k = Z.max (k - 53) (-1074)) by reflexivity.
  pose proof (Zdigits2_ge m 0 ltac:(lia) ltac:(simpl; lia)) as Hd1.
  unfold SFdiv_core_binary.
  change (Zdigits2 4503599627370496) with 53.
  change (IntDef.Z.min) with Z.min.
  change (IntDef.Z.div_eucl) with Z.div_eucl.
  change (IntDef.Z.shiftl) with Z.shiftl.
  rewrite Hfexp.
  destruct (Z.eq_dec e (-1074)) as [Hsub|Hnorm].
  - subst e.
    replace (Z.min (Z.max (Zdigits2 (Zpos m) + -1074 - (53 + -52) - 53) (-1074)) (-1074 - -52))
      with (-1074) by lia.
    change (-1074 - -52 - -1074) with 52. cbv iota.
    rewrite Z.shiftl_mul_pow2 by lia. change (2 ^ 52) with 4503599627370496.
    rewrite div_eucl_mul by lia.
    change (new_location 4503599627370496 0) with loc_Exact.
    unfold binary_round_aux, shr_fexp. rewrite Hfexp.
    replace (Z.max (Zdigits2 (Zpos m) + -1074 - 53) (-1074) - -1074) with 0 by lia.
    cbn [shr shr_record_of_loc shr_m loc_of_shr_record round_nearest_even].
    rewrite Hfexp.
    replace (Z.max (Zdigits2 (Zpos m) + -1074 - 53) (-1074) - -1074) with 0 by lia.
    cbn [shr shr_record_of_loc shr_m]. reflexivity.
  - assert (H53 : Zdigits2 (Zpos m) = 53) by (apply Hnormal; lia).
    rewrite H53.
    replace (Z.min (Z.max (53 + e - (53 + -52) - 53) (-1074)) (e - -52)) with (e - 1) by lia.
    replace (e - -52 - (e - 1)) with 53 by lia. cbv iota.
    rewrite Z.shiftl_mul_pow2 by lia.
    replace (Zpos m * 2 ^ 53) with (Zpos m~0 * 4503599627370496)
      by (change (2 ^ 53) with (2 * 4503599627370496); lia).
    rewrite div_eucl_mul by lia.
    change (new_location 4503599627370496 0) with loc_Exact.
    unfold binary_round_aux, shr_fexp. rewrite Hfexp.
    assert (H54 : Zdigits2 (Zpos m~0) = 54).
    { change (Zdigits2 (Zpos m~0)) with (Z.succ (Zdigits2 (Zpos m))) || idtac.
      unfold Zdigits2 in *. cbn [digits2_pos]. lia. }
    rewrite H54.
    replace (Z.max (54 + (e - 1) - 53) (-1074) - (e - 1)) with 1 by lia.
    cbn [shr iter_pos shr_1 shr_record_of_loc shr_m shr_r shr_s orb
         loc_of_shr_record round_nearest_even].
    rewrite Hfexp, H53.
    replace (e - 1 + 1) with e by lia.
    replace (Z.max (53 + e - 53) (-1074) - e) with 0 by lia.
    cbn [shr shr_record_of_loc shr_m].
    replace (e <=? emax - prec) with true; [reflexivity|].
    symmetry. apply Z.leb_le. change (emax - prec) with 971. lia.
Qed.
End Binary64DivOne.

Lemma div_one (x : float) : (x / 1)%float = x.
Proof.
  apply Prim2SF_inj. rewrite div_spec.
  change (Prim2SF 1) with (S754_finite false 4503599627370496 (-52)).
  apply SFdiv_one, Prim2SF_valid.
Qed.
(* ================================================================== *)
(** * financialMetrics: the Sharpe ratio of a single return *)

Lemma div_by_nan (x : float) : (x / nan)%float = nan.
Proof.
  apply Prim2SF_inj. rewrite div_spec. change (Prim2SF nan) with S754_nan.
  destruct (Prim2SF x); reflexivity.
Qed.

(** The variance of a single excess return is [0 / 0]. *)
Lemma single_variance (e : float) :
  ((0 + (e - (0 + e)) * (e - (0 + e))) / 0)%float = nan.
Proof.
  apply Prim2SF_inj.
  rewrite div_spec, add_spec, mul_spec, sub_spec, add_spec.
  change (Prim2SF 0) with (S754_zero false). change (Prim2SF nan) with S754_nan.
  pose proof (SFsub_self (Prim2SF e)) as Hself.
  destruct (Prim2SF e) as [s|s| |s m ex].
  - destruct s; reflexivity.
  - destruct s; reflexivity.
  - reflexivity.
  - cbn [SF64add SFadd]. rewrite Hself. reflexivity.
Qed.

(** X24: on binary64 [computeSharpeRatio] of a single return is never
    the undefined sentinel: whatever the return and the risk-free rate,
    the sample variance is [0 / 0] and the function returns NaN. *)
Theorem X24_sharpe_of_one_return_is_nan (r riskFreeRate : float) :
  computeSharpeRatio [r] riskFreeRate = Some nan.
Proof.
  unfold computeSharpeRatio, reduce, Math_pow2.
  cbn [length Nat.eqb map reduce_from nadd nsub nmul ndiv nsqrt nltb num_of_nat num_dec F64].
  change (float_of_nat 1) with 1%float. change (float_of_nat 0) with 0%float.
  change (1 - 1)%float with 0%float.
  set (e := (r - riskFreeRate / float_of_nat 12)%float).
  rewrite div_one, single_variance.
  change (PrimFloat.sqrt nan) with nan.
  change (nan <? float_of_Z 1 / float_of_nat (10 ^ 4))%float with false. cbv iota.
  rewrite div_by_nan. reflexivity.
Qed.

(* ================================================================== *)
(** * CorrelationClusteringView: grouping loses and repeats no record *)

Lemma obj_set_values_append {V : Type} (o : entries (list V)) (k : string) (x : V) :
  Permutation
    (concat (map snd (obj_set o k (match obj_get o k with
                                   | Some members => members ++ [x]
                                   | None => [x]
                                   end))))
    (concat (map snd o) ++ [x]).
Proof.
  induction o as [|[k0 v0] rest IH]; cbn [obj_get obj_set map snd concat].
  - apply Permutation_refl.
  - destruct (String.eqb k0 k) eqn:E; cbn [map snd concat].
    + rewrite <- !app_assoc. apply Permutation_app_head, Permutation_app_comm.
    + rewrite <- app_assoc. apply Permutation_app_head, IH.
Qed.

Lemma groupFrom_values (l : list S.StockData) (acc groups : entries (list S.StockData)) :
  CorrelationClusteringView.groupFrom acc l = Some groups ->
  Permutation (concat (map snd groups)) (concat (map snd acc) ++ l).
Proof.
  revert acc. induction l as [|x l IH]; intros acc Hg;
    cbn [CorrelationClusteringView.groupFrom] in Hg.
  - injection Hg as <-. rewrite app_nil_r. apply Permutation_refl.
  - destruct (CorrelationClusteringView.groupStep acc x) as [acc'|] eqn:Hstep; [|discriminate].
    eapply Permutation_trans; [apply (IH _ Hg)|].
    replace (concat (map snd acc) ++ x :: l) with ((concat (map snd acc) ++ [x]) ++ l)
      by (rewrite <- app_assoc; reflexivity).
    apply Permutation_app_tail.
    pose proof (obj_set_values_append acc (S.sector x) x) as Hset.
    apply groupStep_Some in Hstep. destruct Hstep as [members [-> Hm]].
    destruct (obj_get acc (S.sector x)) as [m|].
    + subst members. exact Hset.
    + destruct Hm as [-> _]. exact Hset.
Qed.

(** X25: the grouping by sector that starts [calculateCorrelationClusters]
    throws exactly when some record's sector is the name of a member of
    [Object.prototype]; otherwise it loses and repeats no record: the
    groups have distinct sector names, the group of a sector is the list
    of the batch's records of that sector in batch order and is never
    empty, the groups together hold exactly the records of the batch, and
    [Object.entries] visits each group once. *)
Theorem X25_grouping_by_sector_is_a_partition (stocks : list S.StockData) :
  (CorrelationClusteringView.stocksBySector stocks = None <->
   Exists (fun stock => In (S.sector stock) Object_prototype_keys) stocks)
  /\ forall groups,
       CorrelationClusteringView.stocksBySector stocks = Some groups ->
       NoDup (map fst groups)
       /\ (forall s members,
             In (s, members) groups <-> members = membersOf s stocks /\ members <> [])
       /\ Permutation (concat (map snd groups)) stocks
       /\ Permutation (Object_entries groups) groups.
Proof.
  split.
  { rewrite stocksBySector_throws, !Exists_exists.
    split; intros [stock [Hin Hs]]; exists stock; (split; [exact Hin|]);
      apply inherited_spec, Hs. }
  intros groups Hg.
  split; [apply (stocksBySector_NoDup _ _ Hg)|]. split; [|split].
  - intros s members. split.
    + intros Hin. pose proof (stocksBySector_entry _ _ _ _ Hg Hin) as Hm. split; [exact Hm|].
      apply In_obj_get in Hin; [|apply (stocksBySector_NoDup _ _ Hg)].
      rewrite (stocksBySector_get _ _ s Hg) in Hin. rewrite Hm.
      destruct (membersOf s stocks); [discriminate | discriminate].
    + intros [-> Hne]. apply obj_get_In. rewrite (stocksBySector_get _ _ s Hg).
      destruct (membersOf s stocks); [congruence | reflexivity].
  - apply (groupFrom_values stocks [] groups Hg).
  - apply Object_entries_perm.
Qed.

(* ================================================================== *)
(** * CorrelationClusteringView: how clusters are numbered *)

Lemma clusterAt_name sector sectorStocks correlations i c :
  CorrelationClusteringView.clusterAt sector sectorStocks correlations i = Some c ->
  CorrelationClusteringView.name c
  = (sector ++ " Cluster "
       ++ string_of_nat (i / CorrelationClusteringView.clusterSize + 1))%string.
Proof.
  unfold CorrelationClusteringView.clusterAt.
  destruct (Nat.ltb _ 2); [discriminate|].
  destruct (CorrelationClusteringView.pairTotals _ _) as [totalCorr corrCount].
  intros [= <-]. reflexivity.
Qed.

Lemma clusterLoop_names fuel sector sectorStocks correlations k :
  map CorrelationClusteringView.name
      (CorrelationClusteringView.clusterLoop fuel sector sectorStocks correlations (5 * k))
  = map (fun number => (sector ++ " Cluster " ++ string_of_nat number)%string)
        (seq (k + 1)
             (length (CorrelationClusteringView.clusterLoop fuel sector sectorStocks
                        correlations (5 * k)))).
Proof.
  revert k. induction fuel as [|fuel IH]; intros k; [reflexivity|].
  cbn [CorrelationClusteringView.clusterLoop].
  destruct (Nat.ltb (5 * k) (length sectorStocks)) eqn:Hi; [|reflexivity].
  replace (5 * k + CorrelationClusteringView.clusterSize) with (5 * (k + 1))
    by (unfold CorrelationClusteringView.clusterSize; lia).
  destruct (CorrelationClusteringView.clusterAt sector sectorStocks correlations (5 * k))
    as [c|] eqn:Hc.
  - cbn [map length seq]. rewrite (clusterAt_name _ _ _ _ _ Hc), IH.
    unfold CorrelationClusteringView.clusterSize.
    replace (5 * k / 5) with k by (rewrite Nat.mul_comm, Nat.div_mul; lia).
    replace (S (k + 1)) with (k + 1 + 1) by lia. reflexivity.
  - apply clusterAt_None in Hc. unfold CorrelationClusteringView.clusterSize in Hc.
    rewrite length_firstn, length_skipn in Hc.
    destruct fuel as [|fuel']; [reflexivity|].
    cbn [CorrelationClusteringView.clusterLoop].
    replace (Nat.ltb (5 * (k + 1)) (length sectorStocks)) with false; [reflexivity|].
    symmetry. apply Nat.ltb_ge. lia.
Qed.

(** X26: within each sector the clusters are numbered consecutively from
    1: the names of the sector's clusters are "<sector> Cluster 1" up to
    "<sector> Cluster c", [c] being the number of its clusters. *)
Theorem X26_clusters_are_numbered_from_one (stocks : list S.StockData) (s : string) :
  let clusters :=
    clustersOf s (returned (CorrelationClusteringView.calculateCorrelationClusters stocks)) in
  Permutation (map CorrelationClusteringView.name clusters)
              (map (fun number => (s ++ " Cluster " ++ string_of_nat number)%string)
                   (seq 1 (length clusters))).
Proof.
  destruct (CorrelationClusteringView.calculateCorrelationClusters stocks) as [output|] eqn:Hret;
    cbn [returned]; [|apply Permutation_refl].
  set (clusters := clustersOf s output).
  pose proof (clustersOf_output s stocks output Hret) as Hperm.
  fold clusters in Hperm.
  rewrite (Permutation_length Hperm).
  eapply Permutation_trans; [apply Permutation_map, Hperm|].
  unfold CorrelationClusteringView.sectorClusters.
  pose proof (clusterLoop_names (length (membersOf s stocks)) s (membersOf s stocks)
                (CorrelationClusteringView.correlationTable (membersOf s stocks)) 0) as Hnames.
  cbn [Nat.mul Nat.add] in Hnames. rewrite Hnames. apply Permutation_refl.
Qed.

(* ================================================================== *)
(** * ValueGrowthView: [normalizeScore] *)

(** X27: [normalizeScore] leaves NaN entries out of the mean: inserting a
    NaN anywhere in the list does not change the result, a list of
    nothing but NaN scores 0 rather than NaN, and a single number [x]
    scores [(0 + x) * 100]. *)
Theorem X27_normalizeScore_skips_nan (metrics rest : list float) (x : float) :
  ValueGrowthView.normalizeScore (metrics ++ nan :: rest)
  = ValueGrowthView.normalizeScore (metrics ++ rest)
  /\ (Forall (fun m => is_nan m = true) metrics -> ValueGrowthView.normalizeScore metrics = 0%float)
  /\ (is_nan x = false -> ValueGrowthView.normalizeScore [x] = ((0 + x) * 100)%float).
Proof.
  unfold ValueGrowthView.normalizeScore. split; [|split].
  - rewrite !filter_app. reflexivity.
  - intros Hnan. rewrite filter_none; [reflexivity|].
    intros m Hm. rewrite Forall_forall in Hnan. rewrite (Hnan m Hm). reflexivity.
  - intros Hx. cbn [filter]. rewrite Hx. cbn [negb length Nat.eqb fold_left].
    change (float_of_nat 1) with 1%float. rewrite div_one. reflexivity.
Qed.
